(** * Max-flow / min-cut solvers of [network_flow.py]: a shallow embedding

    The Python module works on a [networkx.DiGraph] whose edges carry a
    [capacity] and (after preparation) a [flow] attribute.  The graph is a
    dictionary of dictionaries, both iterated in insertion order, and every
    solver mutates it in place.  The embedding keeps that shape:

    - a Python [dict] keyed by node labels is an association list in
      insertion order ([dict V]);
    - the graph is a [dict] of adjacency [dict]s of attribute records;
    - numbers are whole numbers, Python [int]s, modelled as [Z];
      [float('inf')] is the extra value [Inf] of [num].  The solvers use
      [+], [-], [min] and comparisons only, which are exact on whole
      numbers, and the embedding describes these runs (the scenarios of
      the specification, with capacities 5, 3 and 2, are such runs).  On
      floats with a fractional part every [+=] and [-=] rounds; such a
      run is not described here, and each property below that needs exact
      arithmetic says that it is stated for whole numbers;
    - code that mutates the graph runs in a state monad over the graph in
      which the state survives an exception, as it does in Python;
    - every [while] loop takes a fuel argument; a run whose loop has no
      fuel left ends in [OutOfFuel], which is no event of the program;
    - the two recursive functions, the [dfs] of Dinic and the [dfs] of the
      path decomposer, run on the call stack of the interpreter: they take
      the room that is left on it as an argument, and a call that finds
      none raises [RecursionError], as it does in Python. *)

From Stdlib Require Import ZArith List String Bool Lia Permutation.
Import ListNotations.

Local Open Scope Z_scope.
Local Open Scope list_scope.

Set Implicit Arguments.

(** ** Node labels and insertion-ordered dictionaries *)

Definition node := string.

Definition node_eqb (a b : node) : bool := String.eqb a b.

Fixpoint memb (x : node) (l : list node) : bool :=
  match l with
  | [] => false
  | y :: l' => if node_eqb x y then true else memb x l'
  end.

Section Dict.
Variable V : Type.

(** A Python [dict] with node keys: bindings in insertion order. *)
Definition dict := list (node * V).

(** [d[k]]; [None] stands for the [KeyError]. *)
Fixpoint lookup (k : node) (d : dict) : option V :=
  match d with
  | [] => None
  | (k', v) :: d' => if node_eqb k k' then Some v else lookup k d'
  end.

(** [d[k] = v]: an existing key keeps its position, a new key goes last. *)
Fixpoint assign (k : node) (v : V) (d : dict) : dict :=
  match d with
  | [] => [(k, v)]
  | (k', v') :: d' =>
      if node_eqb k k' then (k, v) :: d' else (k', v') :: assign k v d'
  end.

(** In-place change of the value stored under [k] (nothing when absent). *)
Fixpoint modify (k : node) (g : V -> V) (d : dict) : dict :=
  match d with
  | [] => []
  | (k', v') :: d' =>
      if node_eqb k k' then (k', g v') :: d' else (k', v') :: modify k g d'
  end.

Definition keys (d : dict) : list node := map fst d.

(** The same keys, each value changed by [g]. *)
Definition map_values (g : V -> V) (d : dict) : dict :=
  map (fun kv => (fst kv, g (snd kv))) d.

Definition mem (k : node) (d : dict) : bool :=
  match lookup k d with Some _ => true | None => false end.
End Dict.

(** ** The graph *)

(** Edge attributes.  [capacity] is set when the graph is built; [flow] may
    still be missing before [prepare_graph]. *)
Record attrs := mkAttrs { capacity : Z; flow : option Z }.

Abbreviation adjacency := (dict attrs).

(** [G._adj]: node -> (successor -> attributes). *)
Definition graph := dict adjacency.

Definition nodes (G : graph) : list node := keys G.

(** [G[u]]. *)
Definition adj (G : graph) (u : node) : option adjacency := lookup u G.

(** [G[u][v]]. *)
Definition get_edge (G : graph) (u v : node) : option attrs :=
  match lookup u G with
  | Some a => lookup v a
  | None => None
  end.

(** [G.has_edge(u, v)]. *)
Definition has_edge (G : graph) (u v : node) : bool :=
  match get_edge G u v with Some _ => true | None => false end.

(** [G.edges()]: nodes in insertion order, successors in insertion order. *)
Definition edges (G : graph) : list (node * node) :=
  flat_map (fun ua => map (fun v => (fst ua, v)) (keys (snd ua))) G.

(** [G.add_node(u)] as [add_edge] uses it. *)
Definition add_node (u : node) (G : graph) : graph :=
  if mem u G then G else G ++ [(u, [])].

(** [G.add_edge(u, v, capacity=c, flow=f)]: both end points become nodes
    (tail first), then the attribute dictionary of the edge is updated. *)
Definition add_edge (u v : node) (a : attrs) (G : graph) : graph :=
  modify u (assign v a) (add_node v (add_node u G)).

(** Change of the attributes of an existing edge. *)
Definition modify_edge (u v : node) (g : attrs -> attrs) (G : graph) : graph :=
  modify u (modify v g) G.

Definition set_flow (f : Z) (a : attrs) : attrs :=
  mkAttrs (capacity a) (Some f).

(** [G[u][v].setdefault('flow', 0)]. *)
Definition setdefault_flow (a : attrs) : attrs :=
  match flow a with
  | Some _ => a
  | None => set_flow 0 a
  end.

(** [G.predecessors(t)].  networkx iterates its [_pred] table, in the order
    the edges into [t] were added; the only use below is a sum, which does
    not see the order, so the predecessors are listed in node order. *)
Definition predecessors (G : graph) (t : node) : list node :=
  filter (fun u => has_edge G u t) (nodes G).

(** ** [prepare_graph] *)

(** One turn of the loop over the snapshot [list(G.edges())].  The edge
    [(u, v)] comes from the snapshot and edges are never removed, so
    [G[u][v]] is there. *)
Definition prepare_step (G : graph) (e : node * node) : graph :=
  let (u, v) := e in
  let G1 := modify_edge u v setdefault_flow G in
  if has_edge G1 v u
  then modify_edge v u setdefault_flow G1
  else add_edge v u (mkAttrs 0 (Some 0)) G1.

Definition prepare_graph (G : graph) : graph :=
  fold_left prepare_step (edges G) G.

(** ** Numbers with [float('inf')] *)

Inductive num := Fin (z : Z) | Inf.

Definition num_min (a b : num) : num :=
  match a, b with
  | Fin x, Fin y => Fin (Z.min x y)
  | Fin x, Inf => Fin x
  | Inf, b => b
  end.

Definition num_add (a b : num) : num :=
  match a, b with
  | Fin x, Fin y => Fin (x + y)
  | _, _ => Inf
  end.

(** [a <= 0] and [a > 0]. *)
Definition num_nonpos (a : num) : bool :=
  match a with Fin x => x <=? 0 | Inf => false end.

Definition num_pos (a : num) : bool := negb (num_nonpos a).

(** ** Results and the graph-state monad *)

Inductive error := KeyError | NetworkXError | RecursionError.

(** [Unmodelled]: the run would add [float('inf')] to an edge flow, which
    the integer flows of this embedding do not represent. *)
Inductive result (A : Type) :=
| Ok (a : A)
| Raise (e : error)
| OutOfFuel
| Unmodelled.

Arguments Ok {A} a.
Arguments Raise {A} e.
Arguments OutOfFuel {A}.
Arguments Unmodelled {A}.

Definition rbind {A B} (r : result A) (k : A -> result B) : result B :=
  match r with
  | Ok a => k a
  | Raise e => Raise e
  | OutOfFuel => OutOfFuel
  | Unmodelled => Unmodelled
  end.

Definition of_option {A} (o : option A) : result A :=
  match o with Some a => Ok a | None => Raise KeyError end.

(** A computation on the shared graph: the graph in its last state comes
    back also when the computation raises. *)
Definition M (A : Type) := graph -> graph * result A.

Definition ret {A} (a : A) : M A := fun G => (G, Ok a).

Definition bind {A B} (m : M A) (k : A -> M B) : M B :=
  fun G =>
    match m G with
    | (G1, Ok a) => k a G1
    | (G1, Raise e) => (G1, Raise e)
    | (G1, OutOfFuel) => (G1, OutOfFuel)
    | (G1, Unmodelled) => (G1, Unmodelled)
    end.

(** Read-only access to the graph. *)
Definition read {A} (f : graph -> result A) : M A := fun G => (G, f G).

(** In-place update of the graph. *)
Definition update (f : graph -> graph) : M unit := fun G => (f G, Ok tt).

Definition out_of_fuel {A} : M A := fun G => (G, OutOfFuel).

Declare Scope flow_scope.
Delimit Scope flow_scope with flow.

Notation "'let*' x ':=' r 'in' k" := (rbind r (fun x => k))
  (at level 10, x pattern, r at level 100, k at level 200) : flow_scope.
Notation "x <- m ;; k" := (bind m (fun x => k))
  (at level 100, m at next level, right associativity) : flow_scope.
Notation "' p <- m ;; k" := (bind m (fun x => match x with p => k end))
  (at level 100, p pattern, m at next level, right associativity) : flow_scope.
Notation "m ;; k" := (bind m (fun _ => k))
  (at level 100, right associativity) : flow_scope.

Local Open Scope flow_scope.

(** [for x in l: body(x)]. *)
Fixpoint for_each {A} (l : list A) (body : A -> M unit) : M unit :=
  match l with
  | [] => ret tt
  | x :: l' => body x ;; for_each l' body
  end.

(** ** Reading and changing flows *)

(** [G[u][v]['capacity']]. *)
Definition capacity_of (G : graph) (u v : node) : result Z :=
  let* a := of_option (get_edge G u v) in Ok (capacity a).

(** [G[u][v]['flow']]. *)
Definition flow_of (G : graph) (u v : node) : result Z :=
  let* a := of_option (get_edge G u v) in of_option (flow a).

(** [G[u][v]['capacity'] - G[u][v]['flow']]. *)
Definition residual (G : graph) (u v : node) : result Z :=
  let* c := capacity_of G u v in
  let* f := flow_of G u v in
  Ok (c - f).

(** [G[u][v]['flow'] += d]. *)
Definition add_flow (u v : node) (d : Z) : M unit :=
  f <- read (fun G => flow_of G u v) ;;
  update (modify_edge u v (set_flow (f + d))).

(** [G[u][v]['flow'] = f]. *)
Definition assign_flow (u v : node) (f : Z) : M unit :=
  _ <- read (fun G => of_option (get_edge G u v)) ;;
  update (modify_edge u v (set_flow f)).

(** The two statements every solver uses to move flow along an edge:
    [G[u][v]['flow'] += d; G[v][u]['flow'] -= d]. *)
Definition push_flow (u v : node) (d : Z) : M unit :=
  add_flow u v d ;; add_flow v u (- d).

Definition push_flow_num (u v : node) (d : num) : M unit :=
  match d with
  | Fin z => push_flow u v z
  | Inf => fun G => (G, Unmodelled)
  end.

(** ** Edmonds-Karp *)

(** The [for v in G[u]] loop of [bfs].  The result is [true] when the loop
    returned from [bfs] at the sink; the other components are [visited],
    [q] and [parent] as the loop leaves them. *)
Fixpoint bfs_for (t u : node) (nbrs : adjacency)
    (visited q : list node) (parent : dict node)
  : result (bool * list node * list node * dict node) :=
  match nbrs with
  | [] => Ok (false, visited, q, parent)
  | (v, a) :: rest =>
      let* f := of_option (flow a) in
      if negb (memb v visited) && (capacity a - f >? 0) then
        let visited' := visited ++ [v] in
        let parent' := assign v u parent in
        if node_eqb v t then Ok (true, visited', q, parent')
        else bfs_for t u rest visited' (q ++ [v]) parent'
      else bfs_for t u rest visited q parent
  end.

(** The [while q] loop of [bfs]. *)
Fixpoint bfs_while (fuel : nat) (G : graph) (t : node)
    (visited q : list node) (parent : dict node)
  : result (bool * dict node) :=
  match fuel with
  | O => OutOfFuel
  | S k =>
      match q with
      | [] => Ok (false, parent)
      | u :: q' =>
          let* nbrs := of_option (adj G u) in
          let* r := bfs_for t u nbrs visited q' parent in
          match r with
          | (true, _, _, parent') => Ok (true, parent')
          | (false, visited', q'', parent') =>
              bfs_while k G t visited' q'' parent'
          end
      end
  end.

(** [bfs(G, s, t, parent)]: the answer and the [parent] dictionary, which
    the caller sees changed. *)
Definition bfs (fuel : nat) (G : graph) (s t : node) (parent : dict node)
  : result (bool * dict node) :=
  bfs_while fuel G t [s] [s] parent.

(** The [while v != s] loop that walks the parents back from the sink. *)
Fixpoint walk_back (fuel : nat) (G : graph) (s : node) (parent : dict node)
    (v : node) (path_flow : num) (path : list (node * node))
  : result (num * list (node * node)) :=
  match fuel with
  | O => OutOfFuel
  | S k =>
      if node_eqb v s then Ok (path_flow, path)
      else
        let* u := of_option (lookup v parent) in
        let* r := residual G u v in
        walk_back k G s parent u (num_min path_flow (Fin r)) ((u, v) :: path)
  end.

(** One augmentation step: the path, the amount, the running total. *)
Definition step := (list (node * node) * num * num)%type.

(** The [while bfs(G, s, t, parent)] loop; [n] is the fuel of the loops
    inside one turn. *)
Fixpoint ek_while (fuel n : nat) (s t : node) (parent : dict node)
    (max_flow : num) (steps : list step) : M (list step * num) :=
  match fuel with
  | O => out_of_fuel
  | S k =>
      ' (found, parent1) <- read (fun G => bfs n G s t parent) ;;
      if found : bool then
        ' (path_flow, path) <-
            read (fun G => walk_back n G s parent1 t Inf []) ;;
        for_each path (fun e => push_flow_num (fst e) (snd e) path_flow) ;;
        let max_flow' := num_add max_flow path_flow in
        ek_while k n s t [] max_flow' (steps ++ [(path, path_flow, max_flow')])
      else ret (steps, max_flow)
  end.

(** [for u, v in G.edges(): G[u][v]['flow'] = 0]. *)
Definition reset_flows (G : graph) : graph :=
  map_values (map_values (set_flow 0)) G.

Definition edmonds_karp_steps (fuel : nat) (s t : node)
  : M (list step * num) :=
  update prepare_graph ;;
  update reset_flows ;;
  ek_while fuel fuel s t [] (Fin 0) [].

(** ** Dinic *)

(** The [for v in G[u]] loop of [bfs_level]. *)
Fixpoint bfs_level_for (u : node) (nbrs : adjacency)
    (level : dict Z) (q : list node) : result (dict Z * list node) :=
  match nbrs with
  | [] => Ok (level, q)
  | (v, a) :: rest =>
      let* lv := of_option (lookup v level) in
      if lv <? 0 then
        let* f := of_option (flow a) in
        if capacity a - f >? 0 then
          let* lu := of_option (lookup u level) in
          bfs_level_for u rest (assign v (lu + 1) level) (q ++ [v])
        else bfs_level_for u rest level q
      else bfs_level_for u rest level q
  end.

Fixpoint bfs_level_while (fuel : nat) (G : graph)
    (level : dict Z) (q : list node) : result (dict Z) :=
  match fuel with
  | O => OutOfFuel
  | S k =>
      match q with
      | [] => Ok level
      | u :: q' =>
          let* nbrs := of_option (adj G u) in
          let* r := bfs_level_for u nbrs level q' in
          bfs_level_while k G (fst r) (snd r)
      end
  end.

Definition bfs_level (fuel : nat) (s : node) (G : graph) : result (dict Z) :=
  let level := map (fun x => (x, -1)) (nodes G) in
  bfs_level_while fuel G (assign s 0 level) [s].

(** [dfs(u, pushed, t, level, it)].  The graph and the dictionary [it] are
    shared by all calls; [it] is threaded through.  One turn of the
    [while it[u] < len(G[u])] loop that does not return is followed by the
    function entered again at the same [u], which is the next turn: the
    test [u == t] fails again and the loop state lives in [it] and [G].

    The function calls itself, so it runs on the call stack of the
    interpreter: [depth] is the number of nested calls whose body the
    interpreter still has room for.  A call that gets past [u == t] with
    no room left raises [RecursionError] at its first [G[u]], before it
    has changed anything; the next turn of the loop runs in the same
    frame. *)
Fixpoint dfs (fuel depth : nat) (t : node) (level : dict Z)
    (u : node) (pushed : num) (it : dict nat) : M (num * dict nat) :=
  match fuel with
  | O => out_of_fuel
  | S k =>
      if node_eqb u t then ret (pushed, it)
      else
        match depth with
        | O => read (fun _ => Raise RecursionError)
        | S d =>
            iu <- read (fun _ => of_option (lookup u it)) ;;
            nbrs <- read (fun G => of_option (adj G u)) ;;
            if (iu <? List.length nbrs)%nat then
              v <- read (fun _ => of_option (nth_error (keys nbrs) iu)) ;;
              let it1 := assign u (S iu) it in
              lv <- read (fun _ => of_option (lookup v level)) ;;
              lu <- read (fun _ => of_option (lookup u level)) ;;
              if lv =? lu + 1 then
                r <- read (fun G => residual G u v) ;;
                if r >? 0 then
                  ' (fl, it2) <-
                      dfs k d t level v (num_min pushed (Fin r)) it1 ;;
                  if num_pos fl then
                    push_flow_num u v fl ;;
                    ret (fl, it2)
                  else dfs k depth t level u pushed it2
                else dfs k depth t level u pushed it1
              else dfs k depth t level u pushed it1
            else ret (Fin 0, it)
        end
  end.

(** The inner [while True] loop: one blocking flow.  [limit] is the room
    on the call stack that every search from the source starts with. *)
Fixpoint dinic_blocking (fuel n limit : nat) (s t : node) (level : dict Z)
    (it : dict nat) (max_flow : num) : M num :=
  match fuel with
  | O => out_of_fuel
  | S k =>
      ' (pushed, it1) <- dfs n limit t level s Inf it ;;
      if num_nonpos pushed then ret max_flow
      else dinic_blocking k n limit s t level it1 (num_add max_flow pushed)
  end.

(** The outer [while True] loop. *)
Fixpoint dinic_while (fuel n limit : nat) (s t : node) (max_flow : num)
  : M num :=
  match fuel with
  | O => out_of_fuel
  | S k =>
      level <- read (bfs_level n s) ;;
      lt <- read (fun _ => of_option (lookup t level)) ;;
      if lt <? 0 then ret max_flow
      else
        it <- read (fun G => Ok (map (fun x => (x, O)) (nodes G))) ;;
        max_flow1 <- dinic_blocking n n limit s t level it max_flow ;;
        dinic_while k n limit s t max_flow1
  end.

(** [dinic_apply(G, s, t)], run with [fuel] for its loops and with room
    for [limit] nested calls of [dfs] on the call stack. *)
Definition dinic_apply (fuel limit : nat) (s t : node) : M num :=
  update prepare_graph ;;
  dinic_while fuel fuel limit s t (Fin 0).

(** ** Push-relabel *)

(** One successful call of [push], as an observer would log it: the edge,
    the heights of its end points at that moment, the excess of the tail
    and the residual capacity before the push, and the amount sent. *)
Record push_event := mkPush {
  pe_tail : node;
  pe_head : node;
  pe_height_tail : option Z;
  pe_height_head : option Z;
  pe_excess : Z;
  pe_residual : Z;
  pe_send : Z
}.

(** The local variables of [push_relabel_apply] that its closures share.
    [trace] is the log of the pushes; the code does not have it and nothing
    reads it. *)
Record pr_state := mkPR {
  height : dict Z;
  excess : dict Z;
  active : list node;
  trace : list push_event
}.

(** [push(u, v)]. *)
Definition push (u v : node) (st : pr_state) : M (bool * pr_state) :=
  eu <- read (fun _ => of_option (lookup u (excess st))) ;;
  r <- read (fun G => residual G u v) ;;
  let send := Z.min eu r in
  if send <=? 0 then ret (false, st)
  else
    push_flow u v send ;;
    eu1 <- read (fun _ => of_option (lookup u (excess st))) ;;
    let ex1 := assign u (eu1 - send) (excess st) in
    ev <- read (fun _ => of_option (lookup v ex1)) ;;
    let ex2 := assign v (ev + send) ex1 in
    let ev := mkPush u v (lookup u (height st)) (lookup v (height st))
                     eu r send in
    ret (true, mkPR (height st) ex2 (active st) (trace st ++ [ev])).

(** The [for v in G[u]] loop of [relabel]. *)
Fixpoint relabel_for (G : graph) (u : node) (vs : list node)
    (height : dict Z) (min_h : num) : result num :=
  match vs with
  | [] => Ok min_h
  | v :: rest =>
      let* r := residual G u v in
      if r >? 0 then
        let* hv := of_option (lookup v height) in
        relabel_for G u rest height (num_min min_h (Fin hv))
      else relabel_for G u rest height min_h
  end.

(** [relabel(u)]. *)
Definition relabel (u : node) (st : pr_state) : M pr_state :=
  nbrs <- read (fun G => of_option (adj G u)) ;;
  min_h <- read (fun G => relabel_for G u (keys nbrs) (height st) Inf) ;;
  match min_h with
  | Fin m => ret (mkPR (assign u (m + 1) (height st)) (excess st)
                       (active st) (trace st))
  | Inf => ret st
  end.

(** The [for v in G[u]] loop of the main loop, with its [break].  The flag
    [pushed_something] is written and never read; it is left out. *)
Fixpoint discharge_for (s t u : node) (vs : list node) (st : pr_state)
  : M pr_state :=
  match vs with
  | [] => ret st
  | v :: rest =>
      ' (ok, st1) <- push u v st ;;
      if ok : bool then
        st2 <-
          (if negb (node_eqb v s || node_eqb v t) then
             ev <- read (fun _ => of_option (lookup v (excess st1))) ;;
             if (ev >? 0) && negb (memb v (active st1))
             then ret (mkPR (height st1) (excess st1)
                            (active st1 ++ [v]) (trace st1))
             else ret st1
           else ret st1) ;;
        eu <- read (fun _ => of_option (lookup u (excess st2))) ;;
        if eu =? 0 then ret st2
        else discharge_for s t u rest st2
      else discharge_for s t u rest st1
  end.

(** [active.insert(0, active.pop(i))]. *)
Definition move_to_front (i : nat) (l : list node) : list node :=
  match nth_error l i with
  | Some x => x :: firstn i l ++ skipn (S i) l
  | None => l
  end.

(** The [while i < len(active)] loop. *)
Fixpoint pr_while (fuel : nat) (s t : node) (i : nat) (st : pr_state)
  : M pr_state :=
  match fuel with
  | O => out_of_fuel
  | S k =>
      if (i <? List.length (active st))%nat then
        u <- read (fun _ => of_option (nth_error (active st) i)) ;;
        old_h <- read (fun _ => of_option (lookup u (height st))) ;;
        nbrs <- read (fun G => of_option (adj G u)) ;;
        st1 <- discharge_for s t u (keys nbrs) st ;;
        eu <- read (fun _ => of_option (lookup u (excess st1))) ;;
        st2 <- (if eu >? 0 then relabel u st1 else ret st1) ;;
        hu <- read (fun _ => of_option (lookup u (height st2))) ;;
        if hu >? old_h then
          pr_while k s t O
            (mkPR (height st2) (excess st2)
                  (move_to_front i (active st2)) (trace st2))
        else pr_while k s t (S i) st2
      else ret st
  end.

(** The loop that saturates the edges leaving the source. *)
Fixpoint saturate_for (s : node) (vs : list node) (excess : dict Z)
  : M (dict Z) :=
  match vs with
  | [] => ret excess
  | v :: rest =>
      cap <- read (fun G => capacity_of G s v) ;;
      assign_flow s v cap ;;
      add_flow v s (- cap) ;;
      ev <- read (fun _ => of_option (lookup v excess)) ;;
      saturate_for s rest (assign v (ev + cap) excess)
  end.

(** [[u for u in G.nodes() if u not in (s, t) and excess[u] > 0]]. *)
Fixpoint initial_active (s t : node) (us : list node) (excess : dict Z)
  : result (list node) :=
  match us with
  | [] => Ok []
  | u :: rest =>
      if negb (node_eqb u s || node_eqb u t) then
        let* eu := of_option (lookup u excess) in
        let* l := initial_active s t rest excess in
        Ok (if eu >? 0 then u :: l else l)
      else initial_active s t rest excess
  end.

(** The closing loop over [G.predecessors(t)]. *)
Fixpoint inflow_for (G : graph) (t : node) (us : list node) (acc : Z)
  : result Z :=
  match us with
  | [] => Ok acc
  | u :: rest =>
      let* f := flow_of G u t in
      inflow_for G t rest (if f >? 0 then acc + f else acc)
  end.

Definition flow_into (t : node) (G : graph) : result Z :=
  if mem t G then inflow_for G t (predecessors G t) 0
  else Raise NetworkXError.

(** [push_relabel_apply] together with the log of its pushes. *)
Definition push_relabel_run (fuel : nat) (s t : node)
  : M (Z * list push_event) :=
  update prepare_graph ;;
  ns <- read (fun G => Ok (nodes G)) ;;
  let n := Z.of_nat (List.length ns) in
  let height0 := assign s n (map (fun u => (u, 0)) ns) in
  let excess0 := map (fun u => (u, 0)) ns in
  nbrs <- read (fun G => of_option (adj G s)) ;;
  excess1 <- saturate_for s (keys nbrs) excess0 ;;
  act <- read (fun _ => initial_active s t ns excess1) ;;
  st <- pr_while fuel s t O (mkPR height0 excess1 act []) ;;
  total <- read (flow_into t) ;;
  ret (total, trace st).

Definition push_relabel_apply (fuel : nat) (s t : node) : M Z :=
  r <- push_relabel_run fuel s t ;;
  ret (fst r).

(** ** Min-cut report *)

(** The [for v in G[u]] loop that pushes the residual successors of [u].
    The stack is kept with its top first, so [stack.append(v)] is a cons. *)
Fixpoint reach_for (nbrs : adjacency) (stack : list node)
  : result (list node) :=
  match nbrs with
  | [] => Ok stack
  | (v, a) :: rest =>
      let* f := of_option (flow a) in
      if capacity a - f >? 0 then reach_for rest (v :: stack)
      else reach_for rest stack
  end.

(** The [while stack] loop; [visited] is a set, kept in insertion order. *)
Fixpoint reach_while (fuel : nat) (G : graph) (visited stack : list node)
  : result (list node) :=
  match fuel with
  | O => OutOfFuel
  | S k =>
      match stack with
      | [] => Ok visited
      | u :: stack' =>
          if memb u visited then reach_while k G visited stack'
          else
            let* nbrs := of_option (adj G u) in
            let* stack'' := reach_for nbrs stack' in
            reach_while k G (visited ++ [u]) stack''
      end
  end.

Definition cut_edge := (node * node * Z)%type.

(** The [for v in G[u]] loop that collects the cut edges leaving [u]. *)
Definition cut_of (visited : list node) (u : node) (nbrs : adjacency)
  : list cut_edge :=
  map (fun va => (u, fst va, capacity (snd va)))
      (filter (fun va => negb (memb (fst va) visited) && (capacity (snd va) >? 0))
              nbrs).

(** The [for u in visited] loop. *)
Fixpoint cut_for (G : graph) (visited : list node) (us : list node)
  : result (list cut_edge) :=
  match us with
  | [] => Ok []
  | u :: rest =>
      let* nbrs := of_option (adj G u) in
      let* cut := cut_for G visited rest in
      Ok (cut_of visited u nbrs ++ cut)
  end.

(** [min_cut_report(G, s)].  Python iterates the set [visited] in an order
    of its own; [set_order] is that order, any rearrangement of the
    elements. *)
Definition min_cut_report (set_order : list node -> list node)
    (fuel : nat) (G : graph) (s : node) : result (list cut_edge) :=
  let* visited := reach_while fuel G [] [s] in
  cut_for G visited (set_order visited).

(** ** Flow paths *)

Definition flow_path := (list node * Z)%type.

(** [dfs(u, path, f)] of [extract_flow_paths]; the list [paths] of the
    enclosing function is threaded through.  The inner [fix] is the loop
    over the snapshot [list(G[u])].

    The function calls itself once for every edge it follows, and no loop
    of it needs fuel: its one resource is the call stack.  [limit] is the
    number of nested calls whose body the interpreter still has room for;
    a call that gets past [u == t] with no room left raises
    [RecursionError] at its [G[u]], after its caller has taken the flow
    off the edge that led to it. *)
Fixpoint paths_dfs (limit : nat) (t : node) (u : node) (path : list node)
    (f : Z) (paths : list flow_path) : M (list flow_path) :=
  if node_eqb u t then ret (paths ++ [(path, f)])
  else
    match limit with
    | O => read (fun _ => Raise RecursionError)
    | S k =>
        nbrs <- read (fun G => of_option (adj G u)) ;;
        (fix loop (vs : list node) (paths : list flow_path)
           : M (list flow_path) :=
           match vs with
           | [] => ret paths
           | v :: rest =>
               fl <- read (fun G => flow_of G u v) ;;
               if fl >? 0 then
                 add_flow u v (- fl) ;;
                 paths1 <- paths_dfs k t v (path ++ [v]) (Z.min f fl) paths ;;
                 loop rest paths1
               else loop rest paths
           end) (keys nbrs) paths
    end.

(** The loop over [list(G[s])] at the bottom of [extract_flow_paths]. *)
Fixpoint paths_for (limit : nat) (s t : node) (vs : list node)
    (paths : list flow_path) : M (list flow_path) :=
  match vs with
  | [] => ret paths
  | v :: rest =>
      fl <- read (fun G => flow_of G s v) ;;
      if fl >? 0 then
        add_flow s v (- fl) ;;
        paths1 <- paths_dfs limit t v [s; v] fl paths ;;
        paths_for limit s t rest paths1
      else paths_for limit s t rest paths
  end.

(** [extract_flow_paths(G, s, t)], run with room for [limit] nested calls
    of its [dfs] on the call stack. *)
Definition extract_flow_paths (limit : nat) (s t : node)
  : M (list flow_path) :=
  update prepare_graph ;;
  nbrs <- read (fun G => of_option (adj G s)) ;;
  paths_for limit s t (keys nbrs) [].

(** ** Example networks *)

Local Open Scope string_scope.

(** Built as [app.py] builds its graph: [G.add_edge(u, v, capacity=c, flow=0)]
    for each record, in order. *)
Definition build (records : list (node * node * Z)) : graph :=
  fold_left (fun G r => add_edge (fst (fst r)) (snd (fst r))
                                 (mkAttrs (snd r) (Some 0)) G)
            records [].

Definition line_network : graph :=
  build [("S", "A", 5); ("A", "T", 3)].

Definition cross_network : graph :=
  build [("S", "A", 1); ("S", "B", 1); ("B", "A", 1); ("A", "T", 2)].

Definition merge_network : graph :=
  build [("S", "A", 2); ("S", "B", 3); ("A", "C", 2); ("B", "C", 3);
         ("C", "T", 5)].

Local Close Scope string_scope.

(** ** Vocabulary of the statements *)

(** What a [DiGraph] object guarantees: node keys and successor keys are
    unique (they are dictionary keys) and every successor is a node. *)
Definition wf_graph (G : graph) : Prop :=
  NoDup (nodes G) /\
  (forall u a, In (u, a) G -> NoDup (keys a)) /\
  (forall u a v, In (u, a) G -> In v (keys a) -> In v (nodes G)).

(** A decision procedure for [wf_graph]. *)
Fixpoint nodupb (l : list node) : bool :=
  match l with
  | [] => true
  | x :: l' => negb (memb x l') && nodupb l'
  end.

Definition wf_graphb (G : graph) : bool :=
  nodupb (nodes G) &&
  forallb (fun ua => nodupb (keys (snd ua)) &&
                     forallb (fun v => memb v (nodes G)) (keys (snd ua))) G.

(** Every edge has its [flow] attribute. *)
Definition flows_set (G : graph) : Prop :=
  forall u v a, get_edge G u v = Some a -> flow a <> None.

(** A decision procedure for [flows_set]. *)
Definition flows_setb (G : graph) : bool :=
  forallb (fun ua => forallb (fun va => match flow (snd va) with
                                        | Some _ => true
                                        | None => false
                                        end) (snd ua)) G.

(** No edge carries flow yet: the attribute is missing or 0. *)
Definition fresh_flows (G : graph) : Prop :=
  forall u v a, get_edge G u v = Some a -> flow a = None \/ flow a = Some 0.

(** [flow(u,v) = - flow(v,u)] on every edge, the reverse edge being there. *)
Definition skew_symmetric (G : graph) : Prop :=
  forall u v a, get_edge G u v = Some a ->
    exists b f, get_edge G v u = Some b /\ flow a = Some f /\ flow b = Some (- f).

(** An edge of the residual graph. *)
Definition res_edge (G : graph) (u v : node) : Prop :=
  exists a f, get_edge G u v = Some a /\ flow a = Some f /\ capacity a - f > 0.

(** Reachability in the residual graph. *)
Inductive reachable (G : graph) (s : node) : node -> Prop :=
| reach_refl : reachable G s s
| reach_step : forall u v, reachable G s u -> res_edge G u v -> reachable G s v.

(** The graph with its flow values forgotten. *)
Definition erase_flows (G : graph) : graph :=
  map_values (map_values (fun a => mkAttrs (capacity a) None)) G.

(** Sum of the amounts of a list of flow paths. *)
Definition total_amount (paths : list flow_path) : Z :=
  fold_right (fun p acc => snd p + acc) 0 paths.

(** A run that ends in an error and leaves the graph as it was. *)
Definition rejected_untouched {A} (out : graph * result A) (G : graph) : Prop :=
  exists e, out = (G, Raise e).

(** An edge is settled when its flow is set and its reverse edge exists. *)
Definition settled (G : graph) (u v : node) : Prop :=
  (forall a, get_edge G u v = Some a -> flow a <> None) /\
  has_edge G v u = true.

(** The computation [m] leaves the graph in a state where [P] holds
    whenever it starts in one, however it ends. *)
Definition keeps (P : graph -> Prop) {A} (m : M A) : Prop :=
  forall G, P G -> P (fst (m G)).

(** The measure that bounds the reachability loop of [min_cut_report]:
    one plus the out-degree, summed over the nodes not yet visited. *)
Definition budget (G : graph) (visited : list node) : nat :=
  fold_right
    (fun ua acc =>
       ((if memb (fst ua) visited then O else S (List.length (snd ua))) + acc)%nat)
    O G.

(** The measure that bounds the level search of Dinic: the number of
    nodes that have no level yet. *)
Definition unlabelled (level : dict Z) : nat :=
  List.length (filter (fun kv => snd kv <? 0) level).

(** ** Vocabulary of the further properties *)

(** No edge carries more flow than its capacity. *)
Definition capacity_respected (G : graph) : Prop :=
  forall u v a f, get_edge G u v = Some a -> flow a = Some f -> f <= capacity a.

(** No capacity is negative. *)
Definition capacities_nonneg (G : graph) : Prop :=
  forall u v a, get_edge G u v = Some a -> 0 <= capacity a.

(** [a <= b] on numbers with [float('inf')]. *)
Definition num_le (a b : num) : Prop :=
  match a, b with
  | Fin x, Fin y => x <= y
  | _, Inf => True
  | Inf, Fin _ => False
  end.

(** The capacity bound together with what it rests on. *)
Definition within_capacity (G : graph) : Prop :=
  capacity_respected G /\ capacities_nonneg G.

(** What one call [dfs(u, pushed, ...)] of Dinic guarantees, started in
    [G] and ended in [out]: the capacity bound, a returned amount of at most
    [pushed], and no change on an edge that has an end point on a level
    below that of [u]. *)
Definition dfs_post (level : dict Z) (u : node) (pushed : num) (G : graph)
    (out : graph * result (num * dict nat)) : Prop :=
  within_capacity (fst out) /\
  (forall fl it', snd out = Ok (fl, it') -> num_le fl pushed) /\
  (forall x lx lu, lookup x level = Some lx -> lookup u level = Some lu ->
                   lx < lu ->
                   forall y, get_edge (fst out) x y = get_edge G x y /\
                             get_edge (fst out) y x = get_edge G y x).

(** The position of the first occurrence of [x] in [l]. *)
Fixpoint index_of (x : node) (l : list node) : option nat :=
  match l with
  | [] => None
  | y :: l' => if node_eqb x y then Some O else option_map S (index_of x l')
  end.

(** [path] is a sequence of edges, each starting where the one before it
    ends, that leads from [a] to [b]. *)
Fixpoint is_chain (a : node) (path : list (node * node)) (b : node) : Prop :=
  match path with
  | [] => a = b
  | (u, v) :: rest => u = a /\ is_chain v rest b
  end.

(** The nodes along [path] carry strictly increasing ranks, from [lo] on;
    such a path visits no node twice. *)
Fixpoint rising (rk : node -> option nat) (lo : nat)
    (path : list (node * node)) : Prop :=
  match path with
  | [] => True
  | (x, y) :: rest =>
      exists i j, rk x = Some i /\ rk y = Some j /\
                  (lo <= i)%nat /\ (i < j)%nat /\ rising rk j rest
  end.

(** What the search of Edmonds-Karp keeps true of its [parent] table:
    the parent of a node was visited before the node, over an edge with
    positive residual capacity. *)
Definition parent_ok (G : graph) (visited : list node) (parent : dict node)
  : Prop :=
  forall v u, lookup v parent = Some u ->
    (exists i j, index_of u visited = Some i /\ index_of v visited = Some j /\
                 (i < j)%nat) /\
    (exists r, residual G u v = Ok r /\ r > 0).

(** The step list of Edmonds-Karp, read from the running total [acc] on:
    every step pushes a positive amount along a non-empty chain of edges
    from [s] to [t], and records the total so far; [final] is the last
    total. *)
Fixpoint trace_ok (s t : node) (acc : Z) (steps : list step) (final : Z)
  : Prop :=
  match steps with
  | [] => final = acc
  | (path, amount, total) :: rest =>
      exists d, amount = Fin d /\ d > 0 /\ total = Fin (acc + d) /\
                path <> [] /\ is_chain s path t /\
                trace_ok s t (acc + d) rest final
  end.

(** Consecutive nodes of [p] are joined by edges of [G]. *)
Fixpoint walk (G : graph) (p : list node) : Prop :=
  match p with
  | x :: rest =>
      match rest with
      | y :: _ => has_edge G x y = true /\ walk G rest
      | [] => True
      end
  | [] => True
  end.

(** A reported flow path: a walk of the graph from [s] to [t] with a
    positive amount. *)
Definition flow_path_ok (G : graph) (s t : node) (fp : flow_path) : Prop :=
  (exists mid, fst fp = s :: mid ++ [t]) /\ walk G (fst fp) /\ snd fp > 0.

(** The sum of the positive flows on the edges into [t]: what
    [push_relabel_apply] returns and [app.py] shows as the net positive
    inflow. *)
Definition positive_inflow (G : graph) (t : node) : Z :=
  fold_right
    (fun ua acc =>
       match lookup t (snd ua) with
       | Some a => match flow a with Some f => Z.max 0 f | None => 0 end
       | None => 0
       end + acc)
    0 G.

(** [G] is [G0] with some positive flows taken down to 0. *)
Definition drained (G0 G : graph) : Prop :=
  forall u v a', get_edge G u v = Some a' ->
    exists a, get_edge G0 u v = Some a /\ capacity a' = capacity a /\
              (flow a' = flow a \/
               exists f, flow a = Some f /\ f > 0 /\ flow a' = Some 0).

(** A test on the attributes of every edge, entry by entry. *)
Definition attrs_all (p : attrs -> bool) (G : graph) : bool :=
  forallb (fun ua => forallb (fun va => p (snd va)) (snd ua)) G.

(** ** Vocabulary of the cut properties *)

(** The flow an edge carries, 0 while the attribute is missing. *)
Definition flow_or_zero (a : attrs) : Z :=
  match flow a with Some f => f | None => 0 end.

(** The sum of [w] over the entries of [nbrs] that lead out of [V]. *)
Definition out_sum (w : attrs -> Z) (V : list node) (nbrs : adjacency) : Z :=
  fold_right
    (fun va acc => (if memb (fst va) V then 0 else w (snd va)) + acc) 0 nbrs.

(** The sum of [w] over the edges from a node of [us] to a node outside
    [V]. *)
Definition cut_sum (w : attrs -> Z) (G : graph) (V us : list node) : Z :=
  fold_right
    (fun u acc =>
       match adj G u with Some nbrs => out_sum w V nbrs | None => 0 end + acc)
    0 us.

(** The flow that crosses from [V] to the rest of the graph, and the
    capacity of that cut. *)
Definition cut_flow (G : graph) (V : list node) : Z :=
  cut_sum flow_or_zero G V V.

Definition cut_capacity (G : graph) (V : list node) : Z :=
  cut_sum capacity G V V.

(** The capacity of a reported cut: the sum of its third components. *)
Definition report_capacity (cut : list cut_edge) : Z :=
  fold_right (fun e acc => snd e + acc) 0 cut.

(** 1 for a member of [V], 0 for any other node. *)
Definition inside (V : list node) (x : node) : Z :=
  if memb x V then 1 else 0.

(** A node that the level search of Dinic has given a level. *)
Definition labelled (level : dict Z) (x : node) : Prop :=
  exists l, lookup x level = Some l /\ 0 <= l.

(** ** Vocabulary of the push-relabel properties *)

(** The height table push-relabel starts from: the number of nodes for
    the source, 0 for every other node. *)
Definition initial_heights (ns : list node) (s : node) : dict Z :=
  assign s (Z.of_nat (List.length ns)) (map (fun u => (u, 0)) ns).

(** A logged push that was made on the level: its tail is not the source
    and has height 0, its head has the height it started with. *)
Definition level_push (ns : list node) (s : node) (ev : push_event) : Prop :=
  pe_tail ev <> s /\
  pe_height_tail ev = Some 0 /\
  pe_height_head ev
  = Some (if node_eqb (pe_head ev) s then Z.of_nat (List.length ns) else 0).

(** The excess booked for the nodes of [V], taken together. *)
Definition excess_sum (ex : dict Z) (V : list node) : Z :=
  fold_right
    (fun x acc => match lookup x ex with Some e => e | None => 0 end + acc)
    0 V.

(** No edge into [t] carries negative flow. *)
Definition inflow_nonneg (G : graph) (t : node) : Prop :=
  forall u a f, get_edge G u t = Some a -> flow a = Some f -> 0 <= f.

(** What the main loop of push-relabel keeps true of the graph and of its
    tables, on a graph with the nodes [ns]: the graph stays well-formed,
    skew-symmetric and within capacity; across every set of nodes, the
    flow that leaves the set and the excess booked inside it add up to
    what the source has sent out ([sent]), or to 0 when the source is not
    in the set; no excess is negative; unless the sink is the source, what
    is booked for the sink is the positive flow that enters it; the
    worklist has no repetition and holds neither source nor sink; and no
    height has changed. *)
Definition pr_inv (ns : list node) (s t : node) (sent : Z)
    (G : graph) (st : pr_state) : Prop :=
  wf_graph G /\ skew_symmetric G /\ within_capacity G /\ nodes G = ns /\
  keys (excess st) = ns /\
  (forall V, NoDup V ->
             cut_flow G V + excess_sum (excess st) V = sent * inside V s) /\
  (forall u e, lookup u (excess st) = Some e -> 0 <= e) /\
  (s <> t ->
   inflow_nonneg G t /\
   forall e, lookup t (excess st) = Some e -> positive_inflow G t = e) /\
  NoDup (active st) /\
  (forall u, In u (active st) -> In u ns /\ u <> s /\ u <> t) /\
  height st = initial_heights ns s /\
  Forall (level_push ns s) (trace st).

(** ** Vocabulary of the termination of Dinic *)

(** An edge that the depth-first search of Dinic follows: it leads one
    level up and has residual capacity. *)
Definition admissible (G : graph) (level : dict Z) (u v : node) : Prop :=
  exists lu r, lookup u level = Some lu /\ 0 <= lu /\
               lookup v level = Some (lu + 1) /\
               residual G u v = Ok r /\ r > 0.

(** What the level search keeps true of its table: a node of positive
    level is the head of an admissible edge, the source and only the
    source has level 0, and a level stays below the number of nodes that
    have one. *)
Definition levels_ok (G : graph) (s : node) (level : dict Z) : Prop :=
  (forall x l, lookup x level = Some l -> 0 < l ->
               exists p, admissible G level p x) /\
  (forall x, lookup x level = Some 0 -> x = s) /\
  lookup s level = Some 0 /\
  (forall x l, lookup x level = Some l -> 0 <= l ->
               l + Z.of_nat (unlabelled level)
               < Z.of_nat (List.length level)).

(** A node from which admissible edges lead to the sink. *)
Inductive leads (G : graph) (level : dict Z) (t : node) : node -> Prop :=
| leads_sink : leads G level t t
| leads_step : forall u v,
    admissible G level u v -> leads G level t v -> leads G level t u.

(** Every admissible edge that the pointer of a node on level [lo] or above
    has passed ends in a node from which the sink is out of reach. *)
Definition dead_past (G : graph) (level : dict Z) (t : node) (it : dict nat)
    (lo : Z) : Prop :=
  forall x lx nbrs ix j v,
    lookup x level = Some lx -> lo <= lx ->
    lookup x G = Some nbrs -> lookup x it = Some ix -> (j < ix)%nat ->
    nth_error (keys nbrs) j = Some v -> admissible G level x v ->
    ~ leads G level t v.

(** The pointers [it'] are those of [it], each moved forward or not. *)
Definition it_le (it it' : dict nat) : Prop :=
  forall x i, lookup x it = Some i ->
              exists i', lookup x it' = Some i' /\ (i <= i')%nat.

(** The number of edges of [G] that the pointers [it] have not passed. *)
Definition slack (G : graph) (it : dict nat) : nat :=
  fold_right
    (fun ua acc =>
       ((List.length (snd ua)
         - match lookup (fst ua) it with Some i => i | None => O end)
        + acc)%nat)
    O G.

(** ** Vocabulary of the termination of the path decomposer *)

(** The number of edges that carry positive flow: what bounds the depth of
    the search of [extract_flow_paths], which takes the flow off an edge
    before it follows it. *)
Definition carries_flow (a : attrs) : bool :=
  match flow a with Some f => 0 <? f | None => false end.

Definition flow_edges (nbrs : adjacency) : nat :=
  List.length (filter (fun va => carries_flow (snd va)) nbrs).

Definition positive_edges (G : graph) : nat :=
  fold_right (fun ua acc => (flow_edges (snd ua) + acc)%nat) O G.

(** * Properties *)

Local Open Scope string_scope.

(** ** Runs on the example networks *)

(** C1. Agreement of the three solvers, at the network S->A (1), S->B (1),
    B->A (1), A->T (2): Edmonds-Karp and Dinic report the maximum flow 2,
    push-relabel reports 1. *)
Theorem solvers_disagree_on_cross_network :
  snd (edmonds_karp_steps 20 "S" "T" cross_network)
    = Ok ([([("S", "A"); ("A", "T")], Fin 1, Fin 1);
           ([("S", "B"); ("B", "A"); ("A", "T")], Fin 1, Fin 2)], Fin 2) /\
  snd (dinic_apply 20 20 "S" "T" cross_network) = Ok (Fin 2) /\
  snd (push_relabel_apply 20 "S" "T" cross_network) = Ok 1.
Proof. vm_compute. repeat split. Qed.

(** C2. Decomposition of the flow Edmonds-Karp leaves on the network
    S->A (2), S->B (3), A->C (2), B->C (3), C->T (5): the maximum flow is 5,
    the decomposer reports the single path S,A,C,T with amount 2, and the
    edge C->T, which carried 5, is at 0 after that path took 2 of it. *)
Theorem decomposition_loses_flow_on_merge_network :
  let solved := fst (edmonds_karp_steps 20 "S" "T" merge_network) in
  let out := extract_flow_paths 20 "S" "T" solved in
  (exists steps, snd (edmonds_karp_steps 20 "S" "T" merge_network)
                 = Ok (steps, Fin 5)) /\
  snd out = Ok [(["S"; "A"; "C"; "T"], 2)] /\
  (exists paths, snd out = Ok paths /\ total_amount paths = 2) /\
  flow_of solved "C" "T" = Ok 5 /\
  flow_of (fst out) "C" "T" = Ok 0.
Proof.
  vm_compute. repeat split.
  - eexists. reflexivity.
  - eexists. split; reflexivity.
Qed.

(** C3. The pushes of push-relabel on the line network S->A (5), A->T (3):
    the second push goes from A, at height 0, to S, at height 3, and the
    first one to T, at the same height 0 as A; both send
    min(excess, residual capacity). *)
Theorem push_ignores_heights_on_line_network :
  exists total e1 e2,
    snd (push_relabel_run 20 "S" "T" line_network) = Ok (total, [e1; e2]) /\
    (pe_tail e1, pe_head e1) = ("A", "T") /\
    (pe_height_tail e1, pe_height_head e1) = (Some 0, Some 0) /\
    pe_send e1 = Z.min (pe_excess e1) (pe_residual e1) /\
    (pe_tail e2, pe_head e2) = ("A", "S") /\
    (pe_height_tail e2, pe_height_head e2) = (Some 0, Some 3) /\
    pe_send e2 = Z.min (pe_excess e2) (pe_residual e2).
Proof.
  do 3 eexists. vm_compute. repeat split.
Qed.

(** While the source is the sink, the blocking-flow loop of Dinic never
    ends: [dfs] hands back [float('inf')] at once, whatever the state. *)
Lemma dinic_blocking_same_node (n limit : nat) (s : node) (level : dict Z)
    (it : dict nat) :
  forall (fuel : nat) (max_flow : num) (G : graph),
    dinic_blocking fuel n limit s s level it max_flow G = (G, OutOfFuel).
Proof.
  induction fuel as [|k IH]; intros max_flow G; [reflexivity|].
  cbn [dinic_blocking]. unfold bind at 1.
  destruct n as [|m].
  - reflexivity.
  - cbn [dfs]. unfold node_eqb. rewrite String.eqb_refl.
    unfold ret. cbn [num_nonpos]. apply IH.
Qed.

(** C4. Termination of the solvers, at source = sink = S on the line
    network: Dinic does not return, whatever the fuel and whatever the room
    on the call stack, where Edmonds-Karp and push-relabel both return 0. *)
Theorem dinic_diverges_when_source_is_sink :
  (forall fuel limit,
      snd (dinic_apply fuel limit "S" "S" line_network) = OutOfFuel) /\
  snd (edmonds_karp_steps 20 "S" "S" line_network) = Ok ([], Fin 0) /\
  snd (push_relabel_apply 20 "S" "S" line_network) = Ok 0.
Proof.
  split; [|vm_compute; split; reflexivity].
  intros fuel limit. unfold dinic_apply.
  unfold bind at 1. unfold update at 1.
  destruct fuel as [|[|[|[|k]]]]; try reflexivity.
  cbn [dinic_while]. unfold bind at 1.
  unfold read at 1.
  assert (E0 : bfs_level (S (S (S (S k)))) "S" (prepare_graph line_network)
               = Ok [("S", 0); ("A", 1); ("T", 2)])
    by (vm_compute; reflexivity).
  rewrite E0.
  unfold bind at 1. unfold read at 1. cbn [lookup of_option node_eqb String.eqb Ascii.eqb Bool.eqb].
  cbn [Z.ltb Z.compare].
  unfold bind at 1. unfold read at 1.
  unfold bind at 1.
  rewrite dinic_blocking_same_node. reflexivity.
Qed.

(** C6. The line network S->A (5), A->T (3): the three solvers report 3
    and leave the same flow; on it the decomposer reports the one path
    S,A,T with amount 3 and the min-cut report is the one edge (A, T, 3),
    in whatever order Python iterates the visited set. *)
Theorem line_network_scenario :
  forall set_order : list node -> list node,
    (forall l, Permutation (set_order l) l) ->
    let solved := fst (edmonds_karp_steps 20 "S" "T" line_network) in
    snd (edmonds_karp_steps 20 "S" "T" line_network)
      = Ok ([([("S", "A"); ("A", "T")], Fin 3, Fin 3)], Fin 3) /\
    dinic_apply 20 20 "S" "T" line_network = (solved, Ok (Fin 3)) /\
    push_relabel_apply 20 "S" "T" line_network = (solved, Ok 3) /\
    snd (extract_flow_paths 20 "S" "T" solved) = Ok [(["S"; "A"; "T"], 3)] /\
    min_cut_report set_order 20 solved "S" = Ok [("A", "T", 3)].
Proof.
  intros set_order Hperm solved.
  repeat split; try (vm_compute; reflexivity).
  unfold min_cut_report.
  match goal with
  | |- context [reach_while ?n ?G ?v ?st] =>
      assert (E0 : reach_while n G v st = Ok ["S"; "A"])
        by (vm_compute; reflexivity);
      rewrite E0
  end.
  cbn [rbind].
  match goal with
  | |- context [set_order ?l] =>
      destruct (Permutation_length_2_inv (Permutation_sym (Hperm l))) as [E|E];
      rewrite E; vm_compute; reflexivity
  end.
Qed.

Lemma line_network_scenario_witness :
  (forall l : list node, Permutation ((fun l => l) l) l) /\
  min_cut_report (fun l => l) 20
    (fst (edmonds_karp_steps 20 "S" "T" line_network)) "S"
    = Ok [("A", "T", 3)].
Proof.
  split.
  - intros l. apply Permutation_refl.
  - apply (line_network_scenario (fun l => l)).
    intros l. apply Permutation_refl.
Defined.

Local Close Scope string_scope.

(** ** Dictionaries *)

Lemma node_eqb_spec (a b : node) : reflect (a = b) (node_eqb a b).
Proof. apply String.eqb_spec. Qed.

Lemma node_eqb_refl (a : node) : node_eqb a a = true.
Proof. apply String.eqb_refl. Qed.

Lemma node_eqb_sym (a b : node) : node_eqb a b = node_eqb b a.
Proof. apply String.eqb_sym. Qed.

Ltac node_cases a b :=
  let E := fresh "E" in
  destruct (node_eqb_spec a b) as [E|E]; [try subst a|].

Lemma memb_In (x : node) (l : list node) : memb x l = true <-> In x l.
Proof.
  induction l as [|y l IH]; simpl.
  - split; [discriminate|tauto].
  - node_cases x y.
    + split; auto.
    + rewrite IH. split; [auto|intros [H|H]; [congruence|exact H]].
Qed.

Lemma memb_false (x : node) (l : list node) : memb x l = false <-> ~ In x l.
Proof.
  rewrite <- memb_In. destruct (memb x l); split; congruence.
Qed.

Section DictFacts.
Variable V : Type.
Implicit Types (d : dict V) (k x : node).

Lemma lookup_modify k g d x :
  lookup x (modify k g d)
  = if node_eqb x k then option_map g (lookup k d) else lookup x d.
Proof.
  induction d as [|[k' v'] d IH]; simpl.
  - destruct (node_eqb x k); reflexivity.
  - node_cases k k'.
    + simpl. node_cases x k'; reflexivity.
    + simpl. node_cases x k'.
      * node_cases k' k; [congruence|reflexivity].
      * exact IH.
Qed.

Lemma lookup_assign k (v : V) d x :
  lookup x (assign k v d) = if node_eqb x k then Some v else lookup x d.
Proof.
  induction d as [|[k' v'] d IH]; simpl.
  - destruct (node_eqb x k); reflexivity.
  - node_cases k k'.
    + simpl. node_cases x k'; reflexivity.
    + simpl. node_cases x k'.
      * node_cases k' k; [congruence|reflexivity].
      * exact IH.
Qed.

Lemma keys_modify k g d : keys (modify k g d) = keys d.
Proof.
  induction d as [|[k' v'] d IH]; simpl; [reflexivity|].
  destruct (node_eqb k k'); simpl; [reflexivity|].
  f_equal. exact IH.
Qed.

Lemma modify_id k g d :
  (forall v, lookup k d = Some v -> g v = v) -> modify k g d = d.
Proof.
  induction d as [|[k' v'] d IH]; simpl; intros H; [reflexivity|].
  destruct (node_eqb k k').
  - rewrite (H v' eq_refl). reflexivity.
  - rewrite (IH H). reflexivity.
Qed.

Lemma lookup_In_keys k d : lookup k d <> None <-> In k (keys d).
Proof.
  induction d as [|[k' v'] d IH]; simpl.
  - tauto.
  - node_cases k k'.
    + split; [auto|discriminate].
    + rewrite IH. split; [auto|intros [H|H]; [congruence|exact H]].
Qed.

Lemma lookup_Some_In k (v : V) d : lookup k d = Some v -> In (k, v) d.
Proof.
  induction d as [|[k' v'] d IH]; simpl; [discriminate|].
  node_cases k k'.
  - intros H. injection H as ->. auto.
  - auto.
Qed.

Lemma In_lookup k (v : V) d :
  NoDup (keys d) -> In (k, v) d -> lookup k d = Some v.
Proof.
  induction d as [|[k' v'] d IH]; simpl; [tauto|].
  intros Hnd [H|H].
  - injection H as -> ->. rewrite node_eqb_refl. reflexivity.
  - inversion Hnd as [|? ? Hnot Hnd']; subst.
    node_cases k k'.
    + exfalso. apply Hnot. change (In (fst (k', v)) (keys d)).
      apply in_map. exact H.
    + auto.
Qed.

Lemma keys_assign k (v : V) d :
  keys (assign k v d) = if mem k d then keys d else keys d ++ [k].
Proof.
  unfold mem. induction d as [|[k' v'] d IH]; simpl; [reflexivity|].
  node_cases k k'; simpl; [reflexivity|].
  rewrite IH. destruct (lookup k d); reflexivity.
Qed.

Lemma mem_In_keys k d : mem k d = true <-> In k (keys d).
Proof.
  rewrite <- lookup_In_keys. unfold mem.
  destruct (lookup k d); split; congruence.
Qed.

Lemma mem_false_keys k d : mem k d = false <-> ~ In k (keys d).
Proof.
  rewrite <- mem_In_keys. destruct (mem k d); split; congruence.
Qed.

Lemma In_keys_assign k (v : V) d x :
  In x (keys (assign k v d)) <-> x = k \/ In x (keys d).
Proof.
  rewrite keys_assign. destruct (mem k d) eqn:E.
  - apply mem_In_keys in E. split; [auto|intros [->|H]; auto].
  - rewrite in_app_iff. simpl. split; [intros [H|[H|[]]]; auto|].
    intros [H|H]; auto.
Qed.

Lemma NoDup_keys_assign k (v : V) d :
  NoDup (keys d) -> NoDup (keys (assign k v d)).
Proof.
  intros H. rewrite keys_assign. destruct (mem k d) eqn:E; [exact H|].
  apply mem_false_keys in E.
  apply NoDup_rev in H. rewrite <- (rev_involutive (keys d ++ [k])).
  apply NoDup_rev. rewrite rev_app_distr. simpl. constructor.
  - rewrite <- in_rev. exact E.
  - exact H.
Qed.

Lemma lookup_app d1 d2 x :
  lookup x (d1 ++ d2)
  = match lookup x d1 with Some v => Some v | None => lookup x d2 end.
Proof.
  induction d1 as [|[k' v'] d1 IH]; simpl; [reflexivity|].
  destruct (node_eqb x k'); [reflexivity|exact IH].
Qed.

Lemma In_modify k g d x (v : V) :
  In (x, v) (modify k g d) ->
  In (x, v) d \/ exists v0, In (x, v0) d /\ v = g v0.
Proof.
  induction d as [|[k' v'] d IH]; simpl; [tauto|].
  destruct (node_eqb k k'); simpl.
  - intros [H|H]; [|auto]. injection H as -> <-. right. eauto.
  - intros [H|H]; [auto|]. destruct (IH H) as [H1|[v0 [H1 H2]]]; eauto.
Qed.
End DictFacts.

(** ** Edges under the graph operations *)

Lemma get_edge_modify_edge (u v : node) g (G : graph) (x y : node) :
  get_edge (modify_edge u v g G) x y
  = if node_eqb x u && node_eqb y v
    then option_map g (get_edge G u v) else get_edge G x y.
Proof.
  unfold get_edge, modify_edge. rewrite lookup_modify.
  node_cases x u; simpl; [|reflexivity].
  destruct (lookup u G) as [a|]; simpl.
  - rewrite lookup_modify. destruct (node_eqb y v); reflexivity.
  - destruct (node_eqb y v); reflexivity.
Qed.

Lemma nodes_modify_edge (u v : node) g (G : graph) :
  nodes (modify_edge u v g G) = nodes G.
Proof. apply keys_modify. Qed.

Lemma get_edge_add_node (w : node) (G : graph) (x y : node) :
  get_edge (add_node w G) x y = get_edge G x y.
Proof.
  unfold add_node, get_edge, mem.
  destruct (lookup w G) eqn:E; [reflexivity|].
  rewrite lookup_app. destruct (lookup x G); [reflexivity|]. simpl.
  destruct (node_eqb x w); reflexivity.
Qed.

Lemma In_nodes_add_node (w : node) (G : graph) (x : node) :
  In x (nodes (add_node w G)) <-> x = w \/ In x (nodes G).
Proof.
  unfold add_node, nodes. destruct (mem w G) eqn:E.
  - apply mem_In_keys in E. split; [auto|intros [->|H]; auto].
  - unfold keys. rewrite map_app, in_app_iff. simpl.
    split; [intros [H|[H|[]]]; auto|intros [H|H]; auto].
Qed.

Lemma nodes_add_node_present (w : node) (G : graph) :
  In w (nodes G) -> add_node w G = G.
Proof.
  intros H. unfold add_node. apply mem_In_keys in H. unfold nodes in *.
  rewrite H. reflexivity.
Qed.

Lemma NoDup_nodes_add_node (w : node) (G : graph) :
  NoDup (nodes G) -> NoDup (nodes (add_node w G)).
Proof.
  intros H. unfold add_node, nodes. destruct (mem w G) eqn:E; [exact H|].
  apply mem_false_keys in E. unfold keys. rewrite map_app. simpl.
  apply NoDup_rev in H. rewrite <- (rev_involutive (map fst G ++ [w])).
  apply NoDup_rev. rewrite rev_app_distr. simpl. constructor.
  - rewrite <- in_rev. exact E.
  - exact H.
Qed.

Lemma nodes_add_edge (u v : node) a (G : graph) :
  nodes (add_edge u v a G) = nodes (add_node v (add_node u G)).
Proof. apply keys_modify. Qed.

Lemma get_edge_add_edge (u v : node) a (G : graph) (x y : node) :
  get_edge (add_edge u v a G) x y
  = if node_eqb x u && node_eqb y v then Some a else get_edge G x y.
Proof.
  unfold add_edge.
  assert (Hu : In u (nodes (add_node v (add_node u G)))).
  { apply In_nodes_add_node. right. apply In_nodes_add_node. auto. }
  apply lookup_In_keys in Hu.
  unfold get_edge at 1. rewrite lookup_modify.
  node_cases x u; simpl.
  - destruct (lookup u (add_node v (add_node u G))) as [d|] eqn:E;
      [|congruence].
    simpl. rewrite lookup_assign. destruct (node_eqb y v); [reflexivity|].
    rewrite <- (get_edge_add_node u G u y), <- (get_edge_add_node v _ u y).
    unfold get_edge at 1. rewrite E. reflexivity.
  - rewrite <- (get_edge_add_node u G x y), <- (get_edge_add_node v _ x y).
    reflexivity.
Qed.

Lemma get_edge_in_edges (G : graph) (u v : node) a :
  get_edge G u v = Some a -> In (u, v) (edges G).
Proof.
  unfold get_edge, edges. destruct (lookup u G) as [d|] eqn:E; [|discriminate].
  intros H. apply in_flat_map. exists (u, d). split.
  - apply lookup_Some_In. exact E.
  - simpl. apply in_map. apply lookup_In_keys. congruence.
Qed.

Lemma in_edges_inv (G : graph) (u v : node) :
  In (u, v) (edges G) -> exists d, In (u, d) G /\ In v (keys d).
Proof.
  unfold edges. rewrite in_flat_map. intros [[u' d] [H1 H2]]. simpl in H2.
  apply in_map_iff in H2. destruct H2 as [v' [H2 H3]].
  injection H2 as -> ->. eauto.
Qed.

Lemma in_edges_has_edge (G : graph) (u v : node) :
  NoDup (nodes G) -> In (u, v) (edges G) -> has_edge G u v = true.
Proof.
  intros Hnd H. apply in_edges_inv in H. destruct H as [d [H1 H2]].
  unfold has_edge, get_edge. rewrite (In_lookup _ _ _ Hnd H1).
  apply lookup_In_keys in H2. destruct (lookup v d); congruence.
Qed.

Lemma has_edge_true (G : graph) (u v : node) :
  has_edge G u v = true <-> exists a, get_edge G u v = Some a.
Proof.
  unfold has_edge. destruct (get_edge G u v).
  - split; eauto.
  - split; [discriminate|intros [a H]; discriminate].
Qed.

(** ** [prepare_graph] *)

(** The edge table after one turn of the preparation loop. *)
Lemma get_edge_prepare_step (G : graph) (u v x y : node) :
  get_edge (prepare_step G (u, v)) x y
  = if node_eqb x v && node_eqb y u then
      match get_edge (modify_edge u v setdefault_flow G) v u with
      | Some a => Some (setdefault_flow a)
      | None => Some (mkAttrs 0 (Some 0))
      end
    else get_edge (modify_edge u v setdefault_flow G) x y.
Proof.
  unfold prepare_step, has_edge.
  destruct (get_edge (modify_edge u v setdefault_flow G) v u) as [a|] eqn:E.
  - rewrite get_edge_modify_edge, E. reflexivity.
  - rewrite get_edge_add_edge. reflexivity.
Qed.

Lemma setdefault_flow_set (a : attrs) : flow (setdefault_flow a) <> None.
Proof. unfold setdefault_flow. destruct (flow a) eqn:E; simpl; congruence. Qed.

Lemma setdefault_flow_id (a : attrs) : flow a <> None -> setdefault_flow a = a.
Proof. unfold setdefault_flow. destruct (flow a); congruence. Qed.

Lemma has_edge_prepare_step (G : graph) (e : node * node) (x y : node) :
  has_edge G x y = true -> has_edge (prepare_step G e) x y = true.
Proof.
  destruct e as [u v]. unfold has_edge at 2.
  rewrite get_edge_prepare_step. intros H.
  destruct (node_eqb x v && node_eqb y u).
  - destruct (get_edge (modify_edge u v setdefault_flow G) v u); reflexivity.
  - rewrite get_edge_modify_edge.
    destruct (node_eqb x u && node_eqb y v) eqn:E.
    + apply andb_prop in E. destruct E as [E1 E2].
      apply (reflect_iff _ _ (node_eqb_spec _ _)) in E1, E2. subst.
      apply has_edge_true in H. destruct H as [a ->]. reflexivity.
    + apply has_edge_true in H. destruct H as [a ->]. reflexivity.
Qed.

Lemma settled_prepare_step (G : graph) (e : node * node) (x y : node) :
  has_edge G x y = true -> settled G x y -> settled (prepare_step G e) x y.
Proof.
  intros Hxy [Hf Hr]. split; [|apply has_edge_prepare_step; exact Hr].
  destruct e as [u v]. intros a. rewrite get_edge_prepare_step.
  destruct (node_eqb x v && node_eqb y u).
  - destruct (get_edge (modify_edge u v setdefault_flow G) v u);
      intros H; injection H as <-; [apply setdefault_flow_set|discriminate].
  - rewrite get_edge_modify_edge.
    destruct (node_eqb x u && node_eqb y v) eqn:E.
    + destruct (get_edge G u v); simpl; [|discriminate].
      intros H; injection H as <-. apply setdefault_flow_set.
    + apply Hf.
Qed.

Lemma prepare_step_settles (G : graph) (u v : node) :
  has_edge G u v = true ->
  settled (prepare_step G (u, v)) u v /\ settled (prepare_step G (u, v)) v u.
Proof.
  intros H.
  assert (Huv : has_edge (prepare_step G (u, v)) u v = true)
    by (apply has_edge_prepare_step; exact H).
  assert (Hvu : has_edge (prepare_step G (u, v)) v u = true).
  { unfold has_edge. rewrite get_edge_prepare_step.
    rewrite !node_eqb_refl. simpl.
    destruct (get_edge (modify_edge u v setdefault_flow G) v u); reflexivity. }
  assert (Hset : forall x y a,
             (x = u /\ y = v) \/ (x = v /\ y = u) ->
             get_edge (prepare_step G (u, v)) x y = Some a -> flow a <> None).
  { intros x y a Hxy. rewrite get_edge_prepare_step.
    destruct (node_eqb x v && node_eqb y u) eqn:E1.
    - destruct (get_edge (modify_edge u v setdefault_flow G) v u);
        intros E; injection E as <-; [apply setdefault_flow_set|discriminate].
    - rewrite get_edge_modify_edge.
      destruct (node_eqb x u && node_eqb y v) eqn:E2.
      + destruct (get_edge G u v); simpl; [|discriminate].
        intros E; injection E as <-. apply setdefault_flow_set.
      + exfalso. destruct Hxy as [[-> ->]|[-> ->]];
          rewrite !node_eqb_refl in *; discriminate. }
  split; split; eauto.
Qed.

Lemma get_edge_prepare_step_other (G : graph) (u v x y : node) :
  (x, y) <> (u, v) -> (x, y) <> (v, u) ->
  get_edge (prepare_step G (u, v)) x y = get_edge G x y.
Proof.
  intros H1 H2. rewrite get_edge_prepare_step.
  destruct (node_eqb x v && node_eqb y u) eqn:E1.
  - apply andb_prop in E1. destruct E1 as [Ea Eb].
    apply (reflect_iff _ _ (node_eqb_spec _ _)) in Ea, Eb. congruence.
  - rewrite get_edge_modify_edge.
    destruct (node_eqb x u && node_eqb y v) eqn:E2; [|reflexivity].
    apply andb_prop in E2. destruct E2 as [Ea Eb].
    apply (reflect_iff _ _ (node_eqb_spec _ _)) in Ea, Eb. congruence.
Qed.

Lemma pair_node_dec (p q : node * node) : {p = q} + {p <> q}.
Proof. decide equality; apply string_dec. Qed.

(** The loop invariant of [prepare_graph]: the edges still to come are
    edges, and every other edge of the graph is settled. *)
Lemma prepare_loop_settles (rem : list (node * node)) :
  forall G : graph,
    (forall u v, In (u, v) rem -> has_edge G u v = true) ->
    (forall u v, has_edge G u v = true -> In (u, v) rem \/ settled G u v) ->
    forall u v, has_edge (fold_left prepare_step rem G) u v = true ->
                settled (fold_left prepare_step rem G) u v.
Proof.
  induction rem as [|[u0 v0] rem IH]; intros G Hrem Hinv; cbn [fold_left].
  - intros u v H. destruct (Hinv u v H) as [[]|Hs]. exact Hs.
  - assert (H0 : has_edge G u0 v0 = true) by (apply Hrem; left; reflexivity).
    apply IH.
    + intros u v Hin. apply has_edge_prepare_step. apply Hrem. right. exact Hin.
    + intros u v H.
      destruct (pair_node_dec (u, v) (u0, v0)) as [E1|E1].
      { injection E1 as -> ->. right. apply prepare_step_settles. exact H0. }
      destruct (pair_node_dec (u, v) (v0, u0)) as [E2|E2].
      { injection E2 as -> ->. right. apply prepare_step_settles. exact H0. }
      assert (H' : has_edge G u v = true).
      { unfold has_edge in *.
        rewrite get_edge_prepare_step_other in H by assumption. exact H. }
      destruct (Hinv u v H') as [[E|Hin]|Hs].
      * congruence.
      * left. exact Hin.
      * right. apply settled_prepare_step; assumption.
Qed.

Lemma prepare_graph_settled (G : graph) :
  NoDup (nodes G) ->
  forall u v, has_edge (prepare_graph G) u v = true ->
              settled (prepare_graph G) u v.
Proof.
  intros Hnd. unfold prepare_graph. apply prepare_loop_settles.
  - intros u v. apply in_edges_has_edge. exact Hnd.
  - intros u v H. left. apply has_edge_true in H. destruct H as [a H].
    eapply get_edge_in_edges. exact H.
Qed.

Lemma modify_edge_id (u v : node) g (G : graph) :
  (forall a, get_edge G u v = Some a -> g a = a) -> modify_edge u v g G = G.
Proof.
  intros H. unfold modify_edge. apply modify_id. intros d Hd.
  apply modify_id. intros a Ha. apply H. unfold get_edge. rewrite Hd. exact Ha.
Qed.

Lemma prepare_step_fixed (G : graph) (u v : node) :
  has_edge G u v = true -> settled G u v -> settled G v u ->
  prepare_step G (u, v) = G.
Proof.
  intros H [Hf Hr] [Hf' _]. unfold prepare_step.
  assert (E : modify_edge u v setdefault_flow G = G).
  { apply modify_edge_id. intros a Ha. apply setdefault_flow_id. eauto. }
  rewrite E, Hr. apply modify_edge_id. intros a Ha.
  apply setdefault_flow_id. eauto.
Qed.

(** On a graph whose edges are all settled the preparation loop changes
    nothing. *)
Lemma prepare_loop_fixed (rem : list (node * node)) (G : graph) :
  (forall u v, In (u, v) rem -> has_edge G u v = true) ->
  (forall u v, has_edge G u v = true -> settled G u v) ->
  fold_left prepare_step rem G = G.
Proof.
  intros Hrem Hall.
  induction rem as [|[u v] rem IH]; cbn [fold_left]; [reflexivity|].
  assert (H : has_edge G u v = true) by (apply Hrem; left; reflexivity).
  rewrite prepare_step_fixed.
  - apply IH. intros x y Hin. apply Hrem. right. exact Hin.
  - exact H.
  - apply Hall. exact H.
  - apply Hall. apply (Hall u v H).
Qed.

Lemma nodes_prepare_step_NoDup (G : graph) (e : node * node) :
  NoDup (nodes G) -> NoDup (nodes (prepare_step G e)).
Proof.
  intros H. destruct e as [u v]. unfold prepare_step.
  destruct (has_edge _ v u).
  - rewrite !nodes_modify_edge. exact H.
  - rewrite nodes_add_edge. apply NoDup_nodes_add_node.
    apply NoDup_nodes_add_node. rewrite nodes_modify_edge. exact H.
Qed.

Lemma nodes_prepare_loop_NoDup (rem : list (node * node)) :
  forall G, NoDup (nodes G) -> NoDup (nodes (fold_left prepare_step rem G)).
Proof.
  induction rem as [|e rem IH]; intros G H; cbn [fold_left]; [exact H|].
  apply IH. apply nodes_prepare_step_NoDup. exact H.
Qed.

Lemma prepare_graph_fixed (G : graph) :
  NoDup (nodes G) ->
  (forall u v, has_edge G u v = true -> settled G u v) ->
  prepare_graph G = G.
Proof.
  intros Hnd Hall. unfold prepare_graph. apply prepare_loop_fixed.
  - intros u v. apply in_edges_has_edge. exact Hnd.
  - exact Hall.
Qed.

Lemma prepare_graph_twice (G : graph) :
  NoDup (nodes G) -> prepare_graph (prepare_graph G) = prepare_graph G.
Proof.
  intros Hnd. apply prepare_graph_fixed.
  - apply nodes_prepare_loop_NoDup. exact Hnd.
  - apply prepare_graph_settled. exact Hnd.
Qed.

(** C9. [prepare_graph] is idempotent: a second call leaves the graph of
    the first exactly as it is, the same edges in the same order with the
    same flow values. *)
Theorem prepare_graph_idempotent (G : graph) :
  wf_graph G ->
  prepare_graph (prepare_graph G) = prepare_graph G /\
  edges (prepare_graph (prepare_graph G)) = edges (prepare_graph G) /\
  (forall u v, flow_of (prepare_graph (prepare_graph G)) u v
               = flow_of (prepare_graph G) u v).
Proof.
  intros [Hnd _].
  rewrite (prepare_graph_twice G Hnd). repeat split.
Qed.

(** ** Flow values do not reach Edmonds-Karp *)

Section MapValues.
Variable V : Type.
Implicit Types (d : dict V) (k x : node) (f g : V -> V).

Lemma lookup_map_values f d x :
  lookup x (map_values f d) = option_map f (lookup x d).
Proof.
  induction d as [|[k' v'] d IH]; simpl; [reflexivity|].
  destruct (node_eqb x k'); [reflexivity|exact IH].
Qed.

Lemma keys_map_values f d : keys (map_values f d) = keys d.
Proof.
  unfold keys, map_values. rewrite map_map. reflexivity.
Qed.

Lemma map_values_modify f g g' k d :
  (forall v, f (g v) = g' (f v)) ->
  map_values f (modify k g d) = modify k g' (map_values f d).
Proof.
  intros H. induction d as [|[k' v'] d IH]; simpl; [reflexivity|].
  destruct (node_eqb k k'); simpl.
  - rewrite H. reflexivity.
  - f_equal. exact IH.
Qed.

Lemma map_values_assign f k (v : V) d :
  map_values f (assign k v d) = assign k (f v) (map_values f d).
Proof.
  induction d as [|[k' v'] d IH]; simpl; [reflexivity|].
  destruct (node_eqb k k'); simpl; [reflexivity|].
  f_equal. exact IH.
Qed.

Lemma map_values_compose f g d :
  map_values f (map_values g d) = map_values (fun v => f (g v)) d.
Proof. unfold map_values. rewrite map_map. reflexivity. Qed.

Lemma map_values_ext f g d :
  (forall v, f v = g v) -> map_values f d = map_values g d.
Proof.
  intros H. unfold map_values. apply map_ext. intros [k v]. simpl.
  rewrite H. reflexivity.
Qed.
End MapValues.

Lemma get_edge_reset_flows (G : graph) (u v : node) :
  get_edge (reset_flows G) u v = option_map (set_flow 0) (get_edge G u v).
Proof.
  unfold get_edge, reset_flows. rewrite lookup_map_values.
  destruct (lookup u G); simpl; [apply lookup_map_values|reflexivity].
Qed.

Lemma has_edge_reset_flows (G : graph) (u v : node) :
  has_edge (reset_flows G) u v = has_edge G u v.
Proof.
  unfold has_edge. rewrite get_edge_reset_flows.
  destruct (get_edge G u v); reflexivity.
Qed.

Lemma edges_map_values (g : attrs -> attrs) (G : graph) :
  edges (map_values (map_values g) G) = edges G.
Proof.
  unfold edges. induction G as [|[u d] G IH]; simpl; [reflexivity|].
  rewrite IH, keys_map_values. reflexivity.
Qed.

Lemma nodes_reset_flows (G : graph) : nodes (reset_flows G) = nodes G.
Proof. apply keys_map_values. Qed.

Lemma reset_flows_modify_setdefault (u v : node) (G : graph) :
  reset_flows (modify_edge u v setdefault_flow G) = reset_flows G.
Proof.
  unfold reset_flows, modify_edge.
  rewrite (@map_values_modify _ _ _ (fun d => d)).
  - apply modify_id. reflexivity.
  - intros d. rewrite (@map_values_modify _ _ _ (fun a => a)).
    + apply modify_id. reflexivity.
    + intros a. unfold setdefault_flow. destruct (flow a); reflexivity.
Qed.

Lemma has_edge_modify_edge (u v : node) g (G : graph) (x y : node) :
  has_edge (modify_edge u v g G) x y = has_edge G x y.
Proof.
  unfold has_edge. rewrite get_edge_modify_edge.
  destruct (node_eqb x u && node_eqb y v) eqn:E; [|reflexivity].
  apply andb_prop in E. destruct E as [E1 E2].
  apply (reflect_iff _ _ (node_eqb_spec _ _)) in E1, E2. subst.
  destruct (get_edge G u v); reflexivity.
Qed.

Lemma reset_flows_add_node (w : node) (G : graph) :
  reset_flows (add_node w G) = add_node w (reset_flows G).
Proof.
  unfold add_node, mem, reset_flows. rewrite lookup_map_values.
  destruct (lookup w G); simpl; [reflexivity|].
  unfold map_values. rewrite map_app. reflexivity.
Qed.

Lemma reset_flows_add_edge (u v : node) (G : graph) :
  reset_flows (add_edge u v (mkAttrs 0 (Some 0)) G)
  = add_edge u v (mkAttrs 0 (Some 0)) (reset_flows G).
Proof.
  unfold add_edge. rewrite <- !reset_flows_add_node. unfold reset_flows.
  apply map_values_modify. intros d. apply map_values_assign.
Qed.

Lemma reset_flows_settled (G : graph) (u v : node) :
  modify_edge u v setdefault_flow (reset_flows G) = reset_flows G.
Proof.
  apply modify_edge_id. intros a. rewrite get_edge_reset_flows.
  destruct (get_edge G u v); simpl; [|discriminate].
  intros H. injection H as <-. reflexivity.
Qed.

Lemma reset_flows_prepare_step (G : graph) (e : node * node) :
  reset_flows (prepare_step G e) = prepare_step (reset_flows G) e.
Proof.
  destruct e as [u v]. unfold prepare_step.
  rewrite reset_flows_settled, has_edge_modify_edge, has_edge_reset_flows.
  destruct (has_edge G v u).
  - rewrite reset_flows_settled. rewrite !reset_flows_modify_setdefault.
    reflexivity.
  - rewrite reset_flows_add_edge, reset_flows_modify_setdefault. reflexivity.
Qed.

Lemma reset_flows_prepare_loop (rem : list (node * node)) :
  forall G, reset_flows (fold_left prepare_step rem G)
            = fold_left prepare_step rem (reset_flows G).
Proof.
  induction rem as [|e rem IH]; intros G; cbn [fold_left]; [reflexivity|].
  rewrite IH, reset_flows_prepare_step. reflexivity.
Qed.

Lemma reset_flows_erase_flows (G : graph) :
  reset_flows (erase_flows G) = reset_flows G.
Proof.
  unfold reset_flows, erase_flows. rewrite map_values_compose.
  apply map_values_ext. intros d. rewrite map_values_compose. reflexivity.
Qed.

Lemma edges_reset_flows (G : graph) : edges (reset_flows G) = edges G.
Proof. apply edges_map_values. Qed.

Lemma reset_prepare_erased (G1 G2 : graph) :
  erase_flows G1 = erase_flows G2 ->
  reset_flows (prepare_graph G1) = reset_flows (prepare_graph G2).
Proof.
  intros H.
  assert (Hr : reset_flows G1 = reset_flows G2).
  { rewrite <- (reset_flows_erase_flows G1), <- (reset_flows_erase_flows G2).
    rewrite H. reflexivity. }
  unfold prepare_graph. rewrite !reset_flows_prepare_loop.
  rewrite <- (edges_reset_flows G1), <- (edges_reset_flows G2), Hr.
  reflexivity.
Qed.

Lemma edmonds_karp_steps_unfold (fuel : nat) (s t : node) (G : graph) :
  edmonds_karp_steps fuel s t G
  = ek_while fuel fuel s t [] (Fin 0) [] (reset_flows (prepare_graph G)).
Proof. reflexivity. Qed.

(** C10. Edmonds-Karp starts its first search on the prepared graph with
    every flow set to 0: the graph the search loop is entered with has the
    nodes and the edges of the prepared graph, in the same order, every
    edge with the capacity it has there and with flow 0, and no edge
    besides.  So two graphs that differ only in the flow values they come
    with give the same run: the same steps, the same max-flow, the same
    final graph. *)
Theorem edmonds_karp_ignores_initial_flow (G1 G2 : graph) (s t : node)
    (fuel : nat) :
  erase_flows G1 = erase_flows G2 ->
  (forall G,
      exists G0,
        edmonds_karp_steps fuel s t G
        = ek_while fuel fuel s t [] (Fin 0) [] G0 /\
        G0 = reset_flows (prepare_graph G) /\
        nodes G0 = nodes (prepare_graph G) /\
        edges G0 = edges (prepare_graph G) /\
        (forall u v,
            get_edge G0 u v
            = match get_edge (prepare_graph G) u v with
              | Some a => Some (mkAttrs (capacity a) (Some 0))
              | None => None
              end) /\
        (forall u v a, get_edge G0 u v = Some a -> flow a = Some 0)) /\
  edmonds_karp_steps fuel s t G1 = edmonds_karp_steps fuel s t G2.
Proof.
  intros H. split.
  - intros G. exists (reset_flows (prepare_graph G)).
    assert (Htable : forall u v,
               get_edge (reset_flows (prepare_graph G)) u v
               = match get_edge (prepare_graph G) u v with
                 | Some a => Some (mkAttrs (capacity a) (Some 0))
                 | None => None
                 end).
    { intros u v. rewrite get_edge_reset_flows.
      destruct (get_edge (prepare_graph G) u v); reflexivity. }
    split; [reflexivity|]. split; [reflexivity|].
    split; [apply nodes_reset_flows|]. split; [apply edges_reset_flows|].
    split; [exact Htable|].
    intros u v a. rewrite Htable.
    destruct (get_edge (prepare_graph G) u v); [|discriminate].
    intros E. injection E as <-. reflexivity.
  - rewrite !edmonds_karp_steps_unfold, (reset_prepare_erased _ _ H).
    reflexivity.
Qed.

(** ** Well-formed graphs *)

Lemma wf_graph_lookup (G : graph) :
  wf_graph G <->
  NoDup (nodes G) /\
  forall u d, lookup u G = Some d -> NoDup (keys d) /\ incl (keys d) (nodes G).
Proof.
  unfold wf_graph. split.
  - intros [Hnd [Hk Hc]]. split; [exact Hnd|]. intros u d H.
    apply lookup_Some_In in H. split; [eauto|]. intros v Hv. eauto.
  - intros [Hnd H]. split; [exact Hnd|]. split.
    + intros u d Hin. apply (H u d). apply In_lookup; assumption.
    + intros u d v Hin Hv. apply (H u d); [|exact Hv].
      apply In_lookup; assumption.
Qed.

Lemma wf_graph_modify_edge (u v : node) g (G : graph) :
  wf_graph G -> wf_graph (modify_edge u v g G).
Proof.
  rewrite !wf_graph_lookup, nodes_modify_edge. intros [Hnd H].
  split; [exact Hnd|]. intros x d. unfold modify_edge.
  rewrite lookup_modify. node_cases x u.
  - destruct (lookup u G) as [d0|] eqn:E; simpl; [|discriminate].
    intros E'. injection E' as <-. rewrite keys_modify. eauto.
  - apply H.
Qed.

Lemma lookup_add_node (w : node) (G : graph) (x : node) :
  lookup x (add_node w G)
  = match lookup x G with
    | Some d => Some d
    | None => if node_eqb x w then Some [] else None
    end.
Proof.
  unfold add_node, mem. destruct (lookup w G) eqn:E.
  - destruct (lookup x G) eqn:E'; [reflexivity|].
    node_cases x w; [congruence|reflexivity].
  - rewrite lookup_app. simpl. destruct (lookup x G); reflexivity.
Qed.

Lemma wf_graph_add_node (w : node) (G : graph) :
  wf_graph G -> wf_graph (add_node w G).
Proof.
  rewrite !wf_graph_lookup. intros [Hnd H].
  split; [apply NoDup_nodes_add_node; exact Hnd|].
  intros x d. rewrite lookup_add_node.
  destruct (lookup x G) as [d0|] eqn:E.
  - intros E'. injection E' as <-. destruct (H x d0 E) as [H1 H2].
    split; [exact H1|]. intros y Hy. apply In_nodes_add_node. auto.
  - destruct (node_eqb x w); [|discriminate].
    intros E'. injection E' as <-. split; [constructor|intros y []].
Qed.

Lemma wf_graph_add_edge (u v : node) a (G : graph) :
  wf_graph G -> wf_graph (add_edge u v a G).
Proof.
  intros H. apply (wf_graph_add_node u) in H. apply (wf_graph_add_node v) in H.
  revert H. rewrite !wf_graph_lookup, nodes_add_edge.
  set (G2 := add_node v (add_node u G)). intros [Hnd H].
  split; [exact Hnd|]. intros x d. unfold add_edge. fold G2.
  rewrite lookup_modify. node_cases x u.
  - destruct (lookup u G2) as [d0|] eqn:E; simpl; [|discriminate].
    intros E'. injection E' as <-. destruct (H u d0 E) as [H1 H2].
    split; [apply NoDup_keys_assign; exact H1|].
    intros y Hy. apply In_keys_assign in Hy. destruct Hy as [->|Hy].
    + apply In_nodes_add_node. auto.
    + auto.
  - apply H.
Qed.

Lemma wf_graph_prepare_step (G : graph) (e : node * node) :
  wf_graph G -> wf_graph (prepare_step G e).
Proof.
  intros H. destruct e as [u v]. unfold prepare_step.
  destruct (has_edge _ v u).
  - apply wf_graph_modify_edge, wf_graph_modify_edge, H.
  - apply wf_graph_add_edge, wf_graph_modify_edge, H.
Qed.

Lemma wf_graph_prepare_loop (rem : list (node * node)) :
  forall G, wf_graph G -> wf_graph (fold_left prepare_step rem G).
Proof.
  induction rem as [|e rem IH]; intros G H; cbn [fold_left]; [exact H|].
  apply IH, wf_graph_prepare_step, H.
Qed.

Lemma wf_graph_prepare_graph (G : graph) :
  wf_graph G -> wf_graph (prepare_graph G).
Proof. apply wf_graph_prepare_loop. Qed.

Lemma wf_graph_reset_flows (G : graph) :
  wf_graph G -> wf_graph (reset_flows G).
Proof.
  rewrite !wf_graph_lookup, nodes_reset_flows. intros [Hnd H].
  split; [exact Hnd|]. intros x d. unfold reset_flows.
  rewrite lookup_map_values. destruct (lookup x G) as [d0|] eqn:E; simpl;
    [|discriminate].
  intros E'. injection E' as <-. rewrite keys_map_values. eauto.
Qed.

(** Preparation adds no node to a well-formed graph. *)
Lemma has_edge_nodes (G : graph) (u v : node) :
  wf_graph G -> has_edge G u v = true ->
  In u (nodes G) /\ In v (nodes G).
Proof.
  rewrite wf_graph_lookup. intros [_ H] Huv.
  apply has_edge_true in Huv. destruct Huv as [a Ha]. unfold get_edge in Ha.
  destruct (lookup u G) as [d|] eqn:E; [|discriminate]. split.
  - apply lookup_In_keys. unfold nodes. congruence.
  - apply (H u d E). apply lookup_In_keys. congruence.
Qed.

Lemma nodes_prepare_step (G : graph) (u v : node) :
  wf_graph G -> has_edge G u v = true ->
  nodes (prepare_step G (u, v)) = nodes G.
Proof.
  intros Hwf H. destruct (has_edge_nodes _ _ Hwf H) as [Hu Hv].
  unfold prepare_step. destruct (has_edge _ v u).
  - rewrite !nodes_modify_edge. reflexivity.
  - rewrite nodes_add_edge.
    rewrite (nodes_add_node_present v), (nodes_add_node_present u);
      rewrite ?nodes_modify_edge; try assumption.
    reflexivity.
Qed.

Lemma nodes_prepare_loop (rem : list (node * node)) :
  forall G, wf_graph G ->
            (forall u v, In (u, v) rem -> has_edge G u v = true) ->
            nodes (fold_left prepare_step rem G) = nodes G.
Proof.
  induction rem as [|[u v] rem IH]; intros G Hwf Hrem; cbn [fold_left];
    [reflexivity|].
  assert (H : has_edge G u v = true) by (apply Hrem; left; reflexivity).
  rewrite IH.
  - apply nodes_prepare_step; assumption.
  - apply wf_graph_prepare_step. exact Hwf.
  - intros x y Hin. apply has_edge_prepare_step. apply Hrem. right. exact Hin.
Qed.

Lemma nodes_prepare_graph (G : graph) :
  wf_graph G -> nodes (prepare_graph G) = nodes G.
Proof.
  intros Hwf. apply nodes_prepare_loop; [exact Hwf|].
  intros u v. apply in_edges_has_edge. apply Hwf.
Qed.

(** ** Deciding well-formedness *)

Lemma nodupb_sound (l : list node) : nodupb l = true -> NoDup l.
Proof.
  induction l as [|x l IH]; simpl; intros H; [constructor|].
  apply andb_prop in H. destruct H as [H1 H2]. constructor; [|auto].
  apply memb_false, negb_true_iff. exact H1.
Qed.

Lemma wf_graphb_sound (G : graph) : wf_graphb G = true -> wf_graph G.
Proof.
  unfold wf_graphb, wf_graph. intros H.
  apply andb_prop in H. destruct H as [H1 H2].
  rewrite forallb_forall in H2. split; [apply nodupb_sound, H1|]. split.
  - intros u a Hin. specialize (H2 _ Hin). simpl in H2.
    apply andb_prop in H2. apply nodupb_sound, H2.
  - intros u a v Hin Hv. specialize (H2 _ Hin). simpl in H2.
    apply andb_prop in H2. destruct H2 as [_ H2].
    rewrite forallb_forall in H2. apply memb_In, H2, Hv.
Qed.

Local Open Scope string_scope.

Lemma prepare_graph_idempotent_witness :
  wf_graph line_network /\
  prepare_graph (prepare_graph line_network) = prepare_graph line_network.
Proof.
  assert (Hwf : wf_graph line_network) by (apply wf_graphb_sound; reflexivity).
  split; [exact Hwf|]. apply (prepare_graph_idempotent Hwf).
Defined.

(** The line network as a solver leaves it has the same edges and
    capacities as the line network as built. *)
Lemma edmonds_karp_ignores_initial_flow_witness :
  erase_flows (fst (dinic_apply 20 20 "S" "T" line_network))
  = erase_flows (prepare_graph line_network) /\
  edmonds_karp_steps 20 "S" "T" (fst (dinic_apply 20 20 "S" "T" line_network))
  = edmonds_karp_steps 20 "S" "T" (prepare_graph line_network).
Proof.
  assert (H : erase_flows (fst (dinic_apply 20 20 "S" "T" line_network))
              = erase_flows (prepare_graph line_network))
    by (vm_compute; reflexivity).
  split; [exact H|].
  apply (edmonds_karp_ignores_initial_flow _ _ "S" "T" 20 H).
Defined.

Local Close Scope string_scope.

(** ** Invariants of the graph under the monad *)

Unset Implicit Arguments.

Section Keeps.
Variable P : graph -> Prop.

Lemma keeps_ret {A} (a : A) : keeps P (ret a).
Proof. intros G H. exact H. Qed.

Lemma keeps_read {A} (f : graph -> result A) : keeps P (read f).
Proof. intros G H. exact H. Qed.

Lemma keeps_out_of_fuel {A} : keeps P (@out_of_fuel A).
Proof. intros G H. exact H. Qed.

Lemma keeps_bind {A B} (m : M A) (k : A -> M B) :
  keeps P m -> (forall a, keeps P (k a)) -> keeps P (bind m k).
Proof.
  intros Hm Hk G H. unfold bind. specialize (Hm G H).
  destruct (m G) as [G1 [a|e| |]]; simpl in *; auto.
  apply Hk. exact Hm.
Qed.

Lemma keeps_for_each {A} (l : list A) (body : A -> M unit) :
  (forall x, keeps P (body x)) -> keeps P (for_each l body).
Proof.
  intros H. induction l as [|x l IH]; simpl.
  - apply keeps_ret.
  - apply keeps_bind; [apply H|intros _; exact IH].
Qed.
End Keeps.

Lemma bind_Ok {A B} (m : M A) (k : A -> M B) (G G1 : graph) (a : A) :
  m G = (G1, Ok a) -> bind m k G = k a G1.
Proof. intros H. unfold bind. rewrite H. reflexivity. Qed.

(** ** Moving flow along an edge *)

Lemma add_flow_Ok (u v : node) (d : Z) (G : graph) a f :
  get_edge G u v = Some a -> flow a = Some f ->
  add_flow u v d G = (modify_edge u v (set_flow (f + d)) G, Ok tt).
Proof.
  intros Ha Hf. unfold add_flow, bind, read, flow_of. rewrite Ha. simpl.
  rewrite Hf. reflexivity.
Qed.

Lemma add_flow_absent (u v : node) (d : Z) (G : graph) :
  get_edge G u v = None -> add_flow u v d G = (G, Raise KeyError).
Proof.
  intros Ha. unfold add_flow, bind, read, flow_of. rewrite Ha. reflexivity.
Qed.

Lemma pair_neq_eqb (x y u v : node) :
  (x, y) <> (u, v) -> node_eqb x u && node_eqb y v = false.
Proof.
  intros H. node_cases x u; [|reflexivity]. node_cases y v; [|reflexivity].
  congruence.
Qed.

(** What [push_flow] does to a pair of opposite edges that both carry a
    flow value. *)
Lemma push_flow_Ok (u v : node) (d : Z) (G : graph) a b f g :
  u <> v ->
  get_edge G u v = Some a -> flow a = Some f ->
  get_edge G v u = Some b -> flow b = Some g ->
  exists G',
    push_flow u v d G = (G', Ok tt) /\
    get_edge G' u v = Some (set_flow (f + d) a) /\
    get_edge G' v u = Some (set_flow (g - d) b) /\
    forall x y, (x, y) <> (u, v) -> (x, y) <> (v, u) ->
                get_edge G' x y = get_edge G x y.
Proof.
  intros Huv Ha Hf Hb Hg. unfold push_flow.
  rewrite (bind_Ok _ _ _ _ _ (add_flow_Ok _ _ d _ _ _ Ha Hf)).
  assert (Hb1 : get_edge (modify_edge u v (set_flow (f + d)) G) v u = Some b).
  { rewrite get_edge_modify_edge, pair_neq_eqb; [exact Hb|congruence]. }
  rewrite (add_flow_Ok _ _ (- d) _ _ _ Hb1 Hg).
  eexists. split; [reflexivity|]. repeat split.
  - rewrite !get_edge_modify_edge. rewrite (pair_neq_eqb u v v u) by congruence.
    rewrite !node_eqb_refl, Ha. reflexivity.
  - rewrite !get_edge_modify_edge. rewrite !node_eqb_refl. simpl.
    rewrite pair_neq_eqb by congruence. rewrite Hb. reflexivity.
  - intros x y H1 H2. rewrite !get_edge_modify_edge.
    rewrite !pair_neq_eqb by assumption. reflexivity.
Qed.

(** On a loop the two statements cancel. *)
Lemma push_flow_loop (u : node) (d : Z) (G : graph) a f :
  get_edge G u u = Some a -> flow a = Some f ->
  exists G',
    push_flow u u d G = (G', Ok tt) /\
    get_edge G' u u = Some (set_flow f a) /\
    forall x y, (x, y) <> (u, u) -> get_edge G' x y = get_edge G x y.
Proof.
  intros Ha Hf. unfold push_flow.
  rewrite (bind_Ok _ _ _ _ _ (add_flow_Ok _ _ d _ _ _ Ha Hf)).
  assert (Ha1 : get_edge (modify_edge u u (set_flow (f + d)) G) u u
                = Some (set_flow (f + d) a)).
  { rewrite get_edge_modify_edge, !node_eqb_refl, Ha. reflexivity. }
  rewrite (add_flow_Ok _ _ (- d) _ _ _ Ha1 eq_refl).
  eexists. split; [reflexivity|]. split.
  - rewrite get_edge_modify_edge, !node_eqb_refl, Ha1. simpl.
    unfold set_flow. simpl. do 3 f_equal. lia.
  - intros x y H. rewrite !get_edge_modify_edge.
    rewrite !pair_neq_eqb by assumption. reflexivity.
Qed.

Lemma push_flow_absent (u v : node) (d : Z) (G : graph) :
  get_edge G u v = None -> push_flow u v d G = (G, Raise KeyError).
Proof.
  intros H. unfold push_flow, bind. rewrite (add_flow_absent _ _ _ _ H).
  reflexivity.
Qed.

Lemma skew_loop_zero (G : graph) (u : node) a f :
  skew_symmetric G -> get_edge G u u = Some a -> flow a = Some f -> f = 0.
Proof.
  intros Hs Ha Hf. destruct (Hs u u a Ha) as (b & g & Hb & Hg & Hg').
  assert (b = a) by congruence. subst b.
  assert (g = f) by congruence. subst g.
  assert (f = - f) by congruence. lia.
Qed.

Lemma keeps_push_flow (u v : node) (d : Z) :
  keeps skew_symmetric (push_flow u v d).
Proof.
  intros G Hs.
  destruct (get_edge G u v) as [a|] eqn:Ha;
    [|rewrite (push_flow_absent _ _ _ _ Ha); exact Hs].
  destruct (Hs u v a Ha) as (b & f & Hb & Hf & Hg).
  destruct (string_dec u v) as [<-|Huv].
  - assert (f = 0) by (apply (skew_loop_zero G u a f Hs Ha Hf)). subst f.
    destruct (push_flow_loop _ d _ _ _ Ha Hf) as (G' & -> & Hl & Hframe). simpl.
    intros x y c Hc.
    destruct (pair_node_dec (x, y) (u, u)) as [E|E].
    + injection E as -> ->. rewrite Hl in Hc. injection Hc as <-.
      exists (set_flow 0 a), 0. rewrite Hl. repeat split.
    + rewrite Hframe in Hc by exact E.
      destruct (Hs x y c Hc) as (c' & h & Hc' & Hh & Hh').
      exists c', h. rewrite Hframe by congruence. auto.
  - destruct (push_flow_Ok _ _ d _ _ _ _ _ Huv Ha Hf Hb Hg)
      as (G' & -> & H1 & H2 & Hframe).
    simpl. intros x y c Hc.
    destruct (pair_node_dec (x, y) (u, v)) as [E|E].
    { injection E as -> ->. rewrite H1 in Hc. injection Hc as <-.
      exists (set_flow (- f - d) b), (f + d). rewrite H2. repeat split.
      simpl. f_equal. lia. }
    destruct (pair_node_dec (x, y) (v, u)) as [E'|E'].
    { injection E' as -> ->. rewrite H2 in Hc. injection Hc as <-.
      exists (set_flow (f + d) a), (- f - d). rewrite H1. repeat split.
      simpl. f_equal. lia. }
    rewrite Hframe in Hc by assumption.
    destruct (Hs x y c Hc) as (c' & h & Hc' & Hh & Hh').
    exists c', h. rewrite Hframe by congruence. auto.
Qed.

Lemma keeps_push_flow_num (u v : node) (d : num) :
  keeps skew_symmetric (push_flow_num u v d).
Proof.
  destruct d as [z|]; [apply keeps_push_flow|]. intros G H. exact H.
Qed.

Ltac keeps_step :=
  lazymatch goal with
  | |- keeps _ (bind _ _) => apply keeps_bind; [|intros]
  | |- keeps _ (ret _) => apply keeps_ret
  | |- keeps _ (read _) => apply keeps_read
  | |- keeps _ out_of_fuel => apply keeps_out_of_fuel
  | |- keeps _ (push_flow_num _ _ _) => apply keeps_push_flow_num
  | |- keeps _ (push_flow _ _ _) => apply keeps_push_flow
  | |- keeps _ (for_each _ _) => apply keeps_for_each; intros
  | |- keeps _ (if ?b then _ else _) => destruct b
  | |- keeps _ (match ?x with _ => _ end) => destruct x
  end.

(** ** Skew symmetry through the solvers *)

Lemma keeps_ek_while (n : nat) (s t : node) :
  forall fuel parent max_flow steps,
    keeps skew_symmetric (ek_while fuel n s t parent max_flow steps).
Proof.
  induction fuel as [|k IH]; intros; cbn [ek_while].
  - apply keeps_out_of_fuel.
  - repeat keeps_step. apply IH.
Qed.

Lemma keeps_dfs (t : node) (level : dict Z) :
  forall fuel depth u pushed it,
    keeps skew_symmetric (dfs fuel depth t level u pushed it).
Proof.
  induction fuel as [|k IH]; intros; cbn [dfs].
  - apply keeps_out_of_fuel.
  - repeat (first [apply IH | keeps_step]).
Qed.

Lemma keeps_dinic_blocking (n limit : nat) (s t : node) (level : dict Z) :
  forall fuel it max_flow,
    keeps skew_symmetric (dinic_blocking fuel n limit s t level it max_flow).
Proof.
  induction fuel as [|k IH]; intros; cbn [dinic_blocking].
  - apply keeps_out_of_fuel.
  - repeat (first [apply IH | apply keeps_dfs | keeps_step]).
Qed.

Lemma keeps_dinic_while (n limit : nat) (s t : node) :
  forall fuel max_flow,
    keeps skew_symmetric (dinic_while fuel n limit s t max_flow).
Proof.
  induction fuel as [|k IH]; intros; cbn [dinic_while].
  - apply keeps_out_of_fuel.
  - repeat (first [apply IH | apply keeps_dinic_blocking | keeps_step]).
Qed.

Lemma keeps_push (u v : node) (st : pr_state) :
  keeps skew_symmetric (push u v st).
Proof. unfold push. repeat keeps_step. Qed.

Lemma keeps_relabel (u : node) (st : pr_state) :
  keeps skew_symmetric (relabel u st).
Proof. unfold relabel. repeat keeps_step. Qed.

Lemma keeps_discharge_for (s t u : node) (vs : list node) :
  forall st, keeps skew_symmetric (discharge_for s t u vs st).
Proof.
  induction vs as [|v vs IH]; intros; cbn [discharge_for].
  - apply keeps_ret.
  - repeat (first [apply IH | apply keeps_push | keeps_step]).
Qed.

Lemma keeps_pr_while (s t : node) :
  forall fuel i st, keeps skew_symmetric (pr_while fuel s t i st).
Proof.
  induction fuel as [|k IH]; intros; cbn [pr_while].
  - apply keeps_out_of_fuel.
  - repeat (first [apply IH | apply keeps_discharge_for | apply keeps_relabel
                  | keeps_step]).
Qed.

(** ** The prepared graph is skew-symmetric *)

Lemma fresh_setdefault_flow (a : attrs) :
  flow a = None \/ flow a = Some 0 ->
  flow (setdefault_flow a) = None \/ flow (setdefault_flow a) = Some 0.
Proof.
  unfold setdefault_flow. intros [H|H]; rewrite H; simpl; auto.
Qed.

Lemma fresh_flows_prepare_step (G : graph) (e : node * node) :
  fresh_flows G -> fresh_flows (prepare_step G e).
Proof.
  intros H. destruct e as [u v].
  assert (H1 : fresh_flows (modify_edge u v setdefault_flow G)).
  { intros x y c. rewrite get_edge_modify_edge.
    destruct (node_eqb x u && node_eqb y v); [|apply H].
    destruct (get_edge G u v) as [a|] eqn:E; simpl; [|discriminate].
    intros E'. injection E' as <-. apply fresh_setdefault_flow. eauto. }
  intros x y c. rewrite get_edge_prepare_step.
  destruct (node_eqb x v && node_eqb y u); [|apply H1].
  destruct (get_edge (modify_edge u v setdefault_flow G) v u) as [a|] eqn:E;
    intros E'; injection E' as <-.
  - apply fresh_setdefault_flow. eauto.
  - right. reflexivity.
Qed.

Lemma fresh_flows_prepare_graph (G : graph) :
  fresh_flows G -> fresh_flows (prepare_graph G).
Proof.
  unfold prepare_graph. generalize (edges G) as rem. intros rem. revert G.
  induction rem as [|e rem IH]; intros G H; cbn [fold_left]; [exact H|].
  apply IH, fresh_flows_prepare_step, H.
Qed.

Lemma prepare_graph_zero (G : graph) :
  NoDup (nodes G) -> fresh_flows G ->
  forall u v a, get_edge (prepare_graph G) u v = Some a -> flow a = Some 0.
Proof.
  intros Hnd Hfresh u v a Ha.
  destruct (fresh_flows_prepare_graph G Hfresh u v a Ha) as [H|H]; [|exact H].
  exfalso.
  assert (He : has_edge (prepare_graph G) u v = true)
    by (apply has_edge_true; eauto).
  destruct (prepare_graph_settled G Hnd u v He) as [Hf _].
  exact (Hf a Ha H).
Qed.

Lemma skew_prepare_graph (G : graph) :
  NoDup (nodes G) -> fresh_flows G -> skew_symmetric (prepare_graph G).
Proof.
  intros Hnd Hfresh u v a Ha.
  assert (He : has_edge (prepare_graph G) u v = true)
    by (apply has_edge_true; eauto).
  destruct (prepare_graph_settled G Hnd u v He) as [_ Hr].
  apply has_edge_true in Hr. destruct Hr as [b Hb].
  exists b, 0. repeat split.
  - exact Hb.
  - eapply prepare_graph_zero; eauto.
  - eapply prepare_graph_zero; eauto.
Qed.

Lemma skew_reset_prepare (G : graph) :
  NoDup (nodes G) -> skew_symmetric (reset_flows (prepare_graph G)).
Proof.
  intros Hnd u v a. rewrite get_edge_reset_flows.
  destruct (get_edge (prepare_graph G) u v) as [a0|] eqn:Ha; simpl;
    [|discriminate].
  intros E. injection E as <-.
  assert (He : has_edge (prepare_graph G) u v = true)
    by (apply has_edge_true; eauto).
  destruct (prepare_graph_settled G Hnd u v He) as [_ Hr].
  apply has_edge_true in Hr. destruct Hr as [b Hb].
  exists (set_flow 0 b), 0. rewrite get_edge_reset_flows, Hb. repeat split.
Qed.

(** ** The saturation of the source edges *)

Lemma add_flow_frame (u v : node) (d : Z) (G : graph) (x y : node) :
  (x, y) <> (u, v) ->
  get_edge (fst (add_flow u v d G)) x y = get_edge G x y.
Proof.
  intros H. unfold add_flow, bind, read, update.
  destruct (flow_of G u v); simpl; try reflexivity.
  rewrite get_edge_modify_edge, pair_neq_eqb by exact H. reflexivity.
Qed.

Lemma push_flow_frame (u v : node) (d : Z) (G : graph) (x y : node) :
  (x, y) <> (u, v) -> (x, y) <> (v, u) ->
  get_edge (fst (push_flow u v d G)) x y = get_edge G x y.
Proof.
  intros H1 H2. unfold push_flow, bind.
  pose proof (add_flow_frame u v d G x y H1) as E1.
  destruct (add_flow u v d G) as [G1 [[]|e| |]]; simpl in *; try exact E1.
  rewrite add_flow_frame by exact H2. exact E1.
Qed.

Lemma keeps_after {A B} (Q : graph -> Prop) (m : M A) (k : A -> M B)
    (G : graph) :
  Q (fst (m G)) -> (forall a, keeps Q (k a)) -> Q (fst (bind m k G)).
Proof.
  intros H Hk. unfold bind.
  destruct (m G) as [G1 [a|e| |]]; simpl in *; auto.
  apply Hk. exact H.
Qed.

Lemma bind_assoc {A B C} (m : M A) (k1 : A -> M B) (k2 : B -> M C)
    (G : graph) :
  bind (bind m k1) k2 G = bind m (fun a => bind (k1 a) k2) G.
Proof.
  unfold bind. destruct (m G) as [G1 [a|e| |]]; reflexivity.
Qed.

(** On an edge whose flow is 0, [G[s][v]['flow'] = cap] followed by
    [G[v][s]['flow'] -= cap] is a push of [cap]. *)
Lemma saturate_is_push {A} (s v : node) (cap : Z) (k : M A) (G : graph) a :
  get_edge G s v = Some a -> flow a = Some 0 ->
  bind (assign_flow s v cap) (fun _ => bind (add_flow v s (- cap)) (fun _ => k)) G
  = bind (push_flow s v cap) (fun _ => k) G.
Proof.
  intros Ha Hf. unfold push_flow. rewrite bind_assoc.
  unfold bind at 1 3.
  rewrite (add_flow_Ok s v cap G a 0 Ha Hf).
  unfold assign_flow, bind at 1, read, update. rewrite Ha. reflexivity.
Qed.

Lemma skew_saturate_for (s : node) :
  forall (vs : list node) (excess : dict Z) (G : graph),
    skew_symmetric G -> NoDup vs ->
    (forall v a, In v vs -> get_edge G s v = Some a -> flow a = Some 0) ->
    skew_symmetric (fst (saturate_for s vs excess G)).
Proof.
  induction vs as [|v vs IH]; intros excess G Hs Hnd Hz; [exact Hs|].
  cbn [saturate_for]. unfold bind at 1. unfold read at 1. unfold capacity_of.
  destruct (get_edge G s v) as [a|] eqn:Ha; [|exact Hs].
  cbn [of_option rbind].
  rewrite (saturate_is_push s v (capacity a) _ G a Ha
             (Hz v a (or_introl eq_refl) Ha)).
  inversion Hnd as [|? ? Hnot Hnd']; subst.
  unfold bind at 1.
  pose proof (keeps_push_flow s v (capacity a) G Hs) as Hs1.
  pose proof (push_flow_frame s v (capacity a) G) as Hframe.
  destruct (push_flow s v (capacity a) G) as [G1 [[]|e| |]]; simpl in *;
    try exact Hs1.
  unfold bind at 1. unfold read at 1.
  destruct (lookup v excess) as [ev|]; [|exact Hs1].
  cbn [of_option]. apply IH; auto.
  intros v' a' Hin Ha'. apply (Hz v' a'); [right; exact Hin|].
  rewrite <- Hframe; [exact Ha'| |].
  - intros E. injection E as ->. contradiction.
  - intros E. injection E as -> ->. contradiction.
Qed.

Lemma skew_push_relabel_run (G : graph) (s t : node) (fuel : nat) :
  wf_graph G -> fresh_flows G ->
  skew_symmetric (fst (push_relabel_run fuel s t G)).
Proof.
  intros Hwf Hfresh.
  assert (Hnd : NoDup (nodes G)) by apply Hwf.
  pose proof (skew_prepare_graph G Hnd Hfresh) as Hs.
  pose proof (prepare_graph_zero G Hnd Hfresh) as Hz.
  pose proof (wf_graph_prepare_graph Hwf) as Hwf'.
  unfold push_relabel_run. unfold bind at 1. unfold update at 1.
  unfold bind at 1. unfold read at 1.
  unfold bind at 1. unfold read at 1. unfold adj.
  destruct (lookup s (prepare_graph G)) as [nbrs|] eqn:E; [|exact Hs].
  cbn [of_option]. apply keeps_after.
  - apply skew_saturate_for.
    + exact Hs.
    + destruct Hwf' as [_ [Hk _]]. apply (Hk s). apply lookup_Some_In. exact E.
    + intros v a _. apply Hz.
  - intros excess1. repeat (first [apply keeps_pr_while | keeps_step]).
Qed.

(** What a successful [push] of push-relabel does to the graph. *)
Lemma push_is_push_flow (u v : node) (st st' : pr_state) (G G' : graph) :
  push u v st G = (G', Ok (true, st')) ->
  exists d, d > 0 /\ push_flow u v d G = (G', Ok tt).
Proof.
  unfold push. unfold bind at 1. unfold read at 1.
  destruct (lookup u (excess st)) as [eu|]; [|discriminate]. cbn [of_option].
  unfold bind at 1. unfold read at 1.
  destruct (residual G u v) as [r|e| |]; try discriminate.
  destruct (Z.min eu r <=? 0) eqn:E; [discriminate|].
  apply Z.leb_gt in E. intros H. exists (Z.min eu r). split; [lia|].
  unfold bind at 1 in H.
  destruct (push_flow u v (Z.min eu r) G) as [G1 [[]|e| |]]; try discriminate.
  unfold bind at 1 in H. unfold read at 1 in H. cbn [of_option] in H.
  unfold bind at 1 in H. unfold read at 1 in H.
  destruct (lookup v (assign u (eu - Z.min eu r) (excess st))) as [ev|];
    [|discriminate].
  cbn [of_option] in H. unfold ret in H. congruence.
Qed.

(** C8. On a graph that comes without flow (the attribute missing or 0),
    which its prepared form is too, each solver leaves the graph
    skew-symmetric, at whatever point of the run one looks (the fuel stops
    it anywhere): [flow(u,v) = - flow(v,u)] for every edge, the reverse
    edge being there.  A push changes the two opposite edges by [d] and
    [- d] and no other edge, and the [push] of push-relabel is such a push
    with [d > 0]. *)
Theorem skew_symmetry_through_solvers (G : graph) (s t : node)
    (fuel limit : nat) :
  wf_graph G -> fresh_flows G ->
  (wf_graph (prepare_graph G) /\ fresh_flows (prepare_graph G)) /\
  skew_symmetric (fst (edmonds_karp_steps fuel s t G)) /\
  skew_symmetric (fst (dinic_apply fuel limit s t G)) /\
  skew_symmetric (fst (push_relabel_apply fuel s t G)) /\
  (forall (H : graph) (u v : node) (d : Z) a b f g,
      u <> v ->
      get_edge H u v = Some a -> flow a = Some f ->
      get_edge H v u = Some b -> flow b = Some g ->
      exists H',
        push_flow u v d H = (H', Ok tt) /\
        flow_of H' u v = Ok (f + d) /\
        flow_of H' v u = Ok (g - d) /\
        forall x y, (x, y) <> (u, v) -> (x, y) <> (v, u) ->
                    get_edge H' x y = get_edge H x y) /\
  (forall (H H' : graph) (u v : node) (st st' : pr_state),
      push u v st H = (H', Ok (true, st')) ->
      exists d, d > 0 /\ push_flow u v d H = (H', Ok tt)).
Proof.
  intros Hwf Hfresh.
  assert (Hnd : NoDup (nodes G)) by apply Hwf.
  split; [split; [apply wf_graph_prepare_graph, Hwf
                 |apply fresh_flows_prepare_graph, Hfresh]|].
  split.
  { rewrite edmonds_karp_steps_unfold. apply keeps_ek_while.
    apply skew_reset_prepare. exact Hnd. }
  split.
  { unfold dinic_apply. unfold bind at 1. unfold update at 1.
    apply keeps_dinic_while. apply skew_prepare_graph; assumption. }
  split.
  { unfold push_relabel_apply. apply keeps_after.
    - apply skew_push_relabel_run; assumption.
    - intros r. apply keeps_ret. }
  split.
  - intros H u v d a b f g Huv Ha Hf Hb Hg.
    destruct (push_flow_Ok u v d H a b f g Huv Ha Hf Hb Hg)
      as (H' & E & H1 & H2 & Hframe).
    exists H'. unfold flow_of. rewrite H1, H2. repeat split; auto.
  - intros H H' u v st st'. apply push_is_push_flow.
Qed.

Local Open Scope string_scope.

Lemma skew_symmetry_through_solvers_witness :
  wf_graph line_network /\ fresh_flows line_network /\
  skew_symmetric (fst (push_relabel_apply 20 "S" "T" line_network)).
Proof.
  assert (Hwf : wf_graph line_network) by (apply wf_graphb_sound; reflexivity).
  assert (Hfresh : fresh_flows line_network).
  { intros u v a H. right. unfold get_edge in H. simpl in H.
    repeat (match type of H with
            | context [node_eqb ?x ?y] => destruct (node_eqb x y)
            end; simpl in H);
    try discriminate; injection H as <-; reflexivity. }
  split; [exact Hwf|]. split; [exact Hfresh|].
  apply (skew_symmetry_through_solvers line_network "S" "T" 20 20 Hwf Hfresh).
Defined.

Local Close Scope string_scope.

(** ** The min-cut report *)

Lemma memb_app (x : node) (l1 l2 : list node) :
  memb x (l1 ++ l2) = memb x l1 || memb x l2.
Proof.
  induction l1 as [|y l1 IH]; simpl; [reflexivity|].
  destruct (node_eqb x y); [reflexivity|exact IH].
Qed.

Lemma budget_mono (G : graph) (visited : list node) (u : node) :
  (budget G (visited ++ [u]) <= budget G visited)%nat.
Proof.
  induction G as [|[x d] G IH]; simpl; [lia|].
  rewrite memb_app. destruct (memb x visited); simpl; [lia|].
  destruct (node_eqb x u); simpl; lia.
Qed.

Lemma budget_visit (G : graph) (visited : list node) (u : node) nbrs :
  lookup u G = Some nbrs -> ~ In u visited ->
  (budget G (visited ++ [u]) + S (List.length nbrs) <= budget G visited)%nat.
Proof.
  intros Hl Hu. apply memb_false in Hu.
  induction G as [|[x d] G IH]; simpl in *; [discriminate|].
  rewrite memb_app. node_cases u x.
  - injection Hl as ->. rewrite Hu. simpl. rewrite node_eqb_refl.
    pose proof (budget_mono G visited x). simpl. lia.
  - specialize (IH Hl). destruct (memb x visited); simpl; [lia|].
    rewrite node_eqb_sym. destruct (node_eqb u x); simpl; lia.
Qed.

Lemma budget_nil (G : graph) :
  budget G [] = (List.length (nodes G) + List.length (edges G))%nat.
Proof.
  unfold nodes, keys, edges. induction G as [|[x d] G IH]; simpl; [reflexivity|].
  rewrite IH, length_app. unfold keys. rewrite !length_map. lia.
Qed.

Lemma reach_for_spec (nbrs : dict attrs) :
  (forall v a, In (v, a) nbrs -> flow a <> None) ->
  forall stack : list node,
    exists stack',
      reach_for nbrs stack = Ok stack' /\
      (List.length stack' <= List.length stack + List.length nbrs)%nat /\
      forall x, In x stack' <->
                In x stack \/
                exists a f, In (x, a) nbrs /\ flow a = Some f /\
                            capacity a - f > 0.
Proof.
  induction nbrs as [|[v a] nbrs IH]; intros Hf stack.
  - exists stack. simpl. repeat split; auto; [lia|].
    intros [H|(a & f & [] & _)]. exact H.
  - assert (Hf' : forall v a, In (v, a) nbrs -> flow a <> None)
      by (intros; eapply Hf; right; eassumption).
    specialize (Hf v a (or_introl eq_refl)).
    cbn [reach_for]. destruct (flow a) as [f|] eqn:Ef; [|congruence].
    cbn [of_option rbind].
    destruct (capacity a - f >? 0) eqn:E.
    + destruct (IH Hf' (v :: stack)) as (stack' & H1 & H2 & H3).
      exists stack'. split; [exact H1|]. split; [simpl in *; lia|].
      intros x. rewrite H3. simpl. split.
      * intros [[<-|H]|(a' & f' & Hin & H')]; auto.
        -- right. exists a, f. repeat split; auto.
           rewrite Z.gtb_ltb in E. apply Z.ltb_lt in E. lia.
        -- right. exists a', f'. tauto.
      * intros [H|(a' & f' & [Hin|Hin] & H')]; auto.
        -- injection Hin as <- <-. auto.
        -- right. exists a', f'. tauto.
    + destruct (IH Hf' stack) as (stack' & H1 & H2 & H3).
      exists stack'. split; [exact H1|]. split; [simpl in *; lia|].
      intros x. rewrite H3. simpl. split.
      * intros [H|(a' & f' & Hin & H')]; auto.
        right. exists a', f'. tauto.
      * intros [H|(a' & f' & [Hin|Hin] & Hfl & H')]; auto.
        -- injection Hin as <- <-. rewrite Ef in Hfl. injection Hfl as <-.
           rewrite Z.gtb_ltb in E. apply Z.ltb_ge in E. lia.
        -- right. exists a', f'. tauto.
Qed.

Section Reach.
Variables (G : graph) (s : node).
Hypothesis Hwf : wf_graph G.
Hypothesis Hflows : flows_set G.

Lemma adjacency_entry (u v : node) nbrs a :
  lookup u G = Some nbrs -> In (v, a) nbrs -> get_edge G u v = Some a.
Proof.
  intros Hu Hin. unfold get_edge. rewrite Hu. apply In_lookup; [|exact Hin].
  destruct Hwf as [_ [Hk _]]. apply (Hk u). apply lookup_Some_In. exact Hu.
Qed.

Lemma adjacency_closed (u v : node) nbrs a :
  lookup u G = Some nbrs -> In (v, a) nbrs -> In v (nodes G).
Proof.
  intros Hu Hin. destruct Hwf as [_ [_ Hc]]. apply (Hc u nbrs).
  - apply lookup_Some_In. exact Hu.
  - change v with (fst (v, a)). apply in_map. exact Hin.
Qed.

Lemma reach_while_spec :
  forall (fuel : nat) (visited stack : list node),
    NoDup visited -> incl visited (nodes G) -> incl stack (nodes G) ->
    (forall x, In x visited \/ In x stack -> reachable G s x) ->
    (forall x y, In x visited -> res_edge G x y ->
                 In y visited \/ In y stack) ->
    (List.length stack + budget G visited < fuel)%nat ->
    exists visited',
      reach_while fuel G visited stack = Ok visited' /\
      NoDup visited' /\ incl visited' (nodes G) /\
      (forall x, In x visited \/ In x stack -> In x visited') /\
      (forall x, In x visited' -> reachable G s x) /\
      (forall x y, In x visited' -> res_edge G x y -> In y visited').
Proof.
  induction fuel as [|k IH]; intros visited stack Hnd Hv Hst Hsound Hclo Hm;
    [lia|].
  destruct stack as [|u stack].
  - exists visited. simpl. repeat split; auto.
    + intros x [H|[]]. exact H.
    + intros x y Hx Hxy. destruct (Hclo x y Hx Hxy) as [H|[]]. exact H.
  - cbn [reach_while]. destruct (memb u visited) eqn:Eu.
    + apply memb_In in Eu.
      destruct (IH visited stack) as (visited' & H1 & H2 & H3 & H4 & H5 & H6);
        auto.
      * intros x Hx. apply Hst. right. exact Hx.
      * intros x [Hx|Hx]; apply Hsound; simpl; auto.
      * intros x y Hx Hxy. destruct (Hclo x y Hx Hxy) as [H|[<-|H]]; auto.
      * simpl in Hm. lia.
      * exists visited'. repeat split; auto.
        intros x [Hx|[<-|Hx]]; auto.
    + apply memb_false in Eu.
      assert (Hu : In u (nodes G)) by (apply Hst; left; reflexivity).
      unfold adj. destruct (lookup u G) as [nbrs|] eqn:El;
        [|apply lookup_In_keys in Hu; congruence].
      cbn [of_option rbind].
      destruct (reach_for_spec nbrs) with (stack := stack)
        as (stack' & E & Hlen & Hmem).
      { intros v a Hin. apply (Hflows u v). eapply adjacency_entry; eauto. }
      rewrite E. cbn [rbind].
      destruct (IH (visited ++ [u]) stack')
        as (visited' & H1 & H2 & H3 & H4 & H5 & H6).
      * apply NoDup_rev in Hnd. rewrite <- (rev_involutive (visited ++ [u])).
        apply NoDup_rev. rewrite rev_app_distr. simpl.
        constructor; [|exact Hnd]. rewrite <- in_rev. exact Eu.
      * intros x Hx. apply in_app_or in Hx. destruct Hx as [Hx|[<-|[]]]; auto.
      * intros x Hx. apply Hmem in Hx.
        destruct Hx as [Hx|(a & f & Hin & _)].
        -- apply Hst. right. exact Hx.
        -- eapply adjacency_closed; eauto.
      * intros x [Hx|Hx].
        -- apply in_app_or in Hx. destruct Hx as [Hx|[<-|[]]];
             apply Hsound; simpl; auto.
        -- apply Hmem in Hx. destruct Hx as [Hx|(a & f & Hin & Hf & Hr)].
           ++ apply Hsound. simpl. auto.
           ++ apply reach_step with (u := u).
              ** apply Hsound. simpl. auto.
              ** exists a, f. repeat split; auto.
                 eapply adjacency_entry; eauto.
      * intros x y Hx Hxy. apply in_app_or in Hx.
        destruct Hx as [Hx|[<-|[]]].
        -- destruct (Hclo x y Hx Hxy) as [H|[<-|H]].
           ++ left. apply in_or_app. auto.
           ++ left. apply in_or_app. simpl. auto.
           ++ right. apply Hmem. auto.
        -- right. apply Hmem. right.
           destruct Hxy as (a & f & Ha & Hf & Hr). exists a, f.
           repeat split; auto. unfold get_edge in Ha. rewrite El in Ha.
           apply lookup_Some_In. exact Ha.
      * pose proof (budget_visit G visited u nbrs El Eu). simpl in Hm. lia.
      * exists visited'. repeat split; auto.
        intros x [Hx|[<-|Hx]].
        -- apply H4. left. apply in_or_app. auto.
        -- apply H4. left. apply in_or_app. simpl. auto.
        -- apply H4. right. apply Hmem. auto.
Qed.

Lemma reachable_closed (visited : list node) :
  In s visited ->
  (forall x y, In x visited -> res_edge G x y -> In y visited) ->
  forall x, reachable G s x -> In x visited.
Proof.
  intros Hs Hclo x Hx. induction Hx as [|u v _ IH Huv]; [exact Hs|].
  exact (Hclo u v IH Huv).
Qed.

Lemma in_cut_of (visited : list node) (u : node) nbrs (x y : node) (c : Z) :
  In (x, y, c) (cut_of visited u nbrs) <->
  x = u /\ exists a, In (y, a) nbrs /\ capacity a = c /\
                     ~ In y visited /\ c > 0.
Proof.
  unfold cut_of. rewrite in_map_iff. split.
  - intros [[v a] [E Hin]]. simpl in E. injection E as <- <- <-.
    apply filter_In in Hin. destruct Hin as [Hin Hb]. simpl in Hb.
    apply andb_prop in Hb. destruct Hb as [Hb1 Hb2].
    apply negb_true_iff, memb_false in Hb1.
    rewrite Z.gtb_ltb in Hb2. apply Z.ltb_lt in Hb2.
    split; [reflexivity|]. exists a. repeat split; auto. lia.
  - intros [-> (a & Hin & <- & Hy & Hc)]. exists (y, a).
    split; [reflexivity|]. apply filter_In. split; [exact Hin|]. simpl.
    apply andb_true_intro. split.
    + apply negb_true_iff, memb_false. exact Hy.
    + rewrite Z.gtb_ltb. apply Z.ltb_lt. lia.
Qed.

Lemma NoDup_cut_of (visited : list node) (u : node) (nbrs : dict attrs) :
  NoDup (keys nbrs) -> NoDup (cut_of visited u nbrs).
Proof.
  induction nbrs as [|[v a] nbrs IH]; intros Hnd; [constructor|].
  inversion Hnd as [|? ? Hnot Hnd']; subst.
  unfold cut_of. cbn [filter fst snd].
  destruct (negb (memb v visited) && (capacity a >? 0)); [|exact (IH Hnd')].
  cbn [map fst snd]. constructor; [|exact (IH Hnd')].
  intros Hin. apply in_cut_of in Hin. destruct Hin as [_ (a' & Hin & _)].
  apply Hnot. change v with (fst (v, a')). apply in_map. exact Hin.
Qed.

Lemma cut_for_spec (visited : list node) :
  forall us : list node,
    incl us (nodes G) ->
    exists cut,
      cut_for G visited us = Ok cut /\
      (NoDup us -> NoDup cut) /\
      forall x y c,
        In (x, y, c) cut <->
        In x us /\ (exists a, get_edge G x y = Some a /\ capacity a = c) /\
        ~ In y visited /\ c > 0.
Proof.
  induction us as [|u us IH]; intros Hus.
  - exists []. simpl. split; [reflexivity|]. split; [constructor|].
    intros x y c. tauto.
  - destruct IH as (cut & E & Hnd & Hcut);
      [intros x Hx; apply Hus; right; exact Hx|].
    assert (Hu : In u (nodes G)) by (apply Hus; left; reflexivity).
    cbn [cut_for]. unfold adj.
    destruct (lookup u G) as [nbrs|] eqn:El;
      [|apply lookup_In_keys in Hu; congruence].
    cbn [of_option rbind]. rewrite E. cbn [rbind].
    eexists. split; [reflexivity|]. split.
    { intros Hnd'. inversion Hnd' as [|? ? Hnot Hnd'']; subst.
      apply NoDup_app.
      - apply NoDup_cut_of. destruct Hwf as [_ [Hk _]]. apply (Hk u).
        apply lookup_Some_In. exact El.
      - exact (Hnd Hnd'').
      - intros [[x y] c] H1 H2. apply in_cut_of in H1. destruct H1 as [-> _].
        apply Hcut in H2. destruct H2 as [H2 _]. contradiction. }
    intros x y c.
    rewrite in_app_iff, in_cut_of, Hcut. simpl. split.
    + intros [[-> (a & Hin & Hc & Hy & Hpos)]|(Hx & Ha & Hy & Hpos)].
      * repeat split; auto. exists a. split; [|exact Hc].
        eapply adjacency_entry; eauto.
      * repeat split; auto.
    + intros ([<-|Hx] & (a & Ha & Hc) & Hy & Hpos).
      * left. split; [reflexivity|]. exists a. repeat split; auto.
        unfold get_edge in Ha. rewrite El in Ha.
        apply lookup_Some_In. exact Ha.
      * right. repeat split; eauto.
Qed.
End Reach.

(** C7. On a well-formed graph with all flows set and [s] a node, the
    report returns, and its entries are exactly the triples
    [(u, v, capacity(u,v))] with [u] reachable from [s] in the residual
    graph, [v] not reachable and the capacity positive, each of them once;
    an edge of capacity 0 is never in it.  The order in which Python
    iterates the visited set does not matter. *)
Theorem min_cut_report_exact (set_order : list node -> list node)
    (G : graph) (s : node) (fuel : nat) :
  (forall l, Permutation (set_order l) l) ->
  wf_graph G -> flows_set G -> In s (nodes G) ->
  (1 + List.length (nodes G) + List.length (edges G) < fuel)%nat ->
  exists cut,
    min_cut_report set_order fuel G s = Ok cut /\
    (forall u v c,
        In (u, v, c) cut <->
        reachable G s u /\ ~ reachable G s v /\
        (exists a, get_edge G u v = Some a /\ capacity a = c) /\ c > 0) /\
    NoDup cut /\
    (forall u v, ~ In (u, v, 0) cut).
Proof.
  intros Hperm Hwf Hflows Hs Hfuel.
  destruct (reach_while_spec G s Hwf Hflows fuel [] [s])
    as (visited & E & Hnd & Hincl & Hin & Hsound & Hclo).
  - constructor.
  - intros x [].
  - intros x [<-|[]]. exact Hs.
  - intros x [[]|[<-|[]]]. constructor.
  - intros x y [].
  - rewrite budget_nil. simpl. lia.
  - assert (Hsv : In s visited) by (apply Hin; right; left; reflexivity).
    destruct (cut_for_spec G Hwf visited (set_order visited))
      as (cut & Ec & Hndc & Hcut).
    { intros x Hx. apply Hincl.
      apply (Permutation_in _ (Hperm visited)). exact Hx. }
    assert (Hiff : forall u v c,
               In (u, v, c) cut <->
               reachable G s u /\ ~ reachable G s v /\
               (exists a, get_edge G u v = Some a /\ capacity a = c) /\ c > 0).
    { intros u v c. rewrite Hcut. split.
      - intros (Hu & Ha & Hv & Hc). repeat split; auto.
        + apply Hsound. apply (Permutation_in _ (Hperm visited)). exact Hu.
        + intros Hr. apply Hv.
          apply (reachable_closed G s visited Hsv Hclo). exact Hr.
      - intros (Hu & Hv & Ha & Hc). repeat split; auto.
        apply (Permutation_in _ (Permutation_sym (Hperm visited))).
        apply (reachable_closed G s visited Hsv Hclo). exact Hu. }
    exists cut. split; [|split; [exact Hiff|split]].
    + unfold min_cut_report. rewrite E. cbn [rbind]. exact Ec.
    + apply Hndc.
      apply (Permutation_NoDup (Permutation_sym (Hperm visited))). exact Hnd.
    + intros u v H0. apply Hiff in H0. lia.
Qed.

Lemma flows_setb_sound (G : graph) : flows_setb G = true -> flows_set G.
Proof.
  unfold flows_setb, flows_set. rewrite forallb_forall. intros H u v a Ha.
  unfold get_edge in Ha. destruct (lookup u G) as [d|] eqn:E; [|discriminate].
  apply lookup_Some_In in E, Ha. specialize (H _ E). simpl in H.
  rewrite forallb_forall in H. specialize (H _ Ha). simpl in H.
  destruct (flow a); congruence.
Qed.

Local Open Scope string_scope.

Lemma min_cut_report_exact_witness :
  (forall l : list node, Permutation ((fun l => l) l) l) /\
  wf_graph (fst (dinic_apply 20 20 "S" "T" line_network)) /\
  flows_set (fst (dinic_apply 20 20 "S" "T" line_network)) /\
  In "S" (nodes (fst (dinic_apply 20 20 "S" "T" line_network))) /\
  exists cut,
    min_cut_report (fun l => l) 20 (fst (dinic_apply 20 20 "S" "T" line_network)) "S"
    = Ok cut /\
    forall u v, ~ In (u, v, 0) cut.
Proof.
  assert (Hperm : forall l : list node, Permutation ((fun l => l) l) l)
    by (intros l; apply Permutation_refl).
  assert (Hwf : wf_graph (fst (dinic_apply 20 20 "S" "T" line_network)))
    by (apply wf_graphb_sound; vm_compute; reflexivity).
  assert (Hfl : flows_set (fst (dinic_apply 20 20 "S" "T" line_network)))
    by (apply flows_setb_sound; vm_compute; reflexivity).
  assert (Hs : In "S" (nodes (fst (dinic_apply 20 20 "S" "T" line_network))))
    by (vm_compute; auto).
  assert (Hfuel : (1 + List.length (nodes (fst (dinic_apply 20 20 "S" "T" line_network)))
                   + List.length (edges (fst (dinic_apply 20 20 "S" "T" line_network)))
                   < 20)%nat)
    by (vm_compute; lia).
  split; [exact Hperm|]. split; [exact Hwf|]. split; [exact Hfl|].
  split; [exact Hs|].
  destruct (min_cut_report_exact (fun l => l) _ "S" 20 Hperm Hwf Hfl Hs Hfuel)
    as (cut & E & _ & _ & H0).
  exists cut. split; assumption.
Defined.

Local Close Scope string_scope.

(** ** A source or a sink that is not a node *)

Lemma bfs_for_no_sink (G : graph) (t u : node) (nbrs : adjacency) :
  (forall v a, In (v, a) nbrs -> flow a <> None /\ v <> t /\ In v (nodes G)) ->
  forall (visited q : list node) (parent : dict node),
    NoDup visited -> incl visited (nodes G) -> incl q (nodes G) ->
    exists visited' q' parent',
      bfs_for t u nbrs visited q parent = Ok (false, visited', q', parent') /\
      NoDup visited' /\ incl visited' (nodes G) /\ incl q' (nodes G) /\
      (List.length visited <= List.length visited')%nat /\
      (List.length q' + List.length visited
       = List.length q + List.length visited')%nat.
Proof.
  induction nbrs as [|[v a] nbrs IH]; intros Hn visited q parent Hnd Hv Hq.
  - exists visited, q, parent. simpl. repeat split; auto.
  - destruct (Hn v a (or_introl eq_refl)) as [Hf [Hvt Hvn]].
    assert (Hn' : forall v a, In (v, a) nbrs ->
                              flow a <> None /\ v <> t /\ In v (nodes G))
      by (intros; apply Hn; right; assumption).
    cbn [bfs_for]. destruct (flow a) as [f|]; [|congruence]. cbn [of_option rbind].
    destruct (negb (memb v visited) && (capacity a - f >? 0)) eqn:E.
    + apply andb_prop in E. destruct E as [E _].
      apply negb_true_iff, memb_false in E.
      node_cases v t; [congruence|].
      destruct (IH Hn' (visited ++ [v]) (q ++ [v]) (assign v u parent))
        as (visited' & q' & parent' & H1 & H2 & H3 & H4 & H5 & H6).
      * apply NoDup_rev in Hnd. rewrite <- (rev_involutive (visited ++ [v])).
        apply NoDup_rev. rewrite rev_app_distr. simpl. constructor; [|exact Hnd].
        rewrite <- in_rev. exact E.
      * intros x Hx. apply in_app_or in Hx. destruct Hx as [Hx|[<-|[]]]; auto.
      * intros x Hx. apply in_app_or in Hx. destruct Hx as [Hx|[<-|[]]]; auto.
      * exists visited', q', parent'. rewrite !length_app in *. simpl in *.
        repeat split; auto; lia.
    + apply IH; assumption.
Qed.

Lemma bfs_while_no_sink (G : graph) (t : node) :
  wf_graph G -> flows_set G -> ~ In t (nodes G) ->
  forall (fuel : nat) (visited q : list node) (parent : dict node),
    NoDup visited -> incl visited (nodes G) -> incl q (nodes G) ->
    (List.length q + (List.length (nodes G) - List.length visited) < fuel)%nat ->
    exists parent', bfs_while fuel G t visited q parent = Ok (false, parent').
Proof.
  intros Hwf Hfl Ht.
  induction fuel as [|k IH]; intros visited q parent Hnd Hv Hq Hm; [lia|].
  destruct q as [|u q']; [eexists; reflexivity|].
  cbn [bfs_while]. unfold adj.
  assert (Hu : In u (nodes G)) by (apply Hq; left; reflexivity).
  destruct (lookup u G) as [nbrs|] eqn:E;
    [|apply lookup_In_keys in Hu; congruence].
  cbn [of_option rbind].
  destruct Hwf as [Hnodes [Hkeys Hclosed]].
  pose proof (lookup_Some_In _ _ E) as Hin.
  destruct (@bfs_for_no_sink G t u nbrs) with (visited := visited) (q := q')
    (parent := parent) as (visited' & q'' & parent' & H1 & H2 & H3 & H4 & H5 & H6);
    auto.
  - intros v a Hva.
    assert (Hvk : In v (keys nbrs))
      by (change v with (fst (v, a)); apply in_map; exact Hva).
    assert (Hvn : In v (nodes G)) by eauto.
    repeat split; auto.
    + apply (Hfl u v). unfold get_edge. rewrite E.
      apply In_lookup; eauto.
    + intros ->. contradiction.
  - intros x Hx. apply Hq. right. exact Hx.
  - rewrite H1. cbn [rbind]. apply IH; auto.
    pose proof (NoDup_incl_length H2 H3) as Hlen.
    simpl in Hm. lia.
Qed.

Lemma flows_set_reset_flows (G : graph) : flows_set (reset_flows G).
Proof.
  intros u v a. rewrite get_edge_reset_flows.
  destruct (get_edge G u v); simpl; [|discriminate].
  intros H. injection H as <-. discriminate.
Qed.

Lemma adj_absent (G : graph) (s : node) : ~ In s (nodes G) -> adj G s = None.
Proof.
  intros H. unfold adj. destruct (lookup s G) eqn:E; [|reflexivity].
  exfalso. apply H. apply lookup_In_keys. congruence.
Qed.

(** *** The level search of Dinic returns *)

Lemma unlabelled_assign (level : dict Z) (v : node) (lv x : Z) :
  lookup v level = Some lv -> lv < 0 -> 0 <= x ->
  S (unlabelled (assign v x level)) = unlabelled level.
Proof.
  unfold unlabelled. intros Hl Hlv Hx.
  induction level as [|[k l] level IH]; simpl in *; [discriminate|].
  node_cases v k.
  - injection Hl as ->. simpl.
    destruct (Z.ltb_spec lv 0); [|lia]. destruct (Z.ltb_spec x 0); [lia|].
    reflexivity.
  - simpl. destruct (l <? 0); simpl; rewrite <- (IH Hl); reflexivity.
Qed.

Lemma keys_assign_present {V : Type} (d : dict V) (k : node) (v v' : V) :
  lookup k d = Some v -> keys (assign k v' d) = keys d.
Proof.
  intros H. rewrite keys_assign. unfold mem. rewrite H. reflexivity.
Qed.

Lemma bfs_level_for_spec (G : graph) (u : node) (lu : Z) (nbrs : dict attrs) :
  0 <= lu ->
  (forall v a, In (v, a) nbrs -> flow a <> None /\ In v (nodes G)) ->
  forall (level : dict Z) (q : list node),
    incl (nodes G) (keys level) ->
    lookup u level = Some lu ->
    exists level' q',
      bfs_level_for u nbrs level q = Ok (level', q') /\
      keys level' = keys level /\
      (forall x l, lookup x level = Some l -> 0 <= l ->
                   lookup x level' = Some l) /\
      (forall x, In x q' ->
                 In x q \/
                 (In x (nodes G) /\ exists l, lookup x level' = Some l /\ 0 <= l)) /\
      (List.length q' + unlabelled level'
       = List.length q + unlabelled level)%nat.
Proof.
  intros Hlu. induction nbrs as [|[v a] nbrs IH]; intros Hn level q Hk Hu.
  - exists level, q. simpl. repeat split; auto.
  - destruct (Hn v a (or_introl eq_refl)) as [Hf Hv].
    assert (Hn' : forall v a, In (v, a) nbrs ->
                              flow a <> None /\ In v (nodes G))
      by (intros; apply Hn; right; assumption).
    cbn [bfs_level_for].
    destruct (lookup v level) as [lv|] eqn:Elv;
      [|apply Hk, lookup_In_keys in Hv; congruence].
    cbn [of_option rbind]. destruct (Z.ltb_spec lv 0) as [Hneg|Hpos];
      [|apply IH; assumption].
    destruct (flow a) as [f|]; [|congruence]. cbn [of_option rbind].
    destruct (capacity a - f >? 0); [|apply IH; assumption].
    rewrite Hu. cbn [of_option rbind].
    assert (Hvu : v <> u) by (intros ->; rewrite Hu in Elv; injection Elv; lia).
    destruct (IH Hn' (assign v (lu + 1) level) (q ++ [v]))
      as (level' & q' & E & H1 & H2 & H3 & H4).
    + rewrite (keys_assign_present _ _ _ _ Elv). exact Hk.
    + rewrite lookup_assign. node_cases u v; [congruence|exact Hu].
    + exists level', q'. split; [exact E|].
      split; [rewrite H1; apply (keys_assign_present _ _ _ _ Elv)|].
      split; [|split].
      * intros x l Hx Hl. apply H2; [|exact Hl].
        rewrite lookup_assign. node_cases x v; [|exact Hx].
        rewrite Hx in Elv. injection Elv. lia.
      * intros x Hx. destruct (H3 x Hx) as [Hq|Hr]; [|auto].
        apply in_app_or in Hq. destruct Hq as [Hq|[<-|[]]]; [auto|].
        right. split; [exact Hv|]. exists (lu + 1). split; [|lia].
        apply H2; [|lia]. rewrite lookup_assign, node_eqb_refl. reflexivity.
      * rewrite H4, length_app. simpl.
        pose proof (unlabelled_assign level v lv (lu + 1) Elv Hneg).
        lia.
Qed.

Lemma bfs_level_while_spec (G : graph) :
  wf_graph G -> flows_set G ->
  forall (fuel : nat) (level : dict Z) (q : list node),
    incl (nodes G) (keys level) ->
    (forall x, In x q ->
               In x (nodes G) /\ exists l, lookup x level = Some l /\ 0 <= l) ->
    (List.length q + unlabelled level < fuel)%nat ->
    exists level',
      bfs_level_while fuel G level q = Ok level' /\ keys level' = keys level.
Proof.
  intros Hwf Hfl.
  induction fuel as [|k IH]; intros level q Hk Hq Hm; [lia|].
  destruct q as [|u q]; [exists level; split; reflexivity|].
  cbn [bfs_level_while]. unfold adj.
  destruct (Hq u (or_introl eq_refl)) as [Hu (lu & Elu & Hlu)].
  destruct (lookup u G) as [nbrs|] eqn:E;
    [|apply lookup_In_keys in Hu; congruence].
  cbn [of_option rbind].
  destruct (bfs_level_for_spec G u lu nbrs Hlu) with (level := level) (q := q)
    as (level' & q' & E' & H1 & H2 & H3 & H4); auto.
  - intros v a Hva. split.
    + apply (Hfl u v). apply (adjacency_entry G Hwf u v nbrs a E Hva).
    + apply (adjacency_closed G Hwf u v nbrs a E Hva).
  - rewrite E'. cbn [rbind fst snd].
    destruct (IH level' q') as (level'' & E'' & H5).
    + rewrite H1. exact Hk.
    + intros x Hx. destruct (H3 x Hx) as [Hx'|Hx']; [|exact Hx'].
      destruct (Hq x (or_intror Hx')) as [Hxn (l & El & Hl)].
      split; [exact Hxn|]. exists l. split; [apply H2; assumption|exact Hl].
    + simpl in Hm. lia.
    + exists level''. split; [exact E''|]. rewrite H5. exact H1.
Qed.

Lemma unlabelled_le_length (level : dict Z) :
  (unlabelled level <= List.length level)%nat.
Proof. unfold unlabelled. apply filter_length_le. Qed.

Lemma flows_set_prepare_graph (G : graph) :
  NoDup (nodes G) -> flows_set (prepare_graph G).
Proof.
  intros Hnd u v a Ha.
  assert (He : has_edge (prepare_graph G) u v = true)
    by (apply has_edge_true; eauto).
  destruct (prepare_graph_settled G Hnd u v He) as [Hf _]. exact (Hf a Ha).
Qed.

(** With the source a node and the sink not, the first level search of
    Dinic returns and [level[t]] raises. *)
Lemma dinic_while_no_sink (G : graph) (s t : node) (k n limit : nat) :
  wf_graph G -> flows_set G -> In s (nodes G) -> ~ In t (nodes G) ->
  (S (List.length (nodes G)) < n)%nat ->
  dinic_while (S k) n limit s t (Fin 0) G = (G, Raise KeyError).
Proof.
  intros Hwf Hfl Hs Ht Hn. cbn [dinic_while]. unfold bind at 1, read at 1.
  unfold bfs_level.
  set (level0 := map (fun x : node => (x, -1)) (nodes G)).
  assert (Hk0 : keys level0 = nodes G).
  { unfold level0, keys. rewrite map_map. simpl. apply map_id. }
  assert (Hs0 : lookup s level0 = Some (-1)).
  { assert (H : In (s, -1) level0)
      by (unfold level0; apply in_map_iff; exists s; auto).
    apply In_lookup; [|exact H]. rewrite Hk0. apply Hwf. }
  destruct (bfs_level_while_spec G Hwf Hfl n (assign s 0 level0) [s])
    as (level & E & Hk).
  - rewrite (keys_assign_present _ _ _ _ Hs0), Hk0. apply incl_refl.
  - intros x [<-|[]]. split; [exact Hs|]. exists 0. split; [|lia].
    rewrite lookup_assign, node_eqb_refl. reflexivity.
  - pose proof (unlabelled_le_length (assign s 0 level0)) as Hle.
    assert (Hlen : List.length (assign s 0 level0) = List.length (nodes G)).
    { rewrite <- (length_map fst). change (map fst (assign s 0 level0))
        with (keys (assign s 0 level0)).
      rewrite (keys_assign_present _ _ _ _ Hs0), Hk0. reflexivity. }
    simpl. lia.
  - rewrite E. unfold bind at 1, read at 1.
    rewrite (keys_assign_present _ _ _ _ Hs0), Hk0 in Hk.
    destruct (lookup t level) as [lt|] eqn:Elt; [|reflexivity].
    exfalso. apply Ht. rewrite <- Hk. apply lookup_In_keys. congruence.
Qed.

(** C5, as the code has it.  There is no check of the end points.  A
    source that is not a node makes each solver fail with the [KeyError]
    of its first [G[s]], after [prepare_graph] (and, in Edmonds-Karp, the
    reset of the flows) has been applied to the graph, which stays in that
    state.  A sink that is not a node, the source being one, makes
    Edmonds-Karp fail not at all: it returns no step and max-flow 0, and
    leaves the graph prepared with all flows 0; Dinic runs its first level
    search to the end and fails with the [KeyError] of [level[t]], the
    graph prepared. *)
Theorem missing_endpoint_behaviour (G : graph) (s t : node) (fuel limit : nat) :
  wf_graph G -> (1 + List.length (nodes G) < fuel)%nat ->
  (~ In s (nodes G) ->
     edmonds_karp_steps fuel s t G
       = (reset_flows (prepare_graph G), Raise KeyError) /\
     dinic_apply fuel limit s t G = (prepare_graph G, Raise KeyError) /\
     push_relabel_apply fuel s t G = (prepare_graph G, Raise KeyError)) /\
  (In s (nodes G) -> ~ In t (nodes G) ->
     edmonds_karp_steps fuel s t G
       = (reset_flows (prepare_graph G), Ok ([], Fin 0)) /\
     dinic_apply fuel limit s t G = (prepare_graph G, Raise KeyError)).
Proof.
  intros Hwf Hfuel.
  pose proof (nodes_prepare_graph Hwf) as Hn.
  split.
  - intros Hs. destruct fuel as [|k]; [lia|].
    assert (E1 : adj (prepare_graph G) s = None)
      by (apply adj_absent; rewrite Hn; exact Hs).
    assert (E2 : adj (reset_flows (prepare_graph G)) s = None)
      by (apply adj_absent; rewrite nodes_reset_flows, Hn; exact Hs).
    repeat split.
    + rewrite edmonds_karp_steps_unfold. cbn [ek_while].
      unfold bind at 1. unfold read at 1. unfold bfs. cbn [bfs_while].
      rewrite E2. reflexivity.
    + unfold dinic_apply. unfold bind at 1. unfold update at 1.
      cbn [dinic_while]. unfold bind at 1. unfold read at 1.
      unfold bfs_level. cbn [bfs_level_while]. rewrite E1. reflexivity.
    + unfold push_relabel_apply, push_relabel_run.
      unfold bind at 1. unfold bind at 1. unfold update at 1.
      unfold bind at 1. unfold read at 1.
      unfold bind at 1. unfold read at 1. rewrite E1. reflexivity.
  - intros Hs Ht. split.
    + rewrite edmonds_karp_steps_unfold.
      set (G' := reset_flows (prepare_graph G)).
      assert (Hn' : nodes G' = nodes G)
        by (unfold G'; rewrite nodes_reset_flows; exact Hn).
      assert (Hwf' : wf_graph G')
        by (apply wf_graph_reset_flows, wf_graph_prepare_graph, Hwf).
      destruct fuel as [|k]; [lia|]. cbn [ek_while].
      unfold bind at 1. unfold read at 1. unfold bfs.
      destruct (bfs_while_no_sink G' t Hwf' (flows_set_reset_flows _))
        with (fuel := S k) (visited := [s]) (q := [s])
             (parent := @nil (node * node))
        as [parent' E].
      * rewrite Hn'. exact Ht.
      * constructor; [intros []|constructor].
      * intros x [<-|[]]. rewrite Hn'. exact Hs.
      * intros x [<-|[]]. rewrite Hn'. exact Hs.
      * rewrite Hn'. simpl. destruct (nodes G); [destruct Hs|simpl in *; lia].
      * rewrite E. reflexivity.
    + unfold dinic_apply. unfold bind at 1. unfold update at 1.
      destruct fuel as [|k]; [lia|].
      apply dinic_while_no_sink.
      * apply wf_graph_prepare_graph, Hwf.
      * apply flows_set_prepare_graph, Hwf.
      * rewrite Hn. exact Hs.
      * rewrite Hn. exact Ht.
      * rewrite Hn. simpl in Hfuel. lia.
Qed.

Local Open Scope string_scope.

Lemma missing_endpoint_behaviour_witness :
  wf_graph line_network /\
  (1 + List.length (nodes line_network) < 10)%nat /\
  edmonds_karp_steps 10 "S" "Z" line_network
  = (reset_flows (prepare_graph line_network), Ok ([], Fin 0)) /\
  dinic_apply 10 10 "S" "Z" line_network
  = (prepare_graph line_network, Raise KeyError).
Proof.
  assert (Hwf : wf_graph line_network) by (apply wf_graphb_sound; reflexivity).
  assert (Hlen : (1 + List.length (nodes line_network) < 10)%nat)
    by (vm_compute; lia).
  split; [exact Hwf|]. split; [exact Hlen|].
  apply (missing_endpoint_behaviour line_network "S" "Z" 10 10 Hwf Hlen).
  - vm_compute. tauto.
  - vm_compute. intros [H|[H|[H|[]]]]; discriminate.
Defined.

(** On the line network an unknown sink is not rejected at all, and an
    unknown source is rejected only once the graph has been changed: no
    run ends in an error with the graph as it was. *)
Lemma missing_endpoint_counterexample :
  ~ (exists fuel,
        rejected_untouched (edmonds_karp_steps fuel "S" "Z" line_network)
                           line_network) /\
  ~ (exists fuel,
        rejected_untouched (edmonds_karp_steps fuel "Z" "T" line_network)
                           line_network).
Proof.
  split; intros [fuel [e H]].
  - destruct fuel as [|[|[|[|k]]]]; vm_compute in H; discriminate.
  - destruct fuel as [|k]; vm_compute in H; discriminate.
Qed.

Local Close Scope string_scope.

(** ** Further facts about the solvers *)

(** Edmonds-Karp resets the flows, so it leaves the graph skew-symmetric
    whatever flow values the graph came with. *)
Lemma edmonds_karp_skew_any_flow (G : graph) (s t : node) (fuel : nat) :
  NoDup (nodes G) ->
  skew_symmetric (fst (edmonds_karp_steps fuel s t G)).
Proof.
  intros Hnd. rewrite edmonds_karp_steps_unfold. apply keeps_ek_while.
  apply skew_reset_prepare. exact Hnd.
Qed.

(** The level search never raises on a well-formed graph with all flows
    set, whatever the fuel, and it leaves the level of the source at 0. *)
Lemma bfs_level_while_source (G : graph) (s : node) :
  wf_graph G -> flows_set G ->
  forall (fuel : nat) (level : dict Z) (q : list node),
    incl (nodes G) (keys level) ->
    (forall x, In x q ->
               In x (nodes G) /\ exists l, lookup x level = Some l /\ 0 <= l) ->
    lookup s level = Some 0 ->
    bfs_level_while fuel G level q = OutOfFuel \/
    exists level', bfs_level_while fuel G level q = Ok level' /\
                   lookup s level' = Some 0.
Proof.
  intros Hwf Hfl.
  induction fuel as [|k IH]; intros level q Hk Hq Hs; [left; reflexivity|].
  destruct q as [|u q]; [right; exists level; split; [reflexivity|exact Hs]|].
  cbn [bfs_level_while]. unfold adj.
  destruct (Hq u (or_introl eq_refl)) as [Hu (lu & Elu & Hlu)].
  destruct (lookup u G) as [nbrs|] eqn:E;
    [|apply lookup_In_keys in Hu; congruence].
  cbn [of_option rbind].
  destruct (bfs_level_for_spec G u lu nbrs Hlu) with (level := level) (q := q)
    as (level' & q' & E' & H1 & H2 & H3 & H4); auto.
  - intros v a Hva. split.
    + apply (Hfl u v). apply (adjacency_entry G Hwf u v nbrs a E Hva).
    + apply (adjacency_closed G Hwf u v nbrs a E Hva).
  - rewrite E'. cbn [rbind fst snd]. apply IH.
    + rewrite H1. exact Hk.
    + intros x Hx. destruct (H3 x Hx) as [Hx'|Hx']; [|exact Hx'].
      destruct (Hq x (or_intror Hx')) as [Hxn (l & El & Hl)].
      split; [exact Hxn|]. exists l. split; [apply H2; assumption|exact Hl].
    + apply H2; [exact Hs|lia].
Qed.

(** With source = sink at any node of any well-formed graph, Dinic does
    not return. *)
Lemma dinic_diverges_at_any_node (G : graph) (s : node) (fuel limit : nat) :
  wf_graph G -> In s (nodes G) ->
  dinic_apply fuel limit s s G = (prepare_graph G, OutOfFuel).
Proof.
  intros Hwf Hs. unfold dinic_apply. unfold bind at 1. unfold update at 1.
  set (G' := prepare_graph G).
  assert (Hwf' : wf_graph G') by (apply wf_graph_prepare_graph, Hwf).
  assert (Hfl : flows_set G') by (apply flows_set_prepare_graph, Hwf).
  assert (Hs' : In s (nodes G'))
    by (unfold G'; rewrite (nodes_prepare_graph Hwf); exact Hs).
  destruct fuel as [|k]; [reflexivity|].
  cbn [dinic_while]. unfold bind at 1, read at 1. unfold bfs_level.
  set (level0 := map (fun x : node => (x, -1)) (nodes G')).
  assert (Hk0 : keys level0 = nodes G').
  { unfold level0, keys. rewrite map_map. simpl. apply map_id. }
  assert (Hs0 : lookup s level0 = Some (-1)).
  { assert (H : In (s, -1) level0)
      by (unfold level0; apply in_map_iff; exists s; auto).
    apply In_lookup; [|exact H]. rewrite Hk0. apply Hwf'. }
  destruct (bfs_level_while_source G' s Hwf' Hfl (S k) (assign s 0 level0) [s])
    as [E|(level & E & Hl)].
  - rewrite (keys_assign_present _ _ _ _ Hs0), Hk0. apply incl_refl.
  - intros x [<-|[]]. split; [exact Hs'|]. exists 0. split; [|lia].
    rewrite lookup_assign, node_eqb_refl. reflexivity.
  - rewrite lookup_assign, node_eqb_refl. reflexivity.
  - rewrite E. reflexivity.
  - rewrite E. unfold bind at 1, read at 1. rewrite Hl. cbn [of_option].
    cbn [Z.ltb Z.compare]. unfold bind at 1, read at 1.
    unfold bind at 1. rewrite dinic_blocking_same_node. reflexivity.
Qed.

Local Open Scope string_scope.

(** Push-relabel assigns the flow of the source edges ([G[s][v]['flow'] =
    cap]); on a graph that already carries a flow this is not a change by
    [d] and [- d]: run on the line network as Edmonds-Karp left it,
    push-relabel ends with flow 0 on S->A and -3 on A->S. *)
Lemma push_relabel_on_a_solved_graph :
  let solved := fst (edmonds_karp_steps 20 "S" "T" line_network) in
  let again := fst (push_relabel_apply 20 "S" "T" solved) in
  skew_symmetric solved /\
  flow_of again "S" "A" = Ok 0 /\ flow_of again "A" "S" = Ok (-3).
Proof.
  split.
  - apply edmonds_karp_skew_any_flow. apply nodupb_sound. reflexivity.
  - vm_compute. split; reflexivity.
Qed.

Local Close Scope string_scope.

(** * Further properties of the code *)

(** ** What [prepare_graph] does to the edge table *)

Lemma setdefault_flow_twice (a : attrs) :
  setdefault_flow (setdefault_flow a) = setdefault_flow a.
Proof. apply setdefault_flow_id, setdefault_flow_set. Qed.

(** Every edge of the graph the loop started from is still there, with its
    attributes as they were or with the default flow filled in; every other
    edge is the fresh reverse of an edge it started from. *)
Lemma prepare_loop_table (G0 : graph) (rem : list (node * node)) :
  forall G : graph,
    (forall u v, In (u, v) rem -> has_edge G0 u v = true) ->
    (forall x y a, get_edge G0 x y = Some a ->
                   get_edge G x y = Some a \/
                   get_edge G x y = Some (setdefault_flow a)) ->
    (forall x y, get_edge G0 x y = None ->
                 get_edge G x y = None \/
                 (get_edge G x y = Some (mkAttrs 0 (Some 0)) /\
                  has_edge G0 y x = true)) ->
    (forall x y a, get_edge G0 x y = Some a ->
                   get_edge (fold_left prepare_step rem G) x y = Some a \/
                   get_edge (fold_left prepare_step rem G) x y
                   = Some (setdefault_flow a)) /\
    (forall x y, get_edge G0 x y = None ->
                 get_edge (fold_left prepare_step rem G) x y = None \/
                 (get_edge (fold_left prepare_step rem G) x y
                  = Some (mkAttrs 0 (Some 0)) /\
                  has_edge G0 y x = true)).
Proof.
  induction rem as [|[u v] rem IH]; intros G Hrem Ha Hb; cbn [fold_left];
    [split; assumption|].
  assert (Huv : has_edge G0 u v = true) by (apply Hrem; left; reflexivity).
  apply has_edge_true in Huv. destruct Huv as [a0 Ha0].
  apply IH.
  - intros x y Hin. apply Hrem. right. exact Hin.
  - intros x y a Hxy. rewrite get_edge_prepare_step.
    destruct (node_eqb x v && node_eqb y u) eqn:E1.
    + apply andb_prop in E1. destruct E1 as [Ex Ey].
      apply (reflect_iff _ _ (node_eqb_spec _ _)) in Ex, Ey. subst x y.
      rewrite get_edge_modify_edge.
      destruct (node_eqb v u && node_eqb u v) eqn:E2.
      * apply andb_prop in E2. destruct E2 as [Ev _].
        apply (reflect_iff _ _ (node_eqb_spec _ _)) in Ev. subst v.
        destruct (Ha u u a Hxy) as [-> | ->]; simpl; right;
          rewrite ?setdefault_flow_twice; reflexivity.
      * destruct (Ha v u a Hxy) as [-> | ->]; right;
          rewrite ?setdefault_flow_twice; reflexivity.
    + rewrite get_edge_modify_edge.
      destruct (node_eqb x u && node_eqb y v) eqn:E2; [|apply Ha; exact Hxy].
      apply andb_prop in E2. destruct E2 as [Ex Ey].
      apply (reflect_iff _ _ (node_eqb_spec _ _)) in Ex, Ey. subst x y.
      destruct (Ha u v a Hxy) as [-> | ->]; simpl; right;
        rewrite ?setdefault_flow_twice; reflexivity.
  - intros x y Hxy. rewrite get_edge_prepare_step.
    destruct (node_eqb x v && node_eqb y u) eqn:E1.
    + apply andb_prop in E1. destruct E1 as [Ex Ey].
      apply (reflect_iff _ _ (node_eqb_spec _ _)) in Ex, Ey. subst x y.
      right. rewrite get_edge_modify_edge.
      rewrite pair_neq_eqb by (intros E; injection E as -> _; congruence).
      destruct (Hb v u Hxy) as [-> | [-> _]].
      * split; [reflexivity|]. apply has_edge_true. eauto.
      * split; [reflexivity|]. apply has_edge_true. eauto.
    + rewrite get_edge_modify_edge.
      rewrite pair_neq_eqb by (intros E; injection E as -> ->; congruence).
      apply Hb. exact Hxy.
Qed.

Lemma get_edge_prepare_graph (G : graph) (u v : node) :
  NoDup (nodes G) ->
  get_edge (prepare_graph G) u v
  = match get_edge G u v with
    | Some a => Some (setdefault_flow a)
    | None => if has_edge G v u then Some (mkAttrs 0 (Some 0)) else None
    end.
Proof.
  intros Hnd.
  destruct (prepare_loop_table G (edges G) G) as [Ha Hb].
  - intros x y. apply in_edges_has_edge. exact Hnd.
  - intros x y a H. left. exact H.
  - intros x y H. left. exact H.
  - fold (prepare_graph G) in Ha, Hb.
    pose proof (prepare_graph_settled G Hnd) as Hset.
    destruct (get_edge G u v) as [a|] eqn:E.
    + destruct (Ha u v a E) as [H|H]; [|exact H].
      rewrite H. f_equal. symmetry. apply setdefault_flow_id.
      assert (He : has_edge (prepare_graph G) u v = true)
        by (apply has_edge_true; eauto).
      apply (proj1 (Hset u v He) a H).
    + destruct (Hb u v E) as [H|[H Hr]].
      * destruct (has_edge G v u) eqn:Hr; [|exact H].
        exfalso. apply has_edge_true in Hr. destruct Hr as [b Hb'].
        assert (He : has_edge (prepare_graph G) v u = true).
        { apply has_edge_true. destruct (Ha v u b Hb'); eauto. }
        destruct (Hset v u He) as [_ Hrev]. unfold has_edge in Hrev.
        rewrite H in Hrev. discriminate.
      * rewrite Hr. exact H.
Qed.

(** X1. The edge table after [prepare_graph]: an edge that was there keeps
    its capacity and its flow (0 if it had none), a missing reverse of an
    edge is there with capacity 0 and flow 0, and there is no other edge:
    the edges are those of the graph and their reverses. *)
Theorem prepare_graph_edge_table (G : graph) (u v : node) :
  NoDup (nodes G) ->
  get_edge (prepare_graph G) u v
  = match get_edge G u v with
    | Some a => Some (setdefault_flow a)
    | None => if has_edge G v u then Some (mkAttrs 0 (Some 0)) else None
    end /\
  has_edge (prepare_graph G) u v = has_edge G u v || has_edge G v u.
Proof.
  intros Hnd. pose proof (get_edge_prepare_graph G u v Hnd) as H.
  split; [exact H|]. unfold has_edge at 1 2. rewrite H.
  destruct (get_edge G u v); [reflexivity|].
  destruct (has_edge G v u); reflexivity.
Qed.

(** X2. [prepare_graph] adds no node, keeps the graph well-formed, and
    leaves every edge with a flow value and a reverse edge. *)
Theorem prepare_graph_structure (G : graph) :
  wf_graph G ->
  nodes (prepare_graph G) = nodes G /\
  wf_graph (prepare_graph G) /\
  forall u v a, get_edge (prepare_graph G) u v = Some a ->
                flow a <> None /\ has_edge (prepare_graph G) v u = true.
Proof.
  intros Hwf. split; [apply nodes_prepare_graph, Hwf|].
  split; [apply wf_graph_prepare_graph, Hwf|].
  intros u v a Ha.
  assert (He : has_edge (prepare_graph G) u v = true)
    by (apply has_edge_true; eauto).
  destruct (prepare_graph_settled G (proj1 Hwf) u v He) as [Hf Hr].
  split; [exact (Hf a Ha)|exact Hr].
Qed.

(** ** Invariants of every flow update *)

(** A property of the graph that each single flow update keeps is kept by
    the three solvers after their preparation step and by the loops of the
    path decomposer. *)
Section FlowUpdates.
Variable P : graph -> Prop.
Hypothesis Hadd : forall u v d, keeps P (add_flow u v d).
Hypothesis Hassign : forall u v f, keeps P (assign_flow u v f).

Ltac flow_step :=
  lazymatch goal with
  | |- keeps _ (bind _ _) => apply keeps_bind; [|intros]
  | |- keeps _ (ret _) => apply keeps_ret
  | |- keeps _ (read _) => apply keeps_read
  | |- keeps _ out_of_fuel => apply keeps_out_of_fuel
  | |- keeps _ (add_flow _ _ _) => apply Hadd
  | |- keeps _ (assign_flow _ _ _) => apply Hassign
  | |- keeps _ (push_flow _ _ _) => unfold push_flow
  | |- keeps _ (push_flow_num _ _ ?d) => destruct d; cbn [push_flow_num]
  | |- keeps _ (fun G => (G, Unmodelled)) => intros ? ?; assumption
  | |- keeps _ (for_each _ _) => apply keeps_for_each; intros
  | |- keeps _ (if ?b then _ else _) => destruct b
  | |- keeps _ (match ?x with _ => _ end) => destruct x
  end.

Lemma flow_keeps_push_flow (u v : node) (d : Z) : keeps P (push_flow u v d).
Proof. repeat flow_step. Qed.

Lemma flow_keeps_ek_while (n : nat) (s t : node) :
  forall fuel parent max_flow steps,
    keeps P (ek_while fuel n s t parent max_flow steps).
Proof.
  induction fuel as [|k IH]; intros; cbn [ek_while].
  - apply keeps_out_of_fuel.
  - repeat (first [apply IH | flow_step]).
Qed.

Lemma flow_keeps_dfs (t : node) (level : dict Z) :
  forall fuel depth u pushed it, keeps P (dfs fuel depth t level u pushed it).
Proof.
  induction fuel as [|k IH]; intros; cbn [dfs].
  - apply keeps_out_of_fuel.
  - repeat (first [apply IH | flow_step]).
Qed.

Lemma flow_keeps_dinic_blocking (n limit : nat) (s t : node) (level : dict Z) :
  forall fuel it max_flow,
    keeps P (dinic_blocking fuel n limit s t level it max_flow).
Proof.
  induction fuel as [|k IH]; intros; cbn [dinic_blocking].
  - apply keeps_out_of_fuel.
  - repeat (first [apply IH | apply flow_keeps_dfs | flow_step]).
Qed.

Lemma flow_keeps_dinic_while (n limit : nat) (s t : node) :
  forall fuel max_flow, keeps P (dinic_while fuel n limit s t max_flow).
Proof.
  induction fuel as [|k IH]; intros; cbn [dinic_while].
  - apply keeps_out_of_fuel.
  - repeat (first [apply IH | apply flow_keeps_dinic_blocking | flow_step]).
Qed.

Lemma flow_keeps_push (u v : node) (st : pr_state) : keeps P (push u v st).
Proof. unfold push. repeat flow_step. Qed.

Lemma flow_keeps_relabel (u : node) (st : pr_state) : keeps P (relabel u st).
Proof. unfold relabel. repeat flow_step. Qed.

Lemma flow_keeps_discharge_for (s t u : node) (vs : list node) :
  forall st, keeps P (discharge_for s t u vs st).
Proof.
  induction vs as [|v vs IH]; intros; cbn [discharge_for].
  - apply keeps_ret.
  - repeat (first [apply IH | apply flow_keeps_push | flow_step]).
Qed.

Lemma flow_keeps_pr_while (s t : node) :
  forall fuel i st, keeps P (pr_while fuel s t i st).
Proof.
  induction fuel as [|k IH]; intros; cbn [pr_while].
  - apply keeps_out_of_fuel.
  - repeat (first [apply IH | apply flow_keeps_discharge_for
                  | apply flow_keeps_relabel | flow_step]).
Qed.

Lemma flow_keeps_saturate_for (s : node) (vs : list node) :
  forall excess, keeps P (saturate_for s vs excess).
Proof.
  induction vs as [|v vs IH]; intros; cbn [saturate_for].
  - apply keeps_ret.
  - repeat (first [apply IH | flow_step]).
Qed.

Lemma flow_keeps_paths_dfs (t : node) :
  forall fuel u path f paths, keeps P (paths_dfs fuel t u path f paths).
Proof.
  induction fuel as [|k IH]; intros; cbn [paths_dfs];
    (destruct (node_eqb u t); [apply keeps_ret|]).
  - apply keeps_read.
  - apply keeps_bind; [apply keeps_read|]. intros nbrs.
    generalize paths. induction (keys nbrs) as [|v vs IHvs]; intros paths0.
    + apply keeps_ret.
    + repeat (first [apply IH | apply IHvs | flow_step]).
Qed.

Lemma flow_keeps_paths_for (fuel : nat) (s t : node) (vs : list node) :
  forall paths, keeps P (paths_for fuel s t vs paths).
Proof.
  induction vs as [|v vs IH]; intros; cbn [paths_for].
  - apply keeps_ret.
  - repeat (first [apply IH | apply flow_keeps_paths_dfs | flow_step]).
Qed.

Lemma flow_keeps_solvers (G : graph) (s t : node) (fuel limit : nat) :
  P (reset_flows (prepare_graph G)) -> P (prepare_graph G) ->
  P (fst (edmonds_karp_steps fuel s t G)) /\
  P (fst (dinic_apply fuel limit s t G)) /\
  P (fst (push_relabel_apply fuel s t G)) /\
  P (fst (extract_flow_paths fuel s t G)).
Proof.
  intros Hr Hp. split; [|split; [|split]].
  - rewrite edmonds_karp_steps_unfold. apply flow_keeps_ek_while. exact Hr.
  - unfold dinic_apply. unfold bind at 1. unfold update at 1.
    apply flow_keeps_dinic_while. exact Hp.
  - unfold push_relabel_apply, push_relabel_run.
    rewrite bind_assoc. unfold bind at 1. unfold update at 1.
    revert Hp. generalize (prepare_graph G).
    change (keeps P
      (bind (bind (read (fun G => Ok (nodes G)))
        (fun ns =>
          let n := Z.of_nat (List.length ns) in
          let height0 := assign s n (map (fun u => (u, 0)) ns) in
          let excess0 := map (fun u : node => (u, 0)) ns in
          bind (read (fun G => of_option (adj G s)))
            (fun nbrs =>
              bind (saturate_for s (keys nbrs) excess0)
                (fun excess1 =>
                  bind (read (fun _ => initial_active s t ns excess1))
                    (fun act =>
                      bind (pr_while fuel s t 0 (mkPR height0 excess1 act []))
                        (fun st =>
                          bind (read (flow_into t))
                            (fun total => ret (total, trace st))))))))
        (fun r => ret (fst r)))).
    repeat (first [apply flow_keeps_pr_while | apply flow_keeps_saturate_for
                  | progress cbv zeta | flow_step]).
  - unfold extract_flow_paths. unfold bind at 1. unfold update at 1.
    revert Hp. generalize (prepare_graph G).
    change (keeps P
      (bind (read (fun G => of_option (adj G s)))
            (fun nbrs => paths_for fuel s t (keys nbrs) []))).
    repeat (first [apply flow_keeps_paths_for | flow_step]).
Qed.
End FlowUpdates.

(** ** A solve changes flow values only *)

Lemma erase_flows_modify_set_flow (u v : node) (x : Z) (G : graph) :
  erase_flows (modify_edge u v (set_flow x) G) = erase_flows G.
Proof.
  unfold erase_flows, modify_edge.
  rewrite (@map_values_modify _ _ _ (fun d => d)).
  - apply modify_id. reflexivity.
  - intros d. rewrite (@map_values_modify _ _ _ (fun a => a)).
    + apply modify_id. reflexivity.
    + intros a. reflexivity.
Qed.

Lemma erase_flows_reset_flows (G : graph) :
  erase_flows (reset_flows G) = erase_flows G.
Proof.
  unfold reset_flows, erase_flows. rewrite map_values_compose.
  apply map_values_ext. intros d. rewrite map_values_compose. reflexivity.
Qed.

Lemma keeps_erased_add_flow (E : graph) (u v : node) (d : Z) :
  keeps (fun G => erase_flows G = E) (add_flow u v d).
Proof.
  intros G H. unfold add_flow, bind, read, update.
  destruct (flow_of G u v); simpl; try exact H.
  rewrite erase_flows_modify_set_flow. exact H.
Qed.

Lemma keeps_erased_assign_flow (E : graph) (u v : node) (f : Z) :
  keeps (fun G => erase_flows G = E) (assign_flow u v f).
Proof.
  intros G H. unfold assign_flow, bind, read, update.
  destruct (of_option (get_edge G u v)); simpl; try exact H.
  rewrite erase_flows_modify_set_flow. exact H.
Qed.

(** X3. Beyond [prepare_graph], the three solvers and the path decomposer
    change flow values and nothing else: at every point of a run the graph
    has the nodes, the edges (in the same order) and the capacities of the
    prepared graph. *)
Theorem solvers_change_flows_only (G : graph) (s t : node) (fuel limit : nat) :
  erase_flows (fst (edmonds_karp_steps fuel s t G))
    = erase_flows (prepare_graph G) /\
  erase_flows (fst (dinic_apply fuel limit s t G)) = erase_flows (prepare_graph G) /\
  erase_flows (fst (push_relabel_apply fuel s t G))
    = erase_flows (prepare_graph G) /\
  erase_flows (fst (extract_flow_paths fuel s t G))
    = erase_flows (prepare_graph G).
Proof.
  apply (flow_keeps_solvers
           (fun G' => erase_flows G' = erase_flows (prepare_graph G))).
  - apply keeps_erased_add_flow.
  - apply keeps_erased_assign_flow.
  - apply erase_flows_reset_flows.
  - reflexivity.
Qed.

Lemma lookup_erase_flows (G : graph) (u : node) :
  lookup u (erase_flows G)
  = option_map (map_values (fun a => mkAttrs (capacity a) None)) (lookup u G).
Proof. unfold erase_flows. apply lookup_map_values. Qed.

Lemma nodes_erase_flows (G : graph) : nodes (erase_flows G) = nodes G.
Proof. apply keys_map_values. Qed.

Lemma wf_graph_same_structure (G G' : graph) :
  erase_flows G = erase_flows G' -> wf_graph G' -> wf_graph G.
Proof.
  intros He. rewrite !wf_graph_lookup.
  rewrite <- (nodes_erase_flows G), <- (nodes_erase_flows G'), He.
  intros [Hnd H]. split; [exact Hnd|]. intros u d Hd.
  pose proof (lookup_erase_flows G u) as E1. rewrite Hd in E1. simpl in E1.
  rewrite He, lookup_erase_flows in E1.
  destruct (lookup u G') as [d'|] eqn:E'; [|discriminate].
  simpl in E1. injection E1 as E1.
  assert (Hk : keys d = keys d').
  { rewrite <- (keys_map_values (fun a => mkAttrs (capacity a) None) d),
            <- (keys_map_values (fun a => mkAttrs (capacity a) None) d'), E1.
    reflexivity. }
  rewrite Hk. apply (H u d' E').
Qed.

Lemma get_edge_erase_flows (G : graph) (u v : node) :
  get_edge (erase_flows G) u v
  = option_map (fun a => mkAttrs (capacity a) None) (get_edge G u v).
Proof.
  unfold get_edge. rewrite lookup_erase_flows.
  destruct (lookup u G); simpl; [apply lookup_map_values|reflexivity].
Qed.

(** Two graphs of the same structure have the same edges with the same
    capacities. *)
Lemma capacity_same_structure (G G' : graph) (u v : node) a :
  erase_flows G = erase_flows G' -> get_edge G u v = Some a ->
  exists a', get_edge G' u v = Some a' /\ capacity a' = capacity a.
Proof.
  intros He Ha. pose proof (get_edge_erase_flows G u v) as E.
  rewrite Ha, He, get_edge_erase_flows in E. simpl in E.
  destruct (get_edge G' u v) as [a'|]; [|discriminate].
  simpl in E. injection E as E. eauto.
Qed.

(** ** The capacity bound *)

Lemma get_edge_add_flow (u v : node) (d : Z) (G : graph) (x y : node) :
  get_edge (fst (add_flow u v d G)) x y
  = match get_edge G u v with
    | Some a =>
        match flow a with
        | Some f =>
            if node_eqb x u && node_eqb y v
            then Some (set_flow (f + d) a) else get_edge G x y
        | None => get_edge G x y
        end
    | None => get_edge G x y
    end.
Proof.
  unfold add_flow, bind, read, update, flow_of.
  destruct (get_edge G u v) as [a|] eqn:Ea; simpl; [|reflexivity].
  destruct (flow a) as [f|]; simpl; [|reflexivity].
  rewrite get_edge_modify_edge, Ea. reflexivity.
Qed.

Lemma capacities_nonneg_add_flow (u v : node) (d : Z) :
  keeps capacities_nonneg (add_flow u v d).
Proof.
  intros G H x y c. rewrite get_edge_add_flow.
  destruct (get_edge G u v) as [a|] eqn:Ea; [|apply H].
  destruct (flow a) as [f|]; [|apply H].
  destruct (node_eqb x u && node_eqb y v); [|apply H].
  intros E. injection E as <-. simpl. apply (H u v a Ea).
Qed.

Lemma capacities_nonneg_assign_flow (u v : node) (f : Z) :
  keeps capacities_nonneg (assign_flow u v f).
Proof.
  intros G H x y c. unfold assign_flow, bind, read, update.
  destruct (get_edge G u v) as [a|] eqn:Ea; simpl; [|apply H].
  rewrite get_edge_modify_edge, Ea.
  destruct (node_eqb x u && node_eqb y v); [|apply H].
  simpl. intros E. injection E as <-. simpl. apply (H u v a Ea).
Qed.

(** A flow update by at most the residual capacity keeps the bound. *)
Lemma capacity_add_flow (u v : node) (d : Z) (G : graph) :
  capacity_respected G ->
  (forall r, residual G u v = Ok r -> d <= r) ->
  capacity_respected (fst (add_flow u v d G)).
Proof.
  intros H Hd x y c g. rewrite get_edge_add_flow.
  destruct (get_edge G u v) as [a|] eqn:Ea; [|apply H].
  destruct (flow a) as [f|] eqn:Ef; [|apply H].
  destruct (node_eqb x u && node_eqb y v); [|apply H].
  intros E. injection E as <-. simpl. intros E. injection E as <-.
  specialize (Hd (capacity a - f)). unfold residual, capacity_of, flow_of in Hd.
  rewrite Ea in Hd. simpl in Hd. rewrite Ef in Hd. simpl in Hd.
  specialize (Hd eq_refl). lia.
Qed.

Lemma capacity_add_flow_down (u v : node) (d : Z) (G : graph) :
  capacity_respected G -> d <= 0 ->
  capacity_respected (fst (add_flow u v d G)).
Proof.
  intros H Hd. apply capacity_add_flow; [exact H|].
  intros r Hr. unfold residual, capacity_of, flow_of in Hr.
  destruct (get_edge G u v) as [a|] eqn:Ea; [|discriminate]. simpl in Hr.
  destruct (flow a) as [f|] eqn:Ef; [|discriminate]. simpl in Hr.
  injection Hr as <-. pose proof (H u v a f Ea Ef). lia.
Qed.

Lemma within_capacity_push_flow (u v : node) (d : Z) (G : graph) :
  within_capacity G -> 0 <= d ->
  (forall r, residual G u v = Ok r -> d <= r) ->
  within_capacity (fst (push_flow u v d G)).
Proof.
  intros [Hc Hn] Hd Hr.
  pose proof (capacity_add_flow u v d G Hc Hr) as H1.
  pose proof (capacities_nonneg_add_flow u v d G Hn) as H2.
  unfold push_flow, bind.
  destruct (add_flow u v d G) as [G1 [[]|e| |]]; simpl in *;
    try (split; assumption).
  split.
  - apply capacity_add_flow_down; [exact H1|lia].
  - apply capacities_nonneg_add_flow. exact H2.
Qed.

Lemma within_capacity_prepare_graph (G : graph) :
  NoDup (nodes G) -> fresh_flows G -> capacities_nonneg G ->
  within_capacity (prepare_graph G).
Proof.
  intros Hnd Hfresh Hn.
  assert (Hn' : capacities_nonneg (prepare_graph G)).
  { intros u v a. rewrite (get_edge_prepare_graph G u v Hnd).
    destruct (get_edge G u v) as [a0|] eqn:E.
    - intros E'. injection E' as <-. unfold setdefault_flow.
      destruct (flow a0); simpl; apply (Hn u v a0 E).
    - destruct (has_edge G v u); [|discriminate].
      intros E'. injection E' as <-. simpl. lia. }
  split; [|exact Hn'].
  intros u v a f Ha Hf.
  rewrite (prepare_graph_zero G Hnd Hfresh u v a Ha) in Hf.
  injection Hf as <-. apply (Hn' u v a Ha).
Qed.

(** *** Push-relabel *)

Lemma within_capacity_push (u v : node) (st : pr_state) :
  keeps within_capacity (push u v st).
Proof.
  intros G H. unfold push. unfold bind at 1. unfold read at 1.
  destruct (lookup u (excess st)) as [eu|]; [|exact H]. cbn [of_option].
  unfold bind at 1. unfold read at 1.
  destruct (residual G u v) as [r|e| |] eqn:Er; try exact H.
  destruct (Z.min eu r <=? 0) eqn:E; [exact H|].
  apply Z.leb_gt in E. apply keeps_after.
  - apply within_capacity_push_flow; [exact H|lia|].
    intros r' Hr'. rewrite Er in Hr'. injection Hr' as <-. lia.
  - intros []. repeat keeps_step.
Qed.

Section PushRelabelLoops.
Variable P : graph -> Prop.
Hypothesis Hpush : forall u v st, keeps P (push u v st).

Lemma loops_keep_discharge_for (s t u : node) (vs : list node) :
  forall st, keeps P (discharge_for s t u vs st).
Proof.
  induction vs as [|v vs IH]; intros; cbn [discharge_for].
  - apply keeps_ret.
  - repeat (first [apply IH | apply Hpush | keeps_step]).
Qed.

Lemma loops_keep_pr_while (s t : node) :
  forall fuel i st, keeps P (pr_while fuel s t i st).
Proof.
  induction fuel as [|k IH]; intros; cbn [pr_while].
  - apply keeps_out_of_fuel.
  - repeat (first [apply IH | apply loops_keep_discharge_for
                  | progress unfold relabel | keeps_step]).
Qed.
End PushRelabelLoops.

Lemma within_capacity_saturate_for (s : node) (vs : list node) :
  forall excess, keeps within_capacity (saturate_for s vs excess).
Proof.
  induction vs as [|v vs IH]; intros excess G H; [exact H|].
  cbn [saturate_for]. unfold bind at 1. unfold read at 1. unfold capacity_of.
  destruct (get_edge G s v) as [a|] eqn:Ea; [|exact H].
  cbn [of_option rbind].
  assert (Hcap : 0 <= capacity a) by (apply (proj2 H s v a Ea)).
  assert (H1 : within_capacity (fst (assign_flow s v (capacity a) G))).
  { destruct H as [Hc Hn]. split;
      [|apply capacities_nonneg_assign_flow; exact Hn].
    unfold assign_flow, bind, read, update. rewrite Ea. simpl.
    intros x y c g. rewrite get_edge_modify_edge, Ea.
    destruct (node_eqb x s && node_eqb y v) eqn:E; [|apply Hc].
    simpl. intros E'. injection E' as <-. simpl.
    intros E'. injection E' as <-. lia. }
  apply keeps_after; [exact H1|]. intros [].
  apply keeps_bind.
  - intros G1 [Hc Hn]. split.
    + apply capacity_add_flow_down; [exact Hc|lia].
    + apply capacities_nonneg_add_flow. exact Hn.
  - intros []. apply keeps_bind; [apply keeps_read|]. intros ev. apply IH.
Qed.

(** X4. Over whole numbers, push-relabel never puts more flow on an edge
    than its capacity: started on a graph without flow and without
    negative capacity, all capacities whole numbers, at every point of the
    run [flow(u,v) <= capacity(u,v)] on every edge.  (The bound rests on
    [min(excess, capacity - flow) <= capacity - flow] and on
    [flow + (capacity - flow) = capacity], which floats with fractions do
    not keep.) *)
Theorem push_relabel_within_capacity (G : graph) (s t : node) (fuel : nat) :
  wf_graph G -> fresh_flows G -> capacities_nonneg G ->
  capacity_respected (fst (push_relabel_apply fuel s t G)).
Proof.
  intros Hwf Hfresh Hn.
  pose proof (within_capacity_prepare_graph G (proj1 Hwf) Hfresh Hn) as H0.
  cut (within_capacity (fst (push_relabel_apply fuel s t G)));
    [intros H; apply H|].
  unfold push_relabel_apply, push_relabel_run.
  rewrite bind_assoc. unfold bind at 1. unfold update at 1.
  revert H0. generalize (prepare_graph G).
  change (keeps within_capacity
    (bind (bind (read (fun G => Ok (nodes G)))
      (fun ns =>
        let n := Z.of_nat (List.length ns) in
        let height0 := assign s n (map (fun u => (u, 0)) ns) in
        let excess0 := map (fun u : node => (u, 0)) ns in
        bind (read (fun G => of_option (adj G s)))
          (fun nbrs =>
            bind (saturate_for s (keys nbrs) excess0)
              (fun excess1 =>
                bind (read (fun _ => initial_active s t ns excess1))
                  (fun act =>
                    bind (pr_while fuel s t 0 (mkPR height0 excess1 act []))
                      (fun st =>
                        bind (read (flow_into t))
                          (fun total => ret (total, trace st))))))))
      (fun r => ret (fst r)))).
  repeat (first [apply (loops_keep_pr_while _ within_capacity_push)
                | apply within_capacity_saturate_for
                | progress cbv zeta | keeps_step]).
Qed.

(** *** Dinic *)

Lemma num_le_refl (a : num) : num_le a a.
Proof. destruct a; simpl; [lia|exact I]. Qed.

Lemma num_le_min_l (a b c : num) : num_le a (num_min b c) -> num_le a b.
Proof. destruct a, b, c; simpl; try tauto; lia. Qed.

Lemma dfs_post_stay (level : dict Z) (u : node) (pushed : num) (G : graph)
    (r : result (num * dict nat)) :
  within_capacity G ->
  (forall fl it', r = Ok (fl, it') -> num_le fl pushed) ->
  dfs_post level u pushed G (G, r).
Proof.
  intros H Hr. split; [exact H|]. split; [exact Hr|]. intros. split; reflexivity.
Qed.

Lemma dfs_post_fail (level : dict Z) (u : node) (pushed : num) (G : graph)
    (e : error) :
  within_capacity G -> dfs_post level u pushed G (G, Raise e).
Proof. intros H. apply dfs_post_stay; [exact H|]. intros; discriminate. Qed.

Lemma dfs_within_capacity (t : node) (level : dict Z) :
  forall (fuel depth : nat) (u : node) (pushed : num) (it : dict nat)
         (G : graph),
    within_capacity G -> num_pos pushed = true ->
    dfs_post level u pushed G (dfs fuel depth t level u pushed it G).
Proof.
  induction fuel as [|k IH]; intros depth u pushed it G HG Hpos.
  { apply dfs_post_stay; [exact HG|]. intros; discriminate. }
  cbn [dfs]. destruct (node_eqb u t).
  { apply dfs_post_stay; [exact HG|]. intros fl it' E. injection E as <- _.
    apply num_le_refl. }
  destruct depth as [|dp]; [apply dfs_post_fail; exact HG|].
  unfold bind at 1. unfold read at 1.
  destruct (lookup u it) as [iu|]; [|apply dfs_post_fail; exact HG].
  cbn [of_option]. unfold bind at 1. unfold read at 1.
  destruct (adj G u) as [nbrs|]; [|apply dfs_post_fail; exact HG].
  cbn [of_option].
  destruct (iu <? List.length nbrs)%nat.
  2:{ apply dfs_post_stay; [exact HG|]. intros fl it' E. injection E as <- _.
      destruct pushed as [p|]; simpl in *; [|exact I].
      apply negb_true_iff, Z.leb_gt in Hpos. lia. }
  unfold bind at 1. unfold read at 1.
  destruct (nth_error (keys nbrs) iu) as [v|]; [|apply dfs_post_fail; exact HG].
  cbn [of_option]. unfold bind at 1. unfold read at 1.
  destruct (lookup v level) as [lv|] eqn:Elv; [|apply dfs_post_fail; exact HG].
  cbn [of_option]. unfold bind at 1. unfold read at 1.
  destruct (lookup u level) as [lu|] eqn:Elu; [|apply dfs_post_fail; exact HG].
  cbn [of_option].
  destruct (Z.eqb_spec lv (lu + 1)) as [Hlv|Hlv]; [|apply IH; assumption].
  unfold bind at 1. unfold read at 1.
  destruct (residual G u v) as [r|e| |] eqn:Er;
    try (apply dfs_post_stay; [exact HG|intros; discriminate]).
  destruct (r >? 0) eqn:Hr; [|apply IH; assumption].
  rewrite Z.gtb_ltb in Hr. apply Z.ltb_lt in Hr.
  assert (Hpos1 : num_pos (num_min pushed (Fin r)) = true).
  { destruct pushed as [p|]; simpl in *.
    - apply negb_true_iff, Z.leb_gt. apply negb_true_iff, Z.leb_gt in Hpos. lia.
    - apply negb_true_iff, Z.leb_gt. lia. }
  pose proof (IH dp v (num_min pushed (Fin r)) (assign u (S iu) it) G HG Hpos1)
    as (H1 & Hfl & Hframe).
  unfold bind at 1.
  destruct (dfs k dp t level v (num_min pushed (Fin r)) (assign u (S iu) it) G)
    as [G1 r1]. simpl in H1, Hfl, Hframe.
  assert (Hframe_u : forall x lx lu', lookup x level = Some lx ->
             lookup u level = Some lu' -> lx < lu' ->
             forall y, get_edge G1 x y = get_edge G x y /\
                       get_edge G1 y x = get_edge G y x).
  { intros x lx lu' Hx Hu' Hlt y. rewrite Elu in Hu'. injection Hu' as <-.
    apply (Hframe x lx lv Hx Elv). lia. }
  destruct r1 as [[fl it2]|e| |];
    try (split; [exact H1|split; [intros; discriminate|exact Hframe_u]]).
  specialize (Hfl fl it2 eq_refl).
  destruct (num_pos fl) eqn:Hflpos.
  - destruct fl as [d|]; [|destruct pushed; simpl in Hfl; contradiction].
    simpl in Hflpos. apply negb_true_iff, Z.leb_gt in Hflpos.
    assert (Hd : d <= r) by (destruct pushed; simpl in Hfl; lia).
    assert (Er1 : residual G1 u v = Ok r).
    { unfold residual, capacity_of, flow_of in *.
      rewrite (proj1 (Hframe u lu lv Elu Elv ltac:(lia) v)). exact Er. }
    cbn [push_flow_num].
    pose proof (within_capacity_push_flow u v d G1 H1 ltac:(lia)) as H2.
    pose proof (push_flow_frame u v d G1) as Hpf.
    unfold bind.
    destruct (push_flow u v d G1) as [G2 r2]. simpl in H2, Hpf.
    assert (HG2 : within_capacity G2).
    { apply H2. intros r' Hr'. rewrite Er1 in Hr'. injection Hr' as <-. exact Hd. }
    assert (Hframe2 : forall x lx lu', lookup x level = Some lx ->
               lookup u level = Some lu' -> lx < lu' ->
               forall y, get_edge G2 x y = get_edge G x y /\
                         get_edge G2 y x = get_edge G y x).
    { intros x lx lu' Hx Hu' Hlt y.
      destruct (Hframe_u x lx lu' Hx Hu' Hlt y) as [F1 F2].
      rewrite Elu in Hu'. injection Hu' as <-.
      assert (Hxu : x <> u) by (intros ->; rewrite Elu in Hx; injection Hx; lia).
      assert (Hxv : x <> v) by (intros ->; rewrite Elv in Hx; injection Hx; lia).
      rewrite !Hpf by (intros E; injection E; congruence).
      split; assumption. }
    destruct r2 as [[]|e| |];
      (split; [exact HG2|split; [|exact Hframe2]]); try (intros; discriminate).
    intros fl' it' E. injection E as <- _.
    apply (num_le_min_l _ _ (Fin r)). exact Hfl.
  - pose proof (IH (S dp) u pushed it2 G1 H1 Hpos) as (H3 & Hfl3 & Hframe3).
    split; [exact H3|]. split; [exact Hfl3|].
    intros x lx lu' Hx Hu' Hlt y.
    destruct (Hframe3 x lx lu' Hx Hu' Hlt y) as [F1 F2].
    destruct (Hframe_u x lx lu' Hx Hu' Hlt y) as [F3 F4].
    split; congruence.
Qed.

Lemma keeps_within_capacity_dfs (t : node) (level : dict Z) (fuel depth : nat)
    (u : node) (it : dict nat) :
  keeps within_capacity (dfs fuel depth t level u Inf it).
Proof.
  intros G H.
  apply (dfs_within_capacity t level fuel depth u Inf it G H eq_refl).
Qed.

Lemma within_capacity_dinic_blocking (n limit : nat) (s t : node)
    (level : dict Z) :
  forall fuel it max_flow,
    keeps within_capacity (dinic_blocking fuel n limit s t level it max_flow).
Proof.
  induction fuel as [|k IH]; intros; cbn [dinic_blocking].
  - apply keeps_out_of_fuel.
  - repeat (first [apply IH | apply keeps_within_capacity_dfs | keeps_step]).
Qed.

Lemma within_capacity_dinic_while (n limit : nat) (s t : node) :
  forall fuel max_flow,
    keeps within_capacity (dinic_while fuel n limit s t max_flow).
Proof.
  induction fuel as [|k IH]; intros; cbn [dinic_while].
  - apply keeps_out_of_fuel.
  - repeat (first [apply IH | apply within_capacity_dinic_blocking
                  | keeps_step]).
Qed.

(** X5. Over whole numbers, Dinic never puts more flow on an edge than
    its capacity: started on a graph without flow and without negative
    capacity, all capacities whole numbers, at every point of the run
    [flow(u,v) <= capacity(u,v)] on every edge.  (With floats that have
    fractions, [flow + (capacity - flow)] can round above [capacity].) *)
Theorem dinic_within_capacity (G : graph) (s t : node) (fuel limit : nat) :
  wf_graph G -> fresh_flows G -> capacities_nonneg G ->
  capacity_respected (fst (dinic_apply fuel limit s t G)).
Proof.
  intros Hwf Hfresh Hn.
  pose proof (within_capacity_prepare_graph G (proj1 Hwf) Hfresh Hn) as H0.
  unfold dinic_apply. unfold bind at 1. unfold update at 1.
  apply (within_capacity_dinic_while fuel limit s t fuel (Fin 0) _ H0).
Qed.

(** *** Edmonds-Karp: the search *)

Lemma index_of_In (x : node) (l : list node) :
  In x l <-> exists i, index_of x l = Some i.
Proof.
  induction l as [|y l IH]; simpl.
  - split; [tauto|intros [i H]; discriminate].
  - node_cases x y.
    + split; eauto.
    + rewrite IH. split.
      * intros [H|[i H]]; [congruence|]. rewrite H. simpl. eauto.
      * intros [i H]. right. destruct (index_of x l); [eauto|discriminate].
Qed.

Lemma index_of_app_l (x : node) (l l' : list node) (i : nat) :
  index_of x l = Some i -> index_of x (l ++ l') = Some i.
Proof.
  revert i. induction l as [|y l IH]; simpl; intros i H; [discriminate|].
  destruct (node_eqb x y); [exact H|].
  destruct (index_of x l) as [j|]; [|discriminate].
  rewrite (IH j eq_refl). exact H.
Qed.

Lemma index_of_fresh (x : node) (l : list node) :
  ~ In x l -> index_of x (l ++ [x]) = Some (List.length l).
Proof.
  induction l as [|y l IH]; simpl; intros H.
  - rewrite node_eqb_refl. reflexivity.
  - node_cases x y; [tauto|]. rewrite IH by tauto. reflexivity.
Qed.

Lemma index_of_lt (x : node) (l : list node) (i : nat) :
  index_of x l = Some i -> (i < List.length l)%nat.
Proof.
  revert i. induction l as [|y l IH]; simpl; intros i H; [discriminate|].
  destruct (node_eqb x y); [injection H as <-; lia|].
  destruct (index_of x l) as [j|]; [|discriminate].
  injection H as <-. specialize (IH j eq_refl). lia.
Qed.

Lemma parent_ok_extend (G : graph) (visited ext : list node)
    (parent : dict node) :
  parent_ok G visited parent -> parent_ok G (visited ++ ext) parent.
Proof.
  intros H v u Hl. destruct (H v u Hl) as [(i & j & Hi & Hj & Hij) Hr].
  split; [|exact Hr]. exists i, j.
  repeat split; auto using index_of_app_l.
Qed.

(** One pass over the successors of [u] keeps the parent table in order. *)
Lemma bfs_for_parents (G : graph) (t u : node) (nbrs : dict attrs) :
  (forall v a, In (v, a) nbrs -> get_edge G u v = Some a) ->
  forall (visited q : list node) (parent : dict node)
         (found : bool) (visited' q' : list node) (parent' : dict node),
    In u visited -> parent_ok G visited parent ->
    bfs_for t u nbrs visited q parent = Ok (found, visited', q', parent') ->
    parent_ok G visited' parent' /\
    (exists ext, visited' = visited ++ ext) /\
    (forall x, In x q' -> In x q \/ In x visited') /\
    (found = true -> lookup t parent' <> None /\ ~ In t visited).
Proof.
  induction nbrs as [|[v a] nbrs IH];
    intros Hn visited q parent found visited' q' parent' Hu Hp.
  - simpl. intros E. injection E as <- <- <- <-. split; [exact Hp|].
    split; [exists []; rewrite app_nil_r; reflexivity|].
    split; [auto|discriminate].
  - assert (Hn' : forall v a, In (v, a) nbrs -> get_edge G u v = Some a)
      by (intros; apply Hn; right; assumption).
    pose proof (Hn v a (or_introl eq_refl)) as Ha.
    cbn [bfs_for]. destruct (flow a) as [f|] eqn:Ef; [|discriminate].
    cbn [of_option rbind].
    destruct (negb (memb v visited) && (capacity a - f >? 0)) eqn:E;
      [|apply IH; assumption].
    apply andb_prop in E. destruct E as [Ev Er].
    apply negb_true_iff, memb_false in Ev.
    rewrite Z.gtb_ltb in Er. apply Z.ltb_lt in Er.
    assert (Hp1 : parent_ok G (visited ++ [v]) (assign v u parent)).
    { intros x y. rewrite lookup_assign. node_cases x v.
      - intros E. injection E as <-. split.
        + apply index_of_In in Hu. destruct Hu as [i Hi].
          exists i, (List.length visited).
          repeat split; auto using index_of_app_l, index_of_fresh.
          apply (index_of_lt _ _ _ Hi).
        + exists (capacity a - f). split; [|lia].
          unfold residual, capacity_of, flow_of. rewrite Ha. simpl.
          rewrite Ef. reflexivity.
      - intros Hl. apply (parent_ok_extend G visited [v] parent Hp x y Hl). }
    node_cases v t.
    + intros E'. injection E' as <- <- <- <-. split; [exact Hp1|].
      split; [eauto|]. split; [auto|]. intros _. split; [|exact Ev].
      rewrite lookup_assign, node_eqb_refl. discriminate.
    + intros E'.
      destruct (IH Hn' (visited ++ [v]) (q ++ [v]) (assign v u parent)
                   found visited' q' parent') as (H1 & [ext H2] & H3 & H4);
        auto.
      { apply in_or_app. auto. }
      split; [exact H1|]. split; [exists ([v] ++ ext);
                                  rewrite app_assoc; exact H2|].
      split.
      * intros x Hx. destruct (H3 x Hx) as [Hq|Hv']; [|auto].
        apply in_app_or in Hq. destruct Hq as [Hq|[<-|[]]]; [auto|].
        right. rewrite H2. apply in_or_app. left. apply in_or_app.
        simpl. auto.
      * intros Hf. destruct (H4 Hf) as [H5 H6]. split; [exact H5|].
        intros Hin. apply H6. apply in_or_app. auto.
Qed.

Lemma bfs_while_parents (G : graph) (t : node) :
  wf_graph G ->
  forall (fuel : nat) (visited q : list node) (parent : dict node)
         (found : bool) (parent' : dict node),
    (forall x, In x q -> In x visited) -> parent_ok G visited parent ->
    bfs_while fuel G t visited q parent = Ok (found, parent') ->
    exists visited',
      parent_ok G visited' parent' /\
      (exists ext, visited' = visited ++ ext) /\
      (found = true -> lookup t parent' <> None /\ ~ In t visited).
Proof.
  intros Hwf.
  induction fuel as [|k IH]; intros visited q parent found parent' Hq Hp;
    [discriminate|].
  destruct q as [|u q].
  - simpl. intros E. injection E as <- <-. exists visited.
    split; [exact Hp|]. split; [exists []; rewrite app_nil_r; reflexivity|].
    discriminate.
  - cbn [bfs_while]. unfold adj.
    destruct (lookup u G) as [nbrs|] eqn:El; [|discriminate].
    cbn [of_option rbind].
    destruct (bfs_for t u nbrs visited q parent)
      as [[[[b visited1] q1] parent1]|e| |] eqn:E; try discriminate.
    cbn [rbind].
    destruct (bfs_for_parents G t u nbrs) with (1 := fun v a =>
               adjacency_entry G Hwf u v nbrs a El) (4 := E)
      as (H1 & [ext H2] & H3 & H4).
    { apply Hq. left. reflexivity. }
    { exact Hp. }
    destruct b.
    + intros E'. injection E' as <- <-. exists visited1.
      split; [exact H1|]. split; [eauto|]. intros _. apply H4. reflexivity.
    + intros E'.
      destruct (IH visited1 q1 parent1 found parent') as (visited' & H5 & [ext' H6] & H7);
        auto.
      { intros x Hx. destruct (H3 x Hx) as [Hx'|Hx']; [|exact Hx'].
        rewrite H2. apply in_or_app. left. apply Hq. right. exact Hx'. }
      exists visited'. split; [exact H5|].
      split; [exists (ext ++ ext'); rewrite app_assoc, <- H2; exact H6|].
      intros Hf. destruct (H7 Hf) as [H8 H9]. split; [exact H8|].
      intros Hin. apply H9. rewrite H2. apply in_or_app. auto.
Qed.

(** *** Edmonds-Karp: the augmenting path *)

Lemma num_pos_min (a : num) (r : Z) :
  num_pos a = true -> r > 0 -> num_pos (num_min a (Fin r)) = true.
Proof.
  intros Ha Hr. destruct a as [p|]; simpl in *;
    apply negb_true_iff, Z.leb_gt; [|lia].
  apply negb_true_iff, Z.leb_gt in Ha. lia.
Qed.

Lemma num_le_min_trans (a : num) (r r' : Z) :
  num_le a (Fin r') -> num_le (num_min a (Fin r)) (Fin r').
Proof. destruct a; simpl; [lia|tauto]. Qed.

Lemma num_le_min_r (a : num) (r : Z) : num_le (num_min a (Fin r)) (Fin r).
Proof. destruct a; simpl; lia. Qed.

Lemma walk_back_spec (G : graph) (s t : node) (visited : list node)
    (parent : dict node) :
  parent_ok G visited parent ->
  forall (fuel : nat) (v : node) (pf : num) (path : list (node * node))
         (pf' : num) (path' : list (node * node)),
    walk_back fuel G s parent v pf path = Ok (pf', path') ->
    (exists jv, index_of v visited = Some jv /\
                rising (fun x => index_of x visited) jv path) ->
    is_chain v path t ->
    num_pos pf = true ->
    (forall x y, In (x, y) path ->
                 exists r, residual G x y = Ok r /\ num_le pf (Fin r)) ->
    (exists j0, rising (fun x => index_of x visited) j0 path') /\
    is_chain s path' t /\
    num_pos pf' = true /\
    (forall x y, In (x, y) path' ->
                 exists r, residual G x y = Ok r /\ num_le pf' (Fin r)) /\
    (v <> s -> path' <> []).
Proof.
  intros Hp.
  induction fuel as [|k IH]; intros v pf path pf' path' E Hidx Hch Hpos Hres;
    [discriminate|].
  cbn [walk_back] in E. node_cases v s.
  - injection E as <- <-. destruct Hidx as [jv [_ Hr]].
    split; [eauto|]. split; [exact Hch|]. split; [exact Hpos|].
    split; [exact Hres|]. congruence.
  - destruct (lookup v parent) as [u|] eqn:El; [|discriminate].
    cbn [of_option rbind] in E.
    destruct (Hp v u El) as [(i & j & Hi & Hj & Hij) (r & Hr & Hrpos)].
    rewrite Hr in E. cbn [rbind] in E.
    destruct Hidx as [jv [Hjv Hrise]].
    assert (jv = j) by congruence. subst jv.
    destruct (IH u (num_min pf (Fin r)) ((u, v) :: path) pf' path' E)
      as (H1 & H2 & H3 & H4 & H5).
    + exists i. split; [exact Hi|]. simpl. exists i, j.
      repeat split; auto.
    + simpl. split; [reflexivity|exact Hch].
    + apply num_pos_min; assumption.
    + intros x y [Hxy|Hxy].
      * injection Hxy as <- <-. exists r. split; [exact Hr|].
        apply num_le_min_r.
      * destruct (Hres x y Hxy) as [r' [Hr' Hle]]. exists r'.
        split; [exact Hr'|]. apply num_le_min_trans. exact Hle.
    + split; [exact H1|]. split; [exact H2|]. split; [exact H3|].
      split; [exact H4|]. intros _.
      assert (Hin : forall fuel v pf path pf' path',
                 walk_back fuel G s parent v pf path = Ok (pf', path') ->
                 path <> [] -> path' <> []).
      { clear. induction fuel as [|k IH]; intros v pf path pf' path' E Hne;
          [discriminate|].
        cbn [walk_back] in E. destruct (node_eqb v s).
        - injection E as _ <-. exact Hne.
        - destruct (lookup v parent) as [u|]; [|discriminate].
          cbn [of_option rbind] in E.
          destruct (residual G u v) as [r| | |]; try discriminate.
          cbn [rbind] in E. apply (IH _ _ _ _ _ E). discriminate. }
      apply (Hin _ _ _ _ _ _ E). discriminate.
Qed.

(** One successful search followed by the walk back gives a non-empty
    chain of edges from [s] to [t] that visits no node twice, and a
    positive amount that no edge of the chain lacks the residual capacity
    for. *)
Lemma ek_turn (G : graph) (s t : node) (n n' : nat) (parent : dict node)
    (pf : num) (path : list (node * node)) :
  wf_graph G ->
  bfs n G s t [] = Ok (true, parent) ->
  walk_back n' G s parent t Inf [] = Ok (pf, path) ->
  exists d rk j0,
    pf = Fin d /\ d > 0 /\ path <> [] /\ is_chain s path t /\
    rising rk j0 path /\
    forall x y, In (x, y) path -> exists r, residual G x y = Ok r /\ d <= r.
Proof.
  intros Hwf Hb Hw. unfold bfs in Hb.
  destruct (bfs_while_parents G t Hwf n [s] [s] [] true parent)
    as (visited & Hp & _ & Hf); auto.
  { intros v u H. discriminate. }
  destruct (Hf eq_refl) as [Ht Hts].
  assert (Hne : t <> s) by (intros ->; apply Hts; left; reflexivity).
  destruct (lookup t parent) as [u|] eqn:Elt; [|congruence].
  destruct (Hp t u Elt) as [(i & j & _ & Hj & _) _].
  destruct (walk_back_spec G s t visited parent Hp n' t Inf [] pf path Hw)
    as ([j0 H1] & H2 & H3 & H4 & H5).
  - exists j. split; [exact Hj|exact I].
  - reflexivity.
  - reflexivity.
  - intros x y [].
  - specialize (H5 Hne).
    destruct path as [|[x y] path]; [congruence|].
    destruct (H4 x y (or_introl eq_refl)) as [r [_ Hle]].
    destruct pf as [d|]; [|contradiction].
    exists d, (fun x => index_of x visited), j0.
    split; [reflexivity|]. split.
    { simpl in H3. apply negb_true_iff, Z.leb_gt in H3. lia. }
    split; [discriminate|]. split; [exact H2|]. split; [exact H1|].
    intros x' y' Hin. destruct (H4 x' y' Hin) as [r' [Hr' Hle']].
    exists r'. split; [exact Hr'|exact Hle'].
Qed.

Lemma rising_In (rk : node -> option nat) (path : list (node * node)) :
  forall lo x y,
    rising rk lo path -> In (x, y) path ->
    exists i j, rk x = Some i /\ rk y = Some j /\ (lo <= i)%nat /\ (i < j)%nat.
Proof.
  induction path as [|[a b] path IH]; intros lo x y Hr Hin; [destruct Hin|].
  destruct Hr as (i & j & Hi & Hj & Hlo & Hij & Hrest).
  destruct Hin as [E|Hin].
  - injection E as <- <-. exists i, j. auto.
  - destruct (IH j x y Hrest Hin) as (i' & j' & Hi' & Hj' & Hlo' & Hij').
    exists i', j'. repeat split; auto; lia.
Qed.

(** Pushing an amount along a path that visits no node twice keeps the
    capacity bound when no edge of the path lacks the residual capacity. *)
Lemma augment_within_capacity (rk : node -> option nat) (d : Z) :
  0 <= d ->
  forall (path : list (node * node)) (lo : nat) (G : graph),
    within_capacity G -> rising rk lo path ->
    (forall x y, In (x, y) path ->
                 exists r, residual G x y = Ok r /\ d <= r) ->
    within_capacity
      (fst (for_each path (fun e => push_flow_num (fst e) (snd e) (Fin d)) G)).
Proof.
  intros Hd. induction path as [|[x y] path IH]; intros lo G HG Hr Hres;
    [exact HG|].
  cbn [for_each fst snd push_flow_num].
  destruct Hr as (i & j & Hi & Hj & Hlo & Hij & Hrest).
  pose proof (within_capacity_push_flow x y d G HG Hd) as H1.
  pose proof (push_flow_frame x y d G) as Hframe.
  unfold bind.
  destruct (push_flow x y d G) as [G1 r1]. simpl in H1, Hframe.
  assert (HG1 : within_capacity G1).
  { apply H1. intros r Hr'.
    destruct (Hres x y (or_introl eq_refl)) as [r0 [Hr0 Hle]].
    rewrite Hr0 in Hr'. injection Hr' as <-. exact Hle. }
  destruct r1 as [[]|e| |]; try exact HG1.
  apply (IH j G1 HG1 Hrest).
  intros x' y' Hin.
  destruct (rising_In rk path j x' y' Hrest Hin)
    as (i' & j' & Hi' & Hj' & Hlo' & Hij').
  destruct (Hres x' y' (or_intror Hin)) as [r [Hr' Hle]].
  exists r. split; [|exact Hle].
  unfold residual, capacity_of, flow_of in *.
  rewrite Hframe; [exact Hr'| |].
  - intros E. injection E as -> _. rewrite Hi in Hi'. injection Hi' as <-. lia.
  - intros E. injection E as _ ->. rewrite Hi in Hj'. injection Hj' as <-. lia.
Qed.

Lemma wf_graph_add_flow (u v : node) (d : Z) : keeps wf_graph (add_flow u v d).
Proof.
  intros G H. unfold add_flow, bind, read, update.
  destruct (flow_of G u v); simpl; try exact H.
  apply wf_graph_modify_edge. exact H.
Qed.

Lemma wf_graph_assign_flow (u v : node) (f : Z) :
  keeps wf_graph (assign_flow u v f).
Proof.
  intros G H. unfold assign_flow, bind, read, update.
  destruct (of_option (get_edge G u v)); simpl; try exact H.
  apply wf_graph_modify_edge. exact H.
Qed.

Lemma wf_graph_augment (path : list (node * node)) (pf : num) :
  keeps wf_graph (for_each path (fun e => push_flow_num (fst e) (snd e) pf)).
Proof.
  apply keeps_for_each. intros e. destruct pf as [d|].
  - apply (flow_keeps_push_flow wf_graph wf_graph_add_flow).
  - intros G H. exact H.
Qed.

Lemma within_capacity_ek_while (n : nat) (s t : node) :
  forall (fuel : nat) (max_flow : num) (steps : list step) (G : graph),
    wf_graph G -> within_capacity G ->
    within_capacity (fst (ek_while fuel n s t [] max_flow steps G)).
Proof.
  induction fuel as [|k IH]; intros max_flow steps G Hwf HG; [exact HG|].
  cbn [ek_while]. unfold bind at 1. unfold read at 1.
  destruct (bfs n G s t []) as [[found parent]|e| |] eqn:Eb; try exact HG.
  destruct found; [|exact HG].
  unfold bind at 1. unfold read at 1.
  destruct (walk_back n G s parent t Inf []) as [[pf path]|e| |] eqn:Ew;
    try exact HG.
  destruct (ek_turn G s t n n parent pf path Hwf Eb Ew)
    as (d & rk & j0 & -> & Hd & Hne & Hch & Hrise & Hres).
  pose proof (augment_within_capacity rk d ltac:(lia) path j0 G HG Hrise Hres)
    as H1.
  pose proof (wf_graph_augment path (Fin d) G Hwf) as H2.
  unfold bind at 1.
  destruct (for_each path (fun e => push_flow_num (fst e) (snd e) (Fin d)) G)
    as [G1 [[]|e| |]]; simpl in H1, H2; try exact H1.
  apply IH; assumption.
Qed.

Lemma within_capacity_reset_prepare (G : graph) :
  wf_graph G -> capacities_nonneg G ->
  within_capacity (reset_flows (prepare_graph G)).
Proof.
  intros Hwf Hn.
  assert (Hn' : capacities_nonneg (reset_flows (prepare_graph G))).
  { intros u v a. rewrite get_edge_reset_flows.
    rewrite (get_edge_prepare_graph G u v (proj1 Hwf)).
    destruct (get_edge G u v) as [a0|] eqn:E; simpl.
    - intros E'. injection E' as <-. simpl. unfold setdefault_flow.
      destruct (flow a0); simpl; apply (Hn u v a0 E).
    - destruct (has_edge G v u); simpl; [|discriminate].
      intros E'. injection E' as <-. simpl. lia. }
  split; [|exact Hn'].
  intros u v a f Ha Hf. pose proof (Hn' u v a Ha) as Hc.
  rewrite get_edge_reset_flows in Ha.
  destruct (get_edge (prepare_graph G) u v); simpl in Ha; [|discriminate].
  injection Ha as <-. simpl in Hf. injection Hf as <-. exact Hc.
Qed.

(** X6. Over whole numbers, Edmonds-Karp never puts more flow on an edge
    than its capacity: on a well-formed graph without negative capacity,
    all capacities whole numbers, whatever flow values it comes with, at
    every point of the run [flow(u,v) <= capacity(u,v)] on every edge.
    (With floats that have fractions, [flow + (capacity - flow)] can round
    above [capacity].) *)
Theorem edmonds_karp_within_capacity (G : graph) (s t : node) (fuel : nat) :
  wf_graph G -> capacities_nonneg G ->
  capacity_respected (fst (edmonds_karp_steps fuel s t G)).
Proof.
  intros Hwf Hn. rewrite edmonds_karp_steps_unfold.
  apply within_capacity_ek_while.
  - apply wf_graph_reset_flows, wf_graph_prepare_graph, Hwf.
  - apply within_capacity_reset_prepare; assumption.
Qed.

(** *** Edmonds-Karp: the step list *)

Lemma trace_ok_ge (s t : node) (steps : list step) :
  forall acc final, trace_ok s t acc steps final -> acc <= final.
Proof.
  induction steps as [|[[path amount] total] steps IH]; intros acc final H.
  - simpl in H. lia.
  - destruct H as (d & _ & Hd & _ & _ & _ & H). specialize (IH _ _ H). lia.
Qed.

Lemma ek_while_trace (n : nat) (s t : node) :
  forall (fuel : nat) (acc : Z) (steps0 : list step) (G G' : graph)
         (steps : list step) (mf : num),
    wf_graph G ->
    ek_while fuel n s t [] (Fin acc) steps0 G = (G', Ok (steps, mf)) ->
    exists new total,
      steps = steps0 ++ new /\ mf = Fin total /\ trace_ok s t acc new total.
Proof.
  induction fuel as [|k IH]; intros acc steps0 G G' steps mf Hwf E;
    [discriminate|].
  cbn [ek_while] in E. unfold bind at 1 in E. unfold read at 1 in E.
  destruct (bfs n G s t []) as [[found parent]|e| |] eqn:Eb; try discriminate.
  destruct found.
  2:{ injection E as _ <- <-. exists [], acc. rewrite app_nil_r.
      repeat split. }
  unfold bind at 1 in E. unfold read at 1 in E.
  destruct (walk_back n G s parent t Inf []) as [[pf path]|e| |] eqn:Ew;
    try discriminate.
  destruct (ek_turn G s t n n parent pf path Hwf Eb Ew)
    as (d & rk & j0 & -> & Hd & Hne & Hch & Hrise & Hres).
  pose proof (wf_graph_augment path (Fin d) G Hwf) as H2.
  unfold bind at 1 in E.
  destruct (for_each path (fun e => push_flow_num (fst e) (snd e) (Fin d)) G)
    as [G1 [[]|e| |]]; simpl in H2; try discriminate.
  cbn [num_add] in E.
  destruct (IH (acc + d) _ G1 G' steps mf H2 E) as (new & total & -> & -> & Ht).
  exists ((path, Fin d, Fin (acc + d)) :: new), total.
  rewrite <- app_assoc. split; [reflexivity|]. split; [reflexivity|].
  simpl. exists d. repeat split; auto.
Qed.

(** X7. The step list Edmonds-Karp returns: every step pushes a positive
    amount along a non-empty chain of edges from the source to the sink,
    the third component of each step is the sum of the amounts up to it,
    and the returned max-flow is the last of these totals (0 without
    steps); it is never negative. *)
Theorem edmonds_karp_step_list (G G' : graph) (s t : node) (fuel : nat)
    (steps : list step) (max_flow : num) :
  wf_graph G ->
  edmonds_karp_steps fuel s t G = (G', Ok (steps, max_flow)) ->
  exists total,
    max_flow = Fin total /\ 0 <= total /\ trace_ok s t 0 steps total.
Proof.
  intros Hwf E. rewrite edmonds_karp_steps_unfold in E.
  destruct (ek_while_trace fuel s t fuel 0 [] (reset_flows (prepare_graph G))
                           G' steps max_flow)
    as (new & total & Hs & Hm & Ht).
  - apply wf_graph_reset_flows, wf_graph_prepare_graph, Hwf.
  - exact E.
  - simpl in Hs. subst steps max_flow.
    exists total. split; [reflexivity|]. split; [|exact Ht].
    apply (trace_ok_ge s t new 0 total Ht).
Qed.

(** ** The path decomposer *)

Lemma total_amount_app (l1 l2 : list flow_path) :
  total_amount (l1 ++ l2) = total_amount l1 + total_amount l2.
Proof.
  unfold total_amount. induction l1 as [|p l1 IH]; simpl; [reflexivity|].
  rewrite IH. lia.
Qed.

Lemma walk_snoc (G : graph) (l : list node) (u v : node) :
  walk G (l ++ [u]) -> has_edge G u v = true -> walk G ((l ++ [u]) ++ [v]).
Proof.
  intros Hw He. induction l as [|x l IH]; simpl in *.
  - auto.
  - destruct (l ++ [u]) as [|y rest] eqn:E.
    + destruct l; discriminate.
    + simpl. destruct Hw as [Hxy Hw]. split; [exact Hxy|]. apply IH. exact Hw.
Qed.

Lemma positive_inflow_nonneg (G : graph) (t : node) : 0 <= positive_inflow G t.
Proof.
  unfold positive_inflow. induction G as [|[u d] G IH]; simpl; [lia|].
  destruct (lookup t d) as [a|]; [destruct (flow a)|]; lia.
Qed.

Lemma positive_inflow_set_flow (G : graph) (t u v : node) (x : Z) a f :
  get_edge G u v = Some a -> flow a = Some f ->
  positive_inflow (modify_edge u v (set_flow x) G) t
  = positive_inflow G t
    + (if node_eqb v t then Z.max 0 x - Z.max 0 f else 0).
Proof.
  unfold get_edge, modify_edge, positive_inflow.
  induction G as [|[k d] G IH]; simpl; [discriminate|].
  node_cases u k.
  - intros Ha Hf. simpl. rewrite lookup_modify. rewrite (node_eqb_sym t v).
    destruct (node_eqb_spec v t) as [Evt|Evt].
    + subst v. rewrite Ha. simpl. rewrite Hf. lia.
    + lia.
  - intros Ha Hf. simpl. rewrite (IH Ha Hf). lia.
Qed.

Lemma drained_refl (G : graph) : drained G G.
Proof. intros u v a H. exists a. auto. Qed.

Lemma flow_of_inv (G : graph) (u v : node) (fl : Z) :
  flow_of G u v = Ok fl ->
  exists a, get_edge G u v = Some a /\ flow a = Some fl.
Proof.
  unfold flow_of. destruct (get_edge G u v) as [a|]; [|discriminate].
  simpl. destruct (flow a) as [f|] eqn:Ef; [|discriminate].
  intros E. injection E as <-. exists a. split; [reflexivity|exact Ef].
Qed.

(** Taking the positive flow of one edge down to 0. *)
Lemma drain_edge (G0 G : graph) (t u v : node) (fl : Z) :
  drained G0 G -> flow_of G u v = Ok fl -> fl > 0 ->
  exists G1,
    add_flow u v (- fl) G = (G1, Ok tt) /\
    drained G0 G1 /\
    has_edge G0 u v = true /\
    positive_inflow G1 t
    = positive_inflow G t - (if node_eqb v t then fl else 0).
Proof.
  intros Hd Hfl Hpos. destruct (flow_of_inv G u v fl Hfl) as (a & Ha & Hf).
  exists (modify_edge u v (set_flow (fl + - fl)) G).
  split; [apply (add_flow_Ok u v (- fl) G a fl Ha Hf)|].
  destruct (Hd u v a Ha) as (a0 & Ha0 & Hc & Hfa).
  assert (Hfa0 : flow a0 = Some fl).
  { destruct Hfa as [H|(f & _ & _ & H)]; [congruence|].
    rewrite Hf in H. injection H as ->. lia. }
  split; [|split].
  - intros x y c. rewrite get_edge_modify_edge.
    destruct (node_eqb x u && node_eqb y v) eqn:E; [|apply Hd].
    apply andb_prop in E. destruct E as [Ex Ey].
    apply (reflect_iff _ _ (node_eqb_spec _ _)) in Ex, Ey. subst x y.
    rewrite Ha. simpl. intros E. injection E as <-. exists a0.
    split; [exact Ha0|]. split; [exact Hc|]. right. exists fl.
    repeat split; auto. simpl. f_equal. lia.
  - apply has_edge_true. eauto.
  - rewrite (positive_inflow_set_flow G t u v (fl + - fl) a fl Ha Hf).
    destruct (node_eqb v t); lia.
Qed.

Lemma paths_dfs_spec (G0 : graph) (s t : node) :
  forall (fuel : nat) (u : node) (path : list node) (f : Z)
         (paths : list flow_path) (G G' : graph) (paths' : list flow_path),
    paths_dfs fuel t u path f paths G = (G', Ok paths') ->
    drained G0 G -> f > 0 ->
    (exists mid, path = s :: mid ++ [u]) -> walk G0 path ->
    Forall (flow_path_ok G0 s t) paths ->
    Forall (flow_path_ok G0 s t) paths' /\
    total_amount paths' + positive_inflow G' t
    <= total_amount paths + positive_inflow G t
       + (if node_eqb u t then f else 0) /\
    drained G0 G'.
Proof.
  assert (Hsink : forall (path : list node) (f : Z)
                          (paths : list flow_path) (G : graph),
             drained G0 G -> f > 0 ->
             (exists mid, path = s :: mid ++ [t]) -> walk G0 path ->
             Forall (flow_path_ok G0 s t) paths ->
             Forall (flow_path_ok G0 s t) (paths ++ [(path, f)]) /\
             total_amount (paths ++ [(path, f)]) + positive_inflow G t
             <= total_amount paths + positive_inflow G t + f /\
             drained G0 G).
  { intros path f paths G Hd Hf Hpath Hwalk Hok. split; [|split; [|exact Hd]].
    - apply Forall_app. split; [exact Hok|]. constructor; [|constructor].
      split; [exact Hpath|]. split; [exact Hwalk|exact Hf].
    - rewrite total_amount_app. unfold total_amount at 2. simpl. lia. }
  induction fuel as [|k IH];
    intros u path f paths G G' paths' E Hd Hf Hpath Hwalk Hok;
    cbn [paths_dfs] in E; destruct (node_eqb_spec u t) as [Hut|Hut].
  - injection E as <- <-. subst u. apply Hsink; assumption.
  - discriminate.
  - injection E as <- <-. subst u. apply Hsink; assumption.
  - unfold bind at 1 in E. unfold read at 1 in E.
    destruct (adj G u) as [nbrs|]; [|discriminate]. cbn [of_option] in E.
    revert E. generalize (keys nbrs) as vs. intros vs.
    cut (forall paths1 G1,
            drained G0 G1 -> Forall (flow_path_ok G0 s t) paths1 ->
            (fix loop (vs : list node) (paths : list flow_path) {struct vs}
               : M (list flow_path) :=
               match vs with
               | [] => ret paths
               | v :: rest =>
                   fl <- read (fun G => flow_of G u v) ;;
                   if fl >? 0 then
                     add_flow u v (- fl) ;;
                     paths1 <- paths_dfs k t v (path ++ [v]) (Z.min f fl) paths ;;
                     loop rest paths1
                   else loop rest paths
               end) vs paths1 G1 = (G', Ok paths') ->
            Forall (flow_path_ok G0 s t) paths' /\
            total_amount paths' + positive_inflow G' t
            <= total_amount paths1 + positive_inflow G1 t /\
            drained G0 G').
    { intros H E. destruct (H paths G Hd Hok E) as (H1 & H2 & H3).
      split; [exact H1|]. split; [lia|exact H3]. }
    induction vs as [|v vs IHvs]; intros paths1 G1 Hd1 Hok1 E.
    + injection E as <- <-. split; [exact Hok1|]. split; [lia|exact Hd1].
    + unfold bind at 1 in E. unfold read at 1 in E.
      destruct (flow_of G1 u v) as [fl|e| |] eqn:Efl; try discriminate.
      destruct (fl >? 0) eqn:Hfl; [|apply (IHvs paths1 G1 Hd1 Hok1 E)].
      rewrite Z.gtb_ltb in Hfl. apply Z.ltb_lt in Hfl.
      destruct (drain_edge G0 G1 t u v fl Hd1 Efl ltac:(lia))
        as (G2 & Eadd & Hd2 & He & Hphi).
      unfold bind at 1 in E. rewrite Eadd in E.
      unfold bind at 1 in E.
      destruct (paths_dfs k t v (path ++ [v]) (Z.min f fl) paths1 G2)
        as [G3 [paths3|e| |]] eqn:Ed; try discriminate.
      destruct Hpath as [mid Hmid].
      destruct (IH v (path ++ [v]) (Z.min f fl) paths1 G2 G3 paths3 Ed Hd2)
        as (H1 & H2 & H3); auto.
      { lia. }
      { exists (mid ++ [u]). rewrite Hmid. simpl. rewrite <- app_assoc.
        reflexivity. }
      { rewrite Hmid. apply (walk_snoc G0 (s :: mid) u v); [|exact He].
        rewrite Hmid in Hwalk. exact Hwalk. }
      destruct (IHvs paths3 G3 H3 H1 E) as (H4 & H5 & H6).
      split; [exact H4|]. split; [|exact H6].
      destruct (node_eqb v t); lia.
Qed.

Lemma paths_for_spec (G0 : graph) (fuel : nat) (s t : node) :
  forall (vs : list node) (paths : list flow_path) (G G' : graph)
         (paths' : list flow_path),
    paths_for fuel s t vs paths G = (G', Ok paths') ->
    drained G0 G -> Forall (flow_path_ok G0 s t) paths ->
    Forall (flow_path_ok G0 s t) paths' /\
    total_amount paths' + positive_inflow G' t
    <= total_amount paths + positive_inflow G t /\
    drained G0 G'.
Proof.
  induction vs as [|v vs IH]; intros paths G G' paths' E Hd Hok.
  - injection E as <- <-. split; [exact Hok|]. split; [lia|exact Hd].
  - cbn [paths_for] in E. unfold bind at 1 in E. unfold read at 1 in E.
    destruct (flow_of G s v) as [fl|e| |] eqn:Efl; try discriminate.
    destruct (fl >? 0) eqn:Hfl; [|apply (IH paths G G' paths' E Hd Hok)].
    rewrite Z.gtb_ltb in Hfl. apply Z.ltb_lt in Hfl.
    destruct (drain_edge G0 G t s v fl Hd Efl ltac:(lia))
      as (G2 & Eadd & Hd2 & He & Hphi).
    unfold bind at 1 in E. rewrite Eadd in E.
    unfold bind at 1 in E.
    destruct (paths_dfs fuel t v [s; v] fl paths G2)
      as [G3 [paths3|e| |]] eqn:Ed; try discriminate.
    destruct (paths_dfs_spec G0 s t fuel v [s; v] fl paths G2 G3 paths3 Ed Hd2)
      as (H1 & H2 & H3); auto.
    { lia. }
    { exists []. reflexivity. }
    { simpl. auto. }
    destruct (IH paths3 G3 G' paths' E H3 H1) as (H4 & H5 & H6).
    split; [exact H4|]. split; [|exact H6].
    destruct (node_eqb v t); lia.
Qed.

(** X8. What [extract_flow_paths] returns and leaves behind.  Every
    reported path is a walk of the prepared graph that starts at the
    source and ends at the sink, with a positive amount.  The amounts
    together with the positive flow still entering the sink afterwards do
    not exceed the positive flow that entered the sink before: the
    decomposer never reports more than flowed in.  And the graph is the
    prepared graph with some positive flows set to 0: no flow is created,
    no flow that was not positive is touched, no capacity changes. *)
Theorem extract_flow_paths_sound (G G' : graph) (s t : node) (fuel : nat)
    (paths : list flow_path) :
  extract_flow_paths fuel s t G = (G', Ok paths) ->
  Forall (flow_path_ok (prepare_graph G) s t) paths /\
  total_amount paths + positive_inflow G' t
  <= positive_inflow (prepare_graph G) t /\
  total_amount paths <= positive_inflow (prepare_graph G) t /\
  drained (prepare_graph G) G'.
Proof.
  unfold extract_flow_paths. unfold bind at 1. unfold update at 1.
  unfold bind at 1. unfold read at 1.
  destruct (adj (prepare_graph G) s) as [nbrs|]; [|discriminate].
  cbn [of_option]. intros E.
  destruct (paths_for_spec (prepare_graph G) fuel s t (keys nbrs) []
              (prepare_graph G) G' paths E (drained_refl _) (Forall_nil _))
    as (H1 & H2 & H3).
  unfold total_amount at 2 in H2. simpl in H2.
  pose proof (positive_inflow_nonneg G' t).
  repeat split; auto; lia.
Qed.

(** [flow_into], the closing loop of push-relabel, computes
    [positive_inflow]. *)
Lemma inflow_for_sum (G : graph) (t : node) :
  forall (us : list node) (acc K : Z),
    inflow_for G t us acc = Ok K ->
    K = acc + fold_right
                (fun u s =>
                   match get_edge G u t with
                   | Some a => match flow a with
                               | Some f => Z.max 0 f
                               | None => 0
                               end
                   | None => 0
                   end + s) 0 us.
Proof.
  induction us as [|u us IH]; intros acc K E.
  - simpl in *. injection E as <-. lia.
  - cbn [inflow_for] in E. unfold flow_of in E.
    destruct (get_edge G u t) as [a|] eqn:Ea; [|discriminate].
    cbn [of_option rbind] in E.
    destruct (flow a) as [f|] eqn:Ef; [|discriminate].
    cbn [of_option rbind] in E. rewrite (IH _ _ E). simpl. rewrite Ea, Ef.
    destruct (f >? 0) eqn:Hf.
    + rewrite Z.gtb_ltb in Hf. apply Z.ltb_lt in Hf. lia.
    + rewrite Z.gtb_ltb in Hf. apply Z.ltb_ge in Hf. lia.
Qed.

Lemma flow_into_positive_inflow (G : graph) (t : node) (K : Z) :
  NoDup (nodes G) -> flow_into t G = Ok K -> K = positive_inflow G t.
Proof.
  intros Hnd. unfold flow_into. destruct (mem t G); [|discriminate].
  intros E. rewrite (inflow_for_sum G t _ _ _ E). unfold predecessors, nodes.
  assert (H : forall L : graph,
             (forall u d, In (u, d) L -> lookup u G = Some d) ->
             fold_right
               (fun u s =>
                  match get_edge G u t with
                  | Some a => match flow a with
                              | Some f => Z.max 0 f
                              | None => 0
                              end
                  | None => 0
                  end + s) 0
               (filter (fun u => has_edge G u t) (keys L))
             = positive_inflow L t).
  { induction L as [|[u d] L IH]; intros HL; [reflexivity|].
    simpl. specialize (IH (fun x y Hin => HL x y (or_intror Hin))).
    pose proof (HL u d (or_introl eq_refl)) as Hu.
    assert (Hg : get_edge G u t = lookup t d)
      by (unfold get_edge; rewrite Hu; reflexivity).
    assert (Hh : has_edge G u t
                 = match lookup t d with Some _ => true | None => false end)
      by (unfold has_edge; rewrite Hg; reflexivity).
    rewrite Hh. destruct (lookup t d) as [a|] eqn:Ea.
    - simpl. rewrite Hg, IH. reflexivity.
    - rewrite IH. reflexivity. }
  rewrite (H G); [lia|]. intros u d Hin. apply In_lookup; assumption.
Qed.

(** ** Errors of the reporting functions *)

Lemma reach_for_missing_flow (nbrs : dict attrs) :
  (exists v a, In (v, a) nbrs /\ flow a = None) ->
  forall stack, reach_for nbrs stack = Raise KeyError.
Proof.
  induction nbrs as [|[v a] nbrs IH]; intros (v0 & a0 & Hin & Hf) stack;
    [destruct Hin|].
  cbn [reach_for]. destruct (flow a) as [f|] eqn:Ef; [|reflexivity].
  cbn [of_option rbind]. destruct Hin as [E|Hin].
  - injection E as -> ->. congruence.
  - destruct (capacity a - f >? 0); apply IH; eauto.
Qed.

(** X9. What the two reporting functions do on a graph they cannot
    handle.  [min_cut_report] raises [KeyError] when the source is not a
    node, and also when an edge leaving the source has no [flow]
    attribute: it does not prepare the graph itself.
    [extract_flow_paths] does prepare it, and with a source that is not a
    node raises [KeyError] after that, leaving the graph prepared. *)
Theorem reporting_errors (set_order : list node -> list node) (G : graph)
    (s t : node) (fuel : nat) :
  (0 < fuel)%nat ->
  (~ In s (nodes G) -> min_cut_report set_order fuel G s = Raise KeyError) /\
  (forall nbrs, adj G s = Some nbrs ->
                (exists v a, In (v, a) nbrs /\ flow a = None) ->
                min_cut_report set_order fuel G s = Raise KeyError) /\
  (wf_graph G -> ~ In s (nodes G) ->
   extract_flow_paths fuel s t G = (prepare_graph G, Raise KeyError)).
Proof.
  intros Hfuel. destruct fuel as [|k]; [lia|]. split; [|split].
  - intros Hs. unfold min_cut_report. cbn [reach_while memb].
    rewrite (adj_absent G s Hs). reflexivity.
  - intros nbrs Hn Hmiss. unfold min_cut_report. cbn [reach_while memb].
    rewrite Hn. cbn [of_option rbind].
    rewrite (reach_for_missing_flow nbrs Hmiss). reflexivity.
  - intros Hwf Hs. unfold extract_flow_paths.
    unfold bind at 1. unfold update at 1. unfold bind at 1. unfold read at 1.
    rewrite (adj_absent (prepare_graph G) s); [reflexivity|].
    rewrite (nodes_prepare_graph Hwf). exact Hs.
Qed.

(** ** The search of Edmonds-Karp returns *)

Lemma bfs_for_total (G : graph) (t u : node) (nbrs : dict attrs) :
  (forall v a, In (v, a) nbrs -> flow a <> None /\ In v (nodes G)) ->
  forall (visited q : list node) (parent : dict node),
    NoDup visited -> incl visited (nodes G) -> incl q (nodes G) ->
    exists b visited' q' parent',
      bfs_for t u nbrs visited q parent = Ok (b, visited', q', parent') /\
      NoDup visited' /\ incl visited' (nodes G) /\
      (In t visited -> b = false) /\
      (b = false ->
       incl q' (nodes G) /\ (In t visited -> In t visited') /\
       (List.length visited <= List.length visited')%nat /\
       (List.length q' + List.length visited
        = List.length q + List.length visited')%nat).
Proof.
  induction nbrs as [|[v a] nbrs IH]; intros Hn visited q parent Hnd Hv Hq.
  - exists false, visited, q, parent. simpl. repeat split; auto.
  - destruct (Hn v a (or_introl eq_refl)) as [Hf Hvn].
    assert (Hn' : forall v a, In (v, a) nbrs ->
                              flow a <> None /\ In v (nodes G))
      by (intros; apply Hn; right; assumption).
    cbn [bfs_for]. destruct (flow a) as [f|]; [|congruence].
    cbn [of_option rbind].
    destruct (negb (memb v visited) && (capacity a - f >? 0)) eqn:E;
      [|apply IH; assumption].
    apply andb_prop in E. destruct E as [E _].
    apply negb_true_iff, memb_false in E.
    assert (Hnd' : NoDup (visited ++ [v])).
    { apply NoDup_rev in Hnd. rewrite <- (rev_involutive (visited ++ [v])).
      apply NoDup_rev. rewrite rev_app_distr. simpl. constructor; [|exact Hnd].
      rewrite <- in_rev. exact E. }
    assert (Hv' : incl (visited ++ [v]) (nodes G)).
    { intros x Hx. apply in_app_or in Hx. destruct Hx as [Hx|[<-|[]]]; auto. }
    destruct (node_eqb_spec v t) as [Evt|Evt].
    + exists true, (visited ++ [v]), q, (assign v u parent).
      split; [reflexivity|]. split; [exact Hnd'|]. split; [exact Hv'|].
      split; [|discriminate]. intros Ht. subst v. contradiction.
    + destruct (IH Hn' (visited ++ [v]) (q ++ [v]) (assign v u parent))
        as (b & visited' & q' & parent' & H1 & H2 & H3 & H4 & H5); auto.
      { intros x Hx. apply in_app_or in Hx. destruct Hx as [Hx|[<-|[]]]; auto. }
      exists b, visited', q', parent'. split; [exact H1|].
      split; [exact H2|]. split; [exact H3|]. split.
      * intros Ht. apply H4. apply in_or_app. auto.
      * intros Hb. destruct (H5 Hb) as (H6 & H7 & H8 & H9).
        rewrite !length_app in *. simpl in *.
        repeat split; auto; try lia.
        intros Ht. apply H7. apply in_or_app. auto.
Qed.

Lemma bfs_while_total (G : graph) (t : node) :
  wf_graph G -> flows_set G ->
  forall (fuel : nat) (visited q : list node) (parent : dict node),
    NoDup visited -> incl visited (nodes G) -> incl q (nodes G) ->
    (List.length q + (List.length (nodes G) - List.length visited) < fuel)%nat ->
    exists b parent',
      bfs_while fuel G t visited q parent = Ok (b, parent') /\
      (In t visited -> b = false).
Proof.
  intros Hwf Hfl.
  induction fuel as [|k IH]; intros visited q parent Hnd Hv Hq Hm; [lia|].
  destruct q as [|u q']; [exists false, parent; split; auto|].
  cbn [bfs_while]. unfold adj.
  assert (Hu : In u (nodes G)) by (apply Hq; left; reflexivity).
  destruct (lookup u G) as [nbrs|] eqn:E;
    [|apply lookup_In_keys in Hu; congruence].
  cbn [of_option rbind].
  destruct (bfs_for_total G t u nbrs) with (visited := visited) (q := q')
    (parent := parent)
    as (b & visited' & q'' & parent' & H1 & H2 & H3 & H4 & H5); auto.
  - intros v a Hva. split.
    + apply (Hfl u v). apply (adjacency_entry G Hwf u v nbrs a E Hva).
    + apply (adjacency_closed G Hwf u v nbrs a E Hva).
  - intros x Hx. apply Hq. right. exact Hx.
  - rewrite H1. cbn [rbind]. destruct b.
    + exists true, parent'. split; [reflexivity|exact H4].
    + destruct (H5 eq_refl) as (H6 & H7 & H8 & H9).
      destruct (IH visited' q'' parent') as (b & parent'' & H10 & H11); auto.
      { pose proof (NoDup_incl_length H2 H3) as Hlen. simpl in Hm. lia. }
      exists b, parent''. split; [exact H10|]. auto.
Qed.

(** X10. On every well-formed graph, with the source a node and enough
    fuel for one search, Edmonds-Karp with source = sink returns at once:
    no step, max-flow 0, the graph prepared with all flows 0. *)
Theorem edmonds_karp_source_is_sink (G : graph) (s : node) (fuel : nat) :
  wf_graph G -> In s (nodes G) -> (List.length (nodes G) < fuel)%nat ->
  edmonds_karp_steps fuel s s G
  = (reset_flows (prepare_graph G), Ok ([], Fin 0)).
Proof.
  intros Hwf Hs Hfuel. rewrite edmonds_karp_steps_unfold.
  set (G' := reset_flows (prepare_graph G)).
  assert (Hn' : nodes G' = nodes G)
    by (unfold G'; rewrite nodes_reset_flows; apply nodes_prepare_graph, Hwf).
  assert (Hwf' : wf_graph G')
    by (apply wf_graph_reset_flows, wf_graph_prepare_graph, Hwf).
  destruct fuel as [|k]; [lia|]. cbn [ek_while].
  unfold bind at 1. unfold read at 1. unfold bfs.
  destruct (bfs_while_total G' s Hwf' (flows_set_reset_flows _) (S k)
              [s] [s] []) as (b & parent' & E & Hb).
  - constructor; [intros []|constructor].
  - intros x [<-|[]]. rewrite Hn'. exact Hs.
  - intros x [<-|[]]. rewrite Hn'. exact Hs.
  - rewrite Hn'. simpl. destruct (nodes G); [destruct Hs|simpl in *; lia].
  - rewrite E, (Hb (or_introl eq_refl)). reflexivity.
Qed.

(** ** Flow across a cut *)

Lemma out_sum_modify (w : attrs -> Z) (V : list node) (v : node)
    (g : attrs -> attrs) (nbrs : adjacency) :
  out_sum w V (modify v g nbrs)
  = out_sum w V nbrs
    + (if memb v V then 0
       else match lookup v nbrs with
            | Some a => w (g a) - w a
            | None => 0
            end).
Proof.
  induction nbrs as [|[k a] nbrs IH]; simpl.
  - destruct (memb v V); reflexivity.
  - node_cases v k.
    + simpl. destruct (memb k V); lia.
    + simpl. rewrite IH. destruct (memb k V), (memb v V); lia.
Qed.

Lemma cut_sum_modify_edge (w : attrs -> Z) (G : graph) (V : list node)
    (u v : node) (g : attrs -> attrs) (a : attrs) :
  get_edge G u v = Some a ->
  forall us : list node,
    NoDup us ->
    cut_sum w (modify_edge u v g G) V us
    = cut_sum w G V us
      + (if memb u us && negb (memb v V) then w (g a) - w a else 0).
Proof.
  intros Ha. unfold get_edge in Ha.
  destruct (lookup u G) as [nbrs|] eqn:Eu; [|discriminate].
  induction us as [|x us IH]; intros Hnd; simpl; [reflexivity|].
  inversion Hnd as [|? ? Hx Hnd']; subst.
  rewrite (IH Hnd'). unfold adj, modify_edge. rewrite lookup_modify.
  rewrite (node_eqb_sym u x). node_cases x u.
  - rewrite Eu. simpl. rewrite out_sum_modify, Ha.
    apply memb_false in Hx. rewrite Hx. simpl.
    destruct (memb v V); simpl; lia.
  - lia.
Qed.

Lemma cut_flow_add_flow (u v : node) (d : Z) (G G1 : graph) (V : list node) :
  NoDup V ->
  add_flow u v d G = (G1, Ok tt) ->
  cut_flow G1 V
  = cut_flow G V + (if memb u V && negb (memb v V) then d else 0).
Proof.
  intros Hnd E. unfold add_flow, bind, read, update, flow_of in E.
  destruct (get_edge G u v) as [a|] eqn:Ea; [|discriminate]. simpl in E.
  destruct (flow a) as [f|] eqn:Ef; [|discriminate]. simpl in E.
  injection E as <-. unfold cut_flow.
  rewrite (cut_sum_modify_edge flow_or_zero G V u v _ a Ea V Hnd).
  unfold flow_or_zero. simpl. rewrite Ef.
  destruct (memb u V && negb (memb v V)); lia.
Qed.

Lemma cut_flow_push_flow (u v : node) (d : Z) (G G1 : graph) (V : list node) :
  NoDup V ->
  push_flow u v d G = (G1, Ok tt) ->
  cut_flow G1 V = cut_flow G V + d * (inside V u - inside V v).
Proof.
  intros Hnd E. unfold push_flow, bind in E.
  destruct (add_flow u v d G) as [G0 [[]|e| |]] eqn:E0; try discriminate.
  rewrite (cut_flow_add_flow v u (- d) G0 G1 V Hnd E).
  rewrite (cut_flow_add_flow u v d G G0 V Hnd E0).
  unfold inside. destruct (memb u V), (memb v V); simpl; lia.
Qed.

(** Pushing [d] along a chain of edges from [a] to [b] moves [d] across
    every cut that separates [a] from [b], and nothing across any other. *)
Lemma cut_flow_augment (d : Z) (V : list node) (b : node) :
  NoDup V ->
  forall (path : list (node * node)) (a : node) (G G1 : graph),
    is_chain a path b ->
    for_each path (fun e => push_flow_num (fst e) (snd e) (Fin d)) G
    = (G1, Ok tt) ->
    cut_flow G1 V = cut_flow G V + d * (inside V a - inside V b).
Proof.
  intros Hnd. induction path as [|[x y] path IH]; intros a G G1 Hch E.
  - simpl in Hch, E. injection E as <-. subst b. lia.
  - destruct Hch as [-> Hch]. cbn [for_each fst snd push_flow_num] in E.
    unfold bind in E.
    destruct (push_flow a y d G) as [G0 [[]|e| |]] eqn:E0; try discriminate.
    rewrite (IH y G0 G1 Hch E).
    rewrite (cut_flow_push_flow a y d G G0 V Hnd E0). lia.
Qed.

Lemma out_sum_zero (w : attrs -> Z) (V : list node) (nbrs : adjacency) :
  (forall v a, In (v, a) nbrs -> w a = 0) -> out_sum w V nbrs = 0.
Proof.
  induction nbrs as [|[v a] nbrs IH]; intros H; simpl; [reflexivity|].
  rewrite IH by (intros; eapply H; right; eassumption).
  rewrite (H v a (or_introl eq_refl)). destruct (memb v V); reflexivity.
Qed.

Lemma cut_flow_reset_flows (G : graph) (V : list node) :
  cut_flow (reset_flows G) V = 0.
Proof.
  unfold cut_flow. generalize V at 2. intros us.
  induction us as [|u us IH]; simpl; [reflexivity|]. rewrite IH.
  unfold adj, reset_flows. rewrite lookup_map_values.
  destruct (lookup u G) as [nbrs|]; simpl; [|reflexivity].
  rewrite out_sum_zero; [reflexivity|].
  intros v a Hin. unfold map_values in Hin. apply in_map_iff in Hin.
  destruct Hin as [[v' a'] [E _]]. injection E as _ <-. reflexivity.
Qed.

Lemma ek_while_cut_flow (n : nat) (s t : node) :
  forall (fuel : nat) (acc : Z) (steps0 : list step) (G G' : graph)
         (steps : list step) (mf : num),
    wf_graph G ->
    ek_while fuel n s t [] (Fin acc) steps0 G = (G', Ok (steps, mf)) ->
    exists total,
      mf = Fin total /\
      forall V, NoDup V ->
                cut_flow G' V
                = cut_flow G V + (total - acc) * (inside V s - inside V t).
Proof.
  induction fuel as [|k IH]; intros acc steps0 G G' steps mf Hwf E;
    [discriminate|].
  cbn [ek_while] in E. unfold bind at 1 in E. unfold read at 1 in E.
  destruct (bfs n G s t []) as [[found parent]|e| |] eqn:Eb; try discriminate.
  destruct found.
  2:{ injection E as <- _ <-. exists acc. split; [reflexivity|].
      intros V _. lia. }
  unfold bind at 1 in E. unfold read at 1 in E.
  destruct (walk_back n G s parent t Inf []) as [[pf path]|e| |] eqn:Ew;
    try discriminate.
  destruct (ek_turn G s t n n parent pf path Hwf Eb Ew)
    as (d & rk & j0 & -> & Hd & Hne & Hch & Hrise & Hres).
  pose proof (wf_graph_augment path (Fin d) G Hwf) as H2.
  unfold bind at 1 in E.
  destruct (for_each path (fun e => push_flow_num (fst e) (snd e) (Fin d)) G)
    as [G1 [[]|e| |]] eqn:Ef; simpl in H2; try discriminate.
  cbn [num_add] in E.
  destruct (IH (acc + d) _ G1 G' steps mf H2 E) as (total & -> & Ht).
  exists total. split; [reflexivity|]. intros V Hnd.
  rewrite (Ht V Hnd).
  rewrite (cut_flow_augment d V t Hnd path s G G1 Hch Ef). lia.
Qed.

(** ** No augmenting path is left *)

Lemma bfs_for_closed (t u : node) (nbrs : adjacency) :
  forall (visited q : list node) (parent : dict node)
         (visited' q' : list node) (parent' : dict node),
    bfs_for t u nbrs visited q parent = Ok (false, visited', q', parent') ->
    exists new,
      visited' = visited ++ new /\ q' = q ++ new /\ ~ In t new /\
      forall v a f, In (v, a) nbrs -> flow a = Some f -> capacity a - f > 0 ->
                    In v visited'.
Proof.
  induction nbrs as [|[v a] nbrs IH];
    intros visited q parent visited' q' parent' E.
  - simpl in E. injection E as <- <- <-. exists [].
    rewrite !app_nil_r. repeat split; auto. intros v a f [].
  - cbn [bfs_for] in E. destruct (flow a) as [f|] eqn:Ef; [|discriminate].
    cbn [of_option rbind] in E.
    destruct (negb (memb v visited) && (capacity a - f >? 0)) eqn:Ec.
    + node_cases v t; [discriminate|].
      destruct (IH _ _ _ _ _ _ E) as (new & -> & -> & Hnt & Hin).
      exists (v :: new). rewrite <- app_assoc in Hin. cbn [app] in Hin.
      split; [rewrite <- app_assoc; reflexivity|].
      split; [rewrite <- app_assoc; reflexivity|].
      split; [intros [H|H]; [congruence|exact (Hnt H)]|].
      rewrite <- app_assoc. cbn [app].
      intros v' a' f' [H|H] Hf' Hpos.
      * injection H as <- <-. apply in_or_app. right. left. reflexivity.
      * apply (Hin v' a' f' H Hf' Hpos).
    + destruct (IH _ _ _ _ _ _ E) as (new & -> & -> & Hnt & Hin).
      exists new. repeat split; auto.
      intros v' a' f' [H|H] Hf' Hpos; [|apply (Hin v' a' f' H Hf' Hpos)].
      injection H as <- <-. apply in_or_app. left.
      assert (f' = f) by congruence. subst f'.
      apply andb_false_iff in Ec. destruct Ec as [Ec|Ec].
      * apply negb_false_iff, memb_In in Ec. exact Ec.
      * rewrite Z.gtb_ltb in Ec. apply Z.ltb_ge in Ec. lia.
Qed.

Lemma bfs_while_closed (G : graph) (t : node) :
  wf_graph G ->
  forall (fuel : nat) (visited q : list node) (parent parent' : dict node),
    (forall x, In x q -> In x visited) ->
    (forall x y, In x visited -> ~ In x q -> res_edge G x y -> In y visited) ->
    bfs_while fuel G t visited q parent = Ok (false, parent') ->
    exists ext,
      ~ In t ext /\
      forall x y, In x (visited ++ ext) -> res_edge G x y ->
                  In y (visited ++ ext).
Proof.
  intros Hwf.
  induction fuel as [|k IH]; intros visited q parent parent' Hq Hclo E;
    [discriminate|].
  destruct q as [|u q].
  - exists []. rewrite app_nil_r. split; [tauto|].
    intros x y Hx. apply Hclo; auto.
  - cbn [bfs_while] in E. unfold adj in E.
    destruct (lookup u G) as [nbrs|] eqn:El; [|discriminate].
    cbn [of_option rbind] in E.
    destruct (bfs_for t u nbrs visited q parent)
      as [[[[b visited1] q1] parent1]|e| |] eqn:Ef; try discriminate.
    cbn [rbind] in E. destruct b; [discriminate|].
    destruct (bfs_for_closed t u nbrs _ _ _ _ _ _ Ef)
      as (new & -> & -> & Hnt & Hin).
    destruct (IH (visited ++ new) (q ++ new) parent1 parent')
      as (ext & Hext & Hc); [| |exact E|].
    + intros x Hx. apply in_or_app. apply in_app_or in Hx.
      destruct Hx as [Hx|Hx]; [left; apply Hq; right; exact Hx|right; exact Hx].
    + intros x y Hx Hnq (a & f & Ha & Hf & Hpos).
      apply in_app_or in Hx. destruct Hx as [Hx|Hx].
      2:{ exfalso. apply Hnq. apply in_or_app. right. exact Hx. }
      node_cases x u.
      * apply (Hin y a f); [|exact Hf|exact Hpos].
        unfold get_edge in Ha. rewrite El in Ha.
        apply lookup_Some_In in Ha. exact Ha.
      * apply in_or_app. left. apply (Hclo x y Hx).
        -- intros [H|H]; [congruence|]. apply Hnq. apply in_or_app. auto.
        -- exists a, f. auto.
    + exists (new ++ ext). rewrite app_assoc. split; [|exact Hc].
      intros H. apply in_app_or in H. tauto.
Qed.

Lemma bfs_no_path (G : graph) (s t : node) (n : nat) (parent : dict node) :
  wf_graph G -> s <> t ->
  bfs n G s t [] = Ok (false, parent) ->
  ~ reachable G s t.
Proof.
  intros Hwf Hst E. unfold bfs in E.
  destruct (bfs_while_closed G t Hwf n [s] [s] [] parent) as (ext & Hext & Hc);
    auto.
  - intros x y Hx Hnx. contradiction.
  - intros Hr.
    assert (Hin : In t ([s] ++ ext)).
    { apply (reachable_closed G s ([s] ++ ext)); auto. left. reflexivity. }
    destruct Hin as [H|H]; [congruence|exact (Hext H)].
Qed.

Lemma ek_while_no_path (n : nat) (s t : node) :
  s <> t ->
  forall (fuel : nat) (mf0 : num) (steps0 : list step) (G G' : graph)
         (steps : list step) (mf : num),
    wf_graph G ->
    ek_while fuel n s t [] mf0 steps0 G = (G', Ok (steps, mf)) ->
    ~ reachable G' s t.
Proof.
  intros Hst.
  induction fuel as [|k IH]; intros mf0 steps0 G G' steps mf Hwf E;
    [discriminate|].
  cbn [ek_while] in E. unfold bind at 1 in E. unfold read at 1 in E.
  destruct (bfs n G s t []) as [[found parent]|e| |] eqn:Eb; try discriminate.
  destruct found.
  2:{ injection E as <- _ _. apply (bfs_no_path G s t n parent Hwf Hst Eb). }
  unfold bind at 1 in E. unfold read at 1 in E.
  destruct (walk_back n G s parent t Inf []) as [[pf path]|e| |] eqn:Ew;
    try discriminate.
  pose proof (wf_graph_augment path pf G Hwf) as H2.
  unfold bind at 1 in E.
  destruct (for_each path (fun e => push_flow_num (fst e) (snd e) pf) G)
    as [G1 [[]|e| |]] eqn:Ef; simpl in H2; try discriminate.
  apply (IH _ _ G1 G' steps mf H2 E).
Qed.

(** ** The reported cut and its capacity *)

Lemma out_sum_ext (w w' : attrs -> Z) (V : list node) (nbrs : adjacency) :
  (forall v a, In (v, a) nbrs -> memb v V = false -> w a = w' a) ->
  out_sum w V nbrs = out_sum w' V nbrs.
Proof.
  induction nbrs as [|[v a] nbrs IH]; intros H; simpl; [reflexivity|].
  rewrite IH by (intros v' a' Hin; apply H; right; exact Hin).
  destruct (memb v V) eqn:Ev; [reflexivity|].
  rewrite (H v a (or_introl eq_refl) Ev). reflexivity.
Qed.

Lemma out_sum_le (w w' : attrs -> Z) (V : list node) (nbrs : adjacency) :
  (forall v a, In (v, a) nbrs -> w a <= w' a) ->
  out_sum w V nbrs <= out_sum w' V nbrs.
Proof.
  induction nbrs as [|[v a] nbrs IH]; intros H; simpl; [lia|].
  assert (H1 : out_sum w V nbrs <= out_sum w' V nbrs)
    by (apply IH; intros v' a' Hin; apply (H v' a'); right; exact Hin).
  pose proof (H v a (or_introl eq_refl)). destruct (memb v V); lia.
Qed.

Lemma cut_sum_ext (w w' : attrs -> Z) (G : graph) (V us : list node) :
  wf_graph G ->
  (forall u v a, In u us -> memb v V = false -> get_edge G u v = Some a ->
                 w a = w' a) ->
  cut_sum w G V us = cut_sum w' G V us.
Proof.
  intros Hwf. induction us as [|u us IH]; intros H; simpl; [reflexivity|].
  rewrite IH by (intros u' v a Hin; apply (H u' v a); right; exact Hin).
  unfold adj. destruct (lookup u G) as [nbrs|] eqn:El; [|reflexivity].
  rewrite (out_sum_ext w w' V nbrs); [reflexivity|].
  intros v a Hin Hv. apply (H u v a (or_introl eq_refl) Hv).
  apply (adjacency_entry G Hwf u v nbrs a El Hin).
Qed.

Lemma cut_sum_le (w w' : attrs -> Z) (G : graph) (V us : list node) :
  wf_graph G ->
  (forall u v a, get_edge G u v = Some a -> w a <= w' a) ->
  cut_sum w G V us <= cut_sum w' G V us.
Proof.
  intros Hwf H. induction us as [|u us IH]; simpl; [lia|].
  unfold adj. destruct (lookup u G) as [nbrs|] eqn:El; [|lia].
  assert (H1 : out_sum w V nbrs <= out_sum w' V nbrs); [|lia].
  apply out_sum_le. intros v a Hin. apply (H u v a).
  apply (adjacency_entry G Hwf u v nbrs a El Hin).
Qed.

Lemma cut_sum_perm (w : attrs -> Z) (G : graph) (V us us' : list node) :
  Permutation us us' -> cut_sum w G V us = cut_sum w G V us'.
Proof.
  intros H. induction H; simpl; lia.
Qed.

Lemma report_capacity_app (c1 c2 : list cut_edge) :
  report_capacity (c1 ++ c2) = report_capacity c1 + report_capacity c2.
Proof.
  unfold report_capacity. induction c1 as [|e c1 IH]; simpl; [reflexivity|].
  rewrite IH. lia.
Qed.

Lemma report_capacity_cut_of (V : list node) (u : node) (nbrs : adjacency) :
  (forall v a, In (v, a) nbrs -> 0 <= capacity a) ->
  report_capacity (cut_of V u nbrs) = out_sum capacity V nbrs.
Proof.
  unfold cut_of.
  induction nbrs as [|[v a] nbrs IH]; intros H; [reflexivity|].
  cbn [filter fst snd out_sum fold_right].
  specialize (IH (fun v' a' Hin => H v' a' (or_intror Hin))).
  fold (out_sum capacity V nbrs). rewrite <- IH.
  pose proof (H v a (or_introl eq_refl)) as Hc.
  destruct (memb v V); cbn [negb andb]; [reflexivity|].
  destruct (capacity a >? 0) eqn:Ep.
  - reflexivity.
  - rewrite Z.gtb_ltb in Ep. apply Z.ltb_ge in Ep. lia.
Qed.

Lemma report_capacity_cut_for (G : graph) (V : list node) :
  wf_graph G -> capacities_nonneg G ->
  forall (us : list node) (cut : list cut_edge),
    cut_for G V us = Ok cut ->
    report_capacity cut = cut_sum capacity G V us.
Proof.
  intros Hwf Hn. induction us as [|u us IH]; intros cut E.
  - injection E as <-. reflexivity.
  - cbn [cut_for] in E. cbn [cut_sum fold_right]. fold (cut_sum capacity G V us).
    unfold adj in *. destruct (lookup u G) as [nbrs|] eqn:El; [|discriminate].
    cbn [of_option rbind] in E.
    destruct (cut_for G V us) as [cut'| | |]; try discriminate.
    cbn [rbind] in E. injection E as <-.
    rewrite report_capacity_app, (IH cut' eq_refl).
    rewrite report_capacity_cut_of; [reflexivity|].
    intros v a Hin. apply (Hn u v a).
    apply (adjacency_entry G Hwf u v nbrs a El Hin).
Qed.

(** On a graph whose flow respects the capacities, leaves no augmenting
    path and crosses every cut with the same amount [total], the report of
    [min_cut_report] has capacity [total], and no cut has less. *)
Lemma saturated_cut (set_order : list node -> list node) (G : graph)
    (s t : node) (fuel : nat) (total : Z) :
  (forall l, Permutation (set_order l) l) ->
  wf_graph G -> flows_set G -> within_capacity G -> In s (nodes G) ->
  ~ reachable G s t ->
  (forall V, NoDup V -> cut_flow G V = total * (inside V s - inside V t)) ->
  (1 + List.length (nodes G) + List.length (edges G) < fuel)%nat ->
  exists cut,
    min_cut_report set_order fuel G s = Ok cut /\
    report_capacity cut = total /\
    forall V, NoDup V -> In s V -> ~ In t V -> total <= cut_capacity G V.
Proof.
  intros Hperm Hwf Hflows [Hcap Hnn] Hs Hno Hcut Hfuel.
  destruct (reach_while_spec G s Hwf Hflows fuel [] [s])
    as (visited & E & Hnd & Hincl & Hin & Hsound & Hclo).
  - constructor.
  - intros x [].
  - intros x [<-|[]]. exact Hs.
  - intros x [[]|[<-|[]]]. constructor.
  - intros x y [].
  - rewrite budget_nil. simpl. lia.
  - assert (Hsv : In s visited) by (apply Hin; right; left; reflexivity).
    assert (Htv : ~ In t visited) by (intros H; apply Hno, Hsound, H).
    destruct (cut_for_spec G Hwf visited (set_order visited))
      as (cut & Ec & _).
    { intros x Hx. apply Hincl.
      apply (Permutation_in _ (Hperm visited)). exact Hx. }
    exists cut. split; [|split].
    + unfold min_cut_report. rewrite E. cbn [rbind]. exact Ec.
    + rewrite (report_capacity_cut_for G visited Hwf Hnn _ _ Ec).
      rewrite (cut_sum_perm capacity G visited _ _ (Hperm visited)).
      transitivity (cut_flow G visited).
      * unfold cut_flow. symmetry. apply cut_sum_ext; [exact Hwf|].
        intros u v a Hu Hv Ha. unfold flow_or_zero.
        destruct (flow a) as [f|] eqn:Ef; [|exfalso; exact (Hflows u v a Ha Ef)].
        pose proof (Hcap u v a f Ha Ef) as Hle.
        destruct (Z_gt_dec (capacity a - f) 0) as [Hpos|Hnpos]; [|lia].
        exfalso. apply memb_false in Hv. apply Hv. apply (Hclo u v Hu).
        exists a, f. auto.
      * rewrite (Hcut visited Hnd). unfold inside.
        apply memb_In in Hsv. apply memb_false in Htv. rewrite Hsv, Htv. lia.
    + intros V HV HsV HtV.
      transitivity (cut_flow G V).
      * rewrite (Hcut V HV). unfold inside.
        apply memb_In in HsV. apply memb_false in HtV. rewrite HsV, HtV. lia.
      * unfold cut_flow, cut_capacity. apply cut_sum_le; [exact Hwf|].
        intros u v a Ha. unfold flow_or_zero.
        destruct (flow a) as [f|] eqn:Ef; [exact (Hcap u v a f Ha Ef)|].
        exact (Hnn u v a Ha).
Qed.

(** The set of nodes that a residual path reaches is a cut whose capacity
    is the value of the flow. *)
Lemma saturated_set (G : graph) (s t : node) (total : Z) :
  wf_graph G -> flows_set G -> within_capacity G -> In s (nodes G) ->
  ~ reachable G s t ->
  (forall V, NoDup V -> cut_flow G V = total * (inside V s - inside V t)) ->
  exists V, NoDup V /\ In s V /\ ~ In t V /\ cut_capacity G V = total.
Proof.
  intros Hwf Hflows [Hcap Hnn] Hs Hno Hcut.
  destruct (reach_while_spec G s Hwf Hflows
              (S (1 + List.length (nodes G) + List.length (edges G))) [] [s])
    as (visited & E & Hnd & Hincl & Hin & Hsound & Hclo).
  - constructor.
  - intros x [].
  - intros x [<-|[]]. exact Hs.
  - intros x [[]|[<-|[]]]. constructor.
  - intros x y [].
  - rewrite budget_nil. simpl. lia.
  - assert (Hsv : In s visited) by (apply Hin; right; left; reflexivity).
    assert (Htv : ~ In t visited) by (intros H; apply Hno, Hsound, H).
    exists visited. split; [exact Hnd|]. split; [exact Hsv|].
    split; [exact Htv|].
    transitivity (cut_flow G visited).
    + unfold cut_flow, cut_capacity. symmetry. apply cut_sum_ext; [exact Hwf|].
      intros u v a Hu Hv Ha. unfold flow_or_zero.
      destruct (flow a) as [f|] eqn:Ef; [|exfalso; exact (Hflows u v a Ha Ef)].
      pose proof (Hcap u v a f Ha Ef) as Hle.
      destruct (Z_gt_dec (capacity a - f) 0) as [Hpos|Hnpos]; [|lia].
      exfalso. apply memb_false in Hv. apply Hv. apply (Hclo u v Hu).
      exists a, f. auto.
    + rewrite (Hcut visited Hnd). unfold inside.
      apply memb_In in Hsv. apply memb_false in Htv. rewrite Hsv, Htv. lia.
Qed.

Lemma flows_set_add_flow (u v : node) (d : Z) : keeps flows_set (add_flow u v d).
Proof.
  intros G H x y c. rewrite get_edge_add_flow.
  destruct (get_edge G u v) as [a|] eqn:Ea; [|apply H].
  destruct (flow a) as [f|]; [|apply H].
  destruct (node_eqb x u && node_eqb y v); [|apply H].
  intros E. injection E as <-. discriminate.
Qed.

Lemma flows_set_assign_flow (u v : node) (f : Z) :
  keeps flows_set (assign_flow u v f).
Proof.
  intros G H x y c. unfold assign_flow, bind, read, update.
  destruct (get_edge G u v) as [a|] eqn:Ea; simpl; [|apply H].
  rewrite get_edge_modify_edge, Ea.
  destruct (node_eqb x u && node_eqb y v); [|apply H].
  simpl. intros E. injection E as <-. discriminate.
Qed.

Lemma nodes_add_flow (u v : node) (d : Z) (G : graph) :
  nodes (fst (add_flow u v d G)) = nodes G.
Proof.
  unfold add_flow, bind, read, update.
  destruct (flow_of G u v); simpl; try reflexivity. apply nodes_modify_edge.
Qed.

Lemma nodes_assign_flow (u v : node) (f : Z) (G : graph) :
  nodes (fst (assign_flow u v f G)) = nodes G.
Proof.
  unfold assign_flow, bind, read, update.
  destruct (of_option (get_edge G u v)); simpl; try reflexivity.
  apply nodes_modify_edge.
Qed.

(** *** Edmonds-Karp *)

(** X11. Over whole numbers, the flow Edmonds-Karp leaves, seen across an
    arbitrary set of nodes [V]: with all capacities whole numbers, the
    flow values on the edges that leave [V] add up to the returned
    max-flow when [V] holds the source and not the sink, to its negative
    when [V] holds the sink and not the source, and to 0 otherwise.  So
    the returned value is the flow that leaves the source and enters the
    sink, and flow is conserved at every other node.  (The equation is
    exact; sums of floats with fractions round and miss it in the last
    place.) *)
Theorem edmonds_karp_flow_across_cuts (G G' : graph) (s t : node)
    (fuel : nat) (steps : list step) (max_flow : num) :
  wf_graph G ->
  edmonds_karp_steps fuel s t G = (G', Ok (steps, max_flow)) ->
  exists total,
    max_flow = Fin total /\
    forall V, NoDup V -> cut_flow G' V = total * (inside V s - inside V t).
Proof.
  intros Hwf E. rewrite edmonds_karp_steps_unfold in E.
  assert (Hwf0 : wf_graph (reset_flows (prepare_graph G)))
    by (apply wf_graph_reset_flows, wf_graph_prepare_graph, Hwf).
  destruct (ek_while_cut_flow fuel s t fuel 0 [] _ G' steps max_flow Hwf0 E)
    as (total & -> & H).
  exists total. split; [reflexivity|]. intros V HV.
  rewrite (H V HV), cut_flow_reset_flows. lia.
Qed.

(** What Edmonds-Karp leaves when it returns. *)
Lemma edmonds_karp_final (G G' : graph) (s t : node) (fuel : nat)
    (steps : list step) (max_flow : num) :
  wf_graph G -> capacities_nonneg G -> In s (nodes G) -> s <> t ->
  edmonds_karp_steps fuel s t G = (G', Ok (steps, max_flow)) ->
  wf_graph G' /\ flows_set G' /\ within_capacity G' /\ In s (nodes G') /\
  ~ reachable G' s t /\
  exists total,
    max_flow = Fin total /\
    forall V, NoDup V -> cut_flow G' V = total * (inside V s - inside V t).
Proof.
  intros Hwf Hn Hs Hst E.
  pose proof E as E1. rewrite edmonds_karp_steps_unfold in E1.
  set (G0 := reset_flows (prepare_graph G)) in *.
  assert (Hwf0 : wf_graph G0)
    by (apply wf_graph_reset_flows, wf_graph_prepare_graph, Hwf).
  assert (HG' : G' = fst (ek_while fuel fuel s t [] (Fin 0) [] G0))
    by (rewrite E1; reflexivity).
  split.
  { rewrite HG'.
    apply (flow_keeps_ek_while wf_graph wf_graph_add_flow). exact Hwf0. }
  split.
  { rewrite HG'.
    apply (flow_keeps_ek_while flows_set flows_set_add_flow).
    apply flows_set_reset_flows. }
  split.
  { rewrite HG'. apply within_capacity_ek_while; [exact Hwf0|].
    apply within_capacity_reset_prepare; assumption. }
  split.
  { rewrite HG'.
    apply (flow_keeps_ek_while (fun G1 => In s (nodes G1))).
    - intros u v d G1 H. rewrite nodes_add_flow. exact H.
    - unfold G0. rewrite nodes_reset_flows, (nodes_prepare_graph Hwf).
      exact Hs. }
  split.
  { apply (ek_while_no_path fuel s t Hst fuel _ _ G0 G' steps max_flow Hwf0 E1). }
  destruct (ek_while_cut_flow fuel s t fuel 0 [] G0 G' steps max_flow Hwf0 E1)
    as (total & -> & Hcut0).
  exists total. split; [reflexivity|].
  intros V HV. rewrite (Hcut0 V HV). unfold G0.
  rewrite cut_flow_reset_flows. lia.
Qed.

(** X12. Over whole numbers, max-flow and min-cut agree.  When
    Edmonds-Karp returns on a graph whose capacities are whole numbers, no
    augmenting path is left, [min_cut_report] on the solved graph returns
    a cut whose capacities add up to exactly the returned max-flow, and no
    set of nodes that separates the source from the sink has a smaller
    capacity.  (On floats with fractions the two sums can differ in the
    last place.) *)
Theorem edmonds_karp_max_flow_min_cut (set_order : list node -> list node)
    (G G' : graph) (s t : node) (fuel fuel' : nat) (steps : list step)
    (max_flow : num) :
  (forall l, Permutation (set_order l) l) ->
  wf_graph G -> capacities_nonneg G -> In s (nodes G) -> s <> t ->
  edmonds_karp_steps fuel s t G = (G', Ok (steps, max_flow)) ->
  (1 + List.length (nodes G') + List.length (edges G') < fuel')%nat ->
  ~ reachable G' s t /\
  exists cut,
    min_cut_report set_order fuel' G' s = Ok cut /\
    max_flow = Fin (report_capacity cut) /\
    forall V, NoDup V -> In s V -> ~ In t V ->
              report_capacity cut <= cut_capacity G' V.
Proof.
  intros Hperm Hwf Hn Hs Hst E Hfuel.
  destruct (edmonds_karp_final G G' s t fuel steps max_flow Hwf Hn Hs Hst E)
    as (Hwf' & Hfl' & Hcap' & Hs' & Hno & total & -> & Hcut).
  split; [exact Hno|].
  destruct (saturated_cut set_order G' s t fuel' total Hperm Hwf' Hfl' Hcap'
              Hs' Hno Hcut Hfuel) as (cut & Ec & Hrc & Hmin).
  exists cut. split; [exact Ec|]. split; [rewrite Hrc; reflexivity|].
  rewrite Hrc. exact Hmin.
Qed.

(** *** Dinic *)

Lemma dfs_cut_flow (t : node) (level : dict Z) :
  forall (fuel depth : nat) (u : node) (pushed : num) (it : dict nat)
         (G G1 : graph) (fl : num) (it' : dict nat),
    dfs fuel depth t level u pushed it G = (G1, Ok (fl, it')) ->
    (u = t /\ G1 = G /\ fl = pushed) \/
    (u <> t /\
     exists d, fl = Fin d /\ 0 <= d /\
               forall V, NoDup V ->
                         cut_flow G1 V
                         = cut_flow G V + d * (inside V u - inside V t)).
Proof.
  induction fuel as [|k IH]; intros depth u pushed it G G1 fl it' E;
    [discriminate|].
  cbn [dfs] in E. destruct (node_eqb_spec u t) as [Hut|Hut].
  { injection E as <- <- _. left. auto. }
  right. split; [exact Hut|].
  destruct depth as [|dp]; [discriminate|].
  assert (Hrec : forall it0 G0,
             dfs k (S dp) t level u pushed it0 G0 = (G1, Ok (fl, it')) ->
             exists d, fl = Fin d /\ 0 <= d /\
                       forall V, NoDup V ->
                                 cut_flow G1 V
                                 = cut_flow G0 V
                                   + d * (inside V u - inside V t)).
  { intros it0 G0 E0. apply IH in E0.
    destruct E0 as [[H _]|[_ H]]; [congruence|exact H]. }
  unfold bind at 1 in E. unfold read at 1 in E.
  destruct (lookup u it) as [iu|]; [|discriminate]. cbn [of_option] in E.
  unfold bind at 1 in E. unfold read at 1 in E.
  destruct (adj G u) as [nbrs|]; [|discriminate]. cbn [of_option] in E.
  destruct (iu <? List.length nbrs)%nat.
  2:{ injection E as <- <- _. exists 0. split; [reflexivity|].
      split; [lia|]. intros; lia. }
  unfold bind at 1 in E. unfold read at 1 in E.
  destruct (nth_error (keys nbrs) iu) as [v|]; [|discriminate].
  cbn [of_option] in E. unfold bind at 1 in E. unfold read at 1 in E.
  destruct (lookup v level) as [lv|]; [|discriminate].
  cbn [of_option] in E. unfold bind at 1 in E. unfold read at 1 in E.
  destruct (lookup u level) as [lu|]; [|discriminate].
  cbn [of_option] in E.
  destruct (lv =? lu + 1); [|exact (Hrec _ _ E)].
  unfold bind at 1 in E. unfold read at 1 in E.
  destruct (residual G u v) as [r|e| |]; try discriminate.
  destruct (r >? 0); [|exact (Hrec _ _ E)].
  unfold bind at 1 in E.
  destruct (dfs k dp t level v (num_min pushed (Fin r)) (assign u (S iu) it) G)
    as [G2 [[fl2 it2]|e| |]] eqn:E2; try discriminate.
  apply IH in E2.
  destruct (num_pos fl2) eqn:Hpos.
  - destruct fl2 as [d|]; cbn [push_flow_num] in E.
    2:{ unfold bind in E. discriminate. }
    unfold bind in E.
    destruct (push_flow u v d G2) as [G3 [[]|e| |]] eqn:E3; try discriminate.
    injection E as <- <- _.
    simpl in Hpos. apply negb_true_iff, Z.leb_gt in Hpos.
    exists d. split; [reflexivity|]. split; [lia|].
    intros V HV. rewrite (cut_flow_push_flow u v d G2 G3 V HV E3).
    destruct E2 as [(-> & -> & _)|(_ & d' & Hd' & _ & Hc)]; [lia|].
    injection Hd' as <-. rewrite (Hc V HV). lia.
  - destruct (Hrec _ _ E) as (d & Hd & Hd0 & Hc).
    exists d. split; [exact Hd|]. split; [exact Hd0|].
    intros V HV. rewrite (Hc V HV).
    destruct E2 as [(_ & -> & _)|(_ & d' & -> & Hd' & Hc')]; [reflexivity|].
    simpl in Hpos. apply negb_false_iff, Z.leb_le in Hpos.
    assert (d' = 0) by lia. subst d'. rewrite (Hc' V HV). lia.
Qed.

Lemma dinic_blocking_cut_flow (n limit : nat) (s t : node) (level : dict Z) :
  s <> t ->
  forall (fuel : nat) (it : dict nat) (acc : Z) (G G' : graph) (mf : num),
    0 <= acc ->
    dinic_blocking fuel n limit s t level it (Fin acc) G = (G', Ok mf) ->
    exists total,
      mf = Fin total /\ 0 <= total /\
      forall V, NoDup V ->
                cut_flow G' V
                = cut_flow G V + (total - acc) * (inside V s - inside V t).
Proof.
  intros Hst.
  induction fuel as [|k IH]; intros it acc G G' mf Hacc E; [discriminate|].
  cbn [dinic_blocking] in E. unfold bind at 1 in E.
  destruct (dfs n limit t level s Inf it G) as [G1 [[fl it1]|e| |]] eqn:E1;
    try discriminate.
  apply dfs_cut_flow in E1.
  destruct E1 as [[H _]|(_ & d & -> & Hd & Hc)]; [congruence|].
  destruct (num_nonpos (Fin d)) eqn:Hnp.
  - injection E as <- <-. simpl in Hnp. apply Z.leb_le in Hnp.
    assert (d = 0) by lia. subst d.
    exists acc. split; [reflexivity|]. split; [lia|].
    intros V HV. rewrite (Hc V HV). lia.
  - cbn [num_add] in E.
    destruct (IH it1 (acc + d) G1 G' mf ltac:(lia) E) as (total & -> & Ht & Hc').
    exists total. split; [reflexivity|]. split; [exact Ht|].
    intros V HV. rewrite (Hc' V HV), (Hc V HV). lia.
Qed.

Lemma dinic_while_cut_flow (n limit : nat) (s t : node) :
  s <> t ->
  forall (fuel : nat) (acc : Z) (G G' : graph) (mf : num),
    0 <= acc ->
    dinic_while fuel n limit s t (Fin acc) G = (G', Ok mf) ->
    exists total,
      mf = Fin total /\ 0 <= total /\
      forall V, NoDup V ->
                cut_flow G' V
                = cut_flow G V + (total - acc) * (inside V s - inside V t).
Proof.
  intros Hst.
  induction fuel as [|k IH]; intros acc G G' mf Hacc E; [discriminate|].
  cbn [dinic_while] in E. unfold bind at 1 in E. unfold read at 1 in E.
  destruct (bfs_level n s G) as [level|e| |]; try discriminate.
  unfold bind at 1 in E. unfold read at 1 in E.
  destruct (lookup t level) as [lt|]; [|discriminate]. cbn [of_option] in E.
  destruct (lt <? 0).
  { injection E as <- <-. exists acc. split; [reflexivity|]. split; [lia|].
    intros; lia. }
  unfold bind at 1 in E. unfold read at 1 in E.
  unfold bind at 1 in E.
  destruct (dinic_blocking n n limit s t level (map (fun x => (x, O)) (nodes G))
              (Fin acc) G) as [G1 [mf1|e| |]] eqn:E1; try discriminate.
  destruct (dinic_blocking_cut_flow n limit s t level Hst _ _ _ _ _ _ Hacc E1)
    as (total1 & -> & Ht1 & Hc1).
  destruct (IH total1 G1 G' mf Ht1 E) as (total & -> & Ht & Hc).
  exists total. split; [reflexivity|]. split; [exact Ht|].
  intros V HV. rewrite (Hc V HV), (Hc1 V HV). lia.
Qed.

(** The level search labels every node that a residual path leads to. *)
Lemma bfs_level_for_closed (u : node) (nbrs : adjacency) :
  forall (level : dict Z) (q : list node) (level' : dict Z) (q' : list node),
    labelled level u ->
    bfs_level_for u nbrs level q = Ok (level', q') ->
    exists new,
      q' = q ++ new /\
      (forall x, labelled level x -> labelled level' x) /\
      (forall x, labelled level' x -> labelled level x \/ In x new) /\
      (forall x, In x new -> labelled level' x) /\
      forall v a f, In (v, a) nbrs -> flow a = Some f -> capacity a - f > 0 ->
                    labelled level' v.
Proof.
  induction nbrs as [|[v a] nbrs IH]; intros level q level' q' Hu E.
  - injection E as <- <-. exists []. rewrite app_nil_r.
    split; [reflexivity|]. split; [auto|]. split; [auto|].
    split; [intros x []|intros v a f []].
  - cbn [bfs_level_for] in E.
    destruct (lookup v level) as [lv|] eqn:Elv; [|discriminate].
    cbn [of_option rbind] in E.
    destruct (Z.ltb_spec lv 0) as [Hlv|Hlv].
    + destruct (flow a) as [f|] eqn:Ef; [|discriminate].
      cbn [of_option rbind] in E.
      destruct (capacity a - f >? 0) eqn:Er.
      * destruct Hu as [lu [Elu Hlu]]. rewrite Elu in E.
        cbn [of_option rbind] in E.
        assert (Huv : u <> v) by (intros ->; rewrite Elu in Elv;
                                  injection Elv as ->; lia).
        assert (Hmono : forall x, labelled level x ->
                                  labelled (assign v (lu + 1) level) x).
        { intros x [l [El Hl]]. exists l. split; [|exact Hl].
          rewrite lookup_assign. node_cases x v; [|exact El].
          rewrite El in Elv. injection Elv as ->. lia. }
        assert (Hv : labelled (assign v (lu + 1) level) v).
        { exists (lu + 1). split; [|lia].
          rewrite lookup_assign, node_eqb_refl. reflexivity. }
        destruct (IH _ _ _ _ (Hmono u (ex_intro _ lu (conj Elu Hlu))) E)
          as (new & -> & H1 & H2 & H3 & H4).
        exists (v :: new). rewrite <- app_assoc.
        split; [reflexivity|]. split; [auto|]. split; [|split].
        -- intros x Hx. destruct (H2 x Hx) as [[l [El Hl]]|Hin].
           ++ rewrite lookup_assign in El. node_cases x v.
              ** right. left. reflexivity.
              ** left. exists l. auto.
           ++ right. right. exact Hin.
        -- intros x [<-|Hin]; [apply H1, Hv|apply H3, Hin].
        -- intros v' a' f' [H|H] Hf' Hpos.
           ++ injection H as <- <-. apply H1, Hv.
           ++ apply (H4 v' a' f' H Hf' Hpos).
      * destruct (IH _ _ _ _ Hu E) as (new & -> & H1 & H2 & H3 & H4).
        exists new. split; [reflexivity|]. split; [exact H1|].
        split; [exact H2|]. split; [exact H3|].
        intros v' a' f' [H|H] Hf' Hpos; [|apply (H4 v' a' f' H Hf' Hpos)].
        injection H as <- <-. assert (f' = f) by congruence. subst f'.
        rewrite Z.gtb_ltb in Er. apply Z.ltb_ge in Er. lia.
    + destruct (IH _ _ _ _ Hu E) as (new & -> & H1 & H2 & H3 & H4).
      exists new. split; [reflexivity|]. split; [exact H1|].
      split; [exact H2|]. split; [exact H3|].
      intros v' a' f' [H|H] Hf' Hpos; [|apply (H4 v' a' f' H Hf' Hpos)].
      injection H as <- <-. apply H1. exists lv. auto.
Qed.

Lemma bfs_level_while_closed (G : graph) :
  forall (fuel : nat) (level : dict Z) (q : list node) (level' : dict Z),
    (forall x, In x q -> labelled level x) ->
    (forall x y, labelled level x -> ~ In x q -> res_edge G x y ->
                 labelled level y) ->
    bfs_level_while fuel G level q = Ok level' ->
    (forall x, labelled level x -> labelled level' x) /\
    (forall x y, labelled level' x -> res_edge G x y -> labelled level' y).
Proof.
  induction fuel as [|k IH]; intros level q level' Hq Hclo E; [discriminate|].
  destruct q as [|u q].
  - injection E as <-. split; [auto|]. intros x y Hx. apply Hclo; auto.
  - cbn [bfs_level_while] in E. unfold adj in E.
    destruct (lookup u G) as [nbrs|] eqn:El; [|discriminate].
    cbn [of_option rbind] in E.
    destruct (bfs_level_for u nbrs level q) as [[level1 q1]|e| |] eqn:Ef;
      try discriminate.
    cbn [rbind fst snd] in E.
    destruct (bfs_level_for_closed u nbrs level q level1 q1
                (Hq u (or_introl eq_refl)) Ef)
      as (new & -> & H1 & H2 & H3 & H4).
    destruct (IH level1 (q ++ new) level') as [H5 H6]; [| |exact E|].
    + intros x Hx. apply in_app_or in Hx.
      destruct Hx as [Hx|Hx]; [apply H1, Hq; right; exact Hx|apply H3, Hx].
    + intros x y Hx Hnq (a & f & Ha & Hf & Hpos).
      destruct (H2 x Hx) as [Hold|Hnew].
      2:{ exfalso. apply Hnq. apply in_or_app. right. exact Hnew. }
      node_cases x u.
      * apply (H4 y a f); [|exact Hf|exact Hpos].
        unfold get_edge in Ha. rewrite El in Ha.
        apply lookup_Some_In in Ha. exact Ha.
      * apply H1. apply (Hclo x y Hold).
        -- intros [H|H]; [congruence|]. apply Hnq. apply in_or_app. auto.
        -- exists a, f. auto.
    + split; [|exact H6]. intros x Hx. apply H5, H1, Hx.
Qed.

Lemma bfs_level_no_path (G : graph) (s t : node) (n : nat) (level : dict Z)
    (lt : Z) :
  bfs_level n s G = Ok level -> lookup t level = Some lt -> lt < 0 ->
  ~ reachable G s t.
Proof.
  intros E Elt Hlt. unfold bfs_level in E.
  apply bfs_level_while_closed in E.
  - destruct E as [Hs Hclo]. intros Hr.
    assert (H : forall x, reachable G s x -> labelled level x).
    { intros x Hx. induction Hx as [|u v _ IHr Huv].
      - apply Hs. exists 0. split; [|lia].
        rewrite lookup_assign, node_eqb_refl. reflexivity.
      - apply (Hclo u v IHr Huv). }
    destruct (H t Hr) as [l [El Hl]]. rewrite Elt in El.
    injection El as <-. lia.
  - intros x [<-|[]]. exists 0. split; [|lia].
    rewrite lookup_assign, node_eqb_refl. reflexivity.
  - intros x y [l [El Hl]] Hnq _. exfalso. apply Hnq. left.
    rewrite lookup_assign in El. node_cases x s; [reflexivity|].
    exfalso. clear - El Hl. induction (nodes G) as [|z ns IHn]; [discriminate|].
    simpl in El. destruct (node_eqb x z).
    + injection El as <-. lia.
    + exact (IHn El).
Qed.

Lemma dinic_while_no_path (n limit : nat) (s t : node) :
  forall (fuel : nat) (mf0 : num) (G G' : graph) (mf : num),
    dinic_while fuel n limit s t mf0 G = (G', Ok mf) -> ~ reachable G' s t.
Proof.
  induction fuel as [|k IH]; intros mf0 G G' mf E; [discriminate|].
  cbn [dinic_while] in E. unfold bind at 1 in E. unfold read at 1 in E.
  destruct (bfs_level n s G) as [level|e| |] eqn:Eb; try discriminate.
  unfold bind at 1 in E. unfold read at 1 in E.
  destruct (lookup t level) as [lt|] eqn:Elt; [|discriminate].
  cbn [of_option] in E.
  destruct (Z.ltb_spec lt 0) as [Hlt|Hlt].
  { injection E as <- _. apply (bfs_level_no_path G s t n level lt Eb Elt Hlt). }
  unfold bind at 1 in E. unfold read at 1 in E.
  unfold bind at 1 in E.
  destruct (dinic_blocking n n limit s t level (map (fun x => (x, O)) (nodes G))
              mf0 G) as [G1 [mf1|e| |]]; try discriminate.
  apply (IH _ _ _ _ E).
Qed.

Lemma cut_sum_zero (G : graph) (V us : list node) :
  cut_sum (fun _ => 0) G V us = 0.
Proof.
  induction us as [|u us IH]; simpl; [reflexivity|]. rewrite IH.
  destruct (adj G u) as [nbrs|]; [|reflexivity].
  rewrite out_sum_zero; auto.
Qed.

(** X13. Over whole numbers, the flow Dinic adds, seen across an
    arbitrary set of nodes [V]: with all capacities and flows whole
    numbers, whatever flow the prepared graph came with, the flow that
    leaves [V] has grown by the returned max-flow when [V] holds the
    source and not the sink, has shrunk by it when [V] holds the sink and
    not the source, and is unchanged otherwise.  The returned value is a
    finite number that is not negative.  (The equation is exact; sums of
    floats with fractions round and miss it in the last place.) *)
Theorem dinic_flow_across_cuts (G G' : graph) (s t : node) (fuel limit : nat)
    (max_flow : num) :
  dinic_apply fuel limit s t G = (G', Ok max_flow) ->
  exists total,
    max_flow = Fin total /\ 0 <= total /\
    forall V, NoDup V ->
              cut_flow G' V
              = cut_flow (prepare_graph G) V
                + total * (inside V s - inside V t).
Proof.
  intros E. unfold dinic_apply in E. unfold bind at 1 in E.
  unfold update at 1 in E.
  assert (Hst : s <> t).
  { intros ->. apply (dinic_while_no_path _ _ _ _ _ _ _ _ _ E). constructor. }
  destruct (dinic_while_cut_flow fuel limit s t Hst fuel 0 _ G' max_flow
              ltac:(lia) E) as (total & -> & Ht & Hc).
  exists total. split; [reflexivity|]. split; [exact Ht|].
  intros V HV. rewrite (Hc V HV). lia.
Qed.

(** X14. Over whole numbers, max-flow and min-cut agree for Dinic.  When
    it returns on a graph that came without flow and whose capacities are
    whole numbers, no augmenting path is left, [min_cut_report] on the
    solved graph returns a cut whose capacities add up to exactly the
    returned max-flow, and no set of nodes that separates the source from
    the sink has a smaller capacity.  (On floats with fractions the two
    sums can differ in the last place.) *)
Theorem dinic_max_flow_min_cut (set_order : list node -> list node)
    (G G' : graph) (s t : node) (fuel fuel' limit : nat) (max_flow : num) :
  (forall l, Permutation (set_order l) l) ->
  wf_graph G -> fresh_flows G -> capacities_nonneg G -> In s (nodes G) ->
  dinic_apply fuel limit s t G = (G', Ok max_flow) ->
  (1 + List.length (nodes G') + List.length (edges G') < fuel')%nat ->
  ~ reachable G' s t /\
  exists cut,
    min_cut_report set_order fuel' G' s = Ok cut /\
    max_flow = Fin (report_capacity cut) /\
    forall V, NoDup V -> In s V -> ~ In t V ->
              report_capacity cut <= cut_capacity G' V.
Proof.
  intros Hperm Hwf Hfresh Hn Hs E Hfuel.
  pose proof E as E1. unfold dinic_apply in E1. unfold bind at 1 in E1.
  unfold update at 1 in E1.
  set (G0 := prepare_graph G) in *.
  assert (Hwf0 : wf_graph G0) by (apply wf_graph_prepare_graph, Hwf).
  assert (HG' : G' = fst (dinic_while fuel fuel limit s t (Fin 0) G0))
    by (rewrite E1; reflexivity).
  assert (Hwf' : wf_graph G').
  { rewrite HG'.
    apply (flow_keeps_dinic_while wf_graph wf_graph_add_flow). exact Hwf0. }
  assert (Hfl' : flows_set G').
  { rewrite HG'.
    apply (flow_keeps_dinic_while flows_set flows_set_add_flow).
    apply flows_set_prepare_graph, Hwf. }
  assert (Hcap' : within_capacity G').
  { rewrite HG'. apply within_capacity_dinic_while.
    apply within_capacity_prepare_graph; [apply Hwf|assumption..]. }
  assert (Hs' : In s (nodes G')).
  { rewrite HG'.
    apply (flow_keeps_dinic_while (fun G1 => In s (nodes G1))).
    - intros u v d G1 H. rewrite nodes_add_flow. exact H.
    - unfold G0. rewrite (nodes_prepare_graph Hwf). exact Hs. }
  assert (Hno : ~ reachable G' s t)
    by (apply (dinic_while_no_path _ _ _ _ _ _ _ _ _ E1)).
  split; [exact Hno|].
  assert (Hst : s <> t) by (intros ->; apply Hno; constructor).
  destruct (dinic_while_cut_flow fuel limit s t Hst fuel 0 G0 G' max_flow
              ltac:(lia) E1) as (total & -> & _ & Hcut).
  assert (Hcut' : forall V, NoDup V ->
                            cut_flow G' V = total * (inside V s - inside V t)).
  { intros V HV. rewrite (Hcut V HV). unfold G0.
    assert (H0 : cut_flow (prepare_graph G) V = 0); [|lia].
    unfold cut_flow.
    rewrite (cut_sum_ext flow_or_zero (fun _ => 0) (prepare_graph G) V V Hwf0).
    - apply cut_sum_zero.
    - intros u v a _ _ Ha. unfold flow_or_zero.
      rewrite (prepare_graph_zero G (proj1 Hwf) Hfresh u v a Ha). reflexivity. }
  destruct (saturated_cut set_order G' s t fuel' total Hperm Hwf' Hfl' Hcap'
              Hs' Hno Hcut' Hfuel) as (cut & Ec & Hrc & Hmin).
  exists cut. split; [exact Ec|]. split; [rewrite Hrc; reflexivity|].
  rewrite Hrc. exact Hmin.
Qed.

(** ** Edmonds-Karp returns *)





(** The capacity of a cut is not touched by a flow update, by
    [reset_flows] or by [prepare_graph], whose new edges have capacity 0. *)
Lemma cut_sum_modify_same (w : attrs -> Z) (g : attrs -> attrs) (G : graph)
    (V us : list node) (u v : node) :
  (forall a, w (g a) = w a) ->
  cut_sum w (modify_edge u v g G) V us = cut_sum w G V us.
Proof.
  intros Hg. induction us as [|x us IH]; simpl; [reflexivity|].
  rewrite IH. f_equal. unfold adj, modify_edge. rewrite lookup_modify.
  node_cases x u; [|reflexivity].
  destruct (lookup u G) as [nbrs|]; simpl; [|reflexivity].
  rewrite out_sum_modify.
  destruct (memb v V); [lia|]. destruct (lookup v nbrs); [rewrite Hg|]; lia.
Qed.

Lemma cut_capacity_add_flow (V us : list node) (C : Z) (u v : node) (d : Z) :
  keeps (fun G => cut_sum capacity G V us = C) (add_flow u v d).
Proof.
  intros G H. unfold add_flow, bind, read, update.
  destruct (flow_of G u v); simpl; try exact H.
  rewrite cut_sum_modify_same; [exact H|reflexivity].
Qed.

Lemma out_sum_map_values (w : attrs -> Z) (g : attrs -> attrs)
    (V : list node) (nbrs : adjacency) :
  out_sum w V (map_values g nbrs) = out_sum (fun a => w (g a)) V nbrs.
Proof.
  unfold out_sum, map_values.
  induction nbrs as [|[v a] nbrs IH]; simpl; [reflexivity|].
  rewrite IH. reflexivity.
Qed.

Lemma cut_capacity_reset_flows (G : graph) (V us : list node) :
  cut_sum capacity (reset_flows G) V us = cut_sum capacity G V us.
Proof.
  induction us as [|x us IH]; simpl; [reflexivity|]. rewrite IH. f_equal.
  unfold adj, reset_flows. rewrite lookup_map_values.
  destruct (lookup x G) as [nbrs|]; simpl; [|reflexivity].
  rewrite out_sum_map_values. reflexivity.
Qed.

Lemma out_sum_assign_new (w : attrs -> Z) (V : list node) (k : node)
    (a : attrs) (nbrs : adjacency) :
  lookup k nbrs = None ->
  out_sum w V (assign k a nbrs)
  = out_sum w V nbrs + (if memb k V then 0 else w a).
Proof.
  induction nbrs as [|[v b] nbrs IH]; simpl; intros H.
  - destruct (memb k V); lia.
  - destruct (node_eqb k v); [discriminate|]. simpl. rewrite (IH H). lia.
Qed.

Lemma cut_capacity_add_node (G : graph) (V us : list node) (x : node) :
  cut_sum capacity (add_node x G) V us = cut_sum capacity G V us.
Proof.
  induction us as [|y us IH]; simpl; [reflexivity|]. rewrite IH. f_equal.
  unfold adj. rewrite lookup_add_node.
  destruct (lookup y G); [reflexivity|].
  destruct (node_eqb y x); reflexivity.
Qed.

Lemma cut_capacity_prepare_step (G : graph) (V us : list node)
    (e : node * node) :
  cut_sum capacity (prepare_step G e) V us = cut_sum capacity G V us.
Proof.
  destruct e as [u v]. unfold prepare_step.
  assert (Hsd : forall a, capacity (setdefault_flow a) = capacity a)
    by (intros a; unfold setdefault_flow; destruct (flow a); reflexivity).
  set (G1 := modify_edge u v setdefault_flow G).
  assert (H1 : cut_sum capacity G1 V us = cut_sum capacity G V us)
    by (apply cut_sum_modify_same; exact Hsd).
  destruct (has_edge G1 v u) eqn:He.
  - rewrite cut_sum_modify_same; [exact H1|exact Hsd].
  - rewrite <- H1. unfold add_edge.
    rewrite <- (cut_capacity_add_node G1 V us v).
    rewrite <- (cut_capacity_add_node (add_node v G1) V us u).
    set (G2 := add_node u (add_node v G1)).
    assert (Hvu : forall d, lookup v G2 = Some d -> lookup u d = None).
    { intros d Hd. unfold G2 in Hd. rewrite !lookup_add_node in Hd.
      unfold has_edge, get_edge in He.
      destruct (lookup v G1) as [d1|].
      - injection Hd as <-. destruct (lookup u d1); [discriminate|reflexivity].
      - destruct (node_eqb v v), (node_eqb v u); try discriminate;
          injection Hd as <-; reflexivity. }
    clearbody G2. clear - Hvu.
    induction us as [|x us IH]; simpl; [reflexivity|]. rewrite IH. f_equal.
    unfold adj. rewrite lookup_modify. node_cases x v; [|reflexivity].
    destruct (lookup v G2) as [d|] eqn:Ed; simpl; [|reflexivity].
    rewrite (out_sum_assign_new capacity V u _ d (Hvu d eq_refl)). simpl.
    destruct (memb u V); lia.
Qed.

Lemma cut_capacity_prepare_graph (G : graph) (V us : list node) :
  cut_sum capacity (prepare_graph G) V us = cut_sum capacity G V us.
Proof.
  unfold prepare_graph. generalize (edges G). intros es. revert G.
  induction es as [|e es IH]; intros G; [reflexivity|].
  cbn [fold_left]. rewrite IH. apply cut_capacity_prepare_step.
Qed.

Lemma cut_flow_le_capacity (G : graph) (V : list node) :
  wf_graph G -> within_capacity G -> cut_flow G V <= cut_capacity G V.
Proof.
  intros Hwf [Hcap Hnn]. unfold cut_flow, cut_capacity.
  apply cut_sum_le; [exact Hwf|].
  intros u v a Ha. unfold flow_or_zero.
  destruct (flow a) as [f|] eqn:Ef; [exact (Hcap u v a f Ha Ef)|].
  exact (Hnn u v a Ha).
Qed.



(** ** Push-relabel returns *)

Lemma push_unfold (u v : node) (st : pr_state) (G : graph) (eu r : Z) :
  lookup u (excess st) = Some eu -> residual G u v = Ok r ->
  push u v st G
  = if Z.min eu r <=? 0 then (G, Ok (false, st))
    else
      match push_flow u v (Z.min eu r) G with
      | (G1, Ok _) =>
          match lookup v (assign u (eu - Z.min eu r) (excess st)) with
          | Some ev =>
              (G1, Ok (true,
                       mkPR (height st)
                            (assign v (ev + Z.min eu r)
                                    (assign u (eu - Z.min eu r) (excess st)))
                            (active st)
                            (trace st ++
                             [mkPush u v (lookup u (height st))
                                     (lookup v (height st)) eu r
                                     (Z.min eu r)])))
          | None => (G1, Raise KeyError)
          end
      | (G1, Raise e) => (G1, Raise e)
      | (G1, OutOfFuel) => (G1, OutOfFuel)
      | (G1, Unmodelled) => (G1, Unmodelled)
      end.
Proof.
  intros Eu Er. unfold push. unfold bind at 1. unfold read at 1.
  rewrite Eu. cbn [of_option]. unfold bind at 1. unfold read at 1.
  rewrite Er. destruct (Z.min eu r <=? 0); [reflexivity|].
  unfold bind at 1.
  destruct (push_flow u v (Z.min eu r) G) as [G1 [[]|e| |]]; try reflexivity.
  unfold bind at 1. unfold read at 1.
  unfold bind at 1. unfold read at 1.
  destruct (lookup v (assign u (eu - Z.min eu r) (excess st))); reflexivity.
Qed.

Lemma push_flow_returns (u v : node) (d : Z) (G : graph) :
  skew_symmetric G -> has_edge G u v = true ->
  exists G1, push_flow u v d G = (G1, Ok tt).
Proof.
  intros Hskew He. apply has_edge_true in He. destruct He as [a Ha].
  destruct (Hskew u v a Ha) as (b & f & Hb & Hf & Hg).
  node_cases u v.
  - destruct (push_flow_loop v d G a f Ha Hf) as (G0 & E0 & _). eauto.
  - destruct (push_flow_Ok u v d G a b f (- f) E Ha Hf Hb Hg)
      as (G0 & E0 & _). eauto.
Qed.

Lemma has_edge_push_flow (u v : node) (d : Z) (G : graph) (x y : node) :
  has_edge (fst (push_flow u v d G)) x y = has_edge G x y.
Proof.
  assert (Hadd : forall u v d G,
             has_edge (fst (add_flow u v d G)) x y = has_edge G x y).
  { clear. intros u v d G. unfold has_edge. rewrite get_edge_add_flow.
    destruct (get_edge G u v) as [a|] eqn:Ea; [|reflexivity].
    destruct (flow a); [|reflexivity].
    destruct (node_eqb_spec x u) as [->|]; [|reflexivity].
    destruct (node_eqb_spec y v) as [->|]; [|reflexivity].
    simpl. rewrite Ea. reflexivity. }
  unfold push_flow, bind.
  pose proof (Hadd u v d G) as H1.
  destruct (add_flow u v d G) as [G0 [[]|e| |]]; simpl in *; try exact H1.
  rewrite Hadd. exact H1.
Qed.

Lemma residual_returns (G : graph) (u v : node) :
  skew_symmetric G -> has_edge G u v = true ->
  exists a f, get_edge G u v = Some a /\ flow a = Some f /\
              residual G u v = Ok (capacity a - f).
Proof.
  intros Hskew He. apply has_edge_true in He. destruct He as [a Ha].
  destruct (Hskew u v a Ha) as (b & f & _ & Hf & _).
  exists a, f. split; [exact Ha|]. split; [exact Hf|].
  unfold residual, capacity_of, flow_of. rewrite Ha. simpl. rewrite Hf.
  reflexivity.
Qed.

Lemma inside_one (x y : node) :
  inside [x] y = if node_eqb y x then 1 else 0.
Proof. unfold inside. simpl. destruct (node_eqb y x); reflexivity. Qed.

Lemma lookup_initial_heights (ns : list node) (s x : node) :
  In x ns ->
  lookup x (initial_heights ns s)
  = Some (if node_eqb x s then Z.of_nat (List.length ns) else 0).
Proof.
  intros Hx. unfold initial_heights. rewrite lookup_assign.
  destruct (node_eqb x s); [reflexivity|].
  induction ns as [|y ns IH]; [destruct Hx|]. simpl.
  node_cases x y; [reflexivity|].
  destruct Hx as [Hx|Hx]; [congruence|]. apply IH, Hx.
Qed.

Lemma residual_push_flow_other (u v : node) (d : Z) (G : graph) (x : node) :
  x <> u -> x <> v ->
  residual (fst (push_flow u v d G)) u x = residual G u x.
Proof.
  intros Hxu Hxv. unfold residual, capacity_of, flow_of.
  rewrite push_flow_frame; [reflexivity| |]; congruence.
Qed.

Lemma residual_push_flow_edge (u v : node) (d : Z) (G G1 : graph) (r : Z) :
  skew_symmetric G -> u <> v -> residual G u v = Ok r ->
  push_flow u v d G = (G1, Ok tt) ->
  residual G1 u v = Ok (r - d).
Proof.
  intros Hskew Huv Er E1. unfold residual, capacity_of, flow_of in Er.
  destruct (get_edge G u v) as [a|] eqn:Ha; [|discriminate]. simpl in Er.
  destruct (Hskew u v a Ha) as (b & f & Hb & Hf & Hg).
  rewrite Hf in Er. simpl in Er. injection Er as <-.
  destruct (push_flow_Ok u v d G a b f (- f) Huv Ha Hf Hb Hg)
    as (G' & E' & Huv' & _).
  rewrite E1 in E'. injection E' as <-.
  unfold residual, capacity_of, flow_of. rewrite Huv'. simpl. f_equal. lia.
Qed.

Lemma excess_sum_assign (ex : dict Z) (k : node) (e0 e1 : Z) :
  lookup k ex = Some e0 ->
  forall V, NoDup V ->
    excess_sum (assign k e1 ex) V = excess_sum ex V + inside V k * (e1 - e0).
Proof.
  intros Hk. induction V as [|x V IH]; intros Hnd.
  - unfold inside. simpl. lia.
  - apply NoDup_cons_iff in Hnd. destruct Hnd as [Hx Hnd].
    cbn [excess_sum fold_right]. fold (excess_sum (assign k e1 ex) V).
    fold (excess_sum ex V). rewrite (IH Hnd), lookup_assign.
    unfold inside. cbn [memb]. rewrite (node_eqb_sym k x).
    destruct (node_eqb_spec x k) as [->|Hxk].
    + rewrite Hk. apply memb_false in Hx. rewrite Hx. lia.
    + lia.
Qed.

Lemma inflow_nonneg_add_flow (t x y : node) (d : Z) :
  (y = t -> 0 <= d) ->
  keeps (fun G => inflow_nonneg G t) (add_flow x y d).
Proof.
  intros Hd G H u a f. rewrite get_edge_add_flow.
  destruct (get_edge G x y) as [b|] eqn:Eb; [|apply H].
  destruct (flow b) as [g|] eqn:Eg; [|apply H].
  destruct (node_eqb_spec u x) as [->|]; [|apply H].
  destruct (node_eqb_spec t y) as [->|]; [|apply H].
  simpl. intros E. injection E as <-. simpl. intros E. injection E as <-.
  pose proof (H x b g Eb Eg). specialize (Hd eq_refl). lia.
Qed.

Lemma inflow_nonneg_push_flow (t u v : node) (d : Z) (G : graph) :
  u <> t -> 0 <= d -> inflow_nonneg G t ->
  inflow_nonneg (fst (push_flow u v d G)) t.
Proof.
  intros Hut Hd H. unfold push_flow.
  apply (keeps_bind (fun G => inflow_nonneg G t)); [| |exact H].
  - apply inflow_nonneg_add_flow. intros _. exact Hd.
  - intros []. apply inflow_nonneg_add_flow. congruence.
Qed.

Lemma positive_inflow_push_flow (t u v : node) (d : Z) (G G1 : graph) :
  u <> t -> 0 <= d -> inflow_nonneg G t ->
  push_flow u v d G = (G1, Ok tt) ->
  positive_inflow G1 t = positive_inflow G t + (if node_eqb v t then d else 0).
Proof.
  intros Hut Hd Hin E. unfold push_flow, bind in E.
  unfold add_flow at 1 in E. unfold bind, read, update, flow_of in E.
  destruct (get_edge G u v) as [a|] eqn:Ea; [|discriminate]. simpl in E.
  destruct (flow a) as [f|] eqn:Ef; [|discriminate]. simpl in E.
  set (G0 := modify_edge u v (set_flow (f + d)) G) in *.
  unfold add_flow, bind, read, update, flow_of in E.
  destruct (get_edge G0 v u) as [b|] eqn:Eb; [|discriminate]. simpl in E.
  destruct (flow b) as [g|] eqn:Eg; [|discriminate]. simpl in E.
  injection E as <-.
  rewrite (positive_inflow_set_flow G0 t v u (g + - d) b g Eb Eg).
  unfold G0. rewrite (positive_inflow_set_flow G t u v (f + d) a f Ea Ef).
  destruct (node_eqb_spec u t) as [|_]; [congruence|].
  destruct (node_eqb_spec v t) as [->|_]; [|lia].
  pose proof (Hin u a f Ea Ef). lia.
Qed.

(** One push that sends something: what it leaves. *)
Lemma push_sends (ns : list node) (s t : node) (sent : Z) (u v : node)
    (st : pr_state) (G : graph) (eu r : Z) :
  pr_inv ns s t sent G st -> u <> s -> u <> t -> has_edge G u v = true ->
  lookup u (excess st) = Some eu -> residual G u v = Ok r ->
  Z.min eu r > 0 ->
  exists G1 st1,
    push u v st G = (G1, Ok (true, st1)) /\
    push_flow u v (Z.min eu r) G = (G1, Ok tt) /\
    pr_inv ns s t sent G1 st1 /\ active st1 = active st /\
    lookup u (excess st1)
    = Some (if node_eqb u v then eu else eu - Z.min eu r).
Proof.
  intros (Hwf & Hskew & Hcap & Hns & Hkeys & Hex & Hpos & Hsink & Hnd &
          Hact & Hh & Htr) Hus Hut He Eu Er Hsend.
  set (d := Z.min eu r) in *.
  rewrite (push_unfold u v st G eu r Eu Er). fold d.
  destruct (Z.leb_spec d 0) as [Hle|_]; [lia|].
  destruct (push_flow_returns u v d G Hskew He) as [G1 E1]. rewrite E1.
  assert (HG1 : G1 = fst (push_flow u v d G)) by (rewrite E1; reflexivity).
  destruct (@has_edge_nodes G u v Hwf He) as [Hu Hv]. rewrite Hns in Hu, Hv.
  assert (Hkeys1 : keys (assign u (eu - d) (excess st)) = ns)
    by (rewrite (keys_assign_present _ _ _ _ Eu); exact Hkeys).
  destruct (lookup v (assign u (eu - d) (excess st))) as [ev|] eqn:Ev.
  2:{ exfalso. rewrite <- Hkeys1 in Hv. apply lookup_In_keys in Hv.
      congruence. }
  assert (Hev0 : 0 <= ev).
  { rewrite lookup_assign in Ev. destruct (node_eqb v u).
    - injection Ev as <-. lia.
    - apply (Hpos v ev Ev). }
  eexists. eexists. split; [reflexivity|]. split; [reflexivity|].
  split; [|split; [reflexivity|]].
  - unfold pr_inv. cbn [excess active height trace].
    split; [rewrite HG1; apply (flow_keeps_push_flow wf_graph wf_graph_add_flow);
            exact Hwf|].
    split; [rewrite HG1; apply keeps_push_flow; exact Hskew|].
    split.
    { rewrite HG1. apply within_capacity_push_flow; [exact Hcap|lia|].
      intros r' Hr'. rewrite Er in Hr'. injection Hr' as <-. lia. }
    split.
    { rewrite HG1.
      apply (flow_keeps_push_flow (fun G => nodes G = ns)); [|exact Hns].
      intros u' v' d' G2 H2. rewrite nodes_add_flow. exact H2. }
    split; [rewrite (keys_assign_present _ _ _ _ Ev); exact Hkeys1|].
    split.
    { intros V HV.
      rewrite (cut_flow_push_flow u v d G G1 V HV E1).
      rewrite (excess_sum_assign _ v ev (ev + d) Ev V HV).
      rewrite (excess_sum_assign _ u eu (eu - d) Eu V HV).
      pose proof (Hex V HV). lia. }
    split.
    { intros x e. rewrite !lookup_assign.
      destruct (node_eqb x v); [intros E; injection E as <-; lia|].
      destruct (node_eqb x u); [intros E; injection E as <-; lia|].
      apply Hpos. }
    split.
    { intros Hst. destruct (Hsink Hst) as [Hin Hpt]. split.
      - rewrite HG1. apply inflow_nonneg_push_flow; [exact Hut|lia|exact Hin].
      - intros e.
        rewrite (positive_inflow_push_flow t u v d G G1 Hut ltac:(lia) Hin E1).
        rewrite !lookup_assign. rewrite lookup_assign in Ev.
        rewrite (node_eqb_sym t v).
        destruct (node_eqb_spec v t) as [->|Hvt].
        + intros E. injection E as <-.
          destruct (node_eqb_spec t u); [congruence|].
          rewrite (Hpt ev Ev). reflexivity.
        + destruct (node_eqb_spec t u); [congruence|].
          intros E. rewrite (Hpt e E). lia. }
    split; [exact Hnd|]. split; [exact Hact|]. split; [exact Hh|].
    apply Forall_app. split; [exact Htr|]. constructor; [|constructor].
    unfold level_push. cbn [pe_tail pe_head pe_height_tail pe_height_head].
    rewrite Hh, !lookup_initial_heights by assumption.
    destruct (node_eqb_spec u s); [congruence|]. auto.
  - cbn [excess]. rewrite !lookup_assign. rewrite lookup_assign in Ev.
    destruct (node_eqb_spec u v) as [->|Huv].
    + rewrite node_eqb_refl in Ev. injection Ev as <-. f_equal. lia.
    + rewrite node_eqb_refl. reflexivity.
Qed.

Lemma pr_inv_activate (ns : list node) (s t : node) (sent : Z) (v : node)
    (G : graph) (st : pr_state) :
  pr_inv ns s t sent G st ->
  In v ns -> v <> s -> v <> t -> ~ In v (active st) ->
  pr_inv ns s t sent G
         (mkPR (height st) (excess st) (active st ++ [v]) (trace st)).
Proof.
  intros (Hwf & Hskew & Hcap & Hns & Hkeys & Hex & Hpos & Hsink & Hnd &
          Hact & Hh & Htr) Hv Hvs Hvt Hnv.
  unfold pr_inv. cbn [excess active height trace].
  repeat (split; [assumption|]). split; [|split; [|split; assumption]].
  - apply NoDup_app; [exact Hnd|constructor; [intros []|constructor]|].
    intros x Hx [<-|[]]. exact (Hnv Hx).
  - intros x Hx. apply in_app_or in Hx. destruct Hx as [Hx|[<-|[]]]; auto.
Qed.

(** The [for v in G[u]] loop of the main loop returns, and when it leaves
    [u] with excess, no edge out of [u] to another node has residual
    capacity left. *)
Lemma discharge_for_spec (ns : list node) (s t : node) (sent : Z) (u : node) :
  u <> s -> u <> t ->
  forall (vs done : list node) (st : pr_state) (G : graph),
    pr_inv ns s t sent G st ->
    NoDup (done ++ vs) ->
    (forall x, In x (done ++ vs) -> has_edge G u x = true) ->
    (forall e, lookup u (excess st) = Some e -> e > 0 ->
               forall x, In x done -> x <> u ->
                         exists r, residual G u x = Ok r /\ r <= 0) ->
    exists G' st',
      discharge_for s t u vs st G = (G', Ok st') /\
      pr_inv ns s t sent G' st' /\
      (exists ext, active st' = active st ++ ext) /\
      (forall x y, has_edge G' x y = has_edge G x y) /\
      (forall e, lookup u (excess st') = Some e -> e > 0 ->
                 forall x, In x (done ++ vs) -> x <> u ->
                           exists r, residual G' u x = Ok r /\ r <= 0).
Proof.
  intros Hus Hut.
  induction vs as [|v vs IH]; intros done st G Hinv Hnd Hedges Hdone.
  - exists G, st. split; [reflexivity|]. split; [exact Hinv|].
    split; [exists []; rewrite app_nil_r; reflexivity|].
    split; [reflexivity|]. rewrite app_nil_r. exact Hdone.
  - pose proof Hinv as
        (Hwf & Hskew & Hcap & Hns & Hkeys & Hex & Hxp & Hsink & Hnda &
         Hact & Hh & Htr).
    assert (Hev : has_edge G u v = true)
      by (apply Hedges, in_or_app; right; left; reflexivity).
    destruct (@has_edge_nodes G u v Hwf Hev) as [Hu Hv]. rewrite Hns in Hu, Hv.
    assert (Heu : exists eu, lookup u (excess st) = Some eu).
    { rewrite <- Hkeys in Hu. apply lookup_In_keys in Hu.
      destruct (lookup u (excess st)); [eauto|congruence]. }
    destruct Heu as [eu Eu].
    destruct (residual_returns G u v Hskew Hev) as (a & f & Ha & Hf & Er).
    set (r := capacity a - f) in *.
    assert (Hnd' : NoDup ((done ++ [v]) ++ vs))
      by (rewrite <- app_assoc; exact Hnd).
    assert (Hvd : ~ In v done).
    { intros H. apply NoDup_remove_2 in Hnd. apply Hnd.
      apply in_or_app. left. exact H. }
    cbn [discharge_for]. unfold bind at 1.
    destruct (Z_le_gt_dec (Z.min eu r) 0) as [Hle|Hgt].
    + rewrite (push_unfold u v st G eu r Eu Er).
      destruct (Z.leb_spec (Z.min eu r) 0) as [_|Hlt]; [|lia].
      destruct (IH (done ++ [v]) st G Hinv Hnd') as (G' & st' & E & H1 & H2 & H3 & H4).
      * intros x Hx. apply Hedges. rewrite <- app_assoc in Hx. exact Hx.
      * intros e He Hpos x Hx Hxu. apply in_app_or in Hx.
        destruct Hx as [Hx|[<-|[]]]; [apply (Hdone e He Hpos x Hx Hxu)|].
        exists r. split; [exact Er|]. rewrite Eu in He. injection He as <-. lia.
      * exists G', st'. split; [exact E|]. split; [exact H1|].
        split; [exact H2|]. split; [exact H3|].
        rewrite <- app_assoc in H4. exact H4.
    + destruct (push_sends ns s t sent u v st G eu r Hinv Hus Hut Hev Eu Er Hgt)
        as (G1 & st1 & Ep & Epf & Hinv1 & Hact1 & Eu1).
      rewrite Ep.
      assert (HG1 : G1 = fst (push_flow u v (Z.min eu r) G))
        by (rewrite Epf; reflexivity).
      assert (Hedge1 : forall x y, has_edge G1 x y = has_edge G x y)
        by (intros x y; rewrite HG1; apply has_edge_push_flow).
      (* the worklist step *)
      assert (Hst2 : exists st2 ext,
                 (if negb (node_eqb v s || node_eqb v t) then
                    ev <- read (fun _ => of_option (lookup v (excess st1))) ;;
                    if (ev >? 0) && negb (memb v (active st1))
                    then ret (mkPR (height st1) (excess st1)
                                   (active st1 ++ [v]) (trace st1))
                    else ret st1
                  else ret st1) G1 = (G1, Ok st2) /\
                 pr_inv ns s t sent G1 st2 /\ excess st2 = excess st1 /\
                 active st2 = active st ++ ext).
      { destruct (negb (node_eqb v s || node_eqb v t)) eqn:Hvst.
        - unfold bind, read.
          destruct (lookup v (excess st1)) as [ev|] eqn:Ev.
          2:{ exfalso. destruct Hinv1 as (_ & _ & _ & _ & Hk1 & _).
              rewrite <- Hk1 in Hv. apply lookup_In_keys in Hv. congruence. }
          cbn [of_option].
          destruct ((ev >? 0) && negb (memb v (active st1))) eqn:Hc.
          + eexists. exists [v]. split; [reflexivity|].
            split; [|split; [reflexivity|cbn [active]; rewrite Hact1; reflexivity]].
            apply negb_true_iff, orb_false_iff in Hvst.
            destruct Hvst as [Hvs Hvt].
            apply andb_prop in Hc. destruct Hc as [_ Hc].
            apply negb_true_iff, memb_false in Hc.
            apply pr_inv_activate; auto.
            * intros ->. rewrite node_eqb_refl in Hvs. discriminate.
            * intros ->. rewrite node_eqb_refl in Hvt. discriminate.
          + exists st1, []. rewrite app_nil_r. auto.
        - exists st1, []. rewrite app_nil_r. auto. }
      destruct Hst2 as (st2 & ext & E2 & Hinv2 & Hex2 & Hact2).
      unfold bind at 1. rewrite E2.
      unfold bind at 1. unfold read at 1. rewrite Hex2, Eu1.
      cbn [of_option].
      set (eu' := if node_eqb u v then eu else eu - Z.min eu r) in *.
      destruct (Z.eqb_spec eu' 0) as [Hz|Hnz].
      * exists G1, st2. split; [reflexivity|]. split; [exact Hinv2|].
        split; [exists ext; exact Hact2|]. split; [exact Hedge1|].
        intros e He. rewrite Hex2, Eu1 in He. injection He as <-. lia.
      * destruct (IH (done ++ [v]) st2 G1 Hinv2 Hnd')
          as (G' & st' & E & H1 & [ext' H2] & H3 & H4).
        -- intros x Hx. rewrite Hedge1. apply Hedges.
           rewrite <- app_assoc in Hx. exact Hx.
        -- intros e He Hpos x Hx Hxu. rewrite Hex2, Eu1 in He.
           injection He as <-. apply in_app_or in Hx.
           destruct Hx as [Hx|[<-|[]]].
           ++ assert (Hxv : x <> v) by (intros ->; exact (Hvd Hx)).
              rewrite HG1, residual_push_flow_other by assumption.
              apply (Hdone eu Eu); [|exact Hx|exact Hxu].
              unfold eu' in Hpos. destruct (node_eqb u v); lia.
           ++ assert (Huv : u <> v) by congruence.
              exists (r - Z.min eu r).
              split; [apply (residual_push_flow_edge u v _ G G1 r Hskew Huv Er Epf)|].
              unfold eu' in Hpos.
              destruct (node_eqb_spec u v); [congruence|]. lia.
        -- exists G', st'. split; [exact E|]. split; [exact H1|].
           split; [exists (ext ++ ext'); rewrite H2, Hact2, app_assoc;
                   reflexivity|].
           split; [intros x y; rewrite H3; apply Hedge1|].
           rewrite <- app_assoc in H4. exact H4.
Qed.

Lemma out_sum_nonneg (w : attrs -> Z) (V : list node) (nbrs : adjacency) :
  (forall v a, In (v, a) nbrs -> memb v V = false -> 0 <= w a) ->
  0 <= out_sum w V nbrs.
Proof.
  induction nbrs as [|[v a] nbrs IH]; intros H; simpl; [lia|].
  assert (H1 : 0 <= out_sum w V nbrs)
    by (apply IH; intros v' a' Hin; apply (H v' a'); right; exact Hin).
  destruct (memb v V) eqn:Ev; [lia|].
  pose proof (H v a (or_introl eq_refl) Ev). lia.
Qed.

(** A node other than the source whose edges to other nodes are all
    saturated has passed on everything it received. *)
Lemma no_excess_left (ns : list node) (s t : node) (sent : Z) (u : node)
    (G : graph) (st : pr_state) (e : Z) :
  pr_inv ns s t sent G st -> u <> s -> lookup u (excess st) = Some e ->
  (e > 0 -> forall x, has_edge G u x = true -> x <> u ->
                      exists r, residual G u x = Ok r /\ r <= 0) ->
  e <= 0.
Proof.
  intros (Hwf & Hskew & [Hcap Hnn] & Hns & Hkeys & Hex & _) Hus Eu Hsat.
  destruct (Z_le_gt_dec e 0) as [Hle|Hgt]; [exact Hle|].
  specialize (Hsat Hgt).
  assert (Hu1 : NoDup [u]) by (constructor; [intros []|constructor]).
  pose proof (Hex [u] Hu1) as Hbal. rewrite inside_one in Hbal.
  destruct (node_eqb_spec s u); [congruence|].
  cbn [excess_sum fold_right] in Hbal. rewrite Eu in Hbal.
  assert (H0 : 0 <= cut_flow G [u]); [|lia].
  unfold cut_flow. cbn [cut_sum fold_right]. unfold adj.
  destruct (lookup u G) as [nbrs|] eqn:El; [|lia].
  assert (H1 : 0 <= out_sum flow_or_zero [u] nbrs); [|lia].
  apply out_sum_nonneg. intros x a Hin Hx.
  pose proof (adjacency_entry G Hwf u x nbrs a El Hin) as Ha.
  assert (Hxu : x <> u).
  { intros ->. simpl in Hx. rewrite node_eqb_refl in Hx. discriminate. }
  destruct (Hsat x) as (r & Hr & Hr0); [|exact Hxu|].
  { unfold has_edge. rewrite Ha. reflexivity. }
  unfold residual, capacity_of, flow_of in Hr. rewrite Ha in Hr.
  simpl in Hr. unfold flow_or_zero.
  destruct (flow a) as [f|]; [|discriminate]. simpl in Hr.
  injection Hr as <-. pose proof (Hnn u x a Ha). lia.
Qed.

(** The main loop returns within as many turns as there are nodes, and
    never changes a height. *)
Lemma pr_while_returns (ns : list node) (s t : node) (sent : Z) :
  forall (fuel i : nat) (st : pr_state) (G : graph),
    pr_inv ns s t sent G st -> (List.length ns - i < fuel)%nat ->
    exists G' st',
      pr_while fuel s t i st G = (G', Ok st') /\ pr_inv ns s t sent G' st'.
Proof.
  induction fuel as [|k IH]; intros i st G Hinv Hfuel; [lia|].
  cbn [pr_while].
  destruct (Nat.ltb_spec i (List.length (active st))) as [Hi|Hi];
    [|exists G, st; split; [reflexivity|exact Hinv]].
  pose proof Hinv as
      (Hwf & Hskew & Hcap & Hns & Hkeys & Hex & Hxp & Hsink & Hnda &
       Hact & Hh & Htr).
  assert (Hlen : (List.length (active st) <= List.length ns)%nat).
  { apply NoDup_incl_length; [exact Hnda|]. intros x Hx. apply Hact, Hx. }
  destruct (nth_error (active st) i) as [u|] eqn:Enth.
  2:{ apply nth_error_None in Enth. lia. }
  destruct (Hact u (nth_error_In _ _ Enth)) as (Hu & Hus & Hut).
  unfold bind at 1. unfold read at 1. cbn [of_option].
  unfold bind at 1. unfold read at 1.
  rewrite Hh, (lookup_initial_heights ns s u Hu). cbn [of_option].
  destruct (node_eqb_spec u s) as [|_]; [congruence|].
  unfold bind at 1. unfold read at 1. unfold adj.
  destruct (lookup u G) as [nbrs|] eqn:El.
  2:{ exfalso. rewrite <- Hns in Hu. apply lookup_In_keys in Hu. congruence. }
  cbn [of_option].
  destruct (discharge_for_spec ns s t sent u Hus Hut (keys nbrs) [] st G Hinv)
    as (G1 & st1 & E1 & Hinv1 & [ext Hext] & Hedge1 & Hsat).
  { simpl. destruct Hwf as [_ [Hk _]]. apply (Hk u).
    apply lookup_Some_In. exact El. }
  { simpl. intros x Hx. unfold has_edge, get_edge. rewrite El.
    apply lookup_In_keys in Hx. destruct (lookup x nbrs); congruence. }
  { intros e _ _ x []. }
  unfold bind at 1. rewrite E1.
  pose proof Hinv1 as
      (Hwf1 & Hskew1 & Hcap1 & Hns1 & Hkeys1 & Hex1 & Hxp1 & Hsink1 &
       Hnda1 & Hact1 & Hh1 & Htr1).
  assert (Heu : exists e, lookup u (excess st1) = Some e).
  { rewrite <- Hkeys1 in Hu. apply lookup_In_keys in Hu.
    destruct (lookup u (excess st1)); [eauto|congruence]. }
  destruct Heu as [e Ee].
  unfold bind at 1. unfold read at 1. rewrite Ee. cbn [of_option].
  assert (He0 : e <= 0).
  { apply (no_excess_left ns s t sent u G1 st1 e Hinv1 Hus Ee).
    intros Hpos x Hx Hxu. apply (Hsat e Ee Hpos x); [|exact Hxu].
    simpl. rewrite Hedge1 in Hx. unfold has_edge, get_edge in Hx.
    rewrite El in Hx. apply lookup_In_keys.
    destruct (lookup x nbrs); [discriminate|discriminate Hx]. }
  destruct (Z.gtb_spec e 0) as [Hpos|_]; [lia|].
  unfold bind at 1. unfold ret at 1.
  unfold bind at 1. unfold read at 1.
  rewrite Hh1, (lookup_initial_heights ns s u). 2:{ rewrite <- Hkeys1.
    apply lookup_In_keys. congruence. }
  cbn [of_option].
  destruct (node_eqb_spec u s) as [|_]; [congruence|].
  destruct (Z.gtb_spec 0 0) as [H00|_]; [lia|].
  apply IH; [exact Hinv1|]. lia.
Qed.

(** The loop that saturates the edges leaving the source returns, and
    books every unit it sends as excess of the node that receives it. *)
Lemma saturate_for_spec (ns : list node) (s t : node) :
  forall (vs : list node) (ex : dict Z) (sent : Z) (G : graph),
    wf_graph G -> skew_symmetric G -> within_capacity G -> nodes G = ns ->
    keys ex = ns ->
    (forall V, NoDup V ->
               cut_flow G V + excess_sum ex V = sent * inside V s) ->
    (forall u e, lookup u ex = Some e -> 0 <= e) ->
    (s <> t ->
     inflow_nonneg G t /\
     forall e, lookup t ex = Some e -> positive_inflow G t = e) ->
    NoDup vs ->
    (forall v, In v vs ->
               exists a, get_edge G s v = Some a /\ flow a = Some 0) ->
    exists G' ex' sent',
      saturate_for s vs ex G = (G', Ok ex') /\
      wf_graph G' /\ skew_symmetric G' /\ within_capacity G' /\
      nodes G' = ns /\ keys ex' = ns /\
      (forall V, NoDup V ->
                 cut_flow G' V + excess_sum ex' V = sent' * inside V s) /\
      (forall u e, lookup u ex' = Some e -> 0 <= e) /\
      (s <> t ->
       inflow_nonneg G' t /\
       forall e, lookup t ex' = Some e -> positive_inflow G' t = e).
Proof.
  induction vs as [|v vs IH];
    intros ex sent G Hwf Hskew Hcap Hns Hkeys Hex Hpos Hsink Hnd Hfresh.
  - exists G, ex, sent. split; [reflexivity|]. auto 10.
  - destruct (Hfresh v (or_introl eq_refl)) as (a & Ha & Hf).
    apply NoDup_cons_iff in Hnd. destruct Hnd as [Hv Hnd'].
    cbn [saturate_for]. unfold bind at 1. unfold read at 1.
    unfold capacity_of. rewrite Ha. cbn [of_option rbind].
    rewrite (saturate_is_push s v (capacity a) _ G a Ha Hf).
    assert (He : has_edge G s v = true) by (unfold has_edge; rewrite Ha; reflexivity).
    destruct (push_flow_returns s v (capacity a) G Hskew He) as [G1 E1].
    unfold bind at 1. rewrite E1.
    assert (HG1 : G1 = fst (push_flow s v (capacity a) G))
      by (rewrite E1; reflexivity).
    destruct (@has_edge_nodes G s v Hwf He) as [_ Hvn]. rewrite Hns in Hvn.
    assert (Hev : exists ev, lookup v ex = Some ev).
    { rewrite <- Hkeys in Hvn. apply lookup_In_keys in Hvn.
      destruct (lookup v ex); [eauto|congruence]. }
    destruct Hev as [ev Ev].
    unfold bind at 1. unfold read at 1. rewrite Ev. cbn [of_option].
    pose proof (proj2 Hcap s v a Ha) as Hc0.
    apply (IH _ (sent + capacity a)).
    + rewrite HG1. apply (flow_keeps_push_flow wf_graph wf_graph_add_flow).
      exact Hwf.
    + rewrite HG1. apply keeps_push_flow. exact Hskew.
    + rewrite HG1. apply within_capacity_push_flow; [exact Hcap|exact Hc0|].
      intros r Hr. unfold residual, capacity_of, flow_of in Hr.
      rewrite Ha in Hr. simpl in Hr. rewrite Hf in Hr. simpl in Hr.
      injection Hr as <-. lia.
    + rewrite HG1.
      apply (flow_keeps_push_flow (fun G => nodes G = ns)); [|exact Hns].
      intros u' v' d' G2 H2. rewrite nodes_add_flow. exact H2.
    + rewrite (keys_assign_present _ _ _ _ Ev). exact Hkeys.
    + intros V HV.
      rewrite (cut_flow_push_flow s v (capacity a) G G1 V HV E1).
      rewrite (excess_sum_assign _ v ev (ev + capacity a) Ev V HV).
      pose proof (Hex V HV). lia.
    + intros x e. rewrite lookup_assign.
      destruct (node_eqb x v); [|apply Hpos].
      intros E. injection E as <-. pose proof (Hpos v ev Ev). lia.
    + intros Hst. destruct (Hsink Hst) as [Hin Hpt]. split.
      * rewrite HG1. apply inflow_nonneg_push_flow; assumption.
      * intros e.
        rewrite (positive_inflow_push_flow t s v _ G G1 Hst Hc0 Hin E1).
        rewrite lookup_assign, (node_eqb_sym t v).
        destruct (node_eqb_spec v t) as [->|Hvt].
        -- intros E. injection E as <-. rewrite (Hpt ev Ev). reflexivity.
        -- intros E. rewrite (Hpt e E). lia.
    + exact Hnd'.
    + intros v' Hv'. destruct (Hfresh v' (or_intror Hv')) as (a' & Ha' & Hf').
      exists a'. split; [|exact Hf']. rewrite HG1, push_flow_frame; [exact Ha'| |].
      * intros E. injection E as ->. exact (Hv Hv').
      * intros E. injection E as -> ->. exact (Hv Hv').
Qed.

Lemma initial_active_spec (s t : node) (ex : dict Z) :
  forall us : list node,
    NoDup us -> (forall u, In u us -> lookup u ex <> None) ->
    exists act,
      initial_active s t us ex = Ok act /\ NoDup act /\
      forall u, In u act -> In u us /\ u <> s /\ u <> t.
Proof.
  induction us as [|u us IH]; intros Hnd Hex.
  - exists []. split; [reflexivity|]. split; [constructor|]. intros u [].
  - apply NoDup_cons_iff in Hnd. destruct Hnd as [Hu Hnd'].
    destruct (IH Hnd') as (act & E & Hact & Hin).
    { intros x Hx. apply Hex. right. exact Hx. }
    cbn [initial_active].
    destruct (negb (node_eqb u s || node_eqb u t)) eqn:Hc.
    + destruct (lookup u ex) as [eu|] eqn:Eu.
      2:{ exfalso. apply (Hex u); [left; reflexivity|exact Eu]. }
      cbn [of_option rbind]. rewrite E. cbn [rbind].
      apply negb_true_iff, orb_false_iff in Hc. destruct Hc as [Hs Ht].
      destruct (eu >? 0).
      * exists (u :: act). split; [reflexivity|]. split.
        -- constructor; [|exact Hact]. intros H. apply Hu, (Hin u H).
        -- intros x [<-|Hx].
           ++ split; [left; reflexivity|].
              split; intros ->; rewrite node_eqb_refl in *; discriminate.
           ++ destruct (Hin x Hx) as (H1 & H2 & H3).
              split; [right; exact H1|]. split; assumption.
      * exists act. split; [reflexivity|]. split; [exact Hact|].
        intros x Hx. destruct (Hin x Hx) as (H1 & H2 & H3).
        split; [right; exact H1|]. split; assumption.
    + exists act. split; [exact E|]. split; [exact Hact|].
      intros x Hx. destruct (Hin x Hx) as (H1 & H2 & H3).
      split; [right; exact H1|]. split; assumption.
Qed.

Lemma inflow_for_returns (G : graph) (t : node) :
  flows_set G ->
  forall (us : list node) (acc : Z),
    (forall u, In u us -> has_edge G u t = true) ->
    exists K, inflow_for G t us acc = Ok K.
Proof.
  intros Hfl. induction us as [|u us IH]; intros acc Hus.
  - eexists. reflexivity.
  - cbn [inflow_for]. unfold flow_of.
    pose proof (Hus u (or_introl eq_refl)) as He. unfold has_edge in He.
    destruct (get_edge G u t) as [a|] eqn:Ea; [|discriminate].
    cbn [of_option rbind].
    destruct (flow a) as [f|] eqn:Ef; [|exfalso; exact (Hfl u t a Ea Ef)].
    cbn [of_option rbind]. apply IH. intros x Hx. apply Hus. right. exact Hx.
Qed.

Lemma flow_into_returns (t : node) (G : graph) :
  flows_set G -> In t (nodes G) -> exists K, flow_into t G = Ok K.
Proof.
  intros Hfl Ht. unfold flow_into, mem.
  apply lookup_In_keys in Ht. destruct (lookup t G); [|congruence].
  apply inflow_for_returns; [exact Hfl|].
  intros u Hu. unfold predecessors in Hu. apply filter_In in Hu. apply Hu.
Qed.

Lemma lookup_map_const {V : Type} (c : V) (ns : list node) (x : node) :
  lookup x (map (fun u => (u, c)) ns) = if memb x ns then Some c else None.
Proof.
  induction ns as [|y ns IH]; simpl; [reflexivity|].
  destruct (node_eqb x y); [reflexivity|exact IH].
Qed.

Lemma cut_flow_zero (G : graph) (V : list node) :
  wf_graph G ->
  (forall u v a, get_edge G u v = Some a -> flow a = Some 0) ->
  cut_flow G V = 0.
Proof.
  intros Hwf Hz. unfold cut_flow.
  rewrite (cut_sum_ext flow_or_zero (fun _ => 0) G V V Hwf).
  - apply cut_sum_zero.
  - intros u v a _ _ Ha. unfold flow_or_zero. rewrite (Hz u v a Ha).
    reflexivity.
Qed.

Lemma excess_sum_zero (ns V : list node) :
  excess_sum (map (fun u : node => (u, 0)) ns) V = 0.
Proof.
  induction V as [|x V IH]; [reflexivity|].
  cbn [excess_sum fold_right].
  fold (excess_sum (map (fun u : node => (u, 0)) ns) V).
  rewrite IH, lookup_map_const. destruct (memb x ns); reflexivity.
Qed.

Lemma positive_inflow_zero (G : graph) (t : node) :
  wf_graph G ->
  (forall u v a, get_edge G u v = Some a -> flow a = Some 0) ->
  positive_inflow G t = 0.
Proof.
  intros Hwf Hz.
  assert (H : forall u d a, In (u, d) G -> lookup t d = Some a ->
                            flow a = Some 0).
  { intros u d a Hin Ha. apply (Hz u t). unfold get_edge.
    rewrite (@In_lookup _ u d G); [exact Ha| |exact Hin]. apply Hwf. }
  clear Hz Hwf. unfold positive_inflow.
  induction G as [|[u d] G IH]; [reflexivity|]. cbn [fold_right fst snd].
  rewrite IH by (intros u' d' a' Hin; apply (H u' d' a'); right; exact Hin).
  destruct (lookup t d) as [a|] eqn:Ea; [|reflexivity].
  rewrite (H u d a (or_introl eq_refl) Ea). reflexivity.
Qed.

(** The whole run: it returns, and leaves the tables in order. *)
Lemma push_relabel_run_returns (G : graph) (s t : node) (fuel : nat) :
  wf_graph G -> fresh_flows G -> capacities_nonneg G ->
  In s (nodes G) -> In t (nodes G) ->
  (List.length (nodes G) < fuel)%nat ->
  exists G' st' sent total,
    push_relabel_run fuel s t G = (G', Ok (total, trace st')) /\
    pr_inv (nodes G) s t sent G' st' /\
    flow_into t G' = Ok total.
Proof.
  intros Hwf Hfresh Hn Hs Ht Hfuel.
  assert (Hnd : NoDup (nodes G)) by apply Hwf.
  pose proof (skew_prepare_graph G Hnd Hfresh) as Hskew.
  pose proof (prepare_graph_zero G Hnd Hfresh) as Hz.
  pose proof (wf_graph_prepare_graph Hwf) as Hwf'.
  pose proof (within_capacity_prepare_graph G Hnd Hfresh Hn) as Hcap.
  pose proof (nodes_prepare_graph Hwf) as Hns.
  set (G0 := prepare_graph G) in *. set (ns := nodes G) in *.
  unfold push_relabel_run. unfold bind at 1. unfold update at 1. fold G0.
  unfold bind at 1. unfold read at 1. rewrite Hns.
  unfold bind at 1. unfold read at 1. unfold adj.
  destruct (lookup s G0) as [nbrs|] eqn:El.
  2:{ exfalso. rewrite <- Hns in Hs. apply lookup_In_keys in Hs. congruence. }
  cbn [of_option].
  set (ex0 := map (fun u : node => (u, 0)) ns).
  assert (Hk0 : keys ex0 = ns).
  { unfold ex0, keys. rewrite map_map. simpl. apply map_id. }
  destruct (saturate_for_spec ns s t (keys nbrs) ex0 0 G0 Hwf' Hskew Hcap Hns Hk0)
    as (G1 & ex1 & sent & E1 & Hwf1 & Hskew1 & Hcap1 & Hns1 & Hk1 & Hex1 &
        Hpos1 & Hsink1).
  { intros V HV. unfold ex0. rewrite excess_sum_zero.
    rewrite (cut_flow_zero G0 V Hwf' Hz). lia. }
  { intros u e He. unfold ex0 in He. rewrite lookup_map_const in He.
    destruct (memb u ns); [|discriminate]. injection He as <-. lia. }
  { intros _. split.
    - intros u a f Ha Hf. rewrite (Hz u t a Ha) in Hf. injection Hf as <-. lia.
    - intros e He. unfold ex0 in He. rewrite lookup_map_const in He.
      destruct (memb t ns); [|discriminate]. injection He as <-.
      apply (positive_inflow_zero G0 t Hwf' Hz). }
  { destruct Hwf' as [_ [Hk _]]. apply (Hk s). apply lookup_Some_In. exact El. }
  { intros v Hv. apply lookup_In_keys in Hv.
    destruct (lookup v nbrs) as [a|] eqn:Ea; [|congruence].
    exists a. unfold get_edge. rewrite El. split; [exact Ea|].
    apply (Hz s v). unfold get_edge. rewrite El. exact Ea. }
  unfold bind at 1. rewrite E1.
  destruct (initial_active_spec s t ex1 ns Hnd) as (act & Ea & Hact & Hin).
  { intros u Hu. apply lookup_In_keys. rewrite Hk1. exact Hu. }
  unfold bind at 1. unfold read at 1. rewrite Ea.
  destruct (pr_while_returns ns s t sent fuel 0
              (mkPR (assign s (Z.of_nat (List.length ns)) ex0) ex1 act [])
              G1)
    as (G2 & st2 & E2 & Hinv2).
  { unfold pr_inv. cbn [excess active height trace]. auto 14. }
  { lia. }
  unfold bind at 1. rewrite E2.
  pose proof Hinv2 as (Hwf2 & Hskew2 & _ & Hns2 & _).
  destruct (flow_into_returns t G2) as [K EK].
  { intros u v a Ha. destruct (Hskew2 u v a Ha) as (b & f & _ & Hf & _).
    congruence. }
  { rewrite Hns2. exact Ht. }
  unfold bind at 1. unfold read at 1. rewrite EK.
  exists G2, st2, sent, K. split; [reflexivity|]. split; [exact Hinv2|exact EK].
Qed.

(** X16. Over whole numbers, push-relabel returns.  On a well-formed
    graph that comes without flow and without negative capacity, all
    capacities whole numbers, with source and sink among its nodes, the
    run ends with a value after at most one turn of the main loop per
    node: a node that is discharged passes on all its excess, exactly,
    so [relabel] is not called, no height rises, and the index only moves
    forward.  (On floats with fractions a discharge can leave a rounding
    residue as excess; then [relabel] is called and the argument is
    lost.) *)
Theorem push_relabel_returns (G : graph) (s t : node) (fuel : nat) :
  wf_graph G -> fresh_flows G -> capacities_nonneg G ->
  In s (nodes G) -> In t (nodes G) ->
  (List.length (nodes G) < fuel)%nat ->
  exists G' total, push_relabel_apply fuel s t G = (G', Ok total).
Proof.
  intros Hwf Hfresh Hn Hs Ht Hfuel.
  destruct (push_relabel_run_returns G s t fuel Hwf Hfresh Hn Hs Ht Hfuel)
    as (G' & st' & sent & total & E & _).
  exists G', total. unfold push_relabel_apply, bind. rewrite E. reflexivity.
Qed.

(** X17. Over whole numbers, no push of such a run goes downhill.  With
    all capacities whole numbers, every push is made while all heights
    are still the initial ones: the tail is never the source and has
    height 0, the head has height 0, or the number of nodes when it is the
    source.  (It rests on the exact discharge of X16.) *)
Theorem push_relabel_never_relabels (G : graph) (s t : node) (fuel : nat) :
  wf_graph G -> fresh_flows G -> capacities_nonneg G ->
  In s (nodes G) -> In t (nodes G) ->
  (List.length (nodes G) < fuel)%nat ->
  exists G' total tr,
    push_relabel_run fuel s t G = (G', Ok (total, tr)) /\
    forall ev, In ev tr ->
      pe_tail ev <> s /\
      pe_height_tail ev = Some 0 /\
      pe_height_head ev
      = Some (if node_eqb (pe_head ev) s
              then Z.of_nat (List.length (nodes G)) else 0).
Proof.
  intros Hwf Hfresh Hn Hs Ht Hfuel.
  destruct (push_relabel_run_returns G s t fuel Hwf Hfresh Hn Hs Ht Hfuel)
    as (G' & st' & sent & total & E & Hinv & _).
  exists G', total, (trace st'). split; [exact E|].
  destruct Hinv as (_ & _ & _ & _ & _ & _ & _ & _ & _ & _ & _ & Htr).
  intros ev Hev. rewrite Forall_forall in Htr. apply (Htr ev Hev).
Qed.

(** ** Push-relabel never reports too much *)

Lemma excess_sum_split (ex : dict Z) (p : node -> bool) (V : list node) :
  excess_sum ex V
  = excess_sum ex (filter p V)
    + excess_sum ex (filter (fun x => negb (p x)) V).
Proof.
  induction V as [|x V IH]; [reflexivity|].
  cbn [excess_sum fold_right filter]. fold (excess_sum ex V). rewrite IH.
  destruct (p x); cbn [negb excess_sum fold_right];
    fold (excess_sum ex (filter p V));
    fold (excess_sum ex (filter (fun x => negb (p x)) V)); lia.
Qed.

Lemma excess_sum_perm (ex : dict Z) (V V' : list node) :
  Permutation V V' -> excess_sum ex V = excess_sum ex V'.
Proof. intros H. induction H; simpl; lia. Qed.

Lemma excess_sum_outside (ex : dict Z) (V : list node) :
  (forall x, In x V -> lookup x ex = None) -> excess_sum ex V = 0.
Proof.
  induction V as [|x V IH]; intros H; [reflexivity|].
  cbn [excess_sum fold_right]. fold (excess_sum ex V).
  rewrite IH by (intros y Hy; apply H; right; exact Hy).
  rewrite (H x (or_introl eq_refl)). reflexivity.
Qed.

Lemma excess_sum_member (ex : dict Z) (V : list node) (t : node) (e : Z) :
  (forall u e, lookup u ex = Some e -> 0 <= e) ->
  In t V -> lookup t ex = Some e -> e <= excess_sum ex V.
Proof.
  intros Hpos. induction V as [|x V IH]; intros Hin Ht; [destruct Hin|].
  cbn [excess_sum fold_right]. fold (excess_sum ex V).
  assert (H0 : 0 <= excess_sum ex V).
  { clear IH Hin Ht. induction V as [|y V IHV]; simpl; [lia|].
    fold (excess_sum ex V). destruct (lookup y ex) as [ey|] eqn:Ey; [|lia].
    pose proof (Hpos y ey Ey). lia. }
  destruct Hin as [->|Hin].
  - rewrite Ht. lia.
  - specialize (IH Hin Ht). destruct (lookup x ex) as [ex'|] eqn:Ex; [|lia].
    pose proof (Hpos x ex' Ex). lia.
Qed.

Lemma cut_flow_all_nodes (G : graph) : wf_graph G -> cut_flow G (nodes G) = 0.
Proof.
  intros Hwf. unfold cut_flow.
  rewrite (cut_sum_ext flow_or_zero (fun _ => 0) G _ _ Hwf);
    [apply cut_sum_zero|].
  intros u v a _ Hv Ha. exfalso. apply memb_false in Hv. apply Hv.
  apply (@has_edge_nodes G u v Hwf). unfold has_edge. rewrite Ha. reflexivity.
Qed.

(** What is booked for the sink is at most the capacity of any cut
    between source and sink. *)
Lemma excess_below_cut (ns : list node) (s t : node) (sent : Z) (G : graph)
    (st : pr_state) (V : list node) (e : Z) :
  pr_inv ns s t sent G st -> In s ns -> In t ns ->
  NoDup V -> In s V -> ~ In t V ->
  lookup t (excess st) = Some e -> e <= cut_capacity G V.
Proof.
  intros (Hwf & Hskew & Hcap & Hns & Hkeys & Hex & Hpos & _) Hs Ht HV HsV HtV Et.
  assert (HN : NoDup ns) by (rewrite <- Hns; apply Hwf).
  pose proof (Hex V HV) as HbV. pose proof (Hex ns HN) as HbN.
  unfold inside in HbV, HbN.
  apply memb_In in HsV, Hs. rewrite HsV in HbV. rewrite Hs in HbN.
  rewrite <- Hns in HbN at 1. rewrite (cut_flow_all_nodes G Hwf) in HbN.
  rewrite (excess_sum_split (excess st) (fun x => memb x V) ns) in HbN.
  rewrite (excess_sum_split (excess st) (fun x => memb x ns) V) in HbV.
  rewrite (excess_sum_outside (excess st)
             (filter (fun x => negb (memb x ns)) V)) in HbV.
  2:{ intros x Hx. apply filter_In in Hx. destruct Hx as [_ Hx].
      apply negb_true_iff, memb_false in Hx. rewrite <- Hkeys in Hx.
      destruct (lookup x (excess st)) eqn:El; [|reflexivity].
      exfalso. apply Hx. apply lookup_In_keys. congruence. }
  rewrite (excess_sum_perm (excess st)
             (filter (fun x => memb x ns) V)
             (filter (fun x => memb x V) ns)) in HbV.
  2:{ apply NoDup_Permutation; try (apply NoDup_filter; assumption).
      intros x. rewrite !filter_In, !memb_In. tauto. }
  assert (Hge : e <= excess_sum (excess st)
                       (filter (fun x => negb (memb x V)) ns)).
  { apply (excess_sum_member (excess st) _ t e Hpos); [|exact Et].
    apply filter_In. split; [exact Ht|].
    apply negb_true_iff, memb_false. exact HtV. }
  pose proof (cut_flow_le_capacity G V Hwf Hcap). lia.
Qed.

Lemma cut_capacity_assign_flow (V us : list node) (C : Z) (u v : node) (f : Z) :
  keeps (fun G => cut_sum capacity G V us = C) (assign_flow u v f).
Proof.
  intros G H. unfold assign_flow, bind, read, update.
  destruct (of_option (get_edge G u v)); simpl; try exact H.
  rewrite cut_sum_modify_same; [exact H|reflexivity].
Qed.

(** The run returns with the value it booked for the sink, and has not
    touched a capacity. *)
Lemma push_relabel_books_sink (G : graph) (s t : node) (fuel : nat) :
  wf_graph G -> fresh_flows G -> capacities_nonneg G ->
  In s (nodes G) -> In t (nodes G) -> s <> t ->
  (List.length (nodes G) < fuel)%nat ->
  exists G' st' sent total,
    push_relabel_apply fuel s t G = (G', Ok total) /\
    pr_inv (nodes G) s t sent G' st' /\
    lookup t (excess st') = Some total /\
    forall V, cut_capacity G' V = cut_capacity G V.
Proof.
  intros Hwf Hfresh Hn Hs Ht Hst Hfuel.
  destruct (push_relabel_run_returns G s t fuel Hwf Hfresh Hn Hs Ht Hfuel)
    as (G' & st' & sent & total & E & Hinv & EK).
  assert (Ea : push_relabel_apply fuel s t G = (G', Ok total))
    by (unfold push_relabel_apply, bind; rewrite E; reflexivity).
  exists G', st', sent, total. split; [exact Ea|]. split; [exact Hinv|].
  pose proof Hinv as (Hwf' & _ & _ & Hns' & Hkeys' & _ & Hpos' & Hsink' & _).
  destruct (Hsink' Hst) as [_ Hpt]. split.
  - assert (Het : exists e, lookup t (excess st') = Some e).
    { rewrite <- Hkeys' in Ht. apply lookup_In_keys in Ht.
      destruct (lookup t (excess st')); [eauto|congruence]. }
    destruct Het as [e Et]. rewrite Et. f_equal.
    rewrite (flow_into_positive_inflow G' t total (proj1 Hwf') EK).
    symmetry. apply (Hpt e Et).
  - intros V. unfold cut_capacity.
    replace G' with (fst (push_relabel_apply fuel s t G))
      by (rewrite Ea; reflexivity).
    apply (flow_keeps_solvers (fun G1 => cut_sum capacity G1 V V
                                         = cut_sum capacity G V V)
             (cut_capacity_add_flow V V _) (cut_capacity_assign_flow V V _)
             G s t fuel O).
    + rewrite cut_capacity_reset_flows. apply cut_capacity_prepare_graph.
    + apply cut_capacity_prepare_graph.
Qed.

(** X18. Over whole numbers, push-relabel never reports too much: with
    all capacities whole numbers, the value it returns is the excess it
    booked for the sink, it is not negative, and no set of nodes that
    separates the source from the sink has a smaller capacity.  (Sums of
    floats with fractions depend on their order and can come out above
    the capacity in the last place.) *)
Theorem push_relabel_below_every_cut (G : graph) (s t : node) (fuel : nat) :
  wf_graph G -> fresh_flows G -> capacities_nonneg G ->
  In s (nodes G) -> In t (nodes G) -> s <> t ->
  (List.length (nodes G) < fuel)%nat ->
  exists G' total,
    push_relabel_apply fuel s t G = (G', Ok total) /\ 0 <= total /\
    forall V, NoDup V -> In s V -> ~ In t V -> total <= cut_capacity G V.
Proof.
  intros Hwf Hfresh Hn Hs Ht Hst Hfuel.
  destruct (push_relabel_books_sink G s t fuel Hwf Hfresh Hn Hs Ht Hst Hfuel)
    as (G' & st' & sent & total & Ea & Hinv & Et & HC).
  exists G', total. split; [exact Ea|]. split.
  - destruct Hinv as (_ & _ & _ & _ & _ & _ & Hpos & _). apply (Hpos t total Et).
  - intros V HV HsV HtV. rewrite <- (HC V).
    apply (excess_below_cut _ s t sent G' st' V total Hinv Hs Ht HV HsV HtV Et).
Qed.

(** X19. Over whole numbers, push-relabel never reports more than
    Edmonds-Karp: on the same graph, all capacities whole numbers,
    whenever Edmonds-Karp returns, the value of push-relabel lies between
    0 and the max-flow of Edmonds-Karp.  (Sums of floats with fractions
    depend on their order, and the two values can differ in the last
    place either way.) *)
Theorem push_relabel_at_most_edmonds_karp (G G1 : graph) (s t : node)
    (fuel fuel' : nat) (steps : list step) (max_flow : num) :
  wf_graph G -> fresh_flows G -> capacities_nonneg G ->
  In s (nodes G) -> In t (nodes G) -> s <> t ->
  (List.length (nodes G) < fuel)%nat ->
  edmonds_karp_steps fuel' s t G = (G1, Ok (steps, max_flow)) ->
  exists G' total m,
    push_relabel_apply fuel s t G = (G', Ok total) /\
    max_flow = Fin m /\ 0 <= total <= m.
Proof.
  intros Hwf Hfresh Hn Hs Ht Hst Hfuel E.
  destruct (push_relabel_books_sink G s t fuel Hwf Hfresh Hn Hs Ht Hst Hfuel)
    as (G' & st' & sent & total & Ea & Hinv & Et & HC).
  destruct (edmonds_karp_final G G1 s t fuel' steps max_flow Hwf Hn Hs Hst E)
    as (Hwf1 & Hfl1 & Hcap1 & Hs1 & Hno1 & m & -> & Hcut1).
  destruct (saturated_set G1 s t m Hwf1 Hfl1 Hcap1 Hs1 Hno1 Hcut1)
    as (V & HV & HsV & HtV & HC1).
  exists G', total, m. split; [exact Ea|]. split; [reflexivity|]. split.
  { destruct Hinv as (_ & _ & _ & _ & _ & _ & Hpos & _). apply (Hpos t total Et). }
  pose proof (excess_below_cut _ s t sent G' st' V total Hinv Hs Ht HV HsV HtV Et)
    as Hle.
  rewrite (HC V) in Hle.
  assert (HC2 : cut_capacity G1 V = cut_capacity G V); [|lia].
  unfold cut_capacity.
  replace G1 with (fst (edmonds_karp_steps fuel' s t G))
    by (rewrite E; reflexivity).
  apply (flow_keeps_solvers (fun G2 => cut_sum capacity G2 V V
                                       = cut_sum capacity G V V)
           (cut_capacity_add_flow V V _) (cut_capacity_assign_flow V V _)
           G s t fuel' O).
  - rewrite cut_capacity_reset_flows. apply cut_capacity_prepare_graph.
  - apply cut_capacity_prepare_graph.
Qed.

(** ** Dinic returns *)

(** *** The levels *)

Lemma unlabelled_source (level : dict Z) (s : node) :
  (unlabelled (assign s 0%Z level)
   < List.length (assign s 0%Z level))%nat.
Proof.
  unfold unlabelled. induction level as [|[k l] level IH]; simpl; [lia|].
  destruct (node_eqb s k); simpl.
  - pose proof (filter_length_le (fun kv : node * Z => snd kv <? 0) level).
    lia.
  - destruct (l <? 0); simpl; lia.
Qed.

Lemma bfs_level_for_levels (G : graph) (s u : node) (nbrs0 : adjacency) :
  wf_graph G -> lookup u G = Some nbrs0 ->
  forall (nbrs : adjacency) (level : dict Z) (q : list node)
         (level' : dict Z) (q' : list node),
    incl nbrs nbrs0 ->
    levels_ok G s level ->
    (exists lu, lookup u level = Some lu /\ 0 <= lu) ->
    (forall x, In x q -> exists l, lookup x level = Some l /\ 0 <= l) ->
    bfs_level_for u nbrs level q = Ok (level', q') ->
    levels_ok G s level' /\
    (forall x, In x q' -> exists l, lookup x level' = Some l /\ 0 <= l).
Proof.
  intros Hwf Hu.
  induction nbrs as [|[v a] nbrs IH]; intros level q level' q' Hin Hok Hlu Hq E.
  - injection E as <- <-. auto.
  - assert (Hin' : incl nbrs nbrs0) by (intros x Hx; apply Hin; right; exact Hx).
    cbn [bfs_level_for] in E.
    destruct (lookup v level) as [lv|] eqn:Elv; [|discriminate].
    cbn [of_option rbind] in E.
    destruct (Z.ltb_spec lv 0) as [Hneg|Hpos]; [|exact (IH _ _ _ _ Hin' Hok Hlu Hq E)].
    destruct (flow a) as [f|] eqn:Ef; [|discriminate].
    cbn [of_option rbind] in E.
    destruct (Z.gtb_spec (capacity a - f) 0) as [Hr|Hr];
      [|exact (IH _ _ _ _ Hin' Hok Hlu Hq E)].
    destruct Hlu as (lu & Elu & Hlu). rewrite Elu in E.
    cbn [of_option rbind] in E.
    assert (Hvu : u <> v) by (intros ->; rewrite Elu in Elv; injection Elv; lia).
    assert (Ha : get_edge G u v = Some a).
    { apply (adjacency_entry G Hwf u v nbrs0 a Hu). apply Hin. left. reflexivity. }
    assert (Hkeep : forall x l, lookup x level = Some l -> 0 <= l ->
                                lookup x (assign v (lu + 1) level) = Some l).
    { intros x l Hx Hl. rewrite lookup_assign.
      destruct (node_eqb_spec x v) as [->|]; [|exact Hx].
      rewrite Hx in Elv. injection Elv. lia. }
    assert (Hunl : S (unlabelled (assign v (lu + 1) level)) = unlabelled level)
      by (apply (unlabelled_assign level v lv); [exact Elv|exact Hneg|lia]).
    assert (Hlen : List.length (assign v (lu + 1) level) = List.length level).
    { rewrite <- (length_map fst (assign v (lu + 1) level)).
      rewrite <- (length_map fst level).
      change (List.length (keys (assign v (lu + 1) level))
              = List.length (keys level)).
      rewrite (keys_assign_present _ _ _ _ Elv). reflexivity. }
    apply (IH _ _ _ _ Hin') in E; [exact E| | |].
    + destruct Hok as (Hpar & Hzero & Hsrc & Hbnd). split; [|split; [|split]].
      * intros x l Hx Hl. rewrite lookup_assign in Hx.
        destruct (node_eqb_spec x v) as [->|Hxv].
        -- injection Hx as <-. exists u, lu, (capacity a - f).
           split; [apply Hkeep; assumption|]. split; [exact Hlu|].
           split; [rewrite lookup_assign, node_eqb_refl; reflexivity|].
           split; [|lia]. unfold residual, capacity_of, flow_of.
           rewrite Ha. simpl. rewrite Ef. reflexivity.
        -- destruct (Hpar x l Hx Hl) as (p & lp & r & Hp & Hlp & Hx' & Hres).
           exists p, lp, r. split; [apply Hkeep; assumption|].
           split; [exact Hlp|]. split; [apply Hkeep; [exact Hx'|lia]|exact Hres].
      * intros x Hx. rewrite lookup_assign in Hx.
        destruct (node_eqb_spec x v) as [Hxv|Hxv]; [|exact (Hzero x Hx)].
        injection Hx. lia.
      * apply Hkeep; [exact Hsrc|lia].
      * intros x l Hx Hl. rewrite Hlen. rewrite lookup_assign in Hx.
        destruct (node_eqb_spec x v) as [Hxv|Hxv].
        -- injection Hx as <-. pose proof (Hbnd u lu Elu Hlu). lia.
        -- pose proof (Hbnd x l Hx Hl). lia.
    + exists lu. split; [apply Hkeep; assumption|exact Hlu].
    + intros x Hx. apply in_app_or in Hx. destruct Hx as [Hx|[<-|[]]].
      * destruct (Hq x Hx) as (l & Hl & Hl0). exists l. split; [|exact Hl0].
        apply Hkeep; assumption.
      * exists (lu + 1). split; [|lia].
        rewrite lookup_assign, node_eqb_refl. reflexivity.
Qed.

Lemma bfs_level_while_levels (G : graph) (s : node) :
  wf_graph G ->
  forall (fuel : nat) (level : dict Z) (q : list node) (level' : dict Z),
    levels_ok G s level ->
    (forall x, In x q -> exists l, lookup x level = Some l /\ 0 <= l) ->
    bfs_level_while fuel G level q = Ok level' ->
    levels_ok G s level'.
Proof.
  intros Hwf.
  induction fuel as [|k IH]; intros level q level' Hok Hq E; [discriminate|].
  cbn [bfs_level_while] in E. destruct q as [|u q].
  { injection E as <-. exact Hok. }
  unfold adj in E. destruct (lookup u G) as [nbrs|] eqn:Eu; [|discriminate].
  cbn [of_option rbind] in E.
  destruct (bfs_level_for u nbrs level q) as [[level1 q1]|e| |] eqn:E1;
    try discriminate.
  cbn [rbind fst snd] in E.
  destruct (bfs_level_for_levels G s u nbrs Hwf Eu nbrs level q level1 q1)
    as [Hok1 Hq1]; auto.
  - apply incl_refl.
  - apply Hq. left. reflexivity.
  - intros x Hx. apply Hq. right. exact Hx.
  - exact (IH _ _ _ Hok1 Hq1 E).
Qed.

Lemma bfs_level_levels (G : graph) (s : node) (n : nat) (level : dict Z) :
  wf_graph G -> bfs_level n s G = Ok level -> levels_ok G s level.
Proof.
  intros Hwf E. unfold bfs_level in E.
  apply (bfs_level_while_levels G s Hwf) in E; [exact E| |].
  - split; [|split; [|split]].
    + intros x l Hx Hl. rewrite lookup_assign, lookup_map_const in Hx.
      destruct (node_eqb x s); [injection Hx; lia|].
      destruct (memb x (nodes G)); [injection Hx; lia|discriminate].
    + intros x Hx. rewrite lookup_assign, lookup_map_const in Hx.
      destruct (node_eqb_spec x s); [assumption|].
      destruct (memb x (nodes G)); discriminate.
    + rewrite lookup_assign, node_eqb_refl. reflexivity.
    + intros x l Hx Hl. rewrite lookup_assign, lookup_map_const in Hx.
      assert (l = 0).
      { destruct (node_eqb x s); [injection Hx; lia|].
        destruct (memb x (nodes G)); [injection Hx; lia|discriminate]. }
      subst l. pose proof (unlabelled_source (map (fun x => (x, -1)) (nodes G)) s).
      lia.
  - intros x [<-|[]]. exists 0. split; [|lia].
    rewrite lookup_assign, node_eqb_refl. reflexivity.
Qed.

(** With the levels of a search, a sink that has a level is within reach
    of the source along admissible edges. *)
Lemma leads_source (G : graph) (s t : node) (level : dict Z) (lt : Z) :
  levels_ok G s level -> lookup t level = Some lt -> 0 <= lt ->
  leads G level t s.
Proof.
  intros (Hpar & Hzero & _) Ht Hlt.
  assert (H : forall (n : nat) (x : node),
             lookup x level = Some (Z.of_nat n) ->
             leads G level t x -> leads G level t s).
  { induction n as [|n IH]; intros x Hx Hl.
    - rewrite (Hzero x Hx) in Hl. exact Hl.
    - destruct (Hpar x _ Hx ltac:(lia)) as (p & lp & r & Hp & Hlp & Hx' & Hres).
      apply (IH p).
      + rewrite Hx in Hx'. injection Hx' as Hx'. rewrite Hp. f_equal. lia.
      + apply leads_step with (v := x); [|exact Hl].
        exists lp, r. auto. }
  apply (H (Z.to_nat lt) t); [|apply leads_sink].
  rewrite Ht. f_equal. lia.
Qed.

(** *** The pointers *)

Lemma it_le_refl (it : dict nat) : it_le it it.
Proof. intros x i H. exists i. split; [exact H|lia]. Qed.

Lemma it_le_trans (it1 it2 it3 : dict nat) :
  it_le it1 it2 -> it_le it2 it3 -> it_le it1 it3.
Proof.
  intros H12 H23 x i H. destruct (H12 x i H) as (i2 & H2 & Hi2).
  destruct (H23 x i2 H2) as (i3 & H3 & Hi3). exists i3. split; [exact H3|lia].
Qed.

Lemma it_le_assign (it : dict nat) (u : node) (iu : nat) :
  lookup u it = Some iu -> it_le it (assign u (S iu) it).
Proof.
  intros Hu x i H. rewrite lookup_assign.
  destruct (node_eqb_spec x u) as [Hxu|Hxu].
  - subst x. rewrite Hu in H. injection H as <-. exists (S iu).
    split; [reflexivity|lia].
  - exists i. split; [exact H|lia].
Qed.

Lemma it_le_defined (it it' : dict nat) (ns : list node) :
  it_le it it' ->
  (forall x, In x ns -> lookup x it <> None) ->
  forall x, In x ns -> lookup x it' <> None.
Proof.
  intros Hle H x Hx. destruct (lookup x it) as [i|] eqn:E;
    [|exfalso; exact (H x Hx E)].
  destruct (Hle x i E) as (i' & E' & _). congruence.
Qed.

Lemma slack_le (g : graph) (it it' : dict nat) :
  it_le it it' -> (slack g it' <= slack g it)%nat.
Proof.
  intros Hle. induction g as [|[x d] g IH]; simpl; [lia|].
  destruct (lookup x it) as [i|] eqn:E.
  - destruct (Hle x i E) as (i' & -> & Hi). lia.
  - destruct (lookup x it'); lia.
Qed.

Lemma slack_assign_absent (g : graph) (it : dict nat) (u : node) (i : nat) :
  ~ In u (keys g) -> slack g (assign u i it) = slack g it.
Proof.
  induction g as [|[x d] g IH]; simpl; intros H; [reflexivity|].
  rewrite lookup_assign. destruct (node_eqb_spec x u) as [Hxu|Hxu].
  - exfalso. apply H. left. exact Hxu.
  - rewrite IH by tauto. reflexivity.
Qed.

Lemma slack_assign (g : graph) (it : dict nat) (u : node)
    (nbrs : adjacency) (iu : nat) :
  NoDup (keys g) -> lookup u g = Some nbrs -> lookup u it = Some iu ->
  (iu < List.length nbrs)%nat ->
  S (slack g (assign u (S iu) it)) = slack g it.
Proof.
  intros Hnd Hu Hit Hlt. induction g as [|[x d] g IH]; [discriminate|].
  simpl in Hnd. apply NoDup_cons_iff in Hnd. destruct Hnd as [Hx Hnd].
  simpl in Hu |- *. rewrite lookup_assign.
  destruct (node_eqb_spec u x) as [Hux|Hux].
  - subst x. injection Hu as ->. rewrite node_eqb_refl, Hit.
    rewrite (slack_assign_absent g it u (S iu) Hx). lia.
  - destruct (node_eqb_spec x u) as [Hxu|_]; [congruence|].
    rewrite <- (IH Hnd Hu). lia.
Qed.

Lemma slack_start (g : graph) (it : dict nat) :
  (forall x i, lookup x it = Some i -> i = O) ->
  slack g it = List.length (edges g).
Proof.
  intros H. unfold edges. induction g as [|[x d] g IH]; simpl; [reflexivity|].
  rewrite length_app, length_map, IH. unfold keys. rewrite length_map.
  destruct (lookup x it) as [i|] eqn:E; [rewrite (H x i E)|]; lia.
Qed.

(** *** Graphs of the same structure *)

Lemma adj_same_structure (G G' : graph) (u : node) (nbrs : adjacency) :
  erase_flows G = erase_flows G' -> lookup u G = Some nbrs ->
  exists nbrs', lookup u G' = Some nbrs' /\ keys nbrs' = keys nbrs.
Proof.
  intros He Hu. pose proof (lookup_erase_flows G u) as E.
  rewrite Hu, He, lookup_erase_flows in E. simpl in E.
  destruct (lookup u G') as [nbrs'|]; [|discriminate].
  simpl in E. injection E as E. exists nbrs'. split; [reflexivity|].
  rewrite <- (keys_map_values (fun a => mkAttrs (capacity a) None) nbrs').
  rewrite E. apply keys_map_values.
Qed.

Lemma nodes_same_structure (G G' : graph) :
  erase_flows G = erase_flows G' -> nodes G = nodes G'.
Proof.
  intros He. rewrite <- (nodes_erase_flows G), He. apply nodes_erase_flows.
Qed.

Lemma has_edge_same_structure (G G' : graph) (u v : node) :
  erase_flows G = erase_flows G' -> has_edge G u v = has_edge G' u v.
Proof.
  intros He. unfold has_edge.
  pose proof (get_edge_erase_flows G u v) as E.
  rewrite He, get_edge_erase_flows in E.
  destruct (get_edge G u v), (get_edge G' u v); simpl in E;
    try reflexivity; discriminate.
Qed.

Lemma cut_capacity_erase_flows (G : graph) (V us : list node) :
  cut_sum capacity (erase_flows G) V us = cut_sum capacity G V us.
Proof.
  induction us as [|x us IH]; simpl; [reflexivity|]. rewrite IH. f_equal.
  unfold adj, erase_flows. rewrite lookup_map_values.
  destruct (lookup x G) as [nbrs|]; simpl; [|reflexivity].
  rewrite out_sum_map_values. reflexivity.
Qed.

Lemma cut_capacity_same_structure (G G' : graph) (V : list node) :
  erase_flows G = erase_flows G' -> cut_capacity G V = cut_capacity G' V.
Proof.
  intros He. unfold cut_capacity.
  rewrite <- (cut_capacity_erase_flows G), He. apply cut_capacity_erase_flows.
Qed.

(** *** How the depth-first search ends *)

(** With fuel for its loop, a call of [dfs] ends in one of two ways.  It
    returns: the graph keeps its structure, the pointers have only moved
    forward, an amount that is not positive means that no flow was changed,
    and a positive amount means that the sink was within the room on the
    stack.  Or it raises [RecursionError] with the graph as it was, and
    then the room on the stack did not cover the levels above [u]. *)
Lemma dfs_outcome (G0 : graph) (t : node) (level : dict Z) :
  wf_graph G0 -> incl (nodes G0) (keys level) ->
  (forall x l, lookup x level = Some l ->
               l < Z.of_nat (List.length (nodes G0))) ->
  forall (fuel depth : nat) (u : node) (lu : Z) (pushed : num)
         (it : dict nat) (G : graph) (out : graph * result (num * dict nat)),
    erase_flows G = erase_flows G0 -> skew_symmetric G ->
    In u (nodes G0) -> (forall x, In x (nodes G0) -> lookup x it <> None) ->
    lookup u level = Some lu ->
    (slack G0 it < fuel)%nat ->
    out = dfs fuel depth t level u pushed it G ->
    (exists G' fl it',
        out = (G', Ok (fl, it')) /\
        erase_flows G' = erase_flows G0 /\ skew_symmetric G' /\
        it_le it it' /\
        (if node_eqb u t then fl = pushed else exists z, fl = Fin z) /\
        (u <> t -> num_pos fl = true -> (slack G0 it' < slack G0 it)%nat) /\
        (num_pos fl = false -> G' = G) /\
        (num_pos fl = true ->
         forall lt, lookup t level = Some lt -> lt <= lu + Z.of_nat depth)) \/
    (out = (G, Raise RecursionError) /\
     lu + Z.of_nat depth < Z.of_nat (List.length (nodes G0))).
Proof.
  intros Hwf0 Hlevel Hbound.
  induction fuel as [|k IH];
    intros depth u lu pushed it G out He Hskew Hu Hit Elu Hfuel Eout; [lia|].
  cbn [dfs] in Eout. destruct (node_eqb_spec u t) as [Hut|Hut].
  { left. exists G, pushed, it. unfold ret in Eout.
    split; [exact Eout|]. split; [exact He|]. split; [exact Hskew|].
    split; [apply it_le_refl|]. split; [reflexivity|].
    split; [intros H; contradiction|]. split; [reflexivity|].
    intros _ lt Hlt. subst u. rewrite Elu in Hlt. injection Hlt as <-. lia. }
  assert (Hnf : node_eqb u t = false)
    by (destruct (node_eqb_spec u t); congruence).
  pose proof (Hbound u lu Elu) as Hlu.
  destruct depth as [|dp].
  { right. split; [exact Eout|]. simpl. lia. }
  destruct (lookup u it) as [iu|] eqn:Eiu; [|exfalso; exact (Hit u Hu Eiu)].
  unfold bind at 1 in Eout. unfold read at 1 in Eout. cbn [of_option] in Eout.
  destruct (lookup u G0) as [nbrs0|] eqn:Eu0;
    [|apply lookup_In_keys in Hu; congruence].
  destruct (adj_same_structure G0 G u nbrs0 (eq_sym He) Eu0) as (nbrs & Eu & Hk).
  unfold bind at 1 in Eout. unfold read at 1 in Eout. unfold adj at 1 in Eout.
  rewrite Eu in Eout. cbn [of_option] in Eout.
  assert (Hlen : List.length nbrs = List.length nbrs0).
  { rewrite <- (length_map fst nbrs), <- (length_map fst nbrs0).
    change (List.length (keys nbrs) = List.length (keys nbrs0)).
    rewrite Hk. reflexivity. }
  destruct (Nat.ltb_spec iu (List.length nbrs)) as [Hlt|Hge].
  2:{ left. exists G, (Fin 0), it. unfold ret in Eout.
      split; [exact Eout|]. split; [exact He|]. split; [exact Hskew|].
      split; [apply it_le_refl|]. split; [eauto|].
      split; [simpl; discriminate|]. split; [reflexivity|].
      simpl. discriminate. }
  assert (Hs1 : S (slack G0 (assign u (S iu) it)) = slack G0 it).
  { apply (slack_assign G0 it u nbrs0 iu); [apply Hwf0|exact Eu0|exact Eiu|lia]. }
  assert (Hle1 : it_le it (assign u (S iu) it)) by (apply it_le_assign; exact Eiu).
  assert (Hrec : forall it0,
             it_le (assign u (S iu) it) it0 ->
             out = dfs k (S dp) t level u pushed it0 G ->
             (exists G' fl it',
                 out = (G', Ok (fl, it')) /\
                 erase_flows G' = erase_flows G0 /\ skew_symmetric G' /\
                 it_le it it' /\
                 (exists z, fl = Fin z) /\
                 (u <> t -> num_pos fl = true ->
                  (slack G0 it' < slack G0 it)%nat) /\
                 (num_pos fl = false -> G' = G) /\
                 (num_pos fl = true ->
                  forall lt, lookup t level = Some lt ->
                             lt <= lu + Z.of_nat (S dp))) \/
             (out = (G, Raise RecursionError) /\
              lu + Z.of_nat (S dp) < Z.of_nat (List.length (nodes G0)))).
  { intros it0 Hle0 E0.
    pose proof (slack_le G0 _ _ Hle0) as Hs0.
    destruct (IH (S dp) u lu pushed it0 G out He Hskew Hu) as
        [(G' & fl & it' & E & He' & Hskew' & Hle' & Hfl & _ & Hsame & Hroom)|Hr];
      [| exact Elu | lia | exact E0 | | right; exact Hr].
    - apply (it_le_defined it it0 (nodes G0)); [|exact Hit].
      exact (it_le_trans _ _ _ Hle1 Hle0).
    - left. exists G', fl, it'. split; [exact E|]. split; [exact He'|].
      split; [exact Hskew'|].
      split; [exact (it_le_trans _ _ _ Hle1 (it_le_trans _ _ _ Hle0 Hle'))|].
      rewrite Hnf in Hfl. split; [exact Hfl|].
      split; [|split; [exact Hsame|exact Hroom]].
      intros _ _. pose proof (slack_le G0 _ _ Hle'). lia. }
  destruct (nth_error (keys nbrs) iu) as [v|] eqn:Ev.
  2:{ apply nth_error_None in Ev. unfold keys in Ev. rewrite length_map in Ev. lia. }
  unfold bind at 1 in Eout. unfold read at 1 in Eout. cbn [of_option] in Eout.
  assert (Hvk : In v (keys nbrs)) by (apply nth_error_In in Ev; exact Ev).
  assert (Hv : In v (nodes G0)).
  { destruct Hwf0 as (_ & _ & Hc). apply (Hc u nbrs0).
    - apply lookup_Some_In. exact Eu0.
    - rewrite <- Hk. exact Hvk. }
  destruct (lookup v level) as [lv|] eqn:Elv.
  2:{ exfalso. apply Hlevel, lookup_In_keys in Hv. congruence. }
  unfold bind at 1 in Eout. unfold read at 1 in Eout. cbn [of_option] in Eout.
  rewrite Elu in Eout.
  unfold bind at 1 in Eout. unfold read at 1 in Eout. cbn [of_option] in Eout.
  destruct (Z.eqb_spec lv (lu + 1)) as [Hlv|Hlv];
    [|exact (Hrec _ (it_le_refl _) Eout)].
  subst lv.
  assert (Hedge : has_edge G u v = true).
  { apply has_edge_true. unfold get_edge. rewrite Eu.
    apply lookup_In_keys in Hvk. destruct (lookup v nbrs) as [a|]; [eauto|congruence]. }
  destruct (residual_returns G u v Hskew Hedge) as (a & f & _ & _ & Er).
  unfold bind at 1 in Eout. unfold read at 1 in Eout. rewrite Er in Eout.
  destruct (capacity a - f >? 0); [|exact (Hrec _ (it_le_refl _) Eout)].
  unfold bind at 1 in Eout.
  destruct (IH dp v (lu + 1) (num_min pushed (Fin (capacity a - f)))
              (assign u (S iu) it) G _ He Hskew Hv
              (it_le_defined it _ (nodes G0) Hle1 Hit) Elv ltac:(lia) eq_refl)
    as [(G2 & fl2 & it2 & E2 & He2 & Hskew2 & Hle2 & Hfl2 & _ & Hsame2 & Hroom2)
       |(E2 & Hd2)].
  2:{ rewrite E2 in Eout. right. split; [exact Eout|].
      rewrite Nat2Z.inj_succ. lia. }
  rewrite E2 in Eout.
  destruct (num_pos fl2) eqn:Hpos.
  2:{ rewrite (Hsame2 eq_refl) in Eout. exact (Hrec _ Hle2 Eout). }
  assert (Hfin : exists d, fl2 = Fin d).
  { destruct (node_eqb v t); [|exact Hfl2].
    rewrite Hfl2. destruct pushed; simpl; eauto. }
  destruct Hfin as [d ->]. cbn [push_flow_num] in Eout.
  destruct (push_flow_returns u v d G2 Hskew2) as [G3 E3].
  { rewrite (has_edge_same_structure G2 G u v); [exact Hedge|congruence]. }
  unfold bind in Eout. rewrite E3 in Eout. unfold ret in Eout.
  left. exists G3, (Fin d), it2. split; [exact Eout|].
  split.
  { pose proof (flow_keeps_push_flow (fun G => erase_flows G = erase_flows G0)
                  (keeps_erased_add_flow _) u v d G2 He2) as H.
    rewrite E3 in H. exact H. }
  split.
  { pose proof (keeps_push_flow u v d G2 Hskew2) as H. rewrite E3 in H. exact H. }
  split; [exact (it_le_trans _ _ _ Hle1 Hle2)|].
  split; [eauto|]. split.
  { intros _ _. pose proof (slack_le G0 _ _ Hle2). lia. }
  split; [intros H; rewrite Hpos in H; discriminate|].
  intros _ lt Elt. pose proof (Hroom2 eq_refl lt Elt).
  rewrite Nat2Z.inj_succ. lia.
Qed.

(** With room for as many nested calls as there are levels above [u], the
    search returns. *)
Lemma dfs_returns (G0 : graph) (t : node) (level : dict Z) :
  wf_graph G0 -> incl (nodes G0) (keys level) ->
  (forall x l, lookup x level = Some l ->
               l < Z.of_nat (List.length (nodes G0))) ->
  forall (fuel depth : nat) (u : node) (lu : Z) (pushed : num)
         (it : dict nat) (G : graph),
    erase_flows G = erase_flows G0 -> skew_symmetric G ->
    In u (nodes G0) -> (forall x, In x (nodes G0) -> lookup x it <> None) ->
    lookup u level = Some lu ->
    Z.of_nat (List.length (nodes G0)) <= lu + Z.of_nat depth ->
    (slack G0 it < fuel)%nat ->
    exists G' fl it',
      dfs fuel depth t level u pushed it G = (G', Ok (fl, it')) /\
      erase_flows G' = erase_flows G0 /\ skew_symmetric G' /\
      it_le it it' /\
      (if node_eqb u t then fl = pushed else exists z, fl = Fin z) /\
      (u <> t -> num_pos fl = true -> (slack G0 it' < slack G0 it)%nat).
Proof.
  intros Hwf0 Hlevel Hbound fuel depth u lu pushed it G He Hskew Hu Hit Elu
         Hdepth Hfuel.
  destruct (dfs_outcome G0 t level Hwf0 Hlevel Hbound fuel depth u lu pushed it
              G _ He Hskew Hu Hit Elu Hfuel eq_refl)
    as [(G' & fl & it' & E & He' & Hskew' & Hle & Hfl & Hdec & _)|[_ Hd]];
    [|lia].
  exists G', fl, it'. repeat split; assumption.
Qed.

(** *** The first search of a phase finds the sink *)

Lemma admissible_test (G : graph) (level : dict Z) (u v : node)
    (lu lv r : Z) :
  admissible G level u v ->
  lookup u level = Some lu -> lookup v level = Some lv ->
  residual G u v = Ok r ->
  (lv =? lu + 1) = true /\ (r >? 0) = true.
Proof.
  intros (lu' & r' & Hu & _ & Hv & Hr & Hpos) Elu Elv Er.
  rewrite Elu in Hu. injection Hu as <-. rewrite Elv in Hv. injection Hv as ->.
  rewrite Er in Hr. injection Hr as <-.
  split; [apply Z.eqb_refl|]. apply Z.gtb_lt. lia.
Qed.

Lemma admissible_position (G : graph) (level : dict Z) (u v : node)
    (nbrs : adjacency) :
  admissible G level u v -> lookup u G = Some nbrs ->
  exists j, (j < List.length nbrs)%nat /\ nth_error (keys nbrs) j = Some v.
Proof.
  intros (lu & r & _ & _ & _ & Hr & _) Hu.
  unfold residual, capacity_of, get_edge in Hr. rewrite Hu in Hr.
  assert (Hin : In v (keys nbrs)).
  { apply lookup_In_keys. destruct (lookup v nbrs); [discriminate|].
    discriminate. }
  destruct (In_nth_error _ _ Hin) as [j Hj]. exists j. split; [|exact Hj].
  assert (H : (j < List.length (keys nbrs))%nat)
    by (apply nth_error_Some; congruence).
  unfold keys in H. rewrite length_map in H. exact H.
Qed.

Lemma dfs_first (t : node) (level : dict Z) :
  forall (fuel depth : nat) (u : node) (lu : Z) (pushed : num) (it : dict nat)
         (G G' : graph) (fl : num) (it' : dict nat),
    num_pos pushed = true ->
    lookup u level = Some lu ->
    dead_past G level t it lu ->
    dfs fuel depth t level u pushed it G = (G', Ok (fl, it')) ->
    num_pos fl = true \/
    (G' = G /\ ~ leads G level t u /\ dead_past G level t it' lu /\
     forall x lx, lookup x level = Some lx -> lx <= lu -> x <> u ->
                  lookup x it' = lookup x it).
Proof.
  induction fuel as [|k IH];
    intros depth u lu pushed it G G' fl it' Hpos Elu Hdead E; [discriminate|].
  cbn [dfs] in E. destruct (node_eqb_spec u t) as [Hut|Hut].
  { injection E as _ <- _. left. exact Hpos. }
  destruct depth as [|dp]; [discriminate|].
  unfold bind at 1 in E. unfold read at 1 in E.
  destruct (lookup u it) as [iu|] eqn:Eiu; [|discriminate].
  cbn [of_option] in E. unfold bind at 1 in E. unfold read at 1 in E.
  unfold adj at 1 in E.
  destruct (lookup u G) as [nbrs|] eqn:Eu; [|discriminate].
  cbn [of_option] in E.
  destruct (Nat.ltb_spec iu (List.length nbrs)) as [Hlt|Hge].
  2:{ injection E as <- _ <-. right. split; [reflexivity|].
      split; [|split; [exact Hdead|reflexivity]].
      intros Hl. inversion Hl as [Heq|u' v Hadm Hlv Heq]; [congruence|].
      subst u'. destruct (admissible_position G level u v nbrs Hadm Eu)
        as (j & Hj & Hnth).
      apply (Hdead u lu nbrs iu j v Elu ltac:(lia) Eu Eiu ltac:(lia) Hnth Hadm).
      exact Hlv. }
  unfold bind at 1 in E. unfold read at 1 in E.
  destruct (nth_error (keys nbrs) iu) as [v|] eqn:Ev; [|discriminate].
  cbn [of_option] in E. unfold bind at 1 in E. unfold read at 1 in E.
  destruct (lookup v level) as [lv|] eqn:Elv; [|discriminate].
  cbn [of_option] in E. unfold bind at 1 in E. unfold read at 1 in E.
  rewrite Elu in E. cbn [of_option] in E.
  assert (Hnext : (admissible G level u v -> ~ leads G level t v) ->
                  dead_past G level t (assign u (S iu) it) lu).
  { intros Hv x lx nbrs' ix j w Hx Hlx Hn Hix Hj Hw Hadm.
    rewrite lookup_assign in Hix. destruct (node_eqb_spec x u) as [Hxu|Hxu].
    - subst x. injection Hix as <-. rewrite Eu in Hn. injection Hn as <-.
      destruct (Nat.eq_dec j iu) as [->|Hne].
      + rewrite Ev in Hw. injection Hw as <-. exact (Hv Hadm).
      + apply (Hdead u lx nbrs iu j w Hx Hlx Eu Eiu ltac:(lia) Hw Hadm).
    - exact (Hdead x lx nbrs' ix j w Hx Hlx Hn Hix Hj Hw Hadm). }
  assert (Hrec : forall it0,
             dead_past G level t it0 lu ->
             (forall x lx, lookup x level = Some lx -> lx <= lu -> x <> u ->
                           lookup x it0 = lookup x it) ->
             dfs k (S dp) t level u pushed it0 G = (G', Ok (fl, it')) ->
             num_pos fl = true \/
             (G' = G /\ ~ leads G level t u /\ dead_past G level t it' lu /\
              forall x lx, lookup x level = Some lx -> lx <= lu -> x <> u ->
                           lookup x it' = lookup x it)).
  { intros it0 Hd0 Hf0 E0.
    destruct (IH (S dp) u lu pushed it0 G G' fl it' Hpos Elu Hd0 E0)
      as [H|(H1 & H2 & H3 & H4)]; [left; exact H|].
    right. split; [exact H1|]. split; [exact H2|]. split; [exact H3|].
    intros x lx Hx Hlx Hxu. rewrite (H4 x lx Hx Hlx Hxu).
    exact (Hf0 x lx Hx Hlx Hxu). }
  assert (Hframe1 : forall x lx, lookup x level = Some lx -> lx <= lu ->
                                 x <> u ->
                                 lookup x (assign u (S iu) it) = lookup x it).
  { intros x lx _ _ Hxu. rewrite lookup_assign.
    destruct (node_eqb_spec x u); [contradiction|reflexivity]. }
  destruct (Z.eqb_spec lv (lu + 1)) as [Hlv|Hlv].
  2:{ apply (Hrec _ ltac:(apply Hnext; intros Hadm _;
                          destruct Hadm as (lu' & r' & Hu' & _ & Hv' & _);
                          rewrite Elu in Hu'; injection Hu' as <-;
                          rewrite Elv in Hv'; injection Hv'; lia)
                   Hframe1 E). }
  subst lv.
  unfold bind at 1 in E. unfold read at 1 in E.
  destruct (residual G u v) as [r|e| |] eqn:Er; try discriminate.
  destruct (Z.gtb_spec r 0) as [Hr|Hr].
  2:{ apply (Hrec _ ltac:(apply Hnext; intros Hadm _;
                          destruct (admissible_test G level u v lu (lu + 1) r
                                      Hadm Elu Elv Er) as [_ H];
                          apply Z.gtb_lt in H; lia)
                   Hframe1 E). }
  unfold bind at 1 in E.
  destruct (dfs k dp t level v (num_min pushed (Fin r)) (assign u (S iu) it) G)
    as [G2 [[fl2 it2]|e| |]] eqn:E2; try discriminate.
  destruct (num_pos fl2) eqn:Hpos2.
  { left. destruct fl2 as [d|]; cbn [push_flow_num] in E; unfold bind in E.
    - destruct (push_flow u v d G2) as [G3 [[]|e| |]]; try discriminate.
      injection E as _ <- _. exact Hpos2.
    - discriminate. }
  destruct (IH dp v (lu + 1) (num_min pushed (Fin r)) (assign u (S iu) it)
              G G2 fl2 it2 (num_pos_min pushed r Hpos ltac:(lia)) Elv)
    as [H|(-> & Hnl & Hd2 & Hf2)]; [| exact E2 |congruence|].
  { intros x lx nbrs' ix j w Hx Hlx Hn Hix Hj Hw Hadm.
    rewrite lookup_assign in Hix. destruct (node_eqb_spec x u) as [Hxu|Hxu].
    - subst x. rewrite Elu in Hx. injection Hx. lia.
    - exact (Hdead x lx nbrs' ix j w Hx ltac:(lia) Hn Hix Hj Hw Hadm). }
  assert (Hf2' : forall x lx, lookup x level = Some lx -> lx <= lu ->
                              lookup x it2 = lookup x (assign u (S iu) it)).
  { intros x lx Hx Hlx. apply (Hf2 x lx Hx ltac:(lia)).
    intros ->. rewrite Elv in Hx. injection Hx. lia. }
  apply (Hrec it2); [| |exact E].
  - intros x lx nbrs' ix j w Hx Hlx Hn Hix Hj Hw Hadm.
    destruct (Z_le_gt_dec lx lu) as [Hlow|Hhigh].
    + rewrite (Hf2' x lx Hx Hlow) in Hix.
      exact (Hnext (fun _ => Hnl) x lx nbrs' ix j w Hx Hlx Hn Hix Hj Hw Hadm).
    + exact (Hd2 x lx nbrs' ix j w Hx ltac:(lia) Hn Hix Hj Hw Hadm).
  - intros x lx Hx Hlx Hxu. rewrite (Hf2' x lx Hx Hlx).
    exact (Hframe1 x lx Hx Hlx Hxu).
Qed.

(** *** The loops of Dinic return *)

Lemma dinic_blocking_returns (G0 : graph) (n limit : nat) (s t : node)
    (level : dict Z) :
  wf_graph G0 -> incl (nodes G0) (keys level) -> In s (nodes G0) -> s <> t ->
  (forall x l, lookup x level = Some l ->
               l < Z.of_nat (List.length (nodes G0))) ->
  lookup s level = Some 0 ->
  (List.length (nodes G0) <= limit)%nat ->
  forall (fuel : nat) (it : dict nat) (acc : Z) (G : graph),
    erase_flows G = erase_flows G0 -> skew_symmetric G ->
    (forall x, In x (nodes G0) -> lookup x it <> None) ->
    (slack G0 it < fuel)%nat -> (slack G0 it < n)%nat ->
    exists G' total,
      dinic_blocking fuel n limit s t level it (Fin acc) G
      = (G', Ok (Fin total)) /\
      acc <= total /\
      (forall G1 fl it1, dfs n limit t level s Inf it G = (G1, Ok (fl, it1)) ->
                         num_pos fl = true -> acc < total).
Proof.
  intros Hwf0 Hlevel Hs Hst Hbound Hsrc Hlimit.
  assert (Hnf : node_eqb s t = false)
    by (destruct (node_eqb_spec s t); congruence).
  induction fuel as [|k IH]; intros it acc G He Hskew Hit Hfuel Hn; [lia|].
  destruct (dfs_returns G0 t level Hwf0 Hlevel Hbound n limit s 0 Inf it G
              He Hskew Hs Hit Hsrc ltac:(lia) Hn)
    as (G1 & fl & it1 & E1 & He1 & Hskew1 & Hle1 & Hfl & Hdec).
  rewrite Hnf in Hfl. destruct Hfl as [z ->].
  cbn [dinic_blocking]. unfold bind at 1. rewrite E1.
  destruct (num_nonpos (Fin z)) eqn:Hnp.
  - exists G1, acc. split; [reflexivity|]. split; [lia|].
    intros G1' fl' it1' E' Hp. injection E' as _ <- _.
    unfold num_pos in Hp. rewrite Hnp in Hp. discriminate.
  - assert (Hp : num_pos (Fin z) = true) by (unfold num_pos; rewrite Hnp; reflexivity).
    pose proof (Hdec Hst Hp) as Hlt.
    destruct (IH it1 (acc + z) G1 He1 Hskew1) as (G' & total & E & Htot & _).
    + exact (it_le_defined it it1 (nodes G0) Hle1 Hit).
    + lia.
    + lia.
    + cbn [num_add]. exists G', total. split; [exact E|].
      simpl in Hnp. apply Z.leb_gt in Hnp. split; [lia|]. intros; lia.
Qed.

Lemma dinic_while_returns (G0 : graph) (n limit : nat) (s t : node) :
  wf_graph G0 -> In s (nodes G0) -> In t (nodes G0) -> s <> t ->
  (1 + List.length (nodes G0) + List.length (edges G0) < n)%nat ->
  (List.length (nodes G0) <= limit)%nat ->
  forall (fuel : nat) (acc : Z) (G : graph),
    erase_flows G = erase_flows G0 -> skew_symmetric G -> within_capacity G ->
    0 <= acc -> cut_flow G [s] = acc ->
    (Z.to_nat (cut_capacity G0 [s] - acc) < fuel)%nat ->
    exists G' total,
      dinic_while fuel n limit s t (Fin acc) G = (G', Ok (Fin total)).
Proof.
  intros Hwf0 Hs Ht Hst Hn Hlimit.
  induction fuel as [|k IH]; intros acc G He Hskew Hcap Hacc Hcut Hfuel; [lia|].
  pose proof (wf_graph_same_structure G G0 He Hwf0) as Hwf.
  pose proof (nodes_same_structure G G0 He) as Hns.
  assert (Hfl : flows_set G).
  { intros u v a Ha. destruct (Hskew u v a Ha) as (b & f & _ & Hf & _).
    congruence. }
  cbn [dinic_while]. unfold bind at 1. unfold read at 1.
  set (level0 := assign s 0 (map (fun x => (x, -1)) (nodes G))).
  assert (Hs0 : lookup s (map (fun x : node => (x, -1)) (nodes G)) = Some (-1)).
  { rewrite lookup_map_const. rewrite <- Hns in Hs. apply memb_In in Hs.
    rewrite Hs. reflexivity. }
  assert (Hk0 : keys level0 = nodes G).
  { unfold level0. rewrite (keys_assign_present _ _ _ _ Hs0).
    unfold keys. rewrite map_map. simpl. apply map_id. }
  destruct (bfs_level_while_spec G Hwf Hfl n level0 [s]) as (level & Eb & Hk).
  { rewrite Hk0. apply incl_refl. }
  { intros x [<-|[]]. split; [rewrite Hns; exact Hs|]. exists 0.
    split; [|lia]. unfold level0. rewrite lookup_assign, node_eqb_refl.
    reflexivity. }
  { pose proof (unlabelled_le_length level0) as H.
    assert (Hl : List.length level0 = List.length (nodes G)).
    { rewrite <- Hk0. unfold keys. rewrite length_map. reflexivity. }
    rewrite Hns in Hl. simpl. lia. }
  assert (Ebfs : bfs_level n s G = Ok level) by exact Eb.
  rewrite Ebfs. rewrite Hk0 in Hk.
  assert (Hlevel : incl (nodes G0) (keys level)).
  { rewrite Hk, Hns. apply incl_refl. }
  pose proof (bfs_level_levels G s n level Hwf Ebfs) as Hok.
  assert (Hsrc : lookup s level = Some 0) by apply Hok.
  assert (Hbound : forall x l, lookup x level = Some l ->
                               l < Z.of_nat (List.length (nodes G0))).
  { intros x l Hx. rewrite <- Hns, <- Hk. unfold keys. rewrite length_map.
    destruct (Z_lt_le_dec l 0) as [Hneg|Hnn]; [lia|].
    destruct Hok as (_ & _ & _ & Hb). pose proof (Hb x l Hx Hnn). lia. }
  destruct (lookup t level) as [lt|] eqn:Elt.
  2:{ exfalso. apply Hlevel, lookup_In_keys in Ht. congruence. }
  unfold bind at 1. unfold read at 1. cbn [of_option].
  destruct (Z.ltb_spec lt 0) as [Hlt|Hlt].
  { exists G, acc. reflexivity. }
  unfold bind at 1. unfold read at 1.
  set (it0 := map (fun x => (x, O)) (nodes G)).
  assert (Hit0 : forall x i, lookup x it0 = Some i -> i = O).
  { intros x i H. unfold it0 in H. rewrite lookup_map_const in H.
    destruct (memb x (nodes G)); [|discriminate]. injection H as <-.
    reflexivity. }
  assert (Hsl : slack G0 it0 = List.length (edges G0))
    by (apply slack_start; exact Hit0).
  destruct (dinic_blocking_returns G0 n limit s t level Hwf0 Hlevel Hs Hst
              Hbound Hsrc Hlimit n it0 acc G He Hskew)
    as (G1 & total1 & E1 & Htot & Hfirst).
  { intros x Hx. unfold it0. rewrite lookup_map_const. rewrite <- Hns in Hx.
    apply memb_In in Hx. rewrite Hx. discriminate. }
  { lia. }
  { lia. }
  assert (Hgrow : acc < total1).
  { destruct (dfs_returns G0 t level Hwf0 Hlevel Hbound n limit s 0 Inf it0 G
                He Hskew Hs)
      as (G2 & fl & it1 & E2 & _).
    { intros x Hx. unfold it0. rewrite lookup_map_const. rewrite <- Hns in Hx.
      apply memb_In in Hx. rewrite Hx. discriminate. }
    { exact Hsrc. }
    { lia. }
    { lia. }
    apply (Hfirst G2 fl it1 E2).
    destruct (dfs_first t level n limit s 0 Inf it0 G G2 fl it1 eq_refl Hsrc)
      as [H|(_ & Hnl & _)]; [| exact E2 | exact H |].
    - intros x lx nbrs ix j v _ _ _ Hix Hj. rewrite (Hit0 x ix Hix) in Hj. lia.
    - exfalso. apply Hnl.
      apply (leads_source G s t level lt); [exact Hok|exact Elt|lia]. }
  unfold bind at 1. fold it0. rewrite E1.
  pose proof (flow_keeps_dinic_blocking
                (fun G => erase_flows G = erase_flows G0)
                (keeps_erased_add_flow _) n limit s t level n it0 (Fin acc) G He)
    as He1.
  pose proof (keeps_dinic_blocking n limit s t level n it0 (Fin acc) G Hskew)
    as Hskew1.
  pose proof (within_capacity_dinic_blocking n limit s t level n it0 (Fin acc)
                G Hcap) as Hcap1.
  rewrite E1 in He1, Hskew1, Hcap1. cbn [fst] in He1, Hskew1, Hcap1.
  destruct (dinic_blocking_cut_flow n limit s t level Hst n it0 acc G G1 _
              Hacc E1) as (total & Htotal & _ & Hc).
  injection Htotal as <-.
  pose proof (Hc [s] ltac:(repeat constructor; intros [])) as Hc1.
  rewrite !inside_one, node_eqb_refl in Hc1.
  assert (Hts : node_eqb t s = false)
    by (destruct (node_eqb_spec t s); congruence).
  rewrite Hts in Hc1.
  pose proof (cut_flow_le_capacity G1 [s]
                (wf_graph_same_structure G1 G0 He1 Hwf0) Hcap1) as Hle.
  rewrite (cut_capacity_same_structure G1 G0 [s] He1) in Hle.
  apply (IH total1 G1 He1 Hskew1 Hcap1); lia.
Qed.

(** *** The size of the prepared graph *)

Lemma length_edges_modify (k : node) (f : adjacency -> adjacency) (c : nat)
    (g : graph) :
  (forall d, List.length (f d) <= List.length d + c)%nat ->
  (List.length (edges (modify k f g)) <= List.length (edges g) + c)%nat.
Proof.
  intros Hf. unfold edges.
  induction g as [|[k' d] g IH]; simpl; [lia|].
  destruct (node_eqb k k'); simpl; rewrite !length_app, !length_map.
  - unfold keys. rewrite !length_map. pose proof (Hf d). lia.
  - lia.
Qed.

Lemma length_modify {V : Type} (k : node) (f : V -> V) (d : dict V) :
  List.length (modify k f d) = List.length d.
Proof.
  induction d as [|[k' v] d IH]; simpl; [reflexivity|].
  destruct (node_eqb k k'); simpl; [reflexivity|]. rewrite IH. reflexivity.
Qed.

Lemma length_assign {V : Type} (k : node) (v : V) (d : dict V) :
  (List.length (assign k v d) <= List.length d + 1)%nat.
Proof.
  induction d as [|[k' v'] d IH]; simpl; [lia|].
  destruct (node_eqb k k'); simpl; lia.
Qed.

Lemma length_edges_add_node (u : node) (G : graph) :
  List.length (edges (add_node u G)) = List.length (edges G).
Proof.
  unfold add_node. destruct (mem u G); [reflexivity|].
  unfold edges. rewrite flat_map_app, length_app. simpl. lia.
Qed.

Lemma length_edges_prepare_step (G : graph) (e : node * node) :
  (List.length (edges (prepare_step G e)) <= List.length (edges G) + 1)%nat.
Proof.
  destruct e as [u v]. unfold prepare_step.
  assert (H1 : forall x y G1,
             (List.length (edges (modify_edge x y setdefault_flow G1))
              <= List.length (edges G1) + 0)%nat).
  { intros x y G1. unfold modify_edge. apply length_edges_modify.
    intros d. rewrite length_modify. lia. }
  pose proof (H1 u v G) as Hm.
  destruct (has_edge (modify_edge u v setdefault_flow G) v u).
  - pose proof (H1 v u (modify_edge u v setdefault_flow G)). lia.
  - unfold add_edge.
    pose proof (length_edges_modify v (assign u (mkAttrs 0 (Some 0))) 1
                  (add_node u (add_node v (modify_edge u v setdefault_flow G)))
                  (fun d => length_assign u _ d)) as H.
    rewrite !length_edges_add_node in H. lia.
Qed.

Lemma length_edges_prepare_graph (G : graph) :
  (List.length (edges (prepare_graph G)) <= 2 * List.length (edges G))%nat.
Proof.
  unfold prepare_graph.
  assert (H : forall es G1,
             (List.length (edges (fold_left prepare_step es G1))
              <= List.length (edges G1) + List.length es)%nat).
  { induction es as [|e es IH]; intros G1; simpl; [lia|].
    pose proof (IH (prepare_step G1 e)).
    pose proof (length_edges_prepare_step G1 e). lia. }
  pose proof (H (edges G) G). lia.
Qed.

(** X20. Over whole numbers and with room on the call stack, Dinic
    returns.  On a graph that came without flow and with no negative
    capacity, all capacities whole numbers, with source and sink two
    different nodes, and with room on the call stack for as many nested
    calls of [dfs] as the graph has nodes, [dinic_apply] returns a finite
    number and raises nothing: every level search returns, no [dfs] nests
    deeper than the levels go, the first search of every phase reaches
    the sink, so every phase but the last adds at least 1 to the flow,
    and the flow cannot exceed the capacity that leaves the source.  The
    fuel covers the nodes, twice the edges and that capacity.  (What
    happens when the stack is too small is X23.) *)
Theorem dinic_returns (G : graph) (s t : node) (fuel limit : nat) :
  wf_graph G -> fresh_flows G -> capacities_nonneg G ->
  In s (nodes G) -> In t (nodes G) -> s <> t ->
  (1 + List.length (nodes G) + 2 * List.length (edges G) < fuel)%nat ->
  cut_capacity G [s] < Z.of_nat fuel ->
  (List.length (nodes G) <= limit)%nat ->
  exists G' total, dinic_apply fuel limit s t G = (G', Ok (Fin total)).
Proof.
  intros Hwf Hfresh Hn Hs Ht Hst Hfuel HC Hlimit.
  assert (Hnd : NoDup (nodes G)) by apply Hwf.
  pose proof (skew_prepare_graph G Hnd Hfresh) as Hskew.
  pose proof (prepare_graph_zero G Hnd Hfresh) as Hz.
  pose proof (wf_graph_prepare_graph Hwf) as Hwf'.
  pose proof (within_capacity_prepare_graph G Hnd Hfresh Hn) as Hcap.
  pose proof (nodes_prepare_graph Hwf) as Hns.
  pose proof (length_edges_prepare_graph G) as Hedges.
  unfold dinic_apply. unfold bind at 1. unfold update at 1.
  apply (dinic_while_returns (prepare_graph G) fuel limit s t Hwf').
  - rewrite Hns. exact Hs.
  - rewrite Hns. exact Ht.
  - exact Hst.
  - rewrite Hns. lia.
  - rewrite Hns. exact Hlimit.
  - reflexivity.
  - exact Hskew.
  - exact Hcap.
  - lia.
  - apply (cut_flow_zero _ [s] Hwf' Hz).
  - unfold cut_capacity. rewrite cut_capacity_prepare_graph.
    fold (cut_capacity G [s]). lia.
Qed.

(** *** Dinic on a stack that is too small *)

Lemma bfs_level_table (G : graph) (s : node) (n : nat) :
  wf_graph G -> flows_set G -> In s (nodes G) ->
  (1 + List.length (nodes G) < n)%nat ->
  exists level,
    bfs_level n s G = Ok level /\ keys level = nodes G /\
    levels_ok G s level /\
    forall x l, lookup x level = Some l ->
                l < Z.of_nat (List.length (nodes G)).
Proof.
  intros Hwf Hfl Hs Hn. unfold bfs_level.
  set (level0 := assign s 0 (map (fun x => (x, -1)) (nodes G))).
  assert (Hs0 : lookup s (map (fun x : node => (x, -1)) (nodes G)) = Some (-1)).
  { rewrite lookup_map_const. apply memb_In in Hs. rewrite Hs. reflexivity. }
  assert (Hk0 : keys level0 = nodes G).
  { unfold level0. rewrite (keys_assign_present _ _ _ _ Hs0).
    unfold keys. rewrite map_map. simpl. apply map_id. }
  destruct (bfs_level_while_spec G Hwf Hfl n level0 [s]) as (level & Eb & Hk).
  { rewrite Hk0. apply incl_refl. }
  { intros x [<-|[]]. split; [exact Hs|]. exists 0.
    split; [|lia]. unfold level0. rewrite lookup_assign, node_eqb_refl.
    reflexivity. }
  { pose proof (unlabelled_le_length level0) as H.
    assert (Hl : List.length level0 = List.length (nodes G)).
    { rewrite <- Hk0. unfold keys. rewrite length_map. reflexivity. }
    simpl. lia. }
  rewrite Hk0 in Hk.
  pose proof (bfs_level_levels G s n level Hwf Eb) as Hok.
  exists level. split; [exact Eb|]. split; [exact Hk|]. split; [exact Hok|].
  intros x l Hx. rewrite <- Hk. unfold keys. rewrite length_map.
  destruct (Z_lt_le_dec l 0) as [Hneg|Hnn]; [lia|].
  destruct Hok as (_ & _ & _ & Hb). pose proof (Hb x l Hx Hnn). lia.
Qed.

(** X23. Dinic on a stack that is too small.  [dfs] climbs one level with
    every nested call, so a sink on a level above the room on the call
    stack is out of its reach: on a graph that came without flow, with
    source and sink different nodes, when the first level search puts the
    sink on a level greater than [limit], the first depth-first search
    raises [RecursionError] and [dinic_apply] ends with it, the graph
    prepared and no flow changed. *)
Theorem dinic_stack_overflow (G : graph) (s t : node) (fuel limit : nat)
    (level : dict Z) (lt : Z) :
  wf_graph G -> fresh_flows G ->
  In s (nodes G) -> In t (nodes G) -> s <> t ->
  (1 + List.length (nodes G) + 2 * List.length (edges G) < fuel)%nat ->
  bfs_level fuel s (prepare_graph G) = Ok level ->
  lookup t level = Some lt ->
  Z.of_nat limit < lt ->
  dinic_apply fuel limit s t G = (prepare_graph G, Raise RecursionError).
Proof.
  intros Hwf Hfresh Hs Ht Hst Hfuel Eb Elt Hroom.
  assert (Hnd : NoDup (nodes G)) by apply Hwf.
  pose proof (skew_prepare_graph G Hnd Hfresh) as Hskew.
  pose proof (wf_graph_prepare_graph Hwf) as Hwf'.
  pose proof (flows_set_prepare_graph G Hnd) as Hfl.
  pose proof (nodes_prepare_graph Hwf) as Hns.
  pose proof (length_edges_prepare_graph G) as Hedges.
  set (G0 := prepare_graph G) in *.
  destruct (bfs_level_table G0 s fuel Hwf' Hfl) as (level' & Eb' & Hk & Hok & Hbound).
  { rewrite Hns. exact Hs. }
  { rewrite Hns. lia. }
  rewrite Eb in Eb'. injection Eb' as <-.
  assert (Hlevel : incl (nodes G0) (keys level))
    by (rewrite Hk; apply incl_refl).
  assert (Hsrc : lookup s level = Some 0) by apply Hok.
  unfold dinic_apply. unfold bind at 1. unfold update at 1. fold G0.
  destruct fuel as [|k]; [lia|].
  cbn [dinic_while]. unfold bind at 1. unfold read at 1. rewrite Eb.
  unfold bind at 1. unfold read at 1. rewrite Elt. cbn [of_option].
  destruct (Z.ltb_spec lt 0) as [Hneg|Hnn]; [lia|].
  unfold bind at 1. unfold read at 1.
  set (it0 := map (fun x => (x, O)) (nodes G0)).
  assert (Hit0 : forall x i, lookup x it0 = Some i -> i = O).
  { intros x i H. unfold it0 in H. rewrite lookup_map_const in H.
    destruct (memb x (nodes G0)); [|discriminate]. injection H as <-.
    reflexivity. }
  assert (Hsl : slack G0 it0 = List.length (edges G0))
    by (apply slack_start; exact Hit0).
  unfold bind at 1. cbn [dinic_blocking]. unfold bind at 1.
  assert (Hs0 : In s (nodes G0)) by (rewrite Hns; exact Hs).
  assert (Hdef : forall x, In x (nodes G0) -> lookup x it0 <> None).
  { intros x Hx. unfold it0. rewrite lookup_map_const.
    apply memb_In in Hx. rewrite Hx. discriminate. }
  destruct (dfs_outcome G0 t level Hwf' Hlevel Hbound (S k) limit s 0 Inf it0
              G0 _ eq_refl Hskew Hs0 Hdef Hsrc ltac:(lia) eq_refl)
    as [(G1 & fl & it1 & E1 & _ & _ & _ & _ & _ & _ & Hdeep)|[E1 _]].
  - exfalso.
    destruct (dfs_first t level (S k) limit s 0 Inf it0 G0 G1 fl it1 eq_refl
                Hsrc)
      as [H|(_ & Hnl & _)]; [| exact E1 | |].
    + intros x lx nbrs ix j v _ _ _ Hix Hj. rewrite (Hit0 x ix Hix) in Hj. lia.
    + pose proof (Hdeep H lt Elt). lia.
    + apply Hnl. apply (leads_source G0 s t level lt); [exact Hok|exact Elt|lia].
  - rewrite E1. reflexivity.
Qed.

(** *** Dinic and Edmonds-Karp agree *)

Lemma dinic_final (G G' : graph) (s t : node) (fuel limit : nat) (max_flow : num) :
  wf_graph G -> fresh_flows G -> capacities_nonneg G -> In s (nodes G) ->
  dinic_apply fuel limit s t G = (G', Ok max_flow) ->
  wf_graph G' /\ flows_set G' /\ within_capacity G' /\ In s (nodes G') /\
  ~ reachable G' s t /\
  exists total,
    max_flow = Fin total /\
    forall V, NoDup V -> cut_flow G' V = total * (inside V s - inside V t).
Proof.
  intros Hwf Hfresh Hn Hs E.
  pose proof E as E1. unfold dinic_apply in E1. unfold bind at 1 in E1.
  unfold update at 1 in E1.
  assert (Hwf0 : wf_graph (prepare_graph G)) by (apply wf_graph_prepare_graph, Hwf).
  assert (HG' : G' = fst (dinic_while fuel fuel limit s t (Fin 0) (prepare_graph G)))
    by (rewrite E1; reflexivity).
  assert (Hno : ~ reachable G' s t)
    by (apply (dinic_while_no_path _ _ _ _ _ _ _ _ _ E1)).
  split.
  { rewrite HG'.
    apply (flow_keeps_dinic_while wf_graph wf_graph_add_flow). exact Hwf0. }
  split.
  { rewrite HG'.
    apply (flow_keeps_dinic_while flows_set flows_set_add_flow).
    apply flows_set_prepare_graph, Hwf. }
  split.
  { rewrite HG'. apply within_capacity_dinic_while.
    apply within_capacity_prepare_graph; [apply Hwf|assumption..]. }
  split.
  { rewrite HG'.
    apply (flow_keeps_dinic_while (fun G1 => In s (nodes G1))).
    - intros u v d G1 H. rewrite nodes_add_flow. exact H.
    - rewrite (nodes_prepare_graph Hwf). exact Hs. }
  split; [exact Hno|].
  assert (Hst : s <> t) by (intros ->; apply Hno; constructor).
  destruct (dinic_while_cut_flow fuel limit s t Hst fuel 0 _ G' max_flow
              ltac:(lia) E1) as (total & -> & _ & Hcut).
  exists total. split; [reflexivity|].
  intros V HV. rewrite (Hcut V HV).
  rewrite (cut_flow_zero (prepare_graph G) V Hwf0
             (prepare_graph_zero G (proj1 Hwf) Hfresh)).
  lia.
Qed.

Lemma inside_member (V : list node) (x : node) : In x V -> inside V x = 1.
Proof. intros H. unfold inside. apply memb_In in H. rewrite H. reflexivity. Qed.

Lemma inside_outsider (V : list node) (x : node) : ~ In x V -> inside V x = 0.
Proof.
  intros H. unfold inside. destruct (memb x V) eqn:E; [|reflexivity].
  apply memb_In in E. contradiction.
Qed.

(** The value of a flow is at most the capacity of any cut that separates
    the source from the sink. *)
Lemma flow_below_cut (G : graph) (s t : node) (total : Z) (V : list node) :
  wf_graph G -> within_capacity G ->
  (forall V, NoDup V -> cut_flow G V = total * (inside V s - inside V t)) ->
  NoDup V -> In s V -> ~ In t V -> total <= cut_capacity G V.
Proof.
  intros Hwf Hcap Hcut HV Hs Ht.
  pose proof (cut_flow_le_capacity G V Hwf Hcap) as H.
  rewrite (Hcut V HV), (inside_member V s Hs), (inside_outsider V t Ht) in H.
  lia.
Qed.

(** X21. Over whole numbers, Dinic and Edmonds-Karp agree.  Run on the
    same graph, one that came without flow and with no negative capacity,
    all capacities whole numbers, with source and sink different, the two
    solvers return the same max-flow whenever both return.  (On floats
    with fractions the two sums are taken in different orders and can
    differ in the last place.) *)
Theorem dinic_agrees_with_edmonds_karp (G G1 G2 : graph) (s t : node)
    (fuel fuel' limit : nat) (steps : list step) (ek_flow dinic_flow : num) :
  wf_graph G -> fresh_flows G -> capacities_nonneg G ->
  In s (nodes G) -> s <> t ->
  edmonds_karp_steps fuel s t G = (G1, Ok (steps, ek_flow)) ->
  dinic_apply fuel' limit s t G = (G2, Ok dinic_flow) ->
  dinic_flow = ek_flow.
Proof.
  intros Hwf Hfresh Hn Hs Hst E1 E2.
  destruct (edmonds_karp_final G G1 s t fuel steps ek_flow Hwf Hn Hs Hst E1)
    as (Hwf1 & Hfl1 & Hcap1 & Hs1 & Hno1 & m & -> & Hcut1).
  destruct (dinic_final G G2 s t fuel' limit dinic_flow Hwf Hfresh Hn Hs E2)
    as (Hwf2 & Hfl2 & Hcap2 & Hs2 & Hno2 & d & -> & Hcut2).
  destruct (saturated_set G1 s t m Hwf1 Hfl1 Hcap1 Hs1 Hno1 Hcut1)
    as (V1 & HV1 & HsV1 & HtV1 & HC1).
  destruct (saturated_set G2 s t d Hwf2 Hfl2 Hcap2 Hs2 Hno2 Hcut2)
    as (V2 & HV2 & HsV2 & HtV2 & HC2).
  assert (Hsame : forall V, cut_capacity G1 V = cut_capacity G2 V).
  { intros V.
    assert (H1 : cut_capacity G1 V = cut_capacity G V).
    { unfold cut_capacity.
      replace G1 with (fst (edmonds_karp_steps fuel s t G))
        by (rewrite E1; reflexivity).
      apply (flow_keeps_solvers (fun G3 => cut_sum capacity G3 V V
                                           = cut_sum capacity G V V)
               (cut_capacity_add_flow V V _) (cut_capacity_assign_flow V V _)
               G s t fuel O).
      - rewrite cut_capacity_reset_flows. apply cut_capacity_prepare_graph.
      - apply cut_capacity_prepare_graph. }
    assert (H2 : cut_capacity G2 V = cut_capacity G V).
    { unfold cut_capacity.
      replace G2 with (fst (dinic_apply fuel' limit s t G))
        by (rewrite E2; reflexivity).
      apply (flow_keeps_solvers (fun G3 => cut_sum capacity G3 V V
                                           = cut_sum capacity G V V)
               (cut_capacity_add_flow V V _) (cut_capacity_assign_flow V V _)
               G s t fuel' limit).
      - rewrite cut_capacity_reset_flows. apply cut_capacity_prepare_graph.
      - apply cut_capacity_prepare_graph. }
    congruence. }
  pose proof (flow_below_cut G1 s t m V2 Hwf1 Hcap1 Hcut1 HV2 HsV2 HtV2) as Hmd.
  pose proof (flow_below_cut G2 s t d V1 Hwf2 Hcap2 Hcut2 HV1 HsV1 HtV1) as Hdm.
  rewrite (Hsame V2) in Hmd. rewrite <- (Hsame V1) in Hdm.
  f_equal. lia.
Qed.

(** ** The path decomposer returns *)

Lemma positive_edges_le (G : graph) :
  (positive_edges G <= List.length (edges G))%nat.
Proof.
  unfold positive_edges, edges. induction G as [|[u d] G IH]; simpl; [lia|].
  rewrite length_app, length_map. unfold keys in *. rewrite length_map.
  assert (H : (flow_edges d <= List.length d)%nat)
    by apply filter_length_le.
  lia.
Qed.

Lemma flow_edges_drain (nbrs : adjacency) (v : node) (a : attrs) (fl : Z) :
  lookup v nbrs = Some a -> flow a = Some fl -> fl > 0 ->
  S (flow_edges (modify v (set_flow 0) nbrs)) = flow_edges nbrs.
Proof.
  intros Ha Hf Hfl. unfold flow_edges.
  induction nbrs as [|[k a'] d IH]; simpl in *; [discriminate|].
  destruct (node_eqb v k); simpl.
  - injection Ha as ->. unfold carries_flow at 2. rewrite Hf.
    destruct (Z.ltb_spec 0 fl); [|lia]. simpl. reflexivity.
  - destruct (carries_flow a'); simpl; rewrite <- (IH Ha); reflexivity.
Qed.

Lemma positive_edges_drain (G : graph) (u v : node) (a : attrs) (fl : Z) :
  get_edge G u v = Some a -> flow a = Some fl -> fl > 0 ->
  S (positive_edges (modify_edge u v (set_flow 0) G)) = positive_edges G.
Proof.
  intros Ha Hf Hfl. unfold get_edge in Ha. unfold modify_edge, positive_edges.
  induction G as [|[k d] G IH]; simpl in *; [discriminate|].
  destruct (node_eqb u k); simpl.
  - rewrite <- (flow_edges_drain d v a fl Ha Hf Hfl). reflexivity.
  - rewrite <- (IH Ha). lia.
Qed.

Lemma drain_returns (G : graph) (u v : node) (fl : Z) :
  flow_of G u v = Ok fl -> fl > 0 ->
  exists G1,
    add_flow u v (- fl) G = (G1, Ok tt) /\
    S (positive_edges G1) = positive_edges G.
Proof.
  intros Efl Hfl. destruct (flow_of_inv G u v fl Efl) as (a & Ha & Hf).
  unfold add_flow, bind, read, update. rewrite Efl.
  exists (modify_edge u v (set_flow (fl + - fl)) G). split; [reflexivity|].
  replace (fl + - fl) with 0 by lia.
  exact (positive_edges_drain G u v a fl Ha Hf Hfl).
Qed.

Lemma flow_of_returns (G0 G : graph) (u v : node) :
  erase_flows G = erase_flows G0 -> flows_set G -> has_edge G0 u v = true ->
  exists fl, flow_of G u v = Ok fl.
Proof.
  intros He Hfl Hedge.
  rewrite <- (has_edge_same_structure G G0 u v He) in Hedge.
  apply has_edge_true in Hedge. destruct Hedge as [a Ha].
  unfold flow_of. rewrite Ha. simpl.
  destruct (flow a) as [f|] eqn:Ef; [exists f; reflexivity|].
  exfalso. exact (Hfl u v a Ha Ef).
Qed.

(** A call of the search ends in one of two ways: it returns, or it
    raises [RecursionError], and then the room on the stack was not more
    than the number of edges with positive flow.  Either way the graph
    keeps its structure and its flow values stay set. *)
Lemma paths_dfs_outcome (G0 : graph) (t : node) :
  wf_graph G0 ->
  forall (limit : nat) (u : node) (path : list node) (f : Z)
         (paths : list flow_path) (G : graph),
    erase_flows G = erase_flows G0 -> flows_set G -> In u (nodes G0) ->
    exists G' r,
      paths_dfs limit t u path f paths G = (G', r) /\
      erase_flows G' = erase_flows G0 /\ flows_set G' /\
      (positive_edges G' <= positive_edges G)%nat /\
      ((exists paths', r = Ok paths') \/
       (r = Raise RecursionError /\ (limit <= positive_edges G)%nat)).
Proof.
  intros Hwf0.
  induction limit as [|k IH]; intros u path f paths G He Hfl Hu;
    cbn [paths_dfs]; destruct (node_eqb u t).
  { exists G, (Ok (paths ++ [(path, f)])). unfold ret. eauto 10. }
  { exists G, (Raise RecursionError). unfold read.
    split; [reflexivity|]. split; [exact He|]. split; [exact Hfl|].
    split; [lia|]. right. split; [reflexivity|lia]. }
  { exists G, (Ok (paths ++ [(path, f)])). unfold ret. eauto 10. }
  destruct (lookup u G0) as [nbrs0|] eqn:Eu0;
    [|apply lookup_In_keys in Hu; congruence].
  destruct (adj_same_structure G0 G u nbrs0 (eq_sym He) Eu0)
    as (nbrs & Eu & Hk).
  unfold bind at 1. unfold read at 1. unfold adj at 1. rewrite Eu.
  cbn [of_option].
  assert (Hvs : forall v, In v (keys nbrs) ->
                          has_edge G0 u v = true /\ In v (nodes G0)).
  { intros v Hv. rewrite Hk in Hv. split.
    - apply has_edge_true. unfold get_edge. rewrite Eu0.
      apply lookup_In_keys in Hv. destruct (lookup v nbrs0); [eauto|congruence].
    - destruct Hwf0 as (_ & _ & Hc). apply (Hc u nbrs0); [|exact Hv].
      apply lookup_Some_In. exact Eu0. }
  revert Hvs. generalize (keys nbrs) as vs. intros vs Hvs.
  cut (forall paths1 G1,
          erase_flows G1 = erase_flows G0 -> flows_set G1 ->
          (positive_edges G1 <= positive_edges G)%nat ->
          exists G' r,
            (fix loop (vs : list node) (paths : list flow_path) {struct vs}
               : M (list flow_path) :=
               match vs with
               | [] => ret paths
               | v :: rest =>
                   fl <- read (fun G => flow_of G u v) ;;
                   if fl >? 0 then
                     add_flow u v (- fl) ;;
                     paths1 <-
                       paths_dfs k t v (path ++ [v]) (Z.min f fl) paths ;;
                     loop rest paths1
                   else loop rest paths
               end) vs paths1 G1 = (G', r) /\
            erase_flows G' = erase_flows G0 /\ flows_set G' /\
            (positive_edges G' <= positive_edges G1)%nat /\
            ((exists paths', r = Ok paths') \/
             (r = Raise RecursionError /\ (S k <= positive_edges G)%nat))).
  { intros H. exact (H paths G He Hfl (Nat.le_refl _)). }
  induction vs as [|v vs IHvs]; intros paths1 G1 He1 Hfl1 Hle1.
  { exists G1, (Ok paths1). unfold ret. eauto 10. }
  destruct (Hvs v (or_introl eq_refl)) as [Hedge Hv].
  assert (Hvs' : forall v, In v vs -> has_edge G0 u v = true /\ In v (nodes G0))
    by (intros x Hx; apply Hvs; right; exact Hx).
  destruct (flow_of_returns G0 G1 u v He1 Hfl1 Hedge) as [fl Efl].
  unfold bind at 1. unfold read at 1. rewrite Efl.
  destruct (Z.gtb_spec fl 0) as [Hpos|Hpos];
    [|exact (IHvs Hvs' paths1 G1 He1 Hfl1 Hle1)].
  destruct (drain_returns G1 u v fl Efl ltac:(lia)) as (G2 & Eadd & Hdrain).
  unfold bind at 1. rewrite Eadd.
  pose proof (keeps_erased_add_flow (erase_flows G0) u v (- fl) G1 He1) as He2.
  pose proof (flows_set_add_flow u v (- fl) G1 Hfl1) as Hfl2.
  rewrite Eadd in He2, Hfl2. cbn [fst] in He2, Hfl2.
  destruct (IH v (path ++ [v]) (Z.min f fl) paths1 G2 He2 Hfl2 Hv)
    as (G3 & r3 & E3 & He3 & Hfl3 & Hle3 & Hr3).
  unfold bind at 1. rewrite E3.
  destruct Hr3 as [[paths3 ->]|[-> Hk3]].
  - destruct (IHvs Hvs' paths3 G3 He3 Hfl3 ltac:(lia))
      as (G' & r & E & H1 & H2 & H3 & H4).
    exists G', r. split; [exact E|]. split; [exact H1|].
    split; [exact H2|]. split; [lia|exact H4].
  - exists G3, (Raise RecursionError). split; [reflexivity|].
    split; [exact He3|]. split; [exact Hfl3|]. split; [lia|].
    right. split; [reflexivity|lia].
Qed.

Lemma paths_for_outcome (G0 : graph) (limit : nat) (s t : node) :
  wf_graph G0 ->
  forall (vs : list node) (paths : list flow_path) (G : graph),
    (forall v, In v vs -> has_edge G0 s v = true /\ In v (nodes G0)) ->
    erase_flows G = erase_flows G0 -> flows_set G ->
    exists G' r,
      paths_for limit s t vs paths G = (G', r) /\
      ((exists paths', r = Ok paths') \/
       (r = Raise RecursionError /\ (limit < positive_edges G)%nat)).
Proof.
  intros Hwf0.
  induction vs as [|v vs IH]; intros paths G Hvs He Hfl.
  { exists G, (Ok paths). split; [reflexivity|]. left. eauto. }
  destruct (Hvs v (or_introl eq_refl)) as [Hedge Hv].
  assert (Hvs' : forall v, In v vs -> has_edge G0 s v = true /\ In v (nodes G0))
    by (intros x Hx; apply Hvs; right; exact Hx).
  destruct (flow_of_returns G0 G s v He Hfl Hedge) as [fl Efl].
  cbn [paths_for]. unfold bind at 1. unfold read at 1. rewrite Efl.
  destruct (Z.gtb_spec fl 0) as [Hpos|Hpos];
    [|exact (IH paths G Hvs' He Hfl)].
  destruct (drain_returns G s v fl Efl ltac:(lia)) as (G2 & Eadd & Hdrain).
  unfold bind at 1. rewrite Eadd.
  pose proof (keeps_erased_add_flow (erase_flows G0) s v (- fl) G He) as He2.
  pose proof (flows_set_add_flow s v (- fl) G Hfl) as Hfl2.
  rewrite Eadd in He2, Hfl2. cbn [fst] in He2, Hfl2.
  destruct (paths_dfs_outcome G0 t Hwf0 limit v [s; v] fl paths G2 He2 Hfl2 Hv)
    as (G3 & r3 & E3 & He3 & Hfl3 & Hle3 & Hr3).
  unfold bind at 1. rewrite E3.
  destruct Hr3 as [[paths3 ->]|[-> Hk3]].
  - destruct (IH paths3 G3 Hvs' He3 Hfl3) as (G' & r & E & Hr).
    exists G', r. split; [exact E|].
    destruct Hr as [Hr|[Hr Hlt]]; [left; exact Hr|right].
    split; [exact Hr|lia].
  - exists G3, (Raise RecursionError). split; [reflexivity|].
    right. split; [reflexivity|lia].
Qed.

(** *** No reported path is longer than the stack allowed *)

Lemma paths_dfs_lengths (t : node) (bound : nat) :
  forall (limit : nat) (u : node) (path : list node) (f : Z)
         (paths : list flow_path) (G G' : graph) (paths' : list flow_path),
    paths_dfs limit t u path f paths G = (G', Ok paths') ->
    (List.length path + limit <= bound)%nat ->
    Forall (fun p => (List.length (fst p) <= bound)%nat) paths ->
    Forall (fun p => (List.length (fst p) <= bound)%nat) paths'.
Proof.
  induction limit as [|k IH]; intros u path f paths G G' paths' E Hlen Hok;
    cbn [paths_dfs] in E; destruct (node_eqb u t).
  - injection E as _ <-. apply Forall_app. split; [exact Hok|].
    constructor; [simpl; lia|constructor].
  - discriminate.
  - injection E as _ <-. apply Forall_app. split; [exact Hok|].
    constructor; [simpl; lia|constructor].
  - unfold bind at 1 in E. unfold read at 1 in E.
    destruct (adj G u) as [nbrs|]; [|discriminate]. cbn [of_option] in E.
    revert E. generalize (keys nbrs) as vs. intros vs. revert paths G Hok.
    induction vs as [|v vs IHvs]; intros paths G Hok E.
    + injection E as _ <-. exact Hok.
    + unfold bind at 1 in E. unfold read at 1 in E.
      destruct (flow_of G u v) as [fl|e| |]; try discriminate.
      destruct (fl >? 0); [|exact (IHvs paths G Hok E)].
      unfold bind at 1 in E.
      destruct (add_flow u v (- fl) G) as [G1 [[]|e| |]]; try discriminate.
      unfold bind at 1 in E.
      destruct (paths_dfs k t v (path ++ [v]) (Z.min f fl) paths G1)
        as [G2 [paths2|e| |]] eqn:E2; try discriminate.
      apply (IHvs paths2 G2); [|exact E].
      apply (IH v (path ++ [v]) (Z.min f fl) paths G1 G2 paths2 E2); [|exact Hok].
      rewrite length_app. simpl. lia.
Qed.

Lemma paths_for_lengths (limit : nat) (s t : node) :
  forall (vs : list node) (paths : list flow_path) (G G' : graph)
         (paths' : list flow_path),
    paths_for limit s t vs paths G = (G', Ok paths') ->
    Forall (fun p => (List.length (fst p) <= limit + 2)%nat) paths ->
    Forall (fun p => (List.length (fst p) <= limit + 2)%nat) paths'.
Proof.
  induction vs as [|v vs IH]; intros paths G G' paths' E Hok.
  - injection E as _ <-. exact Hok.
  - cbn [paths_for] in E. unfold bind at 1 in E. unfold read at 1 in E.
    destruct (flow_of G s v) as [fl|e| |]; try discriminate.
    destruct (fl >? 0); [|exact (IH paths G G' paths' E Hok)].
    unfold bind at 1 in E.
    destruct (add_flow s v (- fl) G) as [G1 [[]|e| |]]; try discriminate.
    unfold bind at 1 in E.
    destruct (paths_dfs limit t v [s; v] fl paths G1)
      as [G2 [paths2|e| |]] eqn:E2; try discriminate.
    apply (IH paths2 G2 G' paths' E).
    apply (paths_dfs_lengths t (limit + 2) limit v [s; v] fl paths G1 G2
             paths2 E2); [simpl; lia|exact Hok].
Qed.

(** *** Preparation adds no edge with positive flow *)

Lemma flow_edges_modify (v : node) (g : attrs -> attrs) (d : adjacency) :
  (forall a, carries_flow (g a) = carries_flow a) ->
  flow_edges (modify v g d) = flow_edges d.
Proof.
  intros Hg. unfold flow_edges.
  induction d as [|[k a] d IH]; simpl; [reflexivity|].
  destruct (node_eqb v k); simpl.
  - rewrite Hg. destruct (carries_flow a); reflexivity.
  - destruct (carries_flow a); simpl; rewrite IH; reflexivity.
Qed.

Lemma flow_edges_assign_new (v : node) (a : attrs) (d : adjacency) :
  lookup v d = None -> carries_flow a = false ->
  flow_edges (assign v a d) = flow_edges d.
Proof.
  intros Hv Ha. unfold flow_edges.
  induction d as [|[k a'] d IH]; simpl in *; [rewrite Ha; reflexivity|].
  destruct (node_eqb v k); [discriminate|]. simpl.
  destruct (carries_flow a'); simpl; rewrite (IH Hv); reflexivity.
Qed.

Lemma positive_edges_modify (k : node) (f : adjacency -> adjacency)
    (G : graph) :
  (forall d, lookup k G = Some d -> flow_edges (f d) = flow_edges d) ->
  positive_edges (modify k f G) = positive_edges G.
Proof.
  unfold positive_edges.
  induction G as [|[k' d] G IH]; simpl; intros Hf; [reflexivity|].
  destruct (node_eqb k k'); simpl.
  - rewrite (Hf d eq_refl). reflexivity.
  - rewrite (IH Hf). reflexivity.
Qed.

Lemma positive_edges_add_node (u : node) (G : graph) :
  positive_edges (add_node u G) = positive_edges G.
Proof.
  unfold add_node. destruct (mem u G); [reflexivity|].
  unfold positive_edges. rewrite fold_right_app. reflexivity.
Qed.

Lemma carries_flow_setdefault (a : attrs) :
  carries_flow (setdefault_flow a) = carries_flow a.
Proof.
  unfold setdefault_flow, carries_flow.
  destruct (flow a) eqn:E; [rewrite E|]; reflexivity.
Qed.

Lemma positive_edges_prepare_step (G : graph) (e : node * node) :
  positive_edges (prepare_step G e) = positive_edges G.
Proof.
  destruct e as [u v]. unfold prepare_step.
  assert (H1 : forall x y G1,
             positive_edges (modify_edge x y setdefault_flow G1)
             = positive_edges G1).
  { intros x y G1. unfold modify_edge. apply positive_edges_modify.
    intros d _. apply flow_edges_modify. apply carries_flow_setdefault. }
  destruct (has_edge (modify_edge u v setdefault_flow G) v u) eqn:Hrev.
  - rewrite !H1. reflexivity.
  - unfold add_edge. rewrite positive_edges_modify.
    + rewrite !positive_edges_add_node. apply H1.
    + intros d Hd. apply flow_edges_assign_new; [|reflexivity].
      destruct (lookup u d) as [a|] eqn:Ea; [|reflexivity].
      exfalso.
      assert (Hx : has_edge (add_node u (add_node v
                               (modify_edge u v setdefault_flow G))) v u
                   = true).
      { apply has_edge_true. exists a. unfold get_edge. rewrite Hd.
        exact Ea. }
      unfold has_edge in Hx, Hrev. rewrite !get_edge_add_node in Hx.
      rewrite Hrev in Hx. discriminate.
Qed.

Lemma positive_edges_prepare_graph (G : graph) :
  positive_edges (prepare_graph G) = positive_edges G.
Proof.
  unfold prepare_graph. generalize (edges G). intros es. revert G.
  induction es as [|e es IH]; intros G; [reflexivity|].
  cbn [fold_left]. rewrite IH. apply positive_edges_prepare_step.
Qed.

(** X22. How the path decomposer ends.  On every well-formed graph with the
    source a node, whatever flow values the edges carry and also when flow
    runs around a cycle, [extract_flow_paths] either returns a list of
    paths or raises [RecursionError], and nothing else; it never runs on
    for ever, whatever the room on the call stack.  The search takes the
    flow off an edge before it follows it, so its nesting depth is at most
    the number of edges with positive flow: it returns whenever the stack
    has room for that many nested calls (twice the number of edges of the
    input is always enough), and [RecursionError] only comes when the room
    is less than that number.  And the stack bounds what can be reported:
    with room for [limit] nested calls no returned path has more than
    [limit + 2] nodes. *)
Theorem extract_flow_paths_ends (G : graph) (s t : node) (limit : nat) :
  wf_graph G -> In s (nodes G) ->
  exists G' r,
    extract_flow_paths limit s t G = (G', r) /\
    ((exists paths, r = Ok paths) \/
     (r = Raise RecursionError /\ (limit < positive_edges G)%nat)) /\
    ((positive_edges G <= limit)%nat -> exists paths, r = Ok paths) /\
    ((2 * List.length (edges G) <= limit)%nat -> exists paths, r = Ok paths) /\
    (forall paths,
        r = Ok paths ->
        Forall (fun p => (List.length (fst p) <= limit + 2)%nat) paths).
Proof.
  intros Hwf Hs.
  pose proof (wf_graph_prepare_graph Hwf) as Hwf'.
  pose proof (nodes_prepare_graph Hwf) as Hns.
  pose proof (flows_set_prepare_graph G (proj1 Hwf)) as Hfl.
  unfold extract_flow_paths. unfold bind at 1. unfold update at 1.
  unfold bind at 1. unfold read at 1. unfold adj.
  destruct (lookup s (prepare_graph G)) as [nbrs|] eqn:El.
  2:{ exfalso. rewrite <- Hns in Hs. apply lookup_In_keys in Hs. congruence. }
  cbn [of_option].
  destruct (paths_for_outcome (prepare_graph G) limit s t Hwf' (keys nbrs) []
              (prepare_graph G)) as (G' & r & E & Hr).
  - intros v Hv. split.
    + apply has_edge_true. unfold get_edge. rewrite El.
      apply lookup_In_keys in Hv. destruct (lookup v nbrs); [eauto|congruence].
    + destruct Hwf' as (_ & _ & Hc). apply (Hc s nbrs); [|exact Hv].
      apply lookup_Some_In. exact El.
  - reflexivity.
  - exact Hfl.
  - rewrite positive_edges_prepare_graph in Hr.
    exists G', r. split; [exact E|]. split; [exact Hr|].
    assert (Hpos : (positive_edges G <= limit)%nat -> exists paths, r = Ok paths).
    { intros Hle. destruct Hr as [Hr|[_ Hlt]]; [exact Hr|lia]. }
    split; [exact Hpos|]. split.
    { intros Hle. apply Hpos. pose proof (positive_edges_le G). lia. }
    intros paths ->.
    apply (paths_for_lengths limit s t (keys nbrs) [] _ G' paths E).
    constructor.
Qed.

(** ** Instances on the example networks *)

Lemma attrs_all_sound (p : attrs -> bool) (G : graph) :
  attrs_all p G = true ->
  forall u v a, get_edge G u v = Some a -> p a = true.
Proof.
  unfold attrs_all. rewrite forallb_forall. intros H u v a Ha.
  unfold get_edge in Ha. destruct (lookup u G) as [d|] eqn:E; [|discriminate].
  apply lookup_Some_In in E, Ha. specialize (H _ E). simpl in H.
  rewrite forallb_forall in H. apply (H _ Ha).
Qed.

Lemma capacities_nonneg_check (G : graph) :
  attrs_all (fun a => 0 <=? capacity a) G = true -> capacities_nonneg G.
Proof.
  intros H u v a Ha. apply Z.leb_le. apply (attrs_all_sound _ G H u v a Ha).
Qed.

Lemma fresh_flows_check (G : graph) :
  attrs_all (fun a => match flow a with
                      | Some f => f =? 0
                      | None => true
                      end) G = true ->
  fresh_flows G.
Proof.
  intros H u v a Ha. pose proof (attrs_all_sound _ G H u v a Ha) as Hp.
  simpl in Hp. destruct (flow a) as [f|]; [|auto].
  apply Z.eqb_eq in Hp. subst f. auto.
Qed.

Local Open Scope string_scope.

Lemma prepare_graph_edge_table_witness :
  NoDup (nodes line_network) /\
  get_edge (prepare_graph line_network) "T" "A" = Some (mkAttrs 0 (Some 0)).
Proof.
  assert (Hnd : NoDup (nodes line_network))
    by (apply nodupb_sound; vm_compute; reflexivity).
  split; [exact Hnd|].
  exact (proj1 (prepare_graph_edge_table line_network "T" "A" Hnd)).
Defined.

Lemma prepare_graph_structure_witness :
  wf_graph merge_network /\
  nodes (prepare_graph merge_network) = nodes merge_network.
Proof.
  assert (Hwf : wf_graph merge_network)
    by (apply wf_graphb_sound; vm_compute; reflexivity).
  split; [exact Hwf|]. exact (proj1 (prepare_graph_structure merge_network Hwf)).
Defined.

Lemma push_relabel_within_capacity_witness :
  wf_graph cross_network /\ fresh_flows cross_network /\
  capacities_nonneg cross_network /\
  capacity_respected (fst (push_relabel_apply 20 "S" "T" cross_network)).
Proof.
  assert (Hwf : wf_graph cross_network)
    by (apply wf_graphb_sound; vm_compute; reflexivity).
  assert (Hfresh : fresh_flows cross_network)
    by (apply fresh_flows_check; vm_compute; reflexivity).
  assert (Hn : capacities_nonneg cross_network)
    by (apply capacities_nonneg_check; vm_compute; reflexivity).
  split; [exact Hwf|]. split; [exact Hfresh|]. split; [exact Hn|].
  exact (push_relabel_within_capacity cross_network "S" "T" 20 Hwf Hfresh Hn).
Defined.

Lemma dinic_within_capacity_witness :
  wf_graph merge_network /\ fresh_flows merge_network /\
  capacities_nonneg merge_network /\
  capacity_respected (fst (dinic_apply 20 20 "S" "T" merge_network)).
Proof.
  assert (Hwf : wf_graph merge_network)
    by (apply wf_graphb_sound; vm_compute; reflexivity).
  assert (Hfresh : fresh_flows merge_network)
    by (apply fresh_flows_check; vm_compute; reflexivity).
  assert (Hn : capacities_nonneg merge_network)
    by (apply capacities_nonneg_check; vm_compute; reflexivity).
  split; [exact Hwf|]. split; [exact Hfresh|]. split; [exact Hn|].
  exact (dinic_within_capacity merge_network "S" "T" 20 20 Hwf Hfresh Hn).
Defined.

Lemma edmonds_karp_within_capacity_witness :
  wf_graph cross_network /\ capacities_nonneg cross_network /\
  capacity_respected (fst (edmonds_karp_steps 20 "S" "T" cross_network)).
Proof.
  assert (Hwf : wf_graph cross_network)
    by (apply wf_graphb_sound; vm_compute; reflexivity).
  assert (Hn : capacities_nonneg cross_network)
    by (apply capacities_nonneg_check; vm_compute; reflexivity).
  split; [exact Hwf|]. split; [exact Hn|].
  exact (edmonds_karp_within_capacity cross_network "S" "T" 20 Hwf Hn).
Defined.

Lemma edmonds_karp_step_list_witness :
  wf_graph cross_network /\
  edmonds_karp_steps 20 "S" "T" cross_network
  = (fst (edmonds_karp_steps 20 "S" "T" cross_network),
     Ok ([([("S", "A"); ("A", "T")], Fin 1, Fin 1);
          ([("S", "B"); ("B", "A"); ("A", "T")], Fin 1, Fin 2)], Fin 2)) /\
  exists total,
    Fin 2 = Fin total /\ 0 <= total /\
    trace_ok "S" "T" 0
      [([("S", "A"); ("A", "T")], Fin 1, Fin 1);
       ([("S", "B"); ("B", "A"); ("A", "T")], Fin 1, Fin 2)] total.
Proof.
  assert (Hwf : wf_graph cross_network)
    by (apply wf_graphb_sound; vm_compute; reflexivity).
  assert (E : edmonds_karp_steps 20 "S" "T" cross_network
              = (fst (edmonds_karp_steps 20 "S" "T" cross_network),
                 Ok ([([("S", "A"); ("A", "T")], Fin 1, Fin 1);
                      ([("S", "B"); ("B", "A"); ("A", "T")], Fin 1, Fin 2)],
                     Fin 2)))
    by (vm_compute; reflexivity).
  split; [exact Hwf|]. split; [exact E|].
  exact (edmonds_karp_step_list cross_network _ "S" "T" 20 _ _ Hwf E).
Defined.

Lemma extract_flow_paths_sound_witness :
  extract_flow_paths 20 "S" "T"
    (fst (edmonds_karp_steps 20 "S" "T" merge_network))
  = (fst (extract_flow_paths 20 "S" "T"
            (fst (edmonds_karp_steps 20 "S" "T" merge_network))),
     Ok [(["S"; "A"; "C"; "T"], 2)]) /\
  total_amount [(["S"; "A"; "C"; "T"], 2)]
  <= positive_inflow
       (prepare_graph (fst (edmonds_karp_steps 20 "S" "T" merge_network))) "T".
Proof.
  assert (E : extract_flow_paths 20 "S" "T"
                (fst (edmonds_karp_steps 20 "S" "T" merge_network))
              = (fst (extract_flow_paths 20 "S" "T"
                        (fst (edmonds_karp_steps 20 "S" "T" merge_network))),
                 Ok [(["S"; "A"; "C"; "T"], 2)]))
    by (vm_compute; reflexivity).
  split; [exact E|].
  exact (proj1 (proj2 (proj2 (extract_flow_paths_sound _ _ "S" "T" 20 _ E)))).
Defined.

Lemma reporting_errors_witness :
  (0 < 5)%nat /\
  min_cut_report (fun l => l) 5 line_network "Z" = Raise KeyError.
Proof.
  assert (H : (0 < 5)%nat) by lia.
  split; [exact H|].
  refine (proj1 (reporting_errors (fun l => l) line_network "Z" "T" 5 H) _).
  vm_compute. intros [E|[E|[E|[]]]]; discriminate.
Defined.

Lemma edmonds_karp_source_is_sink_witness :
  wf_graph merge_network /\ In "C" (nodes merge_network) /\
  (List.length (nodes merge_network) < 20)%nat /\
  edmonds_karp_steps 20 "C" "C" merge_network
  = (reset_flows (prepare_graph merge_network), Ok ([], Fin 0)).
Proof.
  assert (Hwf : wf_graph merge_network)
    by (apply wf_graphb_sound; vm_compute; reflexivity).
  assert (Hs : In "C" (nodes merge_network)) by (vm_compute; tauto).
  assert (Hlen : (List.length (nodes merge_network) < 20)%nat)
    by (vm_compute; lia).
  split; [exact Hwf|]. split; [exact Hs|]. split; [exact Hlen|].
  exact (edmonds_karp_source_is_sink merge_network "C" 20 Hwf Hs Hlen).
Defined.

Lemma edmonds_karp_flow_across_cuts_witness :
  wf_graph cross_network /\
  edmonds_karp_steps 20 "S" "T" cross_network
  = (fst (edmonds_karp_steps 20 "S" "T" cross_network),
     Ok ([([("S", "A"); ("A", "T")], Fin 1, Fin 1);
          ([("S", "B"); ("B", "A"); ("A", "T")], Fin 1, Fin 2)], Fin 2)) /\
  exists total,
    Fin 2 = Fin total /\
    forall V, NoDup V ->
              cut_flow (fst (edmonds_karp_steps 20 "S" "T" cross_network)) V
              = total * (inside V "S" - inside V "T").
Proof.
  assert (Hwf : wf_graph cross_network)
    by (apply wf_graphb_sound; vm_compute; reflexivity).
  assert (E : edmonds_karp_steps 20 "S" "T" cross_network
              = (fst (edmonds_karp_steps 20 "S" "T" cross_network),
                 Ok ([([("S", "A"); ("A", "T")], Fin 1, Fin 1);
                      ([("S", "B"); ("B", "A"); ("A", "T")], Fin 1, Fin 2)],
                     Fin 2)))
    by (vm_compute; reflexivity).
  split; [exact Hwf|]. split; [exact E|].
  exact (edmonds_karp_flow_across_cuts cross_network _ "S" "T" 20 _ _ Hwf E).
Defined.

Lemma edmonds_karp_max_flow_min_cut_witness :
  (forall l : list node, Permutation l l) /\
  wf_graph cross_network /\ capacities_nonneg cross_network /\
  In "S" (nodes cross_network) /\ "S" <> "T" /\
  edmonds_karp_steps 20 "S" "T" cross_network
  = (fst (edmonds_karp_steps 20 "S" "T" cross_network),
     Ok ([([("S", "A"); ("A", "T")], Fin 1, Fin 1);
          ([("S", "B"); ("B", "A"); ("A", "T")], Fin 1, Fin 2)], Fin 2)) /\
  (1 + List.length (nodes (fst (edmonds_karp_steps 20 "S" "T" cross_network)))
   + List.length (edges (fst (edmonds_karp_steps 20 "S" "T" cross_network)))
   < 20)%nat /\
  ~ reachable (fst (edmonds_karp_steps 20 "S" "T" cross_network)) "S" "T".
Proof.
  assert (Hperm : forall l : list node, Permutation l l)
    by (intros l; apply Permutation_refl).
  assert (Hwf : wf_graph cross_network)
    by (apply wf_graphb_sound; vm_compute; reflexivity).
  assert (Hn : capacities_nonneg cross_network)
    by (apply capacities_nonneg_check; vm_compute; reflexivity).
  assert (Hs : In "S" (nodes cross_network)) by (vm_compute; tauto).
  assert (Hst : "S" <> "T") by discriminate.
  assert (E : edmonds_karp_steps 20 "S" "T" cross_network
              = (fst (edmonds_karp_steps 20 "S" "T" cross_network),
                 Ok ([([("S", "A"); ("A", "T")], Fin 1, Fin 1);
                      ([("S", "B"); ("B", "A"); ("A", "T")], Fin 1, Fin 2)],
                     Fin 2)))
    by (vm_compute; reflexivity).
  assert (Hfuel :
    (1 + List.length (nodes (fst (edmonds_karp_steps 20 "S" "T" cross_network)))
     + List.length (edges (fst (edmonds_karp_steps 20 "S" "T" cross_network)))
     < 20)%nat)
    by (apply Nat.ltb_lt; vm_compute; reflexivity).
  split; [exact Hperm|]. split; [exact Hwf|]. split; [exact Hn|].
  split; [exact Hs|]. split; [exact Hst|]. split; [exact E|].
  split; [exact Hfuel|].
  exact (proj1 (edmonds_karp_max_flow_min_cut (fun l => l) cross_network _
                  "S" "T" 20 20 _ _ Hperm Hwf Hn Hs Hst E Hfuel)).
Defined.

Lemma dinic_flow_across_cuts_witness :
  dinic_apply 20 20 "S" "T" merge_network
  = (fst (dinic_apply 20 20 "S" "T" merge_network), Ok (Fin 5)) /\
  exists total,
    Fin 5 = Fin total /\ 0 <= total /\
    forall V, NoDup V ->
              cut_flow (fst (dinic_apply 20 20 "S" "T" merge_network)) V
              = cut_flow (prepare_graph merge_network) V
                + total * (inside V "S" - inside V "T").
Proof.
  assert (E : dinic_apply 20 20 "S" "T" merge_network
              = (fst (dinic_apply 20 20 "S" "T" merge_network), Ok (Fin 5)))
    by (vm_compute; reflexivity).
  split; [exact E|].
  exact (dinic_flow_across_cuts merge_network _ "S" "T" 20 20 _ E).
Defined.

Lemma dinic_max_flow_min_cut_witness :
  (forall l : list node, Permutation l l) /\
  wf_graph merge_network /\ fresh_flows merge_network /\
  capacities_nonneg merge_network /\ In "S" (nodes merge_network) /\
  dinic_apply 20 20 "S" "T" merge_network
  = (fst (dinic_apply 20 20 "S" "T" merge_network), Ok (Fin 5)) /\
  (1 + List.length (nodes (fst (dinic_apply 20 20 "S" "T" merge_network)))
   + List.length (edges (fst (dinic_apply 20 20 "S" "T" merge_network)))
   < 20)%nat /\
  ~ reachable (fst (dinic_apply 20 20 "S" "T" merge_network)) "S" "T".
Proof.
  assert (Hperm : forall l : list node, Permutation l l)
    by (intros l; apply Permutation_refl).
  assert (Hwf : wf_graph merge_network)
    by (apply wf_graphb_sound; vm_compute; reflexivity).
  assert (Hfresh : fresh_flows merge_network)
    by (apply fresh_flows_check; vm_compute; reflexivity).
  assert (Hn : capacities_nonneg merge_network)
    by (apply capacities_nonneg_check; vm_compute; reflexivity).
  assert (Hs : In "S" (nodes merge_network)) by (vm_compute; tauto).
  assert (E : dinic_apply 20 20 "S" "T" merge_network
              = (fst (dinic_apply 20 20 "S" "T" merge_network), Ok (Fin 5)))
    by (vm_compute; reflexivity).
  assert (Hfuel :
    (1 + List.length (nodes (fst (dinic_apply 20 20 "S" "T" merge_network)))
     + List.length (edges (fst (dinic_apply 20 20 "S" "T" merge_network)))
     < 20)%nat)
    by (apply Nat.ltb_lt; vm_compute; reflexivity).
  split; [exact Hperm|]. split; [exact Hwf|]. split; [exact Hfresh|].
  split; [exact Hn|]. split; [exact Hs|]. split; [exact E|].
  split; [exact Hfuel|].
  exact (proj1 (dinic_max_flow_min_cut (fun l => l) merge_network _
                  "S" "T" 20 20 20 _ Hperm Hwf Hfresh Hn Hs E Hfuel)).
Defined.


Lemma push_relabel_returns_witness :
  wf_graph cross_network /\ fresh_flows cross_network /\
  capacities_nonneg cross_network /\
  In "S" (nodes cross_network) /\ In "T" (nodes cross_network) /\
  (List.length (nodes cross_network) < 20)%nat /\
  exists G' total, push_relabel_apply 20 "S" "T" cross_network = (G', Ok total).
Proof.
  assert (Hwf : wf_graph cross_network)
    by (apply wf_graphb_sound; vm_compute; reflexivity).
  assert (Hfresh : fresh_flows cross_network)
    by (apply fresh_flows_check; vm_compute; reflexivity).
  assert (Hn : capacities_nonneg cross_network)
    by (apply capacities_nonneg_check; vm_compute; reflexivity).
  assert (Hs : In "S" (nodes cross_network)) by (vm_compute; tauto).
  assert (Ht : In "T" (nodes cross_network)) by (vm_compute; tauto).
  assert (Hlen : (List.length (nodes cross_network) < 20)%nat)
    by (apply Nat.ltb_lt; vm_compute; reflexivity).
  split; [exact Hwf|]. split; [exact Hfresh|]. split; [exact Hn|].
  split; [exact Hs|]. split; [exact Ht|]. split; [exact Hlen|].
  exact (push_relabel_returns cross_network "S" "T" 20 Hwf Hfresh Hn Hs Ht Hlen).
Defined.

Lemma push_relabel_never_relabels_witness :
  wf_graph line_network /\ fresh_flows line_network /\
  capacities_nonneg line_network /\
  In "S" (nodes line_network) /\ In "T" (nodes line_network) /\
  (List.length (nodes line_network) < 20)%nat /\
  exists G' total tr,
    push_relabel_run 20 "S" "T" line_network = (G', Ok (total, tr)) /\
    forall ev, In ev tr ->
      pe_tail ev <> "S" /\
      pe_height_tail ev = Some 0 /\
      pe_height_head ev
      = Some (if node_eqb (pe_head ev) "S"
              then Z.of_nat (List.length (nodes line_network)) else 0).
Proof.
  assert (Hwf : wf_graph line_network)
    by (apply wf_graphb_sound; vm_compute; reflexivity).
  assert (Hfresh : fresh_flows line_network)
    by (apply fresh_flows_check; vm_compute; reflexivity).
  assert (Hn : capacities_nonneg line_network)
    by (apply capacities_nonneg_check; vm_compute; reflexivity).
  assert (Hs : In "S" (nodes line_network)) by (vm_compute; tauto).
  assert (Ht : In "T" (nodes line_network)) by (vm_compute; tauto).
  assert (Hlen : (List.length (nodes line_network) < 20)%nat)
    by (apply Nat.ltb_lt; vm_compute; reflexivity).
  split; [exact Hwf|]. split; [exact Hfresh|]. split; [exact Hn|].
  split; [exact Hs|]. split; [exact Ht|]. split; [exact Hlen|].
  exact (push_relabel_never_relabels line_network "S" "T" 20
           Hwf Hfresh Hn Hs Ht Hlen).
Defined.

Lemma push_relabel_below_every_cut_witness :
  wf_graph cross_network /\ fresh_flows cross_network /\
  capacities_nonneg cross_network /\
  In "S" (nodes cross_network) /\ In "T" (nodes cross_network) /\
  "S" <> "T" /\ (List.length (nodes cross_network) < 20)%nat /\
  exists G' total,
    push_relabel_apply 20 "S" "T" cross_network = (G', Ok total) /\
    0 <= total /\
    forall V, NoDup V -> In "S" V -> ~ In "T" V ->
              total <= cut_capacity cross_network V.
Proof.
  assert (Hwf : wf_graph cross_network)
    by (apply wf_graphb_sound; vm_compute; reflexivity).
  assert (Hfresh : fresh_flows cross_network)
    by (apply fresh_flows_check; vm_compute; reflexivity).
  assert (Hn : capacities_nonneg cross_network)
    by (apply capacities_nonneg_check; vm_compute; reflexivity).
  assert (Hs : In "S" (nodes cross_network)) by (vm_compute; tauto).
  assert (Ht : In "T" (nodes cross_network)) by (vm_compute; tauto).
  assert (Hst : "S" <> "T") by discriminate.
  assert (Hlen : (List.length (nodes cross_network) < 20)%nat)
    by (apply Nat.ltb_lt; vm_compute; reflexivity).
  split; [exact Hwf|]. split; [exact Hfresh|]. split; [exact Hn|].
  split; [exact Hs|]. split; [exact Ht|]. split; [exact Hst|].
  split; [exact Hlen|].
  exact (push_relabel_below_every_cut cross_network "S" "T" 20
           Hwf Hfresh Hn Hs Ht Hst Hlen).
Defined.

Lemma push_relabel_at_most_edmonds_karp_witness :
  wf_graph cross_network /\ fresh_flows cross_network /\
  capacities_nonneg cross_network /\
  In "S" (nodes cross_network) /\ In "T" (nodes cross_network) /\
  "S" <> "T" /\ (List.length (nodes cross_network) < 20)%nat /\
  edmonds_karp_steps 20 "S" "T" cross_network
  = (fst (edmonds_karp_steps 20 "S" "T" cross_network),
     Ok ([([("S", "A"); ("A", "T")], Fin 1, Fin 1);
          ([("S", "B"); ("B", "A"); ("A", "T")], Fin 1, Fin 2)], Fin 2)) /\
  exists G' total m,
    push_relabel_apply 20 "S" "T" cross_network = (G', Ok total) /\
    Fin 2 = Fin m /\ 0 <= total <= m.
Proof.
  assert (Hwf : wf_graph cross_network)
    by (apply wf_graphb_sound; vm_compute; reflexivity).
  assert (Hfresh : fresh_flows cross_network)
    by (apply fresh_flows_check; vm_compute; reflexivity).
  assert (Hn : capacities_nonneg cross_network)
    by (apply capacities_nonneg_check; vm_compute; reflexivity).
  assert (Hs : In "S" (nodes cross_network)) by (vm_compute; tauto).
  assert (Ht : In "T" (nodes cross_network)) by (vm_compute; tauto).
  assert (Hst : "S" <> "T") by discriminate.
  assert (Hlen : (List.length (nodes cross_network) < 20)%nat)
    by (apply Nat.ltb_lt; vm_compute; reflexivity).
  assert (E : edmonds_karp_steps 20 "S" "T" cross_network
              = (fst (edmonds_karp_steps 20 "S" "T" cross_network),
                 Ok ([([("S", "A"); ("A", "T")], Fin 1, Fin 1);
                      ([("S", "B"); ("B", "A"); ("A", "T")], Fin 1, Fin 2)],
                     Fin 2)))
    by (vm_compute; reflexivity).
  split; [exact Hwf|]. split; [exact Hfresh|]. split; [exact Hn|].
  split; [exact Hs|]. split; [exact Ht|]. split; [exact Hst|].
  split; [exact Hlen|]. split; [exact E|].
  exact (push_relabel_at_most_edmonds_karp cross_network _ "S" "T" 20 20 _ _
           Hwf Hfresh Hn Hs Ht Hst Hlen E).
Defined.

Lemma dinic_returns_witness :
  wf_graph cross_network /\ fresh_flows cross_network /\
  capacities_nonneg cross_network /\
  In "S" (nodes cross_network) /\ In "T" (nodes cross_network) /\
  "S" <> "T" /\
  (1 + List.length (nodes cross_network)
   + 2 * List.length (edges cross_network) < 20)%nat /\
  cut_capacity cross_network ["S"] < Z.of_nat 20 /\
  (List.length (nodes cross_network) <= 20)%nat /\
  exists G' total,
    dinic_apply 20 20 "S" "T" cross_network = (G', Ok (Fin total)).
Proof.
  assert (Hwf : wf_graph cross_network)
    by (apply wf_graphb_sound; vm_compute; reflexivity).
  assert (Hfresh : fresh_flows cross_network)
    by (apply fresh_flows_check; vm_compute; reflexivity).
  assert (Hn : capacities_nonneg cross_network)
    by (apply capacities_nonneg_check; vm_compute; reflexivity).
  assert (Hs : In "S" (nodes cross_network)) by (vm_compute; tauto).
  assert (Ht : In "T" (nodes cross_network)) by (vm_compute; tauto).
  assert (Hst : "S" <> "T") by discriminate.
  assert (Hlen : (1 + List.length (nodes cross_network)
                  + 2 * List.length (edges cross_network) < 20)%nat)
    by (apply Nat.ltb_lt; vm_compute; reflexivity).
  assert (HC : cut_capacity cross_network ["S"] < Z.of_nat 20)
    by (apply Z.ltb_lt; vm_compute; reflexivity).
  split; [exact Hwf|]. split; [exact Hfresh|]. split; [exact Hn|].
  split; [exact Hs|]. split; [exact Ht|]. split; [exact Hst|].
  assert (Hlimit : (List.length (nodes cross_network) <= 20)%nat)
    by (apply Nat.leb_le; vm_compute; reflexivity).
  split; [exact Hlen|]. split; [exact HC|]. split; [exact Hlimit|].
  exact (dinic_returns cross_network "S" "T" 20 20 Hwf Hfresh Hn Hs Ht Hst
           Hlen HC Hlimit).
Defined.

Lemma dinic_agrees_with_edmonds_karp_witness :
  wf_graph cross_network /\ fresh_flows cross_network /\
  capacities_nonneg cross_network /\
  In "S" (nodes cross_network) /\ "S" <> "T" /\
  edmonds_karp_steps 20 "S" "T" cross_network
  = (fst (edmonds_karp_steps 20 "S" "T" cross_network),
     Ok ([([("S", "A"); ("A", "T")], Fin 1, Fin 1);
          ([("S", "B"); ("B", "A"); ("A", "T")], Fin 1, Fin 2)], Fin 2)) /\
  dinic_apply 20 20 "S" "T" cross_network
  = (fst (dinic_apply 20 20 "S" "T" cross_network), Ok (Fin 2)) /\
  Fin 2 = Fin 2.
Proof.
  assert (Hwf : wf_graph cross_network)
    by (apply wf_graphb_sound; vm_compute; reflexivity).
  assert (Hfresh : fresh_flows cross_network)
    by (apply fresh_flows_check; vm_compute; reflexivity).
  assert (Hn : capacities_nonneg cross_network)
    by (apply capacities_nonneg_check; vm_compute; reflexivity).
  assert (Hs : In "S" (nodes cross_network)) by (vm_compute; tauto).
  assert (Hst : "S" <> "T") by discriminate.
  assert (E1 : edmonds_karp_steps 20 "S" "T" cross_network
               = (fst (edmonds_karp_steps 20 "S" "T" cross_network),
                  Ok ([([("S", "A"); ("A", "T")], Fin 1, Fin 1);
                       ([("S", "B"); ("B", "A"); ("A", "T")], Fin 1, Fin 2)],
                      Fin 2)))
    by (vm_compute; reflexivity).
  assert (E2 : dinic_apply 20 20 "S" "T" cross_network
               = (fst (dinic_apply 20 20 "S" "T" cross_network), Ok (Fin 2)))
    by (vm_compute; reflexivity).
  split; [exact Hwf|]. split; [exact Hfresh|]. split; [exact Hn|].
  split; [exact Hs|]. split; [exact Hst|]. split; [exact E1|].
  split; [exact E2|].
  exact (dinic_agrees_with_edmonds_karp cross_network _ _ "S" "T" 20 20 20 _ _ _
           Hwf Hfresh Hn Hs Hst E1 E2).
Defined.

Lemma extract_flow_paths_ends_witness :
  wf_graph (fst (edmonds_karp_steps 20 "S" "T" merge_network)) /\
  In "S" (nodes (fst (edmonds_karp_steps 20 "S" "T" merge_network))) /\
  exists G' r,
    extract_flow_paths 2 "S" "T"
      (fst (edmonds_karp_steps 20 "S" "T" merge_network)) = (G', r) /\
    ((exists paths, r = Ok paths) \/
     (r = Raise RecursionError /\
      (2 < positive_edges
             (fst (edmonds_karp_steps 20 "S" "T" merge_network)))%nat)) /\
    ((positive_edges (fst (edmonds_karp_steps 20 "S" "T" merge_network))
      <= 2)%nat -> exists paths, r = Ok paths) /\
    ((2 * List.length
            (edges (fst (edmonds_karp_steps 20 "S" "T" merge_network)))
      <= 2)%nat -> exists paths, r = Ok paths) /\
    (forall paths,
        r = Ok paths ->
        Forall (fun p => (List.length (fst p) <= 2 + 2)%nat) paths).
Proof.
  assert (Hwf : wf_graph (fst (edmonds_karp_steps 20 "S" "T" merge_network)))
    by (apply wf_graphb_sound; vm_compute; reflexivity).
  assert (Hs : In "S" (nodes (fst (edmonds_karp_steps 20 "S" "T"
                                        merge_network))))
    by (vm_compute; tauto).
  split; [exact Hwf|]. split; [exact Hs|].
  exact (extract_flow_paths_ends _ "S" "T" 2 Hwf Hs).
Defined.

(** The solved merge network carries positive flow on five edges; the
    search of the decomposer nests two calls that get past the sink test
    on it, at A and at C.  With room for two it returns, with room for
    one it raises [RecursionError], the flow already taken off the edges
    S->A and A->C. *)
Lemma extract_flow_paths_on_a_small_stack :
  positive_edges (fst (edmonds_karp_steps 20 "S" "T" merge_network)) = 5%nat /\
  snd (extract_flow_paths 2 "S" "T"
         (fst (edmonds_karp_steps 20 "S" "T" merge_network)))
  = Ok [(["S"; "A"; "C"; "T"], 2)] /\
  snd (extract_flow_paths 1 "S" "T"
         (fst (edmonds_karp_steps 20 "S" "T" merge_network)))
  = Raise RecursionError /\
  flow_of (fst (extract_flow_paths 1 "S" "T"
                  (fst (edmonds_karp_steps 20 "S" "T" merge_network)))) "S" "A"
  = Ok 0 /\
  flow_of (fst (extract_flow_paths 1 "S" "T"
                  (fst (edmonds_karp_steps 20 "S" "T" merge_network)))) "A" "C"
  = Ok 0.
Proof. vm_compute. repeat split. Qed.

Lemma dinic_stack_overflow_witness :
  wf_graph line_network /\ fresh_flows line_network /\
  In "S" (nodes line_network) /\ In "T" (nodes line_network) /\
  "S" <> "T" /\
  (1 + List.length (nodes line_network)
   + 2 * List.length (edges line_network) < 20)%nat /\
  bfs_level 20 "S" (prepare_graph line_network)
  = Ok [("S", 0); ("A", 1); ("T", 2)] /\
  Z.of_nat 1 < 2 /\
  dinic_apply 20 1 "S" "T" line_network
  = (prepare_graph line_network, Raise RecursionError).
Proof.
  assert (Hwf : wf_graph line_network)
    by (apply wf_graphb_sound; vm_compute; reflexivity).
  assert (Hfresh : fresh_flows line_network)
    by (apply fresh_flows_check; vm_compute; reflexivity).
  assert (Hs : In "S" (nodes line_network)) by (vm_compute; tauto).
  assert (Ht : In "T" (nodes line_network)) by (vm_compute; tauto).
  assert (Hst : "S" <> "T") by discriminate.
  assert (Hlen : (1 + List.length (nodes line_network)
                  + 2 * List.length (edges line_network) < 20)%nat)
    by (apply Nat.ltb_lt; vm_compute; reflexivity).
  assert (Eb : bfs_level 20 "S" (prepare_graph line_network)
               = Ok [("S", 0); ("A", 1); ("T", 2)])
    by (vm_compute; reflexivity).
  assert (Hroom : Z.of_nat 1 < 2) by (apply Z.ltb_lt; vm_compute; reflexivity).
  split; [exact Hwf|]. split; [exact Hfresh|]. split; [exact Hs|].
  split; [exact Ht|]. split; [exact Hst|]. split; [exact Hlen|].
  split; [exact Eb|]. split; [exact Hroom|].
  exact (dinic_stack_overflow line_network "S" "T" 20 1
           [("S", 0); ("A", 1); ("T", 2)] 2
           Hwf Hfresh Hs Ht Hst Hlen Eb eq_refl Hroom).
Defined.


Local Close Scope string_scope.
